(** * f-tailwind: parser, directive resolver and selector matching engine

    A shallow embedding of [src/parser/style-tree.ts] and of the resolution
    and matching parts of [src/transform/forward.ts], with the properties of
    the design document proved (or refuted) against it.

    Conventions of the embedding.
    - A JavaScript string is a [string]; character-level code works on its
      list of code units ([list ascii], code units below 256).
    - A JavaScript integer is a [Z]; [indexOf] keeps its [-1].  Offsets into
      the source text of the parser are [nat], and a [-1] result there is
      [None].
    - Template nodes are objects with identity and a [parent] back-reference:
      they live in a heap, a function from references to node records.  The
      [attributes] object of a node is a plain object: a finite map of its
      own keys, together with the names it inherits from [Object.prototype],
      which [in] and a property read see as well.
    - Selector strings are parsed by postcss-selector-parser; the engine is
      modelled from the syntax tree that parser returns.
    - Rule trees are mutated in place by the resolver and reached through the
      export registry: the resolver threads a store holding the registry and
      the rule array, and addresses a rule by its root and path.
    - Recursion that JavaScript bounds only by its call stack takes a [fuel]
      argument and answers [None] when it runs out.  In the matching engine
      [None] is also the answer of a call that throws: no value is returned. *)

From Stdlib Require Import ZArith Lia Bool.
From Stdlib Require Import Strings.Ascii Strings.String.
From stdpp Require Import base option list strings gmap.

Set Warnings "-register-all".

Local Open Scope string_scope.
Local Open Scope list_scope.
Local Open Scope Z_scope.

(** ** JavaScript string primitives *)

Module JsString.

Definition chars (s : string) : list ascii := list_ascii_of_string s.
Definition str (l : list ascii) : string := string_of_list_ascii l.

Definition code (c : ascii) : nat := nat_of_ascii c.

(** [\s] and the characters [trim] strips, among code units below 256. *)
Definition isWhitespace (c : ascii) : bool :=
  let n := code c in
  ((9 <=? n) && (n <=? 13) || (n =? 32) || (n =? 160))%nat.

(** [\d] *)
Definition isDigit (c : ascii) : bool :=
  let n := code c in ((48 <=? n) && (n <=? 57))%nat.

(** [\w] *)
Definition isWordChar (c : ascii) : bool :=
  let n := code c in
  (((48 <=? n) && (n <=? 57)) || ((65 <=? n) && (n <=? 90))
   || ((97 <=? n) && (n <=? 122)) || (n =? 95))%nat.

Definition ceqb (a b : ascii) : bool := Ascii.eqb a b.

Fixpoint dropWhile {A} (p : A -> bool) (l : list A) : list A :=
  match l with
  | [] => []
  | x :: r => if p x then dropWhile p r else l
  end.

Fixpoint takeWhile {A} (p : A -> bool) (l : list A) : list A :=
  match l with
  | [] => []
  | x :: r => if p x then x :: takeWhile p r else []
  end.

Definition trimStartL (l : list ascii) : list ascii := dropWhile isWhitespace l.
Definition trimEndL (l : list ascii) : list ascii :=
  rev (dropWhile isWhitespace (rev l)).
Definition trimL (l : list ascii) : list ascii := trimEndL (trimStartL l).

(** [s.trim()] *)
Definition trim (s : string) : string := str (trimL (chars s)).

Definition lowerChar (c : ascii) : ascii :=
  let n := code c in
  if (((65 <=? n) && (n <=? 90)) || ((192 <=? n) && (n <=? 214))
      || ((216 <=? n) && (n <=? 222)))%nat
  then ascii_of_nat (n + 32) else c.

(** [s.toLowerCase()] on code units below 256. *)
Definition toLowerCase (s : string) : string := str (map lowerChar (chars s)).

(** [s.startsWith(p)] *)
Fixpoint startsWithL (p s : list ascii) : bool :=
  match p, s with
  | [], _ => true
  | _ :: _, [] => false
  | a :: p', b :: s' => ceqb a b && startsWithL p' s'
  end.

Definition startsWith (s p : string) : bool := startsWithL (chars p) (chars s).

(** [s.endsWith(p)] *)
Definition endsWithL (p s : list ascii) : bool := startsWithL (rev p) (rev s).
Definition endsWith (s p : string) : bool := endsWithL (chars p) (chars s).

(** [s.includes(p)] *)
Fixpoint includesL (p s : list ascii) : bool :=
  startsWithL p s || match s with [] => false | _ :: s' => includesL p s' end.

Definition includes (s p : string) : bool := includesL (chars p) (chars s).

(** [s.split(sep)] for a one-character separator: never the empty list. *)
Fixpoint splitCharL (sep : ascii) (l : list ascii) : list (list ascii) :=
  match l with
  | [] => [[]]
  | c :: r =>
      if ceqb c sep then [] :: splitCharL sep r
      else match splitCharL sep r with
           | [] => [[c]]
           | w :: ws => (c :: w) :: ws
           end
  end.

(** [s.split(/\s+/)]: a maximal run of whitespace is one separator; leading
    and trailing runs leave an empty first or last piece. *)
Fixpoint splitWsFrom (inSeparator : bool) (l : list ascii) : list (list ascii) :=
  match l with
  | [] => [[]]
  | c :: r =>
      if isWhitespace c then
        if inSeparator then splitWsFrom true r else [] :: splitWsFrom true r
      else match splitWsFrom false r with
           | [] => [[c]]
           | w :: ws => (c :: w) :: ws
           end
  end.

Definition splitWsL (l : list ascii) : list (list ascii) := splitWsFrom false l.

Definition splitWs (s : string) : list string := map str (splitWsL (chars s)).

(** A text that ends, or starts, with a whitespace character. *)
Definition endsInWhitespace (l : list ascii) : Prop :=
  exists (p : list ascii) (c : ascii), l = p ++ [c] /\ isWhitespace c = true.

Definition startsInWhitespace (l : list ascii) : Prop :=
  exists (c : ascii) (p : list ascii), l = c :: p /\ isWhitespace c = true.

(** [whitespaceToken w s]: the word [w] is one of the pieces of [s] between
    runs of whitespace, said without splitting [s]: [w] holds no whitespace
    and stands in [s] with the start of [s] or a whitespace character before
    it and the end of [s] or a whitespace character after it; the empty
    word is a piece only at the start or at the end of [s]. *)
Definition whitespaceToken (w s : list ascii) : Prop :=
  forallb (fun c => negb (isWhitespace c)) w = true /\
  exists pre post : list ascii,
    s = pre ++ w ++ post /\
    (pre = [] \/ endsInWhitespace pre) /\
    (post = [] \/ startsInWhitespace post) /\
    (w = [] -> pre = [] \/ post = []).

(** The pieces after a separator: whitespace comes before the word, or
    nothing when the text itself follows a separator ([inSeparator]); the
    empty word is a piece only at the end. *)
Definition laterToken (inSeparator : bool) (w s : list ascii) : Prop :=
  forallb (fun c => negb (isWhitespace c)) w = true /\
  exists pre post : list ascii,
    s = pre ++ w ++ post /\
    ((inSeparator = true /\ pre = []) \/ endsInWhitespace pre) /\
    (post = [] \/ startsInWhitespace post) /\
    (w = [] -> post = []).

(** [s.replace(/\s/g, '')] *)
Definition removeWs (l : list ascii) : list ascii :=
  filter (fun c => isWhitespace c = false) l.

Definition digitVal (c : ascii) : Z := Z.of_nat (code c) - 48.

Definition digitsVal (l : list ascii) : Z :=
  fold_left (fun acc c => 10 * acc + digitVal c) l 0.

(** [parseInt(s, 10)]: leading whitespace, an optional sign, then the longest
    run of digits; [None] is [NaN]. *)
Definition parseIntL (l : list ascii) : option Z :=
  let l1 := trimStartL l in
  let '(neg, l2) :=
    match l1 with
    | c :: r => if ceqb c "-" then (true, r)
                else if ceqb c "+" then (false, r) else (false, l1)
    | [] => (false, l1)
    end in
  match takeWhile isDigit l2 with
  | [] => None
  | ds => Some (if neg then - digitsVal ds else digitsVal ds)
  end.

Definition parseInt (s : string) : option Z := parseIntL (chars s).

(** The list does not start with whitespace. *)
Definition headKept (l : list ascii) : Prop :=
  match l with
  | [] => True
  | c :: _ => isWhitespace c = false
  end.

End JsString.

(** ** The An+B evaluator ([matchesAnPlusB], forward.ts) *)

Module AnPlusB.
Import JsString.

(** [/^-?\d+$/.test(s)] *)
Definition isIntegerLiteral (l : list ascii) : bool :=
  let ds := match l with
            | c :: r => if ceqb c "-" then r else l
            | [] => l
            end in
  match ds with
  | [] => false
  | _ :: _ => forallb isDigit ds
  end.

(** [s.match(re)] for the An+B pattern: an optional minus and any digits
    (group 1), the letter n, optional whitespace, then optionally a sign,
    whitespace and at least one digit (group 2), up to the end of the string.
    Returns the two capture groups, the second [None] when it did not take
    part in the match. *)
Definition matchAnB (l : list ascii) : option (list ascii * option (list ascii)) :=
  let '(sign, l1) :=
    match l with
    | c :: r => if ceqb c "-" then ([c], r) else ([], l)
    | [] => ([], l)
    end in
  let ds := takeWhile isDigit l1 in
  match dropWhile isDigit l1 with
  | c :: l2 =>
      if ceqb c "n" then
        match dropWhile isWhitespace l2 with
        | [] => Some (sign ++ ds, None)
        | o :: l3 =>
            if ceqb o "+" || ceqb o "-" then
              match dropWhile isWhitespace l3 with
              | [] => None
              | d :: l4 =>
                  if forallb isDigit (d :: l4) then Some (sign ++ ds, Some (o :: l3))
                  else None
              end
            else None
        end
      else None
  | [] => None
  end.

(** [x === y] where either side may be [NaN]. *)
Definition numEq (x y : option Z) : bool :=
  match x, y with
  | Some a, Some b => a =? b
  | _, _ => false
  end.

(** [x % y === 0]: the remainder takes the sign of the dividend, and is [NaN]
    for a zero divisor. *)
Definition remIsZero (x y : Z) : bool :=
  if y =? 0 then false else Z.rem x y =? 0.

Definition matchesAnPlusB (expr : string) (pos : Z) : bool :=
  let s := toLowerCase (trim expr) in
  if String.eqb s "odd" then Z.rem pos 2 =? 1
  else if String.eqb s "even" then Z.rem pos 2 =? 0
  else if isIntegerLiteral (chars s) then numEq (Some pos) (parseInt s)
  else
    match matchAnB (chars s) with
    | None => true
    | Some (m1, m2) =>
        let a := if String.eqb (str m1) "" || String.eqb (str m1) "+" then Some 1
                 else if String.eqb (str m1) "-" then Some (-1)
                 else parseIntL m1 in
        let b := match m2 with
                 | Some g => parseIntL (removeWs g)
                 | None => Some 0
                 end in
        match a, b with
        | Some a, Some b =>
            if a =? 0 then pos =? b
            else
              let remainder := pos - b in
              if remainder =? 0 then true
              else if a >? 0 then (remainder >? 0) && remIsZero remainder a
              else (remainder <=? 0) && remIsZero remainder a
        | _, _ => false
        end
    end.

(** An argument is outside the supported forms when, trimmed and lowered,
    it is neither keyword and neither pattern accepts it. *)
Definition unsupportedArgument (expr : string) : Prop :=
  let s := toLowerCase (trim expr) in
  s <> "odd" /\ s <> "even" /\
  isIntegerLiteral (chars s) = false /\ matchAnB (chars s) = None.

End AnPlusB.

(** ** Template nodes ([TemplateNode], parser/types) *)

Module Template.

Inductive AttrValue :=
| AttrTrue
| AttrString (s : string).

Record Conditional := { chainId : Z; branchIdx : Z }.

(** A reference to a node object. *)
Definition NodeRef := nat.

Record TemplateNode := {
  tag : string;
  id : option string;
  classes : list string;
  attributes : gmap string AttrValue;
  parent : option NodeRef;
  children : list NodeRef;
  conditional : option Conditional;
  hasDynamicClass : bool
}.

(** The node objects of one template, by reference. *)
Definition Heap := NodeRef -> TemplateNode.

(** The [attributes] object is created as [{}], so next to its own keys it
    has the properties of [Object.prototype]: [name in attributes] holds for
    them too, and [attributes[name]] then reads a function (the prototype
    object itself for [__proto__]), which is neither [true] nor a string. *)
Definition OBJECT_PROTOTYPE_NAMES : list string :=
  ["constructor"; "__defineGetter__"; "__defineSetter__"; "hasOwnProperty";
   "__lookupGetter__"; "__lookupSetter__"; "isPrototypeOf"; "propertyIsEnumerable";
   "toString"; "valueOf"; "__proto__"; "toLocaleString"].

Definition isInherited (name : string) : bool :=
  existsb (String.eqb name) OBJECT_PROTOTYPE_NAMES.

(** What [attributes[name]] reads: the value of an own key, an inherited
    property, or [undefined]. *)
Inductive Read :=
| ReadOwn (v : AttrValue)
| ReadInherited
| ReadUndefined.

Definition readAttribute (attrs : gmap string AttrValue) (name : string) : Read :=
  match attrs !! name with
  | Some v => ReadOwn v
  | None => if isInherited name then ReadInherited else ReadUndefined
  end.

(** [name in attributes] *)
Definition hasAttribute (attrs : gmap string AttrValue) (name : string) : bool :=
  match readAttribute attrs name with
  | ReadUndefined => false
  | _ => true
  end.

End Template.

(** ** Selector syntax trees, as postcss-selector-parser builds them *)

Module Selector.

(** One constructor per node [type].  A [selector] container keeps the text
    its [toString()] gives; a [pseudo] always has a [nodes] array, empty
    when it was written without parentheses. *)
Inductive Node :=
| NSelector (source : string) (nodes : list Node)
| NUniversal
| NTag (value : string)
| NClass (value : string)
| NId (value : string)
| NAttribute (attribute : string) (operator : option string) (value : option string)
| NPseudo (value : string) (nodes : list Node)
| NCombinator (value : string)
| NNesting
| NComment (value : string)
| NString (value : string).

Record CombinatorSegment := { combinator : string; parts : list Node }.

End Selector.

(** ** Option-valued loops *)

Module Loop.

(** [l.filter(p)] for a predicate that may run out of fuel. *)
Fixpoint filterM {A} (p : A -> option bool) (l : list A) : option (list A) :=
  match l with
  | [] => Some []
  | x :: r =>
      b ← p x; r' ← filterM p r; Some (if b : bool then x :: r' else r')
  end.

(** A [for] loop that stops with [true] at the first element satisfying [p]. *)
Fixpoint anyM {A} (p : A -> option bool) (l : list A) : option bool :=
  match l with
  | [] => Some false
  | x :: r => b ← p x; if b : bool then Some true else anyM p r
  end.

(** A [for] loop collecting [next.push(...f(el))] over [l]. *)
Fixpoint flatMapM {A B} (f : A -> option (list B)) (l : list A) : option (list B) :=
  match l with
  | [] => Some []
  | x :: r => ys ← f x; zs ← flatMapM f r; Some (ys ++ zs)
  end.

End Loop.

(** ** The selector matching engine (forward.ts) *)

Module Engine.
Import JsString Template Selector Loop.

Definition seqb (a b : string) : bool := String.eqb a b.

(** [arr.includes(x)] on strings *)
Definition includesStr (l : list string) (x : string) : bool := existsb (seqb x) l.

(** [arr.indexOf(x)] on references: identity comparison, [-1] when absent. *)
Fixpoint indexOfFrom (i : Z) (l : list NodeRef) (x : NodeRef) : Z :=
  match l with
  | [] => -1
  | y :: r => if Nat.eqb y x then i else indexOfFrom (i + 1) r x
  end.

Definition indexOf (l : list NodeRef) (x : NodeRef) : Z := indexOfFrom 0 l x.

(** [arr[i]], [None] for [undefined]. *)
Definition at_ {A} (l : list A) (i : Z) : option A :=
  if i <? 0 then None else l !! Z.to_nat i.

(** [arr.slice(i)] for [i >= 0] *)
Definition sliceFrom {A} (l : list A) (i : Z) : list A := drop (Z.to_nat i) l.

Definition len {A} (l : list A) : Z := Z.of_nat (length l).

(** [seen.has(x)]; [seen] is kept as the list of the references added. *)
Definition hasRef (seen : list NodeRef) (x : NodeRef) : bool := existsb (Nat.eqb x) seen.

Definition RUNTIME_PSEUDOS : list string :=
  [":hover"; ":focus"; ":active"; ":visited"; ":link"; ":focus-within";
   ":focus-visible"; ":checked"; ":disabled"; ":enabled"; ":required";
   ":optional"; ":valid"; ":invalid"; ":in-range"; ":out-of-range";
   ":placeholder-shown"; ":autofill"; ":read-only"; ":read-write"; ":target";
   ":scope"; ":defined"; ":fullscreen"; ":modal"; ":picture-in-picture";
   ":any-link"; ":local-link"; ":default"; ":indeterminate"].

(** The loop of [splitIntoCombinatorSegments]. *)
Fixpoint splitSegmentsLoop (nodes : list Node) (segments : list CombinatorSegment)
    (currentCombinator : string) (currentParts : list Node) : list CombinatorSegment :=
  match nodes with
  | [] =>
      match currentParts with
      | [] => segments
      | _ :: _ => segments ++ [{| combinator := currentCombinator; parts := currentParts |}]
      end
  | node :: rest =>
      match node with
      | NCombinator value =>
          match currentParts with
          | [] => splitSegmentsLoop rest segments (trim value) []
          | _ :: _ =>
              splitSegmentsLoop rest
                (segments ++ [{| combinator := currentCombinator; parts := currentParts |}])
                (trim value) []
          end
      | NNesting => splitSegmentsLoop rest segments currentCombinator currentParts
      | _ => splitSegmentsLoop rest segments currentCombinator (currentParts ++ [node])
      end
  end.

Definition splitIntoCombinatorSegments (nodes : list Node) : list CombinatorSegment :=
  splitSegmentsLoop nodes [] " " [].

(** [extractPseudoArg]: [None] is [null]. *)
Definition extractPseudoArg (nodes : list Node) : option string :=
  match nodes with
  | NSelector source _ :: _ => Some (trim source)
  | _ => None
  end.

Section Matching.

Variable heap : Heap.

Definition isConditionalAlternative (a b : NodeRef) : bool :=
  match conditional (heap a), conditional (heap b) with
  | Some ca, Some cb => (chainId ca =? chainId cb) && negb (branchIdx ca =? branchIdx cb)
  | _, _ => false
  end.

Definition getRuntimeSiblings (el : NodeRef) : list NodeRef :=
  match parent (heap el) with
  | None => [el]
  | Some p =>
      List.filter
        (fun sib =>
           match conditional (heap el), conditional (heap sib) with
           | Some ce, Some cs =>
               negb (chainId ce =? chainId cs) || (branchIdx ce =? branchIdx cs)
           | _, _ => true
           end)
        (children (heap p))
  end.

Definition sameTag (el s : NodeRef) : bool := seqb (tag (heap s)) (tag (heap el)).

Definition matchStructuralPseudo (el : NodeRef) (value : string) (nodes : list Node) : bool :=
  if includesStr RUNTIME_PSEUDOS value then true
  else
    let siblings := getRuntimeSiblings el in
    let index := indexOf siblings el in
    if seqb value ":first-child" then index =? 0
    else if seqb value ":last-child" then index =? len siblings - 1
    else if seqb value ":only-child" then len siblings =? 1
    else if seqb value ":first-of-type" then
      match List.find (sameTag el) siblings with
      | Some firstOfType => Nat.eqb firstOfType el
      | None => false
      end
    else if seqb value ":last-of-type" then
      match List.find (sameTag el) (rev siblings) with
      | Some lastOfType => Nat.eqb lastOfType el
      | None => false
      end
    else if seqb value ":only-of-type" then len (List.filter (sameTag el) siblings) =? 1
    else if seqb value ":root" then
      match parent (heap el) with None => true | Some _ => false end
    else if seqb value ":empty" then len (children (heap el)) =? 0
    else if seqb value ":nth-child" || seqb value ":nth-last-child"
            || seqb value ":nth-of-type" || seqb value ":nth-last-of-type" then
      match extractPseudoArg nodes with
      | None => true
      | Some arg =>
          if seqb arg "" then true
          else
            let pool :=
              if seqb value ":nth-of-type" || seqb value ":nth-last-of-type"
              then List.filter (sameTag el) siblings
              else siblings in
            let pos :=
              if seqb value ":nth-last-child" || seqb value ":nth-last-of-type"
              then len pool - indexOf pool el
              else indexOf pool el + 1 in
            AnPlusB.matchesAnPlusB arg pos
      end
    else true.

(** What the [attribute] case of [matchesCompound] does: [break],
    [return false], or a [TypeError], thrown when a string method is called
    on an inherited property. *)
Inductive AttributeCase :=
| Break
| ReturnFalse
| ThrowsTypeError.

Definition breakIf (b : bool) : AttributeCase := if b then Break else ReturnFalse.

(** The [attribute] case of [matchesCompound].  An operator is applied only
    when it is a non-empty string and the selector carries a value.  On an
    inherited property [elVal === true] fails and [elVal !== attrVal] holds,
    and [elVal.startsWith], [elVal.endsWith], [elVal.includes] and
    [elVal.split] are [undefined]. *)
Definition matchesAttribute (el : NodeRef) (attrName : string)
    (attrOp attrVal : option string) : AttributeCase :=
  if negb (hasAttribute (attributes (heap el)) attrName) then ReturnFalse
  else
    match attrOp, attrVal with
    | Some op, Some attrVal =>
        if seqb op "" then Break
        else
          match readAttribute (attributes (heap el)) attrName with
          | ReadOwn AttrTrue => ReturnFalse
          | ReadOwn (AttrString elVal) =>
              if seqb op "=" then breakIf (seqb elVal attrVal)
              else if seqb op "^=" then breakIf (startsWith elVal attrVal)
              else if seqb op "$=" then breakIf (endsWith elVal attrVal)
              else if seqb op "*=" then breakIf (includes elVal attrVal)
              else if seqb op "~=" then breakIf (includesStr (splitWs elVal) attrVal)
              else if seqb op "|=" then
                breakIf (seqb elVal attrVal || startsWith elVal (attrVal +:+ "-"))
              else Break
          | ReadInherited | ReadUndefined =>
              if seqb op "=" then ReturnFalse
              else if seqb op "^=" || seqb op "$=" || seqb op "*=" || seqb op "~="
                      || seqb op "|=" then ThrowsTypeError
              else Break
          end
    | _, _ => Break
    end.

(** *** Functions below [matchesCompound] in the call graph

    They are written against the compound matcher they call, [mc]; the knot is
    tied in [matchesCompound]. *)

Section Under.

Variable mc : NodeRef -> list Node -> option bool.

Fixpoint findDescendantsMatching (fuel : nat) (nodes : list NodeRef) (parts : list Node)
    {struct fuel} : option (list NodeRef) :=
  match nodes with
  | [] => Some []
  | _ :: _ =>
      match fuel with
      | O => None
      | S f =>
          flatMapM
            (fun node =>
               b ← mc node parts;
               below ← findDescendantsMatching f (children (heap node)) parts;
               Some ((if b : bool then [node] else []) ++ below))
            nodes
      end
  end.

(** [matchAdjacentSibling]: with no anchors nothing is pushed. *)
Definition matchAdjacentSibling (siblings anchors : list NodeRef) (parts : list Node)
    : option (list NodeRef) :=
  flatMapM
    (fun anchor =>
       let idx := indexOf siblings anchor in
       if (0 <=? idx) && (idx + 1 <? len siblings) then
         match at_ siblings (idx + 1) with
         | Some next => b ← mc next parts; Some (if b : bool then [next] else [])
         | None => Some []
         end
       else Some [])
    anchors.

(** The inner loop of [matchGeneralSibling] for one anchor. *)
Fixpoint generalSiblingScan (cands : list NodeRef) (parts : list Node)
    (acc : list NodeRef * list NodeRef) : option (list NodeRef * list NodeRef) :=
  match cands with
  | [] => Some acc
  | s :: r =>
      b ← mc s parts;
      if (b : bool) && negb (hasRef (snd acc) s)
      then generalSiblingScan r parts (fst acc ++ [s], snd acc ++ [s])
      else generalSiblingScan r parts acc
  end.

Fixpoint matchGeneralSiblingLoop (siblings anchors : list NodeRef) (parts : list Node)
    (acc : list NodeRef * list NodeRef) : option (list NodeRef * list NodeRef) :=
  match anchors with
  | [] => Some acc
  | anchor :: rest =>
      let idx := indexOf siblings anchor in
      if 0 <=? idx then
        acc' ← generalSiblingScan (sliceFrom siblings (idx + 1)) parts acc;
        matchGeneralSiblingLoop siblings rest parts acc'
      else matchGeneralSiblingLoop siblings rest parts acc
  end.

Definition matchGeneralSibling (siblings anchors : list NodeRef) (parts : list Node)
    : option (list NodeRef) :=
  fst <$> matchGeneralSiblingLoop siblings anchors parts ([], []).

(** The raw sibling array of an anchor: its parent's children, or [[]]. *)
Definition rawSiblings (anchor : NodeRef) : list NodeRef :=
  match parent (heap anchor) with
  | Some p => children (heap p)
  | None => []
  end.

(** The inner loop of [matchAdjacentSiblingViaParent]: skip the conditional
    alternatives of the anchor, test the first other sibling, then [break]. *)
Fixpoint adjacentScan (anchor : NodeRef) (cands : list NodeRef) (parts : list Node)
    (acc : list NodeRef * list NodeRef) : option (list NodeRef * list NodeRef) :=
  match cands with
  | [] => Some acc
  | s :: r =>
      if isConditionalAlternative anchor s then adjacentScan anchor r parts acc
      else
        b ← mc s parts;
        Some (if (b : bool) && negb (hasRef (snd acc) s)
              then (fst acc ++ [s], snd acc ++ [s]) else acc)
  end.

Fixpoint matchAdjacentSiblingViaParentLoop (anchors : list NodeRef) (parts : list Node)
    (acc : list NodeRef * list NodeRef) : option (list NodeRef * list NodeRef) :=
  match anchors with
  | [] => Some acc
  | anchor :: rest =>
      let siblings := rawSiblings anchor in
      let idx := indexOf siblings anchor in
      if idx <? 0 then matchAdjacentSiblingViaParentLoop rest parts acc
      else
        acc' ← adjacentScan anchor (sliceFrom siblings (idx + 1)) parts acc;
        matchAdjacentSiblingViaParentLoop rest parts acc'
  end.

Definition matchAdjacentSiblingViaParent (anchors : list NodeRef) (parts : list Node)
    : option (list NodeRef) :=
  fst <$> matchAdjacentSiblingViaParentLoop anchors parts ([], []).

(** The inner loop of [matchGeneralSiblingViaParent]. *)
Fixpoint generalScanViaParent (anchor : NodeRef) (cands : list NodeRef) (parts : list Node)
    (acc : list NodeRef * list NodeRef) : option (list NodeRef * list NodeRef) :=
  match cands with
  | [] => Some acc
  | s :: r =>
      if isConditionalAlternative anchor s then generalScanViaParent anchor r parts acc
      else
        b ← mc s parts;
        if (b : bool) && negb (hasRef (snd acc) s)
        then generalScanViaParent anchor r parts (fst acc ++ [s], snd acc ++ [s])
        else generalScanViaParent anchor r parts acc
  end.

Fixpoint matchGeneralSiblingViaParentLoop (anchors : list NodeRef) (parts : list Node)
    (acc : list NodeRef * list NodeRef) : option (list NodeRef * list NodeRef) :=
  match anchors with
  | [] => Some acc
  | anchor :: rest =>
      let siblings := rawSiblings anchor in
      let idx := indexOf siblings anchor in
      if idx <? 0 then matchGeneralSiblingViaParentLoop rest parts acc
      else
        acc' ← generalScanViaParent anchor (sliceFrom siblings (idx + 1)) parts acc;
        matchGeneralSiblingViaParentLoop rest parts acc'
  end.

Definition matchGeneralSiblingViaParent (anchors : list NodeRef) (parts : list Node)
    : option (list NodeRef) :=
  fst <$> matchGeneralSiblingViaParentLoop anchors parts ([], []).

(** One step of the chaining loop shared by [matchSelectorPart] and
    [matchesHasSelector]: narrow [current] by the segment [seg]. *)
Definition chainStep (fuel : nat) (current : list NodeRef) (seg : CombinatorSegment)
    : option (list NodeRef) :=
  if seqb (combinator seg) ">" then
    flatMapM (fun el => filterM (fun ch => mc ch (parts seg)) (children (heap el))) current
  else if seqb (combinator seg) "+" then matchAdjacentSiblingViaParent current (parts seg)
  else if seqb (combinator seg) "~" then matchGeneralSiblingViaParent current (parts seg)
  else
    flatMapM (fun el => findDescendantsMatching fuel (children (heap el)) (parts seg)) current.

Fixpoint chainSegments (fuel : nat) (current : list NodeRef) (segs : list CombinatorSegment)
    : option (list NodeRef) :=
  match segs with
  | [] => Some current
  | seg :: rest => next ← chainStep fuel current seg; chainSegments fuel next rest
  end.

Definition matchesHasSelector (fuel : nat) (el : NodeRef) (nodes : list Node) : option bool :=
  match splitIntoCombinatorSegments nodes with
  | [] => Some false
  | first :: rest =>
      current ←
        (if seqb (combinator first) ">" then
           filterM (fun ch => mc ch (parts first)) (children (heap el))
         else if seqb (combinator first) "+" then
           let siblings := getRuntimeSiblings el in
           let idx := indexOf siblings el in
           if (0 <=? idx) && (idx <? len siblings - 1) then
             match at_ siblings (idx + 1) with
             | Some next => b ← mc next (parts first); Some (if b : bool then [next] else [])
             | None => Some []
             end
           else Some []
         else if seqb (combinator first) "~" then
           let siblings := getRuntimeSiblings el in
           let idx := indexOf siblings el in
           if 0 <=? idx then
             filterM (fun s => mc s (parts first)) (sliceFrom siblings (idx + 1))
           else Some []
         else findDescendantsMatching fuel (children (heap el)) (parts first));
      final ← chainSegments fuel current rest;
      Some (0 <? len final)
  end.

(** [matchBackwards]; [segIdx] indexes [segments], and the ancestor and
    sibling walks are its [while] and [for] loops. *)
Fixpoint matchBackwards (fuel : nat) (el : NodeRef) (segments : list CombinatorSegment)
    (segIdx : nat) {struct fuel} : option bool :=
  match segIdx with
  | O => Some true
  | S prevIdx =>
      match fuel with
      | O => None
      | S f =>
          match segments !! segIdx, segments !! prevIdx with
          | Some seg, Some prev =>
              let prevParts := parts prev in
              if seqb (combinator seg) ">" then
                match parent (heap el) with
                | None => Some false
                | Some p =>
                    b ← mc p prevParts;
                    if b : bool then matchBackwards f p segments prevIdx else Some false
                end
              else if seqb (combinator seg) " " || seqb (combinator seg) "" then
                (fix walk (steps : nat) (ancestor : option NodeRef) : option bool :=
                   match ancestor with
                   | None => Some false
                   | Some a =>
                       match steps with
                       | O => None
                       | S steps' =>
                           b ← mc a prevParts;
                           r ← (if b : bool then matchBackwards f a segments prevIdx
                                else Some false);
                           if r : bool then Some true else walk steps' (parent (heap a))
                       end
                   end) f (parent (heap el))
              else if seqb (combinator seg) "+" then
                let siblings := getRuntimeSiblings el in
                let idx := indexOf siblings el in
                if idx <=? 0 then Some false
                else
                  match at_ siblings (idx - 1) with
                  | None => None
                  | Some prevSib =>
                      b ← mc prevSib prevParts;
                      if b : bool then matchBackwards f prevSib segments prevIdx
                      else Some false
                  end
              else if seqb (combinator seg) "~" then
                let siblings := getRuntimeSiblings el in
                let idx := indexOf siblings el in
                anyM
                  (fun s =>
                     b ← mc s prevParts;
                     if b : bool then matchBackwards f s segments prevIdx else Some false)
                  (rev (take (Z.to_nat idx) siblings))
              else Some false
          | _, _ => None
          end
      end
  end.

Definition elementMatchesComplexSelector (fuel : nat) (el : NodeRef) (nodes : list Node)
    : option bool :=
  let segments := splitIntoCombinatorSegments nodes in
  match last segments with
  | None => Some false
  | Some lastSeg =>
      b ← mc el (parts lastSeg);
      if negb b then Some false
      else if (length segments =? 1)%nat then Some true
      else matchBackwards fuel el segments (length segments - 1)
  end.

End Under.

(** The inner selectors of a relational pseudo-class that have type
    [selector], each as its [nodes]. *)
Definition innerSelectors (nodes : list Node) : list (list Node) :=
  omap (fun inner => match inner with NSelector _ ns => Some ns | _ => None end) nodes.

(** [matchesCompound]: every part must match.  [fuel] bounds the nesting of
    relational pseudo-classes and the depth of the tree walks below them;
    [None] when it runs out, and when the [attribute] case throws. *)
Fixpoint matchesCompound (fuel : nat) (el : NodeRef) (parts : list Node)
    {struct fuel} : option bool :=
  (fix loop (parts : list Node) : option bool :=
     match parts with
     | [] => Some true
     | part :: rest =>
         match part with
         | NUniversal => loop rest
         | NTag value => if seqb (tag (heap el)) value then loop rest else Some false
         | NClass value =>
             if includesStr (classes (heap el)) value then loop rest else Some false
         | NId value =>
             match id (heap el) with
             | Some i => if seqb i value then loop rest else Some false
             | None => Some false
             end
         | NAttribute attrName attrOp attrVal =>
             match matchesAttribute el attrName attrOp attrVal with
             | Break => loop rest
             | ReturnFalse => Some false
             | ThrowsTypeError => None
             end
         | NPseudo value nodes =>
             if seqb value ":has" then
               match fuel with
               | O => None
               | S f =>
                   anyMatch ← anyM (matchesHasSelector (matchesCompound f) f el)
                                   (innerSelectors nodes);
                   if anyMatch : bool then loop rest else Some false
               end
             else if seqb value ":not" then
               match fuel with
               | O => None
               | S f =>
                   anyMatch ← anyM (elementMatchesComplexSelector (matchesCompound f) f el)
                                   (innerSelectors nodes);
                   if anyMatch : bool then Some false else loop rest
               end
             else if seqb value ":is" || seqb value ":where" then
               match fuel with
               | O => None
               | S f =>
                   anyMatch ← anyM (elementMatchesComplexSelector (matchesCompound f) f el)
                                   (innerSelectors nodes);
                   if anyMatch : bool then loop rest else Some false
               end
             else if matchStructuralPseudo el value nodes then loop rest
             else Some false
         | _ => loop rest
         end
     end) parts.

(** [matchSelectorPart]; [parentMatched] is [None] when the argument is
    omitted. *)
Definition matchSelectorPart (fuel : nat) (nodes : list Node) (scopeElements : list NodeRef)
    (parentMatched : option (list NodeRef)) : option (list NodeRef) :=
  match nodes with
  | [NNesting] => Some (default scopeElements parentMatched)
  | _ =>
      match splitIntoCombinatorSegments nodes with
      | [] => Some []
      | first :: rest =>
          current ←
            (if seqb (combinator first) ">" then
               filterM (fun el => matchesCompound fuel el (parts first)) scopeElements
             else if seqb (combinator first) "+" then
               matchAdjacentSibling (matchesCompound fuel) scopeElements [] (parts first)
             else if seqb (combinator first) "~" then
               matchGeneralSibling (matchesCompound fuel) scopeElements [] (parts first)
             else findDescendantsMatching (matchesCompound fuel) fuel scopeElements (parts first));
          chainSegments (matchesCompound fuel) fuel current rest
      end
  end.

(** The de-duplicating loop of [matchSelector] over one branch's matches. *)
Fixpoint addUnseen (els : list NodeRef) (acc : list NodeRef * list NodeRef)
    : list NodeRef * list NodeRef :=
  match els with
  | [] => acc
  | el :: r =>
      if hasRef (snd acc) el then addUnseen r acc
      else addUnseen r (fst acc ++ [el], snd acc ++ [el])
  end.

Fixpoint matchSelectorLoop (fuel : nat) (astNodes : list Node) (scopeElements : list NodeRef)
    (parentMatched : option (list NodeRef)) (acc : list NodeRef * list NodeRef)
    : option (list NodeRef * list NodeRef) :=
  match astNodes with
  | [] => Some acc
  | NSelector _ nodes :: rest =>
      els ← matchSelectorPart fuel nodes scopeElements parentMatched;
      matchSelectorLoop fuel rest scopeElements parentMatched (addUnseen els acc)
  | _ :: rest => matchSelectorLoop fuel rest scopeElements parentMatched acc
  end.

(** [matchSelector], from the root of the parsed selector: [astNodes] is
    [ast.nodes], one [selector] per comma-separated branch. *)
Definition matchSelector (fuel : nat) (astNodes : list Node) (scopeElements : list NodeRef)
    (parentMatched : option (list NodeRef)) : option (list NodeRef) :=
  fst <$> matchSelectorLoop fuel astNodes scopeElements parentMatched ([], []).

End Matching.

(** A compound selector: at least one node, none of them a combinator or a
    nesting selector, so that it forms one segment. *)
Definition isCompound (parts : list Node) : bool :=
  match parts with
  | [] => false
  | _ :: _ =>
      forallb (fun n => match n with
                        | NCombinator _ | NNesting => false
                        | _ => true
                        end) parts
  end.


End Engine.

(** ** Parsed style blocks (parser/types) *)

Module UseDirective.
Record t := { name : string; from : option string }.
End UseDirective.

Module StyleRule.
Inductive t := make {
  selector : string;
  classes : list string;
  declarations : list string;
  uses : list UseDirective.t;
  children : list t
}.
Definition withClasses (r : t) (v : list string) : t :=
  make (selector r) v (declarations r) (uses r) (children r).
Definition withDeclarations (r : t) (v : list string) : t :=
  make (selector r) (classes r) v (uses r) (children r).
Definition withUses (r : t) (v : list UseDirective.t) : t :=
  make (selector r) (classes r) (declarations r) v (children r).
Definition withChildren (r : t) (v : list t) : t :=
  make (selector r) (classes r) (declarations r) (uses r) v.
End StyleRule.

Module ExportBlock.
Record t := {
  name : string;
  classes : list string;
  declarations : list string;
  uses : list UseDirective.t;
  children : list StyleRule.t
}.
Definition withClasses (e : t) (v : list string) : t :=
  Build_t (name e) v (declarations e) (uses e) (children e).
Definition withDeclarations (e : t) (v : list string) : t :=
  Build_t (name e) (classes e) v (uses e) (children e).
Definition withUses (e : t) (v : list UseDirective.t) : t :=
  Build_t (name e) (classes e) (declarations e) v (children e).
Definition withChildren (e : t) (v : list StyleRule.t) : t :=
  Build_t (name e) (classes e) (declarations e) (uses e) v.
End ExportBlock.

Module ImportDirective.
Record t := { names : list string; from : string }.
End ImportDirective.

Module ParseResult.
Record t := {
  rules : list StyleRule.t;
  exports : list ExportBlock.t;
  imports : list ImportDirective.t
}.
End ParseResult.

(** ** The directive resolver (forward.ts) *)

Module Resolver.
Import JsString.

(** The [console.warn] messages of the resolver, by kind and arguments. *)
Inductive Diagnostic :=
| DuplicateExport (name : string)
| ImportNameNotFound (name from : string) (available : list string)
| CircularUseInExport (exportName name : string)
| UseInExportNotFoundInFile (exportName name from : string)
| UseInExportNotDefined (exportName name : string)
| CircularUse (name : string)
| UseNotFoundInFile (name from : string)
| UseNotDefined (name : string).

Definition isCircular (d : Diagnostic) : bool :=
  match d with
  | CircularUseInExport _ _ | CircularUse _ => true
  | _ => false
  end.

(** [cloneRule] *)
Fixpoint cloneRule (rule : StyleRule.t) : StyleRule.t :=
  match rule with
  | StyleRule.make selector classes declarations uses children =>
      StyleRule.make selector classes declarations uses (map cloneRule children)
  end.

(** *** The store

    Rule objects are owned top-down: a rule is reached from the rule array
    of the parse result or from an export block of the registry, and from
    nowhere else.  A rule array is named by its root and the path of child
    indexes leading to the rule that owns it ([[]] for the root's own
    array). *)

Definition Path := list nat.

Inductive Root :=
| InExport (key : string)
| InRules.

Record Store := {
  registry : list (string * ExportBlock.t);
  rules : list StyleRule.t;
  resolving : gset string;
  deps : gset string;
  warnings : list Diagnostic
}.

Definition withRegistry (st : Store) (v : list (string * ExportBlock.t)) : Store :=
  Build_Store v (rules st) (resolving st) (deps st) (warnings st).
Definition withRules (st : Store) (v : list StyleRule.t) : Store :=
  Build_Store (registry st) v (resolving st) (deps st) (warnings st).
Definition withResolving (st : Store) (v : gset string) : Store :=
  Build_Store (registry st) (rules st) v (deps st) (warnings st).
Definition withDeps (st : Store) (v : gset string) : Store :=
  Build_Store (registry st) (rules st) (resolving st) v (warnings st).
Definition warn (d : Diagnostic) (st : Store) : Store :=
  Build_Store (registry st) (rules st) (resolving st) (deps st) (warnings st ++ [d]).

(** [registry.get(key)], [registry.has(key)], [registry.set(key, v)] on a
    [Map]: insertion order is kept, and setting a present key keeps its place. *)
Fixpoint registryGet (reg : list (string * ExportBlock.t)) (key : string)
    : option ExportBlock.t :=
  match reg with
  | [] => None
  | (k, v) :: r => if String.eqb k key then Some v else registryGet r key
  end.

Definition registryHas (reg : list (string * ExportBlock.t)) (key : string) : bool :=
  match registryGet reg key with Some _ => true | None => false end.

Fixpoint registryAlter (f : ExportBlock.t -> ExportBlock.t)
    (reg : list (string * ExportBlock.t)) (key : string) : list (string * ExportBlock.t) :=
  match reg with
  | [] => []
  | (k, v) :: r =>
      if String.eqb k key then (k, f v) :: r else (k, v) :: registryAlter f r key
  end.

Definition registrySet (reg : list (string * ExportBlock.t)) (key : string)
    (v : ExportBlock.t) : list (string * ExportBlock.t) :=
  if registryHas reg key then registryAlter (fun _ => v) reg key else reg ++ [(key, v)].

(** The rule array under path [p] of the array [rs]. *)
Fixpoint arrayIn (rs : list StyleRule.t) (p : Path) : option (list StyleRule.t) :=
  match p with
  | [] => Some rs
  | i :: p' => r ← rs !! i; arrayIn (StyleRule.children r) p'
  end.

(** Apply [f] to the rule at the non-empty path [p] of the array [rs]. *)
Fixpoint alterIn (f : StyleRule.t -> StyleRule.t) (rs : list StyleRule.t) (p : Path)
    : list StyleRule.t :=
  match p with
  | [] => rs
  | i :: p' =>
      match p' with
      | [] => alter f i rs
      | _ :: _ =>
          alter (fun r => StyleRule.withChildren r (alterIn f (StyleRule.children r) p')) i rs
      end
  end.

Definition rootArray (st : Store) (root : Root) : option (list StyleRule.t) :=
  match root with
  | InExport key => ExportBlock.children <$> registryGet (registry st) key
  | InRules => Some (rules st)
  end.

Definition arrayAt (st : Store) (root : Root) (p : Path) : option (list StyleRule.t) :=
  rs ← rootArray st root; arrayIn rs p.

Definition alterRule (f : StyleRule.t -> StyleRule.t) (root : Root) (p : Path) (st : Store)
    : Store :=
  match root with
  | InExport key =>
      withRegistry st
        (registryAlter
           (fun e => ExportBlock.withChildren e (alterIn f (ExportBlock.children e) p))
           (registry st) key)
  | InRules => withRules st (alterIn f (rules st) p)
  end.

(** The object a [@use] is inlined into: an export block of the registry, or
    the rule at a non-empty path under a root. *)
Inductive Target :=
| TExport (key : string)
| TRule (root : Root) (p : Path).

Definition pushClasses (t : Target) (cs : list string) (st : Store) : Store :=
  match t with
  | TExport key =>
      withRegistry st
        (registryAlter (fun e => ExportBlock.withClasses e (ExportBlock.classes e ++ cs))
           (registry st) key)
  | TRule root p =>
      alterRule (fun r => StyleRule.withClasses r (StyleRule.classes r ++ cs)) root p st
  end.

Definition pushDeclarations (t : Target) (ds : list string) (st : Store) : Store :=
  match t with
  | TExport key =>
      withRegistry st
        (registryAlter
           (fun e => ExportBlock.withDeclarations e (ExportBlock.declarations e ++ ds))
           (registry st) key)
  | TRule root p =>
      alterRule (fun r => StyleRule.withDeclarations r (StyleRule.declarations r ++ ds))
        root p st
  end.

Definition pushChild (t : Target) (c : StyleRule.t) (st : Store) : Store :=
  match t with
  | TExport key =>
      withRegistry st
        (registryAlter (fun e => ExportBlock.withChildren e (ExportBlock.children e ++ [c]))
           (registry st) key)
  | TRule root p =>
      alterRule (fun r => StyleRule.withChildren r (StyleRule.children r ++ [c])) root p st
  end.

Definition clearUses (t : Target) (st : Store) : Store :=
  match t with
  | TExport key =>
      withRegistry st
        (registryAlter (fun e => ExportBlock.withUses e []) (registry st) key)
  | TRule root p => alterRule (fun r => StyleRule.withUses r []) root p st
  end.

(** The block a [@use] names: an object of the registry, read where it
    stands in the store each time, or an export handed out by the loader.
    The pass writes to its targets only, never to a loaded block, so a
    loaded block is a value here: it is taken as the loader hands it out.
    The loader's cache, and the objects two of its exports may share when a
    file declares one name twice, are outside this model. *)
Inductive BlockRef :=
| Registered (key : string)
| Loaded (b : ExportBlock.t).

Definition blockGet (st : Store) (b : BlockRef) : option ExportBlock.t :=
  match b with
  | Registered key => registryGet (registry st) key
  | Loaded e => Some e
  end.

(** [for (const child of block.children) target.children.push(cloneRule(child))]:
    the array is read as it stands at each step, so a block inlined into
    itself keeps finding new children. *)
Fixpoint pushClonedChildren (fuel : nat) (b : BlockRef) (t : Target) (j : nat) (st : Store)
    : option Store :=
  match blockGet st b with
  | None => None
  | Some block =>
      match ExportBlock.children block !! j with
      | None => Some st
      | Some child =>
          match fuel with
          | O => None
          | S f => pushClonedChildren f b t (S j) (pushChild t (cloneRule child) st)
          end
      end
  end.

Section Resolution.

(** [path.resolve(dir, from)], and [extractExportsFromFile] seen as the
    collaborator it is for the resolver: the exports of the file at an
    absolute path, already resolved by the time they are handed out. *)
Variable resolvePath : string -> string -> string.
Variable extractExportsFromFile : string -> list ExportBlock.t.
Variable dir : string.

Definition cycleKeyOf (use : UseDirective.t) : string :=
  match UseDirective.from use with
  | Some from => resolvePath dir from +:+ "#" +:+ UseDirective.name use
  | None => UseDirective.name use
  end.

Definition findExport (es : list ExportBlock.t) (name : string) : option ExportBlock.t :=
  List.find (fun e => String.eqb (ExportBlock.name e) name) es.

(** The body of the [for (const use of ...)] loop, the same in
    [resolveUsesInExport] ([inExport] is the export's name) and in
    [resolveUsesInRules] ([inExport] is [None]) up to the wording of the
    warnings. *)
Definition inlineUse (fuel : nat) (inExport : option string) (t : Target)
    (use : UseDirective.t) (st : Store) : option Store :=
  let name := UseDirective.name use in
  let cycleKey := cycleKeyOf use in
  if bool_decide (cycleKey ∈ resolving st) then
    Some (warn (match inExport with
                | Some e => CircularUseInExport e name
                | None => CircularUse name
                end) st)
  else
    let '(block, st) :=
      match UseDirective.from use with
      | Some from =>
          let absPath := resolvePath dir from in
          let st := withDeps st ({[absPath]} ∪ deps st) in
          match findExport (extractExportsFromFile absPath) name with
          | Some b => (Some (Loaded b), st)
          | None =>
              (None, warn (match inExport with
                           | Some e => UseInExportNotFoundInFile e name from
                           | None => UseNotFoundInFile name from
                           end) st)
          end
      | None =>
          if registryHas (registry st) name then (Some (Registered name), st)
          else
            (None, warn (match inExport with
                         | Some e => UseInExportNotDefined e name
                         | None => UseNotDefined name
                         end) st)
      end in
    match block with
    | None => Some st
    | Some b =>
        let st := withResolving st ({[cycleKey]} ∪ resolving st) in
        cs ← ExportBlock.classes <$> blockGet st b;
        let st := pushClasses t cs st in
        ds ← ExportBlock.declarations <$> blockGet st b;
        let st := pushDeclarations t ds st in
        st ← pushClonedChildren fuel b t 0 st;
        Some (withResolving st (resolving st ∖ {[cycleKey]}))
    end.

Fixpoint inlineUses (fuel : nat) (inExport : option string) (t : Target)
    (uses : list UseDirective.t) (st : Store) : option Store :=
  match uses with
  | [] => Some st
  | use :: rest => st ← inlineUse fuel inExport t use st; inlineUses fuel inExport t rest st
  end.

(** [resolveUsesInRules] on the rule array at [(root, p)], from its element
    [i] on. *)
Fixpoint resolveUsesInRulesFrom (fuel : nat) (root : Root) (p : Path) (i : nat) (st : Store)
    {struct fuel} : option Store :=
  match arrayAt st root p with
  | None => None
  | Some arr =>
      match arr !! i with
      | None => Some st
      | Some rule =>
          match fuel with
          | O => None
          | S f =>
              let here := p ++ [i] in
              st ← inlineUses f None (TRule root here) (StyleRule.uses rule) st;
              let st := clearUses (TRule root here) st in
              st ← resolveUsesInRulesFrom f root here 0 st;
              resolveUsesInRulesFrom f root p (S i) st
          end
      end
  end.

Definition resolveUsesInRules (fuel : nat) (root : Root) (p : Path) (st : Store)
    : option Store :=
  resolveUsesInRulesFrom fuel root p 0 st.

(** [resolveUsesInExport] on the export registered under [key]. *)
Definition resolveUsesInExport (fuel : nat) (key : string) (st : Store) : option Store :=
  match registryGet (registry st) key with
  | None => None
  | Some exp =>
      st ← inlineUses fuel (Some (ExportBlock.name exp)) (TExport key)
             (ExportBlock.uses exp) st;
      let st := clearUses (TExport key) st in
      resolveUsesInRules fuel (InExport key) [] st
  end.

(** The first loop of [resolveDirectives]: local exports, later ones
    replacing earlier ones of the same name. *)
Fixpoint registerExports (exports : list ExportBlock.t) (st : Store) : Store :=
  match exports with
  | [] => st
  | exp :: rest =>
      let name := ExportBlock.name exp in
      let st := if registryHas (registry st) name then warn (DuplicateExport name) st
                else st in
      registerExports rest (withRegistry st (registrySet (registry st) name exp))
  end.

(** [new Set(names)], in insertion order. *)
Definition setOfNames (names : list string) : list string :=
  fold_left (fun acc n => if existsb (String.eqb n) acc then acc else acc ++ [n]) names [].

Fixpoint importNames (names : list string) (from : string) (fileExports : list ExportBlock.t)
    (st : Store) : Store :=
  match names with
  | [] => st
  | name :: rest =>
      importNames rest from fileExports
        match findExport fileExports name with
        | Some exp => withRegistry st (registrySet (registry st) name exp)
        | None =>
            warn (ImportNameNotFound name from
                    (setOfNames (map ExportBlock.name fileExports))) st
        end
  end.

(** The second loop: [@import] directives. *)
Fixpoint applyImports (imports : list ImportDirective.t) (st : Store) : Store :=
  match imports with
  | [] => st
  | imp :: rest =>
      let absPath := resolvePath dir (ImportDirective.from imp) in
      let st := withDeps st ({[absPath]} ∪ deps st) in
      applyImports rest
        (importNames (ImportDirective.names imp) (ImportDirective.from imp)
           (extractExportsFromFile absPath) st)
  end.

(** The third loop: [for (const [, exp] of registry)]. *)
Fixpoint resolveExports (fuel : nat) (keys : list string) (st : Store) : option Store :=
  match keys with
  | [] => Some st
  | key :: rest => st ← resolveUsesInExport fuel key st; resolveExports fuel rest st
  end.

(** [resolveDirectives]: the final store holds the returned rules, the
    dependency set recorded for the file, and the warnings. *)
Definition resolveDirectives (fuel : nat) (result : ParseResult.t) : option Store :=
  let st := Build_Store [] (ParseResult.rules result) ∅ ∅ [] in
  let st := registerExports (ParseResult.exports result) st in
  let st := applyImports (ParseResult.imports result) st in
  st ← resolveExports fuel (map fst (registry st)) st;
  resolveUsesInRules fuel InRules [] st.

(** The last step of [resolveDirectives]: the dependency set of the file is
    stored in [state.importDeps], or the entry is dropped when it is empty. *)
Definition recordImportDeps (absFilePath : string) (fileDeps : gset string)
    (importDeps : gmap string (gset string)) : gmap string (gset string) :=
  if bool_decide (fileDeps = ∅) then delete absFilePath importDeps
  else <[absFilePath := fileDeps]> importDeps.

(** [resolveDirectives(result, filePath, state)] as the caller sees it: the
    rules, the dependency table of the state, and the warnings. *)
Definition resolveDirectivesIn (fuel : nat) (result : ParseResult.t) (absFilePath : string)
    (importDeps : gmap string (gset string))
    : option (list StyleRule.t * gmap string (gset string) * list Diagnostic) :=
  st ← resolveDirectives fuel result;
  Some (rules st, recordImportDeps absFilePath (deps st) importDeps, warnings st).

End Resolution.

(** *** Measures of rule trees *)

(** No [@use] is left in the rule or below it. *)
Fixpoint allResolved (rule : StyleRule.t) : bool :=
  match rule with
  | StyleRule.make _ _ _ uses children =>
      match uses with [] => true | _ :: _ => false end && forallb allResolved children
  end.

Definition exportResolved (e : ExportBlock.t) : bool :=
  match ExportBlock.uses e with [] => true | _ :: _ => false end
  && forallb allResolved (ExportBlock.children e).

(** The number of rules in a tree, and in an array of trees. *)
Fixpoint ruleSize (rule : StyleRule.t) : nat :=
  match rule with
  | StyleRule.make _ _ _ _ children => S (list_sum (map ruleSize children))
  end.

Definition rulesSize (rs : list StyleRule.t) : nat := list_sum (map ruleSize rs).

(** The rules held by the registry, counted. *)
Definition registrySize (reg : list (string * ExportBlock.t)) : nat :=
  list_sum (map (fun kv => rulesSize (ExportBlock.children (snd kv))) reg).

Definition registryResolved (reg : list (string * ExportBlock.t)) : bool :=
  forallb (fun kv => exportResolved (snd kv)) reg.

(** A parse result that a resolution pass has already been through:
    [& { bg-gray-900 px-4 rounded  button { px-4 rounded } }] with the block
    [btn] it was built from. *)
Definition resolvedOutput : ParseResult.t :=
  ParseResult.Build_t
    [StyleRule.make "&" ["bg-gray-900"; "px-4"; "rounded"] [] []
       [StyleRule.make "button" ["px-4"; "rounded"] [] [] []]]
    [ExportBlock.Build_t "btn" ["px-4"; "rounded"] [] [] []]
    [].

(** The cycle guard is at rest: no key is being resolved, and no circular
    [@use] has been reported. *)
Definition guardQuiet (st : Store) : Prop :=
  resolving st = ∅ /\ Forall (fun d => isCircular d = false) (warnings st).

(** *** Circular inputs *)

Definition useOf (name : string) : UseDirective.t := UseDirective.Build_t name None.

(** The export [a] uses [b], [b] uses [a], and the rule [&] uses [a]. *)
Definition cycleOfTwo : ParseResult.t :=
  ParseResult.Build_t
    [StyleRule.make "&" [] [] [useOf "a"] []]
    [ExportBlock.Build_t "a" ["x"] [] [useOf "b"] [];
     ExportBlock.Build_t "b" ["y"] [] [useOf "a"] []]
    [].

(** The style blocks of [cycleOfTwo] and of [selfNested] below; a [@use]
    stands on a line of its own. *)
Definition cycleOfTwoText : string :=
  "@export a {
  x
  @use b
}
@export b {
  y
  @use a
}
& {
  @use a
}".

Definition selfNestedText : string := "@export a { div { @use a } }".

(** [k] rules [div { ... }] without [@use], nested around [base]. *)
Fixpoint tower (k : nat) (base : StyleRule.t) : StyleRule.t :=
  match k with
  | O => base
  | S k' => StyleRule.make "div" [] [] [] [tower k' base]
  end.

(** [div { @use a }] *)
Definition selfNestedRule : StyleRule.t := StyleRule.make "div" [] [] [useOf "a"] [].

(** [@export a { div { @use a } }] *)
Definition selfNested : ParseResult.t :=
  ParseResult.Build_t [] [ExportBlock.Build_t "a" [] [] [] [selfNestedRule]] [].

(** The export [a] holding one rule tree, and a store whose registry is
    that export alone. *)
Definition exportA (tree : StyleRule.t) : ExportBlock.t :=
  ExportBlock.Build_t "a" [] [] [] [tree].

Definition storeOfA (rs : list StyleRule.t) (res deps : gset string)
    (ws : list Diagnostic) (tree : StyleRule.t) : Store :=
  Build_Store [("a", exportA tree)] rs res deps ws.

End Resolver.

(** ** The style-block parser (parser/style-tree.ts) *)

Module Parser.
Import JsString.

Definition cNewline : ascii := ascii_of_nat 10.
Definition cDoubleQuote : ascii := ascii_of_nat 34.
Definition cBackslash : ascii := ascii_of_nat 92.

Definition isQuote (c : ascii) : bool := ceqb c cDoubleQuote || ceqb c "'".

(** [src[i] === c], false when [src[i]] is [undefined]. *)
Definition charIs (src : list ascii) (i : nat) (c : ascii) : bool :=
  match src !! i with
  | Some x => ceqb x c
  | None => false
  end.

(** [src.substring(a, b)]: both ends clamped to the length, swapped when
    [a > b]. *)
Definition substring (src : list ascii) (a b : nat) : list ascii :=
  let lo := Nat.min a b in
  let hi := Nat.max a b in
  take (hi - lo) (drop lo src).

(** [src.substring(a)] *)
Definition substringFrom (src : list ascii) (a : nat) : list ascii := drop a src.

(** [src.startsWith(pat, pos)] *)
Definition startsWithAt (src : list ascii) (pat : string) (pos : nat) : bool :=
  startsWithL (chars pat) (drop pos src).

(** [l.indexOf(pat)], [None] for [-1]. *)
Fixpoint indexOfL (pat l : list ascii) : option nat :=
  if startsWithL pat l then Some O
  else match l with
       | [] => None
       | _ :: r => S <$> indexOfL pat r
       end.

(** [src.indexOf(pat, from)] *)
Definition indexOfFrom (src : list ascii) (pat : string) (from : nat) : option nat :=
  (fun k => (from + k)%nat) <$> indexOfL (chars pat) (drop from src).

(** [lineAt]: one more than the number of newlines before [offset]. *)
Definition lineAt (src : list ascii) (offset : nat) : nat :=
  S (length (List.filter (fun c => ceqb c cNewline) (take offset src))).

(** The warnings of the parser; [line] is the line [formatLoc] prints, next
    to the file path of the context when there is one. *)
Inductive Diagnostic :=
| MalformedImport (line : nat) (text : string)
| UnclosedBrace (line : nat)
| UnsupportedAtRule (line : nat) (atRule : string)
| MalformedUse (line : nat) (text : string).

(** The scanner state shared by [findTopLevelChar] and [findMatchingBrace]. *)
Record Scan := {
  depth : Z;
  inBracket : Z;
  inString : option ascii;
  inComment : bool
}.

Inductive Step :=
| Return (i : nat)
| Continue (extra : bool) (s : Scan).

(** The part of the loop body the two scanners share: strings, comments and
    square brackets.  [None] when the character is left to the brace logic;
    [extra] is the [i++] after a two-character comment delimiter. *)
Definition scanLexical (src : list ascii) (i : nat) (s : Scan) : option Step :=
  match inString s with
  | Some q =>
      Some (Continue false
        (if charIs src i q && negb (match i with
                                    | O => false
                                    | S j => charIs src j cBackslash
                                    end)
         then Build_Scan (depth s) (inBracket s) None (inComment s) else s))
  | None =>
      if inComment s then
        if charIs src i "*" && charIs src (S i) "/"
        then Some (Continue true (Build_Scan (depth s) (inBracket s) None false))
        else Some (Continue false s)
      else if charIs src i "/" && charIs src (S i) "*" then
        Some (Continue true (Build_Scan (depth s) (inBracket s) None true))
      else if charIs src i cDoubleQuote || charIs src i "'" then
        Some (Continue false (Build_Scan (depth s) (inBracket s) (src !! i) false))
      else if charIs src i "[" then
        Some (Continue false (Build_Scan (depth s) (inBracket s + 1) None false))
      else if charIs src i "]" then
        Some (Continue false (Build_Scan (depth s) (inBracket s - 1) None false))
      else if inBracket s =? 0 then None
      else Some (Continue false s)
  end.

Definition stepTopLevel (src : list ascii) (char : ascii) (i : nat) (s : Scan) : Step :=
  match scanLexical src i s with
  | Some st => st
  | None =>
      if charIs src i "{" then
        if (depth s =? 0) && ceqb char "{" then Return i
        else Continue false (Build_Scan (depth s + 1) (inBracket s) None false)
      else if charIs src i "}" then
        if (depth s =? 0) && ceqb char "}" then Return i
        else Continue false (Build_Scan (depth s - 1) (inBracket s) None false)
      else if (depth s =? 0) && charIs src i char then Return i
      else Continue false s
  end.

(** The [for] loop of [findTopLevelChar] at index [i], with [n] the distance
    from [i] to [end] (no iteration is left when it is [0]). *)
Fixpoint findTopLevelLoop (src : list ascii) (char : ascii) (n : nat) (i : nat) (s : Scan)
    : option nat :=
  match n with
  | O => None
  | S n1 =>
      match stepTopLevel src char i s with
      | Return r => Some r
      | Continue false s' => findTopLevelLoop src char n1 (S i) s'
      | Continue true s' =>
          match n1 with
          | O => None
          | S n2 => findTopLevelLoop src char n2 (S (S i)) s'
          end
      end
  end.

(** [findTopLevelChar(src, start, end, char)], [None] for [-1]. *)
Definition findTopLevelChar (src : list ascii) (start end_ : nat) (char : ascii)
    : option nat :=
  findTopLevelLoop src char (end_ - start) start (Build_Scan 0 0 None false).

Definition stepMatching (src : list ascii) (i : nat) (s : Scan) : Step :=
  match scanLexical src i s with
  | Some st => st
  | None =>
      if charIs src i "{" then
        Continue false (Build_Scan (depth s + 1) (inBracket s) None false)
      else if charIs src i "}" then
        if depth s - 1 =? 0 then Return i
        else Continue false (Build_Scan (depth s - 1) (inBracket s) None false)
      else Continue false s
  end.

Fixpoint findMatchingLoop (src : list ascii) (n : nat) (i : nat) (s : Scan) : nat :=
  match n with
  | O => length src
  | S n1 =>
      match stepMatching src i s with
      | Return r => r
      | Continue false s' => findMatchingLoop src n1 (S i) s'
      | Continue true s' =>
          match n1 with
          | O => length src
          | S n2 => findMatchingLoop src n2 (S (S i)) s'
          end
      end
  end.

(** [findMatchingBrace(src, openPos)]: the length of [src] when the brace is
    never closed. *)
Definition findMatchingBrace (src : list ascii) (openPos : nat) : nat :=
  findMatchingLoop src (length src - S openPos) (S openPos) (Build_Scan 1 0 None false).

(** [skipWhitespaceAndComments]: the new [ctx.pos].  Every iteration moves
    [pos] forward, so [n], at least the distance to [end], bounds the loop. *)
Fixpoint skipLoop (src : list ascii) (end_ : nat) (n : nat) (pos : nat) : nat :=
  match n with
  | O => pos
  | S n1 =>
      if (pos <? end_)%nat then
        match src !! pos with
        | Some c =>
            if isWhitespace c then skipLoop src end_ n1 (S pos)
            else if ceqb c "/" && charIs src (S pos) "*" then
              match indexOfFrom src "*/" (pos + 2) with
              | None => skipLoop src end_ n1 end_
              | Some close => skipLoop src end_ n1 (close + 2)
              end
            else pos
        | None => pos
        end
      else pos
  end.

Definition skipWhitespaceAndComments (src : list ascii) (pos end_ : nat) : nat :=
  skipLoop src end_ (S (end_ - pos)) pos.

(** [parseUseDirective], on the trimmed line.  The pattern is: [@use], at
    least one whitespace, a name (a word character, then word characters and
    hyphens), optionally whitespace, [from], whitespace and a quoted path
    without quotes inside, then optional whitespace, an optional semicolon
    and optional whitespace up to the end. *)
Definition isNameChar (c : ascii) : bool := isWordChar c || ceqb c "-".

(** The tail [\s*;?\s*$] *)
Definition isDirectiveTail (l : list ascii) : bool :=
  match dropWhile isWhitespace l with
  | [] => true
  | c :: r =>
      ceqb c ";" && match dropWhile isWhitespace r with [] => true | _ :: _ => false end
  end.

(** A quote, a non-empty run without quotes, a quote, then the tail: the
    path. *)
Definition quotedPathThenTail (l : list ascii) : option (list ascii) :=
  match l with
  | q :: r =>
      if isQuote q then
        let path := takeWhile (fun c => negb (isQuote c)) r in
        match path, dropWhile (fun c => negb (isQuote c)) r with
        | _ :: _, _ :: tail => if isDirectiveTail tail then Some path else None
        | _, _ => None
        end
      else None
  | [] => None
  end.

Definition parseUseDirective (text : list ascii) : option UseDirective.t :=
  if startsWithL (chars "@use") text then
    let l0 := drop 4 text in
    match l0 with
    | w :: _ =>
        if isWhitespace w then
          match dropWhile isWhitespace l0 with
          | c :: r =>
              if isWordChar c then
                let name := c :: takeWhile isNameChar r in
                let after := dropWhile isNameChar r in
                let afterWs := dropWhile isWhitespace after in
                let fromGroup :=
                  match after with
                  | w' :: _ =>
                      if isWhitespace w' && startsWithL (chars "from") afterWs then
                        match drop 4 afterWs with
                        | w'' :: r'' =>
                            if isWhitespace w'' then
                              quotedPathThenTail (dropWhile isWhitespace (w'' :: r''))
                            else None
                        | [] => None
                        end
                      else None
                  | [] => None
                  end in
                match fromGroup with
                | Some path =>
                    Some (UseDirective.Build_t (str name) (Some (str path)))
                | None =>
                    if isDirectiveTail after
                    then Some (UseDirective.Build_t (str name) None)
                    else None
                end
              else None
          | [] => None
          end
        else None
    | [] => None
    end
  else None.

Definition isImportNameChar (c : ascii) : bool :=
  isWordChar c || isWhitespace c || ceqb c "," || ceqb c "-".

(** [parseImportDirective], on the trimmed line.  The names group is greedy
    over word characters, whitespace, commas and hyphens, so it ends one
    whitespace before the last [from] that is followed by whitespace and the
    opening quote; no quote can come earlier. *)
Definition parseImportDirective (text : list ascii) : option ImportDirective.t :=
  if startsWithL (chars "@import") text then
    let l0 := drop 7 text in
    match l0 with
    | w :: _ =>
        if isWhitespace w then
          let l1 := dropWhile isWhitespace l0 in
          let pre := takeWhile (fun c => negb (isQuote c)) l1 in
          let quoted := dropWhile (fun c => negb (isQuote c)) l1 in
          (* [pre] read backwards: whitespace, "from", whitespace, the names *)
          let r0 := rev pre in
          let r1 := dropWhile isWhitespace r0 in
          let r2 := drop 4 r1 in
          match r0, r2 with
          | w0 :: _, w2 :: r3 =>
              if isWhitespace w0 && startsWithL (chars "morf") r1 && isWhitespace w2 then
                let group := rev r3 in
                match group with
                | c :: _ =>
                    if isWordChar c && forallb isImportNameChar group then
                      match quotedPathThenTail quoted with
                      | Some path =>
                          Some (ImportDirective.Build_t
                                  (List.filter (fun n => negb (String.eqb n ""))
                                     (map (fun n => str (trimL n)) (splitCharL "," group)))
                                  (str path))
                      | None => None
                      end
                    else None
                | [] => None
                end
              else None
          | _, _ => None
          end
        else None
    | [] => None
    end
  else None.

Definition UNSUPPORTED_AT_RULES : list string :=
  ["media"; "keyframes"; "supports"; "layer"; "container"; "font-face"; "property";
   "page"; "counter-style"].

(** The test for an unsupported at-rule: [@], one of the keywords, then a
    word boundary. *)
Definition isUnsupportedAtRule (text : list ascii) : bool :=
  match text with
  | c :: r =>
      ceqb c "@" &&
      existsb
        (fun kw =>
           startsWithL (chars kw) r &&
           match drop (String.length kw) r with
           | [] => true
           | x :: _ => negb (isWordChar x)
           end)
        UNSUPPORTED_AT_RULES
  | [] => false
  end.

(** [(text.match(re) || [text])[0]] for the pattern: [@], then at least one
    word character or hyphen. *)
Definition atRuleName (text : list ascii) : list ascii :=
  match text with
  | c :: r =>
      if ceqb c "@" then
        match takeWhile isNameChar r with
        | [] => text
        | n => c :: n
        end
      else text
  | [] => text
  end.

Definition AMBIGUOUS_TAG_CLASSES : list string :=
  ["flex"; "grid"; "table"; "hidden"; "block"; "inline"; "contents"; "fixed";
   "absolute"; "relative"; "sticky"; "static"; "visible"; "invisible"; "collapse"].

Definition isSelectorSyntaxChar (c : ascii) : bool :=
  existsb (ceqb c) (chars ">+~.#[]:,").

Definition looksLikeSelector (text : list ascii) : bool :=
  let trimmed := trimL text in
  if startsWithL (chars ">") trimmed || startsWithL (chars "+") trimmed
     || startsWithL (chars "~") trimmed then true
  else if startsWithL (chars ".") trimmed || startsWithL (chars "#") trimmed
          || startsWithL (chars "[") trimmed || startsWithL (chars "*") trimmed
          || startsWithL (chars "&") trimmed || startsWithL (chars ":") trimmed then true
  else if existsb isSelectorSyntaxChar trimmed then true
  else if existsb (String.eqb (str trimmed)) AMBIGUOUS_TAG_CLASSES then false
  else true.

(** [lines.join('\n')] *)
Fixpoint joinLines (lines : list (list ascii)) : list ascii :=
  match lines with
  | [] => []
  | [l] => l
  | l :: r => l ++ cNewline :: joinLines r
  end.

Definition isBlank (l : list ascii) : bool :=
  match trimL l with [] => true | _ :: _ => false end.

(** The first loop of [splitClassesAndSelector]: the index of the last
    line that is not blank, [None] when it runs below zero. *)
Definition lastNonBlank (lines : list (list ascii)) : option nat :=
  let n := length (dropWhile isBlank (rev lines)) in
  match n with
  | O => None
  | S k => Some k
  end.

(** The second loop: walk back while the line before ends with a comma. *)
Fixpoint selectorStartFrom (lines : list (list ascii)) (selectorStart : nat) : nat :=
  match selectorStart with
  | O => O
  | S k =>
      match lines !! k with
      | Some prevLine =>
          if endsWithL (chars ",") (trimL prevLine) then selectorStartFrom lines k
          else selectorStart
      | None => selectorStart
      end
  end.

Definition splitClassesAndSelector (text : list ascii) : list ascii * list ascii :=
  let lines := splitCharL cNewline text in
  match lastNonBlank lines with
  | None => ([], [])
  | Some selectorEnd =>
      let selectorStart := selectorStartFrom lines selectorEnd in
      let selector :=
        trimL (joinLines (take (S selectorEnd - selectorStart) (drop selectorStart lines))) in
      if negb (looksLikeSelector selector) then (text, [])
      else (joinLines (take selectorStart lines), selector)
  end.

(** The selector [splitClassesAndSelector] considers for [text], with the
    index of its first line: the last line that is not blank, together with
    the lines before it that end in a comma, trimmed.  [None] when every line
    is blank. *)
Definition selectorCandidate (text : list ascii) : option (nat * list ascii) :=
  let lines := splitCharL cNewline text in
  match lastNonBlank lines with
  | None => None
  | Some selectorEnd =>
      let selectorStart := selectorStartFrom lines selectorEnd in
      Some (selectorStart,
            trimL (joinLines (take (S selectorEnd - selectorStart)
                                (drop selectorStart lines))))
  end.

(** The membership test [AMBIGUOUS_TAG_CLASSES.has(word)]. *)
Definition isAmbiguousTagClass (word : list ascii) : bool :=
  existsb (String.eqb (str word)) AMBIGUOUS_TAG_CLASSES.

(** [text.replace(re, '')] for the block-comment pattern, non-greedy and
    global: each comment goes up to the first [*/] two characters or more
    after its start; [n] is at least the length of [l]. *)
Fixpoint stripCommentsLoop (n : nat) (l : list ascii) : list ascii :=
  match n with
  | O => l
  | S n1 =>
      match l with
      | [] => []
      | c :: r =>
          if startsWithL (chars "/*") l then
            match indexOfL (chars "*/") (drop 2 l) with
            | Some k => stripCommentsLoop n1 (drop (k + 4) l)
            | None => c :: stripCommentsLoop n1 r
            end
          else c :: stripCommentsLoop n1 r
      end
  end.

Definition stripComments (l : list ascii) : list ascii := stripCommentsLoop (length l) l.

(** What a rule body has collected so far. *)
Record Body := {
  classes : list string;
  declarations : list string;
  uses : list UseDirective.t;
  children : list StyleRule.t
}.

Definition emptyBody : Body := Build_Body [] [] [] [].

(** The loop of [extractContent] over the lines of the cleaned text. *)
Fixpoint extractLines (src : list ascii) (baseOffset : nat) (lines : list (list ascii))
    (lineOffset : nat) (b : Body) (ws : list Diagnostic) : Body * list Diagnostic :=
  match lines with
  | [] => (b, ws)
  | line :: rest =>
      let trimmed := trimL line in
      let next := (lineOffset + length line + 1)%nat in
      match trimmed with
      | [] => extractLines src baseOffset rest next b ws
      | _ :: _ =>
          if startsWithL (chars "@use ") trimmed || String.eqb (str trimmed) "@use" then
            match parseUseDirective trimmed with
            | Some directive =>
                extractLines src baseOffset rest next
                  (Build_Body (classes b) (declarations b) (uses b ++ [directive])
                     (children b)) ws
            | None =>
                extractLines src baseOffset rest next b
                  (ws ++ [MalformedUse (lineAt src (baseOffset + lineOffset)) (str trimmed)])
            end
          else if endsWithL (chars ";") trimmed then
            extractLines src baseOffset rest next
              (Build_Body (classes b) (declarations b ++ [str trimmed]) (uses b)
                 (children b)) ws
          else
            extractLines src baseOffset rest next
              (Build_Body
                 (classes b ++
                  List.filter (fun w => negb (String.eqb w "")) (map str (splitWsL trimmed)))
                 (declarations b) (uses b) (children b)) ws
      end
  end.

Definition extractContent (src : list ascii) (text : list ascii) (baseOffset : nat)
    (b : Body) (ws : list Diagnostic) : Body * list Diagnostic :=
  extractLines src baseOffset (splitCharL cNewline (stripComments text)) 0 b ws.

(** [parseBody(src, start, end, ctx)] from position [pos] on, with what the
    body has collected so far.  [fuel] bounds the nesting and the number of
    blocks; [None] when it runs out. *)
Fixpoint parseBodyFrom (fuel : nat) (src : list ascii) (pos end_ : nat) (b : Body)
    (ws : list Diagnostic) {struct fuel} : option (Body * list Diagnostic) :=
  if (pos <? end_)%nat then
    match findTopLevelChar src pos end_ "{" with
    | None => Some (extractContent src (substring src pos end_) pos b ws)
    | Some bracePos =>
        match fuel with
        | O => None
        | S f =>
            let textBefore := substring src pos bracePos in
            let '(classText, selector) := splitClassesAndSelector textBefore in
            let '(b, ws) := extractContent src classText pos b ws in
            let closePos := findMatchingBrace src bracePos in
            let trimmedSel := trimL selector in
            if isUnsupportedAtRule trimmedSel then
              parseBodyFrom f src (S closePos) end_ b
                (ws ++ [UnsupportedAtRule (lineAt src pos) (str (atRuleName trimmedSel))])
            else
              '(inner, ws) ← parseBodyFrom f src (S bracePos) closePos emptyBody ws;
              parseBodyFrom f src (S closePos) end_
                (Build_Body (classes b) (declarations b) (uses b)
                   (children b ++
                    [StyleRule.make (str trimmedSel) (classes inner) (declarations inner)
                       (uses inner) (children inner)]))
                ws
        end
    end
  else Some (b, ws).

Definition parseBody (fuel : nat) (src : list ascii) (start end_ : nat)
    (ws : list Diagnostic) : option (Body * list Diagnostic) :=
  parseBodyFrom fuel src start end_ emptyBody ws.

(** The [while] loop of [parseRules]. *)
Fixpoint parseRulesFrom (fuel : nat) (src : list ascii) (pos end_ : nat)
    (acc : ParseResult.t) (ws : list Diagnostic) {struct fuel}
    : option (ParseResult.t * list Diagnostic) :=
  if (pos <? end_)%nat then
    let pos := skipWhitespaceAndComments src pos end_ in
    if (end_ <=? pos)%nat then Some (acc, ws)
    else
      match fuel with
      | O => None
      | S f =>
          if startsWithAt src "@import " pos then
            let actualEnd :=
              match indexOfFrom src (str [cNewline]) pos with
              | None => end_
              | Some lineEnd => Nat.min lineEnd end_
              end in
            let line := trimL (substring src pos actualEnd) in
            match parseImportDirective line with
            | Some directive =>
                parseRulesFrom f src (S actualEnd) end_
                  (ParseResult.Build_t (ParseResult.rules acc) (ParseResult.exports acc)
                     (ParseResult.imports acc ++ [directive])) ws
            | None =>
                parseRulesFrom f src (S actualEnd) end_ acc
                  (ws ++ [MalformedImport (lineAt src pos) (str line)])
            end
          else
            match findTopLevelChar src pos end_ "{" with
            | None => Some (acc, ws)
            | Some bracePos =>
                let textBefore := trimL (substring src pos bracePos) in
                let closePos := findMatchingBrace src bracePos in
                let ws := if (length src <=? closePos)%nat
                          then ws ++ [UnclosedBrace (lineAt src bracePos)] else ws in
                if isUnsupportedAtRule textBefore then
                  parseRulesFrom f src (S closePos) end_ acc
                    (ws ++ [UnsupportedAtRule (lineAt src pos) (str (atRuleName textBefore))])
                else
                  '(body, ws) ← parseBody f src (S bracePos) closePos ws;
                  if startsWithL (chars "@export ") textBefore then
                    parseRulesFrom f src (S closePos) end_
                      (ParseResult.Build_t (ParseResult.rules acc)
                         (ParseResult.exports acc ++
                          [ExportBlock.Build_t (str (trimL (substringFrom textBefore 8)))
                             (classes body) (declarations body) (uses body) (children body)])
                         (ParseResult.imports acc)) ws
                  else
                    parseRulesFrom f src (S closePos) end_
                      (ParseResult.Build_t
                         (ParseResult.rules acc ++
                          [StyleRule.make (str textBefore) (classes body) (declarations body)
                             (uses body) (children body)])
                         (ParseResult.exports acc) (ParseResult.imports acc)) ws
            end
      end
  else Some (acc, ws).

Definition parseRules (fuel : nat) (src : list ascii) (end_ : nat)
    : option (ParseResult.t * list Diagnostic) :=
  parseRulesFrom fuel src 0 end_ (ParseResult.Build_t [] [] []) [].

(** [parseStyleBlock(content, filePath)]: the result and the warnings, in
    order.  The fuel is more than any input can use (see
    [parseStyleBlock_total]). *)
Definition parseStyleBlockWith (fuel : nat) (content : string)
    : option (ParseResult.t * list Diagnostic) :=
  parseRules fuel (chars content) (length (chars content)).

Definition parseStyleBlock (content : string) : option (ParseResult.t * list Diagnostic) :=
  parseStyleBlockWith (S (length (chars content))) content.

End Parser.

(** ** Example templates *)

Module Examples.
Import Template Selector.

Definition node (tag : string) (parent : option NodeRef) (children : list NodeRef)
    (conditional : option Conditional) : TemplateNode :=
  Build_TemplateNode tag None [] ∅ parent children conditional false.

(** A heap from the list of its node objects; the reference is the index. *)
Definition heapOf (nodes : list TemplateNode) : Heap :=
  fun r => nth r nodes (node "" None [] None).

(** [<div><h2 v-if/><h3 v-else/><p/></div>]: the raw children of the [div]
    are A (chain 1, branch 0), B (chain 1, branch 1) and the untagged C. *)
Definition condParent : NodeRef := 0%nat.
Definition condA : NodeRef := 1%nat.
Definition condB : NodeRef := 2%nat.
Definition condC : NodeRef := 3%nat.

Definition condHeap : Heap :=
  heapOf
    [ node "div" None [condA; condB; condC] None;
      node "h2" (Some condParent) [] (Some (Build_Conditional 1 0));
      node "h3" (Some condParent) [] (Some (Build_Conditional 1 1));
      node "p" (Some condParent) [] None ].

(** Two root nodes: [<figure><img/></figure>] and
    [<section><div><img/></div></section>]. *)
Definition figure : NodeRef := 0%nat.
Definition figureImg : NodeRef := 1%nat.
Definition section_ : NodeRef := 2%nat.
Definition sectionDiv : NodeRef := 3%nat.
Definition sectionImg : NodeRef := 4%nat.

Definition imgHeap : Heap :=
  heapOf
    [ node "figure" None [figureImg] None;
      node "img" (Some figure) [] None;
      node "section" None [sectionDiv] None;
      node "div" (Some section_) [sectionImg] None;
      node "img" (Some sectionDiv) [] None ].


End Examples.

(** ** Scoped CSS from raw declarations ([hasDeclarations], [buildScopedCSS],
    [emitRule], forward.ts)

    The functions that push onto a [lines] array return the lines they
    push, in order. *)

Module ScopedCss.
Import JsString.

(** [arr.length > 0] *)
Definition nonEmpty {A} (l : list A) : bool :=
  match l with [] => false | _ :: _ => true end.

(** ['  '.repeat(depth)] *)
Fixpoint indentOf (depth : nat) : string :=
  match depth with
  | O => ""
  | S d => "  " +:+ indentOf d
  end.

Definition newline : string := String Parser.cNewline EmptyString.

(** [lines.join(sep)] *)
Fixpoint join (sep : string) (lines : list string) : string :=
  match lines with
  | [] => ""
  | [l] => l
  | l :: r => l +:+ sep +:+ join sep r
  end.

(** The body of the loop of [hasDeclarations] for one rule. *)
Fixpoint ruleHasDeclarations (rule : StyleRule.t) : bool :=
  match rule with
  | StyleRule.make _ _ declarations _ children =>
      nonEmpty declarations || existsb ruleHasDeclarations children
  end.

Definition hasDeclarations (rules : list StyleRule.t) : bool :=
  existsb ruleHasDeclarations rules.

Fixpoint emitRule (rule : StyleRule.t) (depth : nat) : list string :=
  match rule with
  | StyleRule.make selector _ declarations _ children =>
      let hasDeclsHere := nonEmpty declarations in
      let hasDeclsBelow := hasDeclarations children in
      if negb hasDeclsHere && negb hasDeclsBelow then []
      else
        let indent := indentOf depth in
        let innerIndent := indentOf (depth + 1)%nat in
        [indent +:+ selector +:+ " {"]
        ++ map (fun decl => innerIndent +:+ decl) declarations
        ++ flat_map (fun child => emitRule child (depth + 1)%nat) children
        ++ [indent +:+ "}"]
  end.

(** [buildScopedCSS]: [None] is [null]. *)
Definition buildScopedCSS (rules : list StyleRule.t) : option string :=
  if negb (hasDeclarations rules) then None
  else Some (join newline (flat_map (fun rule => emitRule rule 0) rules)).

(** The declarations of a rule tree, in document order. *)
Fixpoint declarationsOf (rule : StyleRule.t) : list string :=
  match rule with
  | StyleRule.make _ _ declarations _ children =>
      declarations ++ flat_map declarationsOf children
  end.

(** A rule tree with its classes and its [@use] directives taken away. *)
Fixpoint declarationsOnly (rule : StyleRule.t) : StyleRule.t :=
  match rule with
  | StyleRule.make selector _ declarations _ children =>
      StyleRule.make selector [] declarations [] (map declarationsOnly children)
  end.

(** [inTree depth rules r]: the rule [r] stands [depth] levels below the
    array [rules] (its own elements at depth [0]). *)
Inductive inTree : nat -> list StyleRule.t -> StyleRule.t -> Prop :=
| inTree_here (rules : list StyleRule.t) (r : StyleRule.t) :
    In r rules -> inTree 0 rules r
| inTree_below (depth : nat) (rules : list StyleRule.t) (p r : StyleRule.t) :
    In p rules -> inTree depth (StyleRule.children p) r -> inTree (S depth) rules r.

End ScopedCss.

(** ** [:slotted()] and pseudo-element rules (forward.ts)

    The extraction functions mutate the rule array they are given and push
    onto [result]; here they return what they push together with the array
    as they leave it.  The rule trees handed to them are owned top-down (see
    the store of the resolver), so a rule taken out of its parent is reached
    from the result alone. *)

Module Slotted.
Import JsString ScopedCss.

Record SlottedRule := {
  selectorPath : list string;
  rule : StyleRule.t
}.

Definition isSlottedSelector (selector : string) : bool := includes selector ":slotted(".

Definition hasPseudoElement (selector : string) : bool := includes selector "::".

(** The loop [for (let i = rules.length - 1; i >= 0; i--)] shared by
    [extractSlottedRules] and [extractPseudoElementRules]: [n] is [i + 1],
    and [rules.splice(i, 1)] takes the element at [i] out.  The index stays
    below the length of the array, so [rules[i]] is always there. *)
Fixpoint spliceMatching (test : string -> bool) (n : nat) (rules : list StyleRule.t)
    (result : list SlottedRule) : list SlottedRule * list StyleRule.t :=
  match n with
  | O => (result, rules)
  | S i =>
      match rules !! i with
      | Some r =>
          if test (StyleRule.selector r)
          then spliceMatching test i (delete i rules) (result ++ [Build_SlottedRule [] r])
          else spliceMatching test i rules result
      | None => (result, rules)
      end
  end.

(** The body of the loop of [extractSlottedFromLevel] for one rule: what is
    pushed, and the rule as it is left.  The recursive call on
    [normalChildren] is the inner loop, which steps over the slotted
    children (see [extractSlottedFromRule_normal]). *)
Fixpoint extractSlottedFromRule (ancestorPath : list string) (r : StyleRule.t)
    : list SlottedRule * StyleRule.t :=
  match r with
  | StyleRule.make selector classes declarations uses children =>
      if isSlottedSelector selector then ([Build_SlottedRule ancestorPath r], r)
      else
        let newPath := ancestorPath ++ [selector] in
        let pushed :=
          map (Build_SlottedRule newPath)
            (List.filter (fun child => isSlottedSelector (StyleRule.selector child)) children) in
        let '(below, normalChildren) :=
          (fix level (cs : list StyleRule.t) : list SlottedRule * list StyleRule.t :=
             match cs with
             | [] => ([], [])
             | c :: rest =>
                 if isSlottedSelector (StyleRule.selector c) then level rest
                 else
                   let '(a, c') := extractSlottedFromRule newPath c in
                   let '(b, rest') := level rest in
                   (a ++ b, c' :: rest')
             end) children in
        (pushed ++ below, StyleRule.make selector classes declarations uses normalChildren)
  end.

Fixpoint extractSlottedFromLevel (rules : list StyleRule.t) (ancestorPath : list string)
    : list SlottedRule * list StyleRule.t :=
  match rules with
  | [] => ([], [])
  | r :: rest =>
      let '(a, r') := extractSlottedFromRule ancestorPath r in
      let '(b, rest') := extractSlottedFromLevel rest ancestorPath in
      (a ++ b, r' :: rest')
  end.

Definition extractSlottedRules (rules : list StyleRule.t)
    : list SlottedRule * list StyleRule.t :=
  let '(top, rules) := spliceMatching isSlottedSelector (length rules) rules [] in
  let '(below, rules) := extractSlottedFromLevel rules [] in
  (top ++ below, rules).

(** [extractPseudoElementFromChildren] *)
Fixpoint extractPseudoElementFromChildren (r : StyleRule.t) (ancestorPath : list string)
    : list SlottedRule * StyleRule.t :=
  match r with
  | StyleRule.make selector classes declarations uses children =>
      let pushed :=
        map (Build_SlottedRule ancestorPath)
          (List.filter (fun child => hasPseudoElement (StyleRule.selector child)) children) in
      let '(below, normalChildren) :=
        (fix level (cs : list StyleRule.t) : list SlottedRule * list StyleRule.t :=
           match cs with
           | [] => ([], [])
           | c :: rest =>
               if hasPseudoElement (StyleRule.selector c) then level rest
               else
                 let '(a, c') :=
                   extractPseudoElementFromChildren c
                     (ancestorPath ++ [StyleRule.selector c]) in
                 let '(b, rest') := level rest in
                 (a ++ b, c' :: rest')
           end) children in
      (pushed ++ below, StyleRule.make selector classes declarations uses normalChildren)
  end.

(** The loop over the rules that stay, [for (const child of normalChildren)]
    in [extractPseudoElementFromChildren] and [for (const rule of rules)] in
    [extractPseudoElementRules] (there with the empty path): each rule is
    gone through with its own selector added to the path. *)
Fixpoint extractPseudoElementFromEach (rules : list StyleRule.t) (ancestorPath : list string)
    : list SlottedRule * list StyleRule.t :=
  match rules with
  | [] => ([], [])
  | r :: rest =>
      let '(a, r') :=
        extractPseudoElementFromChildren r (ancestorPath ++ [StyleRule.selector r]) in
      let '(b, rest') := extractPseudoElementFromEach rest ancestorPath in
      (a ++ b, r' :: rest')
  end.

Definition extractPseudoElementRules (rules : list StyleRule.t)
    : list SlottedRule * list StyleRule.t :=
  let '(top, rules) := spliceMatching hasPseudoElement (length rules) rules [] in
  let '(below, rules) := extractPseudoElementFromEach rules [] in
  (top ++ below, rules).

Fixpoint hasSlottedContent (r : StyleRule.t) : bool :=
  match r with
  | StyleRule.make _ classes declarations _ children =>
      if nonEmpty classes || nonEmpty declarations then true
      else existsb hasSlottedContent children
  end.

Fixpoint emitSlottedRule (r : StyleRule.t) (depth : nat) : list string :=
  match r with
  | StyleRule.make selector classes declarations _ children =>
      if negb (hasSlottedContent r) then []
      else
        let indent := indentOf depth in
        let innerIndent := indentOf (depth + 1)%nat in
        [indent +:+ selector +:+ " {"]
        ++ (if nonEmpty classes
            then [innerIndent +:+ "@apply " +:+ join " " classes +:+ ";"] else [])
        ++ map (fun decl => innerIndent +:+ decl) declarations
        ++ flat_map (fun child => emitSlottedRule child (depth + 1)%nat) children
        ++ [indent +:+ "}"]
  end.

Fixpoint emitSlottedWithAncestors (ancestors : list string) (r : StyleRule.t) (depth : nat)
    : list string :=
  match ancestors with
  | [] => emitSlottedRule r depth
  | a :: rest =>
      let indent := indentOf depth in
      [indent +:+ a +:+ " {"]
      ++ emitSlottedWithAncestors rest r (depth + 1)%nat
      ++ [indent +:+ "}"]
  end.

(** [buildSlottedCSS]: [None] is [null]. *)
Definition buildSlottedCSS (slottedRules : list SlottedRule) : option string :=
  match slottedRules with
  | [] => None
  | _ :: _ =>
      let lines :=
        flat_map
          (fun sr =>
             if negb (hasSlottedContent (rule sr)) then []
             else emitSlottedWithAncestors (selectorPath sr) (rule sr) 0)
          slottedRules in
      if nonEmpty lines then Some (join newline lines) else None
  end.

(** [[scopedCSS, slottedCSS, pseudoElementCSS].filter(Boolean).join('\n')]
    of [forwardTransform]: [null] and the empty string are dropped. *)
Definition combineCSS (parts : list (option string)) : string :=
  join newline
    (omap (fun p => match p with
                    | Some s => if String.eqb s "" then None else Some s
                    | None => None
                    end) parts).

(** The tests of the two partitions of [rule.children]. *)
Definition slottedChild (r : StyleRule.t) : bool := isSlottedSelector (StyleRule.selector r).
Definition normalChild (r : StyleRule.t) : bool :=
  negb (isSlottedSelector (StyleRule.selector r)).
Definition pseudoChild (r : StyleRule.t) : bool := hasPseudoElement (StyleRule.selector r).
Definition plainChild (r : StyleRule.t) : bool :=
  negb (hasPseudoElement (StyleRule.selector r)).

(** No selector of the tree satisfies [test]. *)
Fixpoint noneMatching (test : string -> bool) (r : StyleRule.t) : bool :=
  match r with
  | StyleRule.make selector _ _ _ children =>
      negb (test selector) && forallb (noneMatching test) children
  end.

(** [reaches rules path r]: [r] is reached from the array [rules] through
    rules whose selectors are [path], in order ([r] itself is not on the
    path). *)
Inductive reaches : list StyleRule.t -> list string -> StyleRule.t -> Prop :=
| reaches_here (rules : list StyleRule.t) (r : StyleRule.t) :
    In r rules -> reaches rules [] r
| reaches_below (rules : list StyleRule.t) (p : StyleRule.t) (path : list string)
    (r : StyleRule.t) :
    In p rules -> reaches (StyleRule.children p) path r ->
    reaches rules (StyleRule.selector p :: path) r.

End Slotted.

(** ** Writing the classes into the template ([addClasses],
    [escapeAttrValue], forward.ts) *)

Module ClassAttr.
Import JsString ScopedCss.

Definition doubleQuote : string := String Parser.cDoubleQuote EmptyString.

(** [l.replace(/c/g, by)] for a one-character pattern. *)
Definition replaceAll (c : ascii) (by_ : string) (l : list ascii) : list ascii :=
  flat_map (fun x => if ceqb x c then chars by_ else [x]) l.

Definition escapeAttrValue (value : string) : string :=
  if negb (includes value doubleQuote) && negb (includes value "&") then value
  else str (replaceAll Parser.cDoubleQuote "&quot;" (replaceAll "&" "&amp;" (chars value))).

(** The two replacements of [escapeAttrValue] seen as one pass (see
    [escapeAttrValue_eq]). *)
Definition escapeChar (x : ascii) : list ascii :=
  if ceqb x "&" then chars "&amp;"
  else if ceqb x Parser.cDoubleQuote then chars "&quot;" else [x].

(** The fields of a [TemplateNode] that tie it to the source text. *)
Record Location := {
  startOffset : Z;
  afterTagNameOffset : Z;
  classAttrStart : option Z;
  classAttrEnd : option Z;
  classAttrValue : option string
}.

(** The edits [addClasses] asks of the [MagicString]. *)
Inductive Edit :=
| Overwrite (start end_ : Z) (content : string)
| AppendLeft (index : Z) (content : string).

Definition content (e : Edit) : string :=
  match e with
  | Overwrite _ _ c => c
  | AppendLeft _ c => c
  end.

(** [[...new Set(classes)]] *)
Definition dedupe (classes : list string) : list string := Resolver.setOfNames classes.

Definition addClasses (el : Location) (classes : list string) : Edit :=
  let dedupedClasses := dedupe classes in
  let classStr := join " " dedupedClasses in
  match classAttrStart el, classAttrEnd el with
  | Some start, Some end_ =>
      let existing := trim (default "" (classAttrValue el)) in
      let merged := if String.eqb existing "" then classStr
                    else existing +:+ " " +:+ classStr in
      Overwrite start end_ ("class=" +:+ doubleQuote +:+ escapeAttrValue merged +:+ doubleQuote)
  | _, _ =>
      AppendLeft (afterTagNameOffset el)
        (" class=" +:+ doubleQuote +:+ escapeAttrValue classStr +:+ doubleQuote)
  end.

(** What a reader of the attribute makes of the character references, the
    inverse of the two replacements: [n] is at least the length of [l]. *)
Fixpoint unescapeLoop (n : nat) (l : list ascii) : list ascii :=
  match n with
  | O => l
  | S n1 =>
      match l with
      | [] => []
      | c :: r =>
          if startsWithL (chars "&quot;") l then Parser.cDoubleQuote :: unescapeLoop n1 (drop 6 l)
          else if startsWithL (chars "&amp;") l then "&"%char :: unescapeLoop n1 (drop 5 l)
          else c :: unescapeLoop n1 r
      end
  end.

Definition unescapeAttrValue (value : string) : string :=
  str (unescapeLoop (length (chars value)) (chars value)).

End ClassAttr.

(** ** Text the scanners are specified on *)

Module Nesting.
Import JsString.

(** A character that starts no string, comment or bracket group and is no
    brace. *)
Definition isPlain (c : ascii) : bool :=
  negb (existsb (ceqb c) [Parser.cDoubleQuote; "'"; "/"; "["; "]"; "{"; "}"]%char).

(** Text made of plain characters and of well-nested [{ }] blocks. *)
Inductive Nested : list ascii -> Prop :=
| nested_nil : Nested []
| nested_plain (c : ascii) (rest : list ascii) :
    isPlain c = true -> Nested rest -> Nested (c :: rest)
| nested_block (inner rest : list ascii) :
    Nested inner -> Nested rest -> Nested ("{"%char :: inner ++ "}"%char :: rest).

(** Names written one after the other, a comma and a space between them. *)
Fixpoint commaSeparated (names : list (list ascii)) : list ascii :=
  match names with
  | [] => []
  | [n] => n
  | n :: rest => n ++ chars ", " ++ commaSeparated rest
  end.

(** A name of an export as the directives write it: word characters and
    hyphens, at least one. *)
Definition isName (n : list ascii) : bool :=
  match n with
  | [] => false
  | _ :: _ => forallb Parser.isNameChar n
  end.

(** The scanner state outside strings, comments and brackets. *)
Definition outside (depth : Z) : Parser.Scan := Parser.Build_Scan depth 0 None false.

End Nesting.

(** ** Well-formed parse results *)

Module WellFormed.
Import JsString.

(** A class name as it can be written into a [class] attribute: not empty,
    no whitespace inside. *)
Definition isClassToken (s : string) : bool :=
  negb (String.eqb s "") && forallb (fun c => negb (isWhitespace c)) (chars s).

(** A raw declaration: a trimmed line that ends with a semicolon. *)
Definition isDeclaration (s : string) : bool :=
  endsWith s ";" && String.eqb (trim s) s.

(** A [@use] with a proper name: a word character, then word characters
    and hyphens. *)
Definition isUse (u : UseDirective.t) : bool :=
  match chars (UseDirective.name u) with
  | c :: rest => isWordChar c && forallb Parser.isNameChar rest
  | [] => false
  end.

Definition isTrimmed (s : string) : bool := String.eqb (trim s) s.

Fixpoint rule (r : StyleRule.t) : bool :=
  match r with
  | StyleRule.make selector classes declarations uses children =>
      isTrimmed selector && forallb isClassToken classes
      && forallb isDeclaration declarations && forallb isUse uses
      && forallb rule children
  end.

Definition export (e : ExportBlock.t) : bool :=
  isTrimmed (ExportBlock.name e) && forallb isClassToken (ExportBlock.classes e)
  && forallb isDeclaration (ExportBlock.declarations e)
  && forallb isUse (ExportBlock.uses e) && forallb rule (ExportBlock.children e).

Definition body (b : Parser.Body) : bool :=
  forallb isClassToken (Parser.classes b) && forallb isDeclaration (Parser.declarations b)
  && forallb isUse (Parser.uses b) && forallb rule (Parser.children b).

Definition result (r : ParseResult.t) : bool :=
  forallb rule (ParseResult.rules r) && forallb export (ParseResult.exports r).

End WellFormed.

(** ** What inlining does to a rule tree *)

Module Inlining.

(** The array [rs] with the rule array under the path [p] replaced by
    [arr]. *)
Fixpoint setIn (rs : list StyleRule.t) (p : Resolver.Path) (arr : list StyleRule.t)
    : list StyleRule.t :=
  match p with
  | [] => arr
  | i :: p' =>
      alter (fun r => StyleRule.withChildren r (setIn (StyleRule.children r) p' arr)) i rs
  end.

(** [inlined r r']: [r'] is [r] after [@use] directives were inlined into
    it and below it: the same selector, the classes and declarations of [r]
    followed by those taken in, and the children of [r], inlined in turn,
    followed by the rules taken in.  The [@use] lists are not compared. *)
Inductive inlined : StyleRule.t -> StyleRule.t -> Prop :=
| inlined_rule (selector : string) (classes declarations : list string)
    (uses uses' : list UseDirective.t) (children children' : list StyleRule.t)
    (moreClasses moreDeclarations : list string) (moreChildren : list StyleRule.t) :
    Forall2 inlined children children' ->
    inlined (StyleRule.make selector classes declarations uses children)
            (StyleRule.make selector (classes ++ moreClasses)
               (declarations ++ moreDeclarations) uses' (children' ++ moreChildren)).

(** [touchedAt p i st st']: from [st] to [st'] the registry is as it was,
    and of the rules only the rule at index [i] of the array under [p] has
    changed, by inlining. *)
Definition touchedAt (p : Resolver.Path) (i : nat) (st st' : Resolver.Store) : Prop :=
  Resolver.registry st' = Resolver.registry st /\
  exists arr r r',
    Resolver.arrayIn (Resolver.rules st) p = Some arr /\ arr !! i = Some r /\
    inlined r r' /\
    Resolver.rules st' = setIn (Resolver.rules st) p (<[i := r']> arr).

(** [& { p-4 @use btn  > a { underline @use btn } }] with the export
    [btn { px-4 color: red; span { bold } }], and the store a pass leaves. *)
Definition usesBtn : ParseResult.t :=
  ParseResult.Build_t
    [StyleRule.make "&" ["p-4"] [] [Resolver.useOf "btn"]
       [StyleRule.make "> a" ["underline"] [] [Resolver.useOf "btn"] []]]
    [ExportBlock.Build_t "btn" ["px-4"] ["color: red;"] []
       [StyleRule.make "span" ["bold"] [] [] []]]
    [].

Definition usesBtnResolved : Resolver.Store :=
  Resolver.Build_Store
    [("btn", ExportBlock.Build_t "btn" ["px-4"] ["color: red;"] []
               [StyleRule.make "span" ["bold"] [] [] []])]
    [StyleRule.make "&" ["p-4"; "px-4"] ["color: red;"] []
       [StyleRule.make "> a" ["underline"; "px-4"] ["color: red;"] []
          [StyleRule.make "span" ["bold"] [] [] []];
        StyleRule.make "span" ["bold"] [] [] []]]
    ∅ ∅ [].

(** The targets that lie in the export registry. *)
Definition inRegistry (t : Resolver.Target) : bool :=
  match t with
  | Resolver.TExport _ => true
  | Resolver.TRule (Resolver.InExport _) _ => true
  | Resolver.TRule Resolver.InRules _ => false
  end.

End Inlining.

(** ** The dependency table ([state.importDeps]) *)

Module Dependents.
Import Resolver.

(** [state.importDeps]: a [Map] from a consumer file to the set of files it
    takes exports from, in insertion order. *)
Definition ImportDeps := list (string * gset string).

(** [importDeps.set(key, v)]: a key already there keeps its place. *)
Fixpoint mapSet (m : ImportDeps) (key : string) (v : gset string) : ImportDeps :=
  match m with
  | [] => [(key, v)]
  | (k, x) :: rest =>
      if String.eqb k key then (k, v) :: rest else (k, x) :: mapSet rest key v
  end.

(** [importDeps.delete(key)]. *)
Definition mapDelete (m : ImportDeps) (key : string) : ImportDeps :=
  List.filter (fun e => negb (String.eqb (fst e) key)) m.

Section State.

(** [path.resolve] with one argument and with two, and the loader. *)
Variable resolve : string -> string.
Variable resolvePath : string -> string -> string.
Variable extractExportsFromFile : string -> list ExportBlock.t.
Variable dirname : string -> string.

(** The end of [resolveDirectives]: the dependency set of the file replaces
    the one recorded for it, or the entry is deleted when the set is empty. *)
Definition storeImportDeps (absFilePath : string) (deps : gset string) (m : ImportDeps)
    : ImportDeps :=
  if bool_decide (deps = ∅) then mapDelete m absFilePath else mapSet m absFilePath deps.

(** [resolveDirectives(result, filePath, state)] with the table of the
    state: the rules returned and the table left. *)
Definition resolveDirectivesFor (fuel : nat) (result : ParseResult.t) (filePath : string)
    (importDeps : ImportDeps) : option (list StyleRule.t * ImportDeps) :=
  st ← resolveDirectives resolvePath extractExportsFromFile (dirname filePath) fuel result;
  Some (rules st, storeImportDeps (resolve filePath) (deps st) importDeps).

(** [getImportDependents(providerPath, state)]. *)
Definition getImportDependents (providerPath : string) (importDeps : ImportDeps)
    : list string :=
  let abs := resolve providerPath in
  map fst (List.filter (fun e => bool_decide (abs ∈ snd e)) importDeps).

End State.

(** A file that imports [btn] from [./ui.vue], and a table in which another
    file already depends on the same provider. *)
Definition importsBtn : ParseResult.t :=
  ParseResult.Build_t [] [] [ImportDirective.Build_t ["btn"] "./ui.vue"].

Definition otherDeps : ImportDeps := [("/app/Other.vue", {["/app/./ui.vue"]})].

End Dependents.

(** ** Collecting the classes of each element ([collectClasses]) *)

Module Collect.
Import Template Selector Engine ScopedCss.

(** [classMap]: a [Map] from an element to the classes collected for it, in
    insertion order. *)
Definition ClassMap := list (NodeRef * list string).

Fixpoint classMapGet (m : ClassMap) (el : NodeRef) : option (list string) :=
  match m with
  | [] => None
  | (k, v) :: rest => if Nat.eqb k el then Some v else classMapGet rest el
  end.

Fixpoint classMapSet (m : ClassMap) (el : NodeRef) (v : list string) : ClassMap :=
  match m with
  | [] => [(el, v)]
  | (k, x) :: rest =>
      if Nat.eqb k el then (k, v) :: rest else (k, x) :: classMapSet rest el v
  end.

(** The two collections [collectClasses] fills.  A rule object is named by
    its path in the rule tree: no rule object stands at two places of the
    tree, since what is inlined is cloned. *)
Record Collected := {
  classMap : ClassMap;
  matchedRules : gset Resolver.Path
}.

(** [classMap.get(el) || []] *)
Definition classesOf (m : ClassMap) (el : NodeRef) : list string :=
  default [] (classMapGet m el).

(** The [if (rule.classes.length > 0)] block of the loop. *)
Definition pushClassesOf (classes : list string) (el : NodeRef) (m : ClassMap) : ClassMap :=
  if nonEmpty classes then classMapSet m el (classesOf m el ++ classes) else m.

Section Collecting.

Variable heap : Heap.
(** [selectorParser().astSync(selector).nodes]; [None] when it throws. *)
Variable astSync : string -> option (list Node).
Variable fuel : nat.

Fixpoint collectClasses (rule : StyleRule.t) (path : Resolver.Path)
    (scopeElements : list NodeRef) (parentMatched : option (list NodeRef))
    (acc : Collected) {struct rule} : option Collected :=
  match rule with
  | StyleRule.make selector classes _ _ childRules =>
      ast ← astSync selector;
      matched ← matchSelector heap fuel ast scopeElements parentMatched;
      let acc :=
        if nonEmpty matched then Build_Collected (classMap acc) ({[path]} ∪ matchedRules acc)
        else acc in
      (fix forEach (els : list NodeRef) (acc : Collected) {struct els} : option Collected :=
         match els with
         | [] => Some acc
         | el :: rest =>
             let acc :=
               Build_Collected (pushClassesOf classes el (classMap acc)) (matchedRules acc) in
             acc ← (fix forChildren (rs : list StyleRule.t) (i : nat) (acc : Collected)
                        {struct rs} : option Collected :=
                      match rs with
                      | [] => Some acc
                      | childRule :: rs' =>
                          acc ← collectClasses childRule (path ++ [i]) (children (heap el))
                                  (Some [el]) acc;
                          forChildren rs' (S i) acc
                      end) childRules 0%nat acc;
             forEach rest acc
         end) matched acc
  end.

(** The loop over the children of a rule for one matched element, and the
    loop over the matched elements, as functions of their own. *)
Fixpoint collectChildren (path : Resolver.Path) (el : NodeRef) (rs : list StyleRule.t)
    (i : nat) (acc : Collected) : option Collected :=
  match rs with
  | [] => Some acc
  | childRule :: rs' =>
      acc ← collectClasses childRule (path ++ [i]) (children (heap el)) (Some [el]) acc;
      collectChildren path el rs' (S i) acc
  end.

Fixpoint collectMatched (rule : StyleRule.t) (path : Resolver.Path) (els : list NodeRef)
    (acc : Collected) : option Collected :=
  match els with
  | [] => Some acc
  | el :: rest =>
      let acc :=
        Build_Collected (pushClassesOf (StyleRule.classes rule) el (classMap acc))
          (matchedRules acc) in
      acc ← collectChildren path el (StyleRule.children rule) 0 acc;
      collectMatched rule path rest acc
  end.

(** Phase 1 of [forwardTransform]: [for (const rule of rules)
    collectClasses(rule, templateNodes, classMap, matchedRules)]. *)
Fixpoint collectAll (rules : list StyleRule.t) (i : nat) (templateNodes : list NodeRef)
    (acc : Collected) : option Collected :=
  match rules with
  | [] => Some acc
  | rule :: rest =>
      acc ← collectClasses rule [i] templateNodes None acc;
      collectAll rest (S i) templateNodes acc
  end.

(** [applies rule path scope parentMatched el q r]: in the walk of
    [collectClasses] from [rule], which stands at [path], the rule [r] at
    the path [q] is applied to the element [el]: [el] is matched by the
    selector of [r], among [scope] for [rule] itself and among the children
    of an element the rule above it is applied to for the rules below. *)
Inductive applies : StyleRule.t -> Resolver.Path -> list NodeRef -> option (list NodeRef) ->
                    NodeRef -> Resolver.Path -> StyleRule.t -> Prop :=
| applies_here (rule : StyleRule.t) (path : Resolver.Path) (scope : list NodeRef)
    (parentMatched : option (list NodeRef)) (ast : list Node) (matched : list NodeRef)
    (el : NodeRef) :
    astSync (StyleRule.selector rule) = Some ast ->
    matchSelector heap fuel ast scope parentMatched = Some matched ->
    In el matched ->
    applies rule path scope parentMatched el path rule
| applies_below (rule : StyleRule.t) (path : Resolver.Path) (scope : list NodeRef)
    (parentMatched : option (list NodeRef)) (ast : list Node) (matched : list NodeRef)
    (above : NodeRef) (i : nat) (childRule : StyleRule.t)
    (el : NodeRef) (q : Resolver.Path) (r : StyleRule.t) :
    astSync (StyleRule.selector rule) = Some ast ->
    matchSelector heap fuel ast scope parentMatched = Some matched ->
    In above matched ->
    StyleRule.children rule !! i = Some childRule ->
    applies childRule (path ++ [i]) (Template.children (heap above)) (Some [above]) el q r ->
    applies rule path scope parentMatched el q r.

(** The same from the top-level rules, matched against the root nodes. *)
Definition appliesIn (rules : list StyleRule.t) (templateNodes : list NodeRef)
    (el : NodeRef) (q : Resolver.Path) (r : StyleRule.t) : Prop :=
  exists i rule, rules !! i = Some rule /\ applies rule [i] templateNodes None el q r.

(** What a step of the walk adds to the two collections, when it applies
    the rules of [P]: their classes to the elements, their paths to the
    matched rules. *)
Definition adds (acc acc' : Collected) (P : NodeRef -> Resolver.Path -> StyleRule.t -> Prop)
    : Prop :=
  (forall el c,
     In c (classesOf (classMap acc') el) <->
     In c (classesOf (classMap acc) el) \/
     exists q r, P el q r /\ In c (StyleRule.classes r)) /\
  (forall q,
     q ∈ matchedRules acc' <->
     q ∈ matchedRules acc \/ exists el r, P el q r).

(** An entry for each element at most, and no entry without a class. *)
Definition wellKept (m : ClassMap) : Prop :=
  List.NoDup (map fst m) /\ Forall (fun e => snd e <> []) m.

(** What [collectClasses] does from a rule, wherever it is called. *)
Definition walked (rule : StyleRule.t) : Prop :=
  forall path scope parentMatched acc acc',
    collectClasses rule path scope parentMatched acc = Some acc' ->
    adds acc acc' (applies rule path scope parentMatched) /\
    (wellKept (classMap acc) -> wellKept (classMap acc')).

End Collecting.

(** *** Warnings for the rules that matched nothing ([warnUnmatchedRules]) *)

(** The warning for a selector, with or without the note on dynamic
    [:class] bindings. *)
Inductive UnmatchedWarning :=
| Unmatched (selector : string) (dynamicClassNote : bool).

Definition hasContent (rule : StyleRule.t) : bool :=
  nonEmpty (StyleRule.classes rule) || nonEmpty (StyleRule.declarations rule)
  || nonEmpty (StyleRule.children rule).

Definition unmatchedWarning (hasDynClass : bool) (rule : StyleRule.t) : UnmatchedWarning :=
  Unmatched (StyleRule.selector rule)
    (hasDynClass && JsString.includes (StyleRule.selector rule) ".").

Section Warnings.

Variable matched : gset Resolver.Path.
Variable hasDynClass : bool.

(** The body of the loop of [warnUnmatchedRules] for the rule at [path]. *)
Fixpoint warnUnmatchedRule (rule : StyleRule.t) (path : Resolver.Path) {struct rule}
    : list UnmatchedWarning :=
  match rule with
  | StyleRule.make selector classes declarations _ childRules =>
      let below :=
        (fix each (rs : list StyleRule.t) (i : nat) {struct rs} : list UnmatchedWarning :=
           match rs with
           | [] => []
           | c :: rs' => warnUnmatchedRule c (path ++ [i]) ++ each rs' (S i)
           end) childRules 0%nat in
      if String.eqb selector "&" then below
      else if negb (bool_decide (path ∈ matched)) then
        if hasContent rule then [unmatchedWarning hasDynClass rule] else []
      else below
  end.

(** [warnUnmatchedRules] on the rule array under [path], from its element
    [i] on. *)
Fixpoint warnUnmatchedRules (rules : list StyleRule.t) (path : Resolver.Path) (i : nat)
    : list UnmatchedWarning :=
  match rules with
  | [] => []
  | rule :: rest => warnUnmatchedRule rule (path ++ [i]) ++ warnUnmatchedRules rest path (S i)
  end.

End Warnings.

(** [reported isMatched rule path q r]: the walk of [warnUnmatchedRules] from
    [rule], which stands at [path], reports the rule [r] at [q]: [r] is not
    [&], has content and is not matched, and every rule above it from
    [rule] on is [&] or is matched. *)
Inductive reported (isMatched : Resolver.Path -> Prop) :
    StyleRule.t -> Resolver.Path -> Resolver.Path -> StyleRule.t -> Prop :=
| reported_here (rule : StyleRule.t) (path : Resolver.Path) :
    StyleRule.selector rule <> "&" -> ~ isMatched path -> hasContent rule = true ->
    reported isMatched rule path path rule
| reported_below (rule : StyleRule.t) (path : Resolver.Path) (i : nat)
    (childRule : StyleRule.t) (q : Resolver.Path) (r : StyleRule.t) :
    StyleRule.selector rule = "&" \/ isMatched path ->
    StyleRule.children rule !! i = Some childRule ->
    reported isMatched childRule (path ++ [i]) q r ->
    reported isMatched rule path q r.

Definition reportedIn (isMatched : Resolver.Path -> Prop) (rules : list StyleRule.t)
    (q : Resolver.Path) (r : StyleRule.t) : Prop :=
  exists i rule, rules !! i = Some rule /\ reported isMatched rule [i] q r.

(** [figure { p-2 img { w-4 } }] on the template of [Examples.imgHeap], with
    the two selectors as the selector parser reads them, and what the walk
    collects. *)
Definition figureRules : list StyleRule.t :=
  [StyleRule.make "figure" ["p-2"] [] [] [StyleRule.make "img" ["w-4"] [] [] []]].

Definition figureAst (selector : string) : option (list Node) :=
  if String.eqb selector "figure" then Some [NSelector "figure" [NTag "figure"]]
  else if String.eqb selector "img" then Some [NSelector "img" [NTag "img"]]
  else None.

Definition figureCollected : Collected :=
  Build_Collected
    [(Examples.figure, ["p-2"]); (Examples.figureImg, ["w-4"])]
    ({[ [0%nat; 0%nat] ]} ∪ ({[ [0%nat] ]} ∪ ∅)).

(** The same with a rule [aside { m-1 }] after it, which matches nothing in
    that template. *)
Definition asideRules : list StyleRule.t :=
  figureRules ++ [StyleRule.make "aside" ["m-1"] [] [] []].

Definition asideAst (selector : string) : option (list Node) :=
  if String.eqb selector "aside" then Some [NSelector "aside" [NTag "aside"]]
  else figureAst selector.

End Collect.

(** ** Removing the style block ([removeStyleBlock]) *)

Module StyleBlock.
Import JsString.

(** [l.lastIndexOf(pat)], [None] for [-1]. *)
Fixpoint lastIndexOfL (pat l : list ascii) : option nat :=
  match l with
  | [] => if startsWithL pat [] then Some O else None
  | _ :: r =>
      match lastIndexOfL pat r with
      | Some i => Some (S i)
      | None => if startsWithL pat l then Some O else None
      end
  end.

Definition orMinusOne (i : option nat) : Z :=
  match i with
  | Some n => Z.of_nat n
  | None => (-1)%Z
  end.

(** [c === '\n' || c === '\r'], false for [undefined]. *)
Definition isLineBreak (c : ascii) : bool :=
  ceqb c (ascii_of_nat 10) || ceqb c (ascii_of_nat 13).

(** [while (removeStart > 0 && isLineBreak(code[removeStart - 1])) removeStart--] *)
Fixpoint backOver (code : list ascii) (removeStart : nat) : nat :=
  match removeStart with
  | O => O
  | S i =>
      match code !! i with
      | Some c => if isLineBreak c then backOver code i else removeStart
      | None => removeStart
      end
  end.

(** [while (removeEnd < code.length && isLineBreak(code[removeEnd])) removeEnd++],
    on the text from [removeEnd] on. *)
Fixpoint forwardOver (rest : list ascii) (removeEnd : nat) : nat :=
  match rest with
  | c :: rest' => if isLineBreak c then forwardOver rest' (S removeEnd) else removeEnd
  | [] => removeEnd
  end.

(** [removeStyleBlock]: the two arguments of [s.remove]; [startOffset] and
    [endOffset] are [ftStyle.loc.start.offset] and [ftStyle.loc.end.offset]. *)
Definition removeStyleBlock (code : list ascii) (startOffset endOffset : nat) : Z * Z :=
  let before := Parser.substring code 0 startOffset in
  let styleTagStart := lastIndexOfL (chars "<style") before in
  let after := Parser.substringFrom code endOffset in
  let closeIdx := orMinusOne (Parser.indexOfL (chars "</style>") after) in
  let styleTagEnd :=
    Z.to_nat (Z.of_nat endOffset + closeIdx + Z.of_nat (String.length "</style>")) in
  let removeStart :=
    match styleTagStart with
    | Some s => Z.of_nat (backOver code s)
    | None => (-1)%Z
    end in
  let removeEnd := Z.of_nat (forwardOver (drop styleTagEnd code) styleTagEnd) in
  (removeStart, removeEnd).

(** [<p/>], a line break, [<style>div { p-4 }</style>] and a line break: the
    content of the style block runs from offset 12 to offset 23. *)
Definition sfcExample : list ascii :=
  chars "<p/>" ++ [ascii_of_nat 10] ++ chars "<style>div { p-4 }</style>" ++ [ascii_of_nat 10].

End StyleBlock.

(** ** Building the template tree (parser/template-tree) *)

Module TemplateTree.
Import JsString Template.

(** [tagType] of an element of Vue's template AST: 0, 1, 2 and 3. *)
Inductive TagType :=
| TagElement
| TagComponent
| TagSlot
| TagTemplate.

(** A prop of an element: a static attribute (type 6) with the content of
    its value, when it has one, and the offsets of its place in the source;
    or a directive (type 7) with its name and the content of its argument. *)
Inductive VProp :=
| Attribute (name : string) (value : option string) (locStart locEnd : Z)
| Directive (name : string) (arg : option string).

(** A node of the AST: an element (type 1), or anything else (text,
    comment, interpolation). *)
Inductive VNode :=
| VElement (tagType : TagType) (tag : string) (props : list VProp) (children : list VNode)
    (startOffset : Z)
| VOther.

Definition VUE_TRANSPARENT_COMPONENTS : list string :=
  ["Transition"; "transition"; "KeepAlive"; "keep-alive"; "Suspense"; "suspense";
   "Teleport"; "teleport"].

Inductive ConditionalDirective :=
| If
| ElseIf
| Else.

Fixpoint getConditionalDirective (props : list VProp) : option ConditionalDirective :=
  match props with
  | [] => None
  | Directive name _ :: rest =>
      if String.eqb name "if" then Some If
      else if String.eqb name "else-if" then Some ElseIf
      else if String.eqb name "else" then Some Else
      else getConditionalDirective rest
  | Attribute _ _ _ _ :: rest => getConditionalDirective rest
  end.

Definition hasVHtmlDirective (props : list VProp) : bool :=
  existsb (fun prop => match prop with
                       | Directive name _ => String.eqb name "html"
                       | Attribute _ _ _ _ => false
                       end) props.

(** A node object: the fields the matcher reads and the fields that tie the
    element to the source text. *)
Record NodeObject := {
  node : TemplateNode;
  location : ClassAttr.Location
}.

Definition withChildren (o : NodeObject) (v : list NodeRef) : NodeObject :=
  let n := node o in
  Build_NodeObject
    (Build_TemplateNode (tag n) (id n) (classes n) (attributes n) (parent n) v
       (conditional n) (hasDynamicClass n))
    (location o).

Definition withConditional (o : NodeObject) (v : Conditional) : NodeObject :=
  let n := node o in
  Build_NodeObject
    (Build_TemplateNode (tag n) (id n) (classes n) (attributes n) (parent n) (children n)
       (Some v) (hasDynamicClass n))
    (location o).

(** The local variables of the loop over the props in [buildNode].  The
    assignment [attributes[prop.name] = ...] makes an own key of every name
    but [__proto__]: there it calls the setter of [Object.prototype], which
    ignores a string and [true]. *)
Record PropsRead := {
  readClassAttrValue : option string;
  readClassAttrStart : option Z;
  readClassAttrEnd : option Z;
  readId : option string;
  readHasDynamicClass : bool;
  readAttributes : gmap string AttrValue
}.

Definition readProp (acc : PropsRead) (prop : VProp) : PropsRead :=
  match prop with
  | Attribute name value locStart locEnd =>
      let acc :=
        if String.eqb name "class" then
          Build_PropsRead (Some (default "" value)) (Some locStart) (Some locEnd)
            (readId acc) (readHasDynamicClass acc) (readAttributes acc)
        else if String.eqb name "id" then
          Build_PropsRead (readClassAttrValue acc) (readClassAttrStart acc)
            (readClassAttrEnd acc) value (readHasDynamicClass acc) (readAttributes acc)
        else acc in
      Build_PropsRead (readClassAttrValue acc) (readClassAttrStart acc) (readClassAttrEnd acc)
        (readId acc) (readHasDynamicClass acc)
        (if String.eqb name "__proto__" then readAttributes acc
         else <[name := match value with
                        | Some content => AttrString content
                        | None => AttrTrue
                        end]> (readAttributes acc))
  | Directive name arg =>
      if String.eqb name "bind"
         && match arg with
            | Some content => String.eqb content "class"
            | None => true
            end
      then
        Build_PropsRead (readClassAttrValue acc) (readClassAttrStart acc)
          (readClassAttrEnd acc) (readId acc) true (readAttributes acc)
      else acc
  end.

Definition readProps (props : list VProp) : PropsRead :=
  fold_left readProp props (Build_PropsRead None None None None false ∅).

(** The object [buildNode] makes, before its children are extracted. *)
Definition newNode (tag : string) (props : list VProp) (startOffset : Z)
    (parent : option NodeRef) : NodeObject :=
  let read := readProps props in
  let classes :=
    match readClassAttrValue read with
    | Some v =>
        if String.eqb v "" then []
        else List.filter (fun w => negb (String.eqb w "")) (splitWs v)
    | None => []
    end in
  Build_NodeObject
    (Build_TemplateNode tag (readId read) classes (readAttributes read) parent [] None
       (readHasDynamicClass read))
    (ClassAttr.Build_Location startOffset
       (startOffset + 1 + Z.of_nat (String.length tag))
       (readClassAttrStart read) (readClassAttrEnd read) (readClassAttrValue read)).

(** The node objects made so far, a reference being the index of the
    object, and [chainCounter.value]. *)
Record Build := {
  nodes : list NodeObject;
  chainCounter : Z
}.

(** [currentChainId] and [currentBranchIdx] of one run of [extractElements]. *)
Record Chain := {
  currentChainId : option Z;
  currentBranchIdx : Z
}.

Definition noChain : Chain := Build_Chain None 0.

(** The step of the loop that follows the conditional directive of a child. *)
Definition followDirective (props : list VProp) (chain : Chain) (st : Build) : Chain * Build :=
  match getConditionalDirective props with
  | Some If =>
      (Build_Chain (Some (chainCounter st)) 0, Build_Build (nodes st) (chainCounter st + 1))
  | Some ElseIf | Some Else =>
      (Build_Chain (currentChainId chain) (currentBranchIdx chain + 1), st)
  | None => (Build_Chain None (currentBranchIdx chain), st)
  end.

Definition conditionalOf (chain : Chain) : option Conditional :=
  match currentChainId chain with
  | Some chainId => Some (Build_Conditional chainId (currentBranchIdx chain))
  | None => None
  end.

(** [for (const h of hoisted) if (!h.conditional) h.conditional = conditional] *)
Definition markHoisted (conditional : option Conditional) (hoisted : list NodeRef)
    (st : Build) : Build :=
  match conditional with
  | Some c =>
      Build_Build
        (fold_left
           (fun ns h =>
              alter (fun o => match Template.conditional (node o) with
                              | Some _ => o
                              | None => withConditional o c
                              end) h ns)
           hoisted (nodes st))
        (chainCounter st)
  | None => st
  end.

Definition isTransparent (tagType : TagType) (tag : string) : bool :=
  match tagType with
  | TagComponent => existsb (String.eqb tag) VUE_TRANSPARENT_COMPONENTS
  | _ => false
  end.

(** The body of the loop of [extractElements] for one child, [buildNode]
    included: the references pushed to [result], and the loop variables and
    the node objects as the step leaves them. *)
Fixpoint extractChild (child : VNode) (parent : option NodeRef) (chain : Chain) (st : Build)
    {struct child} : list NodeRef * Chain * Build :=
  match child with
  | VOther => ([], chain, st)
  | VElement tagType tag props childNodes startOffset =>
      let elements :=
        fix elements (cs : list VNode) (parent : option NodeRef) (chain : Chain) (st : Build)
            {struct cs} : list NodeRef * Build :=
          match cs with
          | [] => ([], st)
          | c :: cs' =>
              let '(pushed, chain, st) := extractChild c parent chain st in
              let '(rest, st) := elements cs' parent chain st in
              (pushed ++ rest, st)
          end in
      match tagType with
      | TagSlot => ([], chain, st)
      | _ =>
          let '(chain, st) := followDirective props chain st in
          let conditional := conditionalOf chain in
          if isTransparent tagType tag then
            let '(hoisted, st) := elements childNodes parent noChain st in
            (hoisted, chain, markHoisted conditional hoisted st)
          else
            match tagType with
            | TagTemplate =>
                let '(hoisted, st) := elements childNodes parent noChain st in
                (hoisted, chain, markHoisted conditional hoisted st)
            | _ =>
                let el := length (nodes st) in
                let st :=
                  Build_Build (nodes st ++ [newNode tag props startOffset parent])
                    (chainCounter st) in
                let st :=
                  if hasVHtmlDirective props then st
                  else
                    let '(kids, st) := elements childNodes (Some el) noChain st in
                    Build_Build (alter (fun o => withChildren o kids) el (nodes st))
                      (chainCounter st) in
                let st :=
                  match conditional with
                  | Some c =>
                      Build_Build (alter (fun o => withConditional o c) el (nodes st))
                        (chainCounter st)
                  | None => st
                  end in
                ([el], chain, st)
            end
      end
  end.

(** [extractElements(children, parent, chainCounter)], from the loop
    variables [chain]. *)
Fixpoint extractElementsFrom (cs : list VNode) (parent : option NodeRef) (chain : Chain)
    (st : Build) : list NodeRef * Build :=
  match cs with
  | [] => ([], st)
  | c :: cs' =>
      let '(pushed, chain, st) := extractChild c parent chain st in
      let '(rest, st) := extractElementsFrom cs' parent chain st in
      (pushed ++ rest, st)
  end.

Definition extractElements (cs : list VNode) (parent : option NodeRef) (st : Build)
    : list NodeRef * Build :=
  extractElementsFrom cs parent noChain st.

(** [buildTemplateTree(ast)], [children] being [ast.children || []]: the root
    nodes and the node objects. *)
Definition buildTemplateTree (children : list VNode) : list NodeRef * list NodeObject :=
  let '(roots, st) := extractElements children None (Build_Build [] 0) in
  (roots, nodes st).

(** The node objects as the matcher sees them. *)
Definition heapOf (objects : list NodeObject) : Heap :=
  fun r =>
    match objects !! r with
    | Some o => node o
    | None => Build_TemplateNode "" None [] ∅ None [] None false
    end.

(** The parent and the children of each node object. *)
Definition shape (objects : list NodeObject) : list (option NodeRef * list NodeRef) :=
  map (fun o => (parent (node o), children (node o))) objects.

(** [grown parent s s' pushed]: from [s] to [s'] node objects were added
    and none was changed; the nodes [pushed] are new, different from each
    other, and have the parent [parent]; a new node is one of [pushed] or a
    child of a new node; and the children of a new node are new, different
    from each other, and have that node as their parent. *)
Definition grown (parent : option NodeRef) (s s' : list (option NodeRef * list NodeRef))
    (pushed : list NodeRef) : Prop :=
  (exists new, s' = s ++ new) /\
  List.NoDup pushed /\
  (forall r : nat,
     In r pushed ->
     (length s <= r)%nat /\ exists ch : list NodeRef, s' !! r = Some (parent, ch)) /\
  (forall (c : nat) (pc : option NodeRef) (ch : list NodeRef),
     (length s <= c)%nat -> s' !! c = Some (pc, ch) ->
     (In c pushed /\ pc = parent) \/
     (exists (p : nat) (pp : option NodeRef) (pch : list NodeRef),
        (length s <= p)%nat /\ s' !! p = Some (pp, pch) /\ pc = Some p /\ In c pch)) /\
  (forall (p : nat) (pp : option NodeRef) (pch : list NodeRef),
     (length s <= p)%nat -> s' !! p = Some (pp, pch) ->
     List.NoDup pch /\
     forall c : nat,
       In c pch ->
       (length s <= c)%nat /\ exists cch : list NodeRef, s' !! c = Some (Some p, cch)).

(** What a step of the extraction from a child keeps. *)
Definition extracted (child : VNode) : Prop :=
  forall parent chain st pushed chain' st',
    extractChild child parent chain st = (pushed, chain', st') ->
    grown parent (shape (nodes st)) (shape (nodes st')) pushed.

(** A node object without its links to other nodes and without its place
    in a conditional chain. *)
Definition unlinked (o : NodeObject) : NodeObject :=
  let n := node o in
  Build_NodeObject
    (Build_TemplateNode (tag n) (id n) (classes n) (attributes n) None [] None
       (hasDynamicClass n))
    (location o).

(** The elements of the AST that are rendered as elements of their own, in
    document order, each as [buildNode] reads it: not the slots, not the
    [<template>] wrappers and the transparent components, which stand for
    their children, and nothing below an element with [v-html]. *)
Fixpoint rendered (n : VNode) : list NodeObject :=
  match n with
  | VOther => []
  | VElement tagType tag props childNodes startOffset =>
      match tagType with
      | TagSlot => []
      | _ =>
          if isTransparent tagType tag
             || match tagType with TagTemplate => true | _ => false end
          then flat_map rendered childNodes
          else
            newNode tag props startOffset None
            :: (if hasVHtmlDirective props then [] else flat_map rendered childNodes)
      end
  end.

End TemplateTree.
(** * Properties *)

(** ** String primitives against their specifications *)

Section StringFacts.
Import JsString.

Lemma str_chars (s : string) : str (chars s) = s.
Proof. apply string_of_list_ascii_of_string. Qed.

Lemma chars_str (l : list ascii) : chars (str l) = l.
Proof. apply list_ascii_of_string_of_list_ascii. Qed.

Lemma chars_inj (a b : string) : chars a = chars b -> a = b.
Proof. intros H. rewrite <- (str_chars a), <- (str_chars b). now rewrite H. Qed.

Lemma chars_app (a b : string) : chars (a +:+ b) = chars a ++ chars b.
Proof. induction a as [|c a IH]; simpl; [reflexivity|]. unfold chars in *. simpl. now rewrite IH. Qed.

Lemma ceqb_eq (a b : ascii) : ceqb a b = true <-> a = b.
Proof. apply Ascii.eqb_eq. Qed.

Lemma startsWithL_spec (p s : list ascii) :
  startsWithL p s = true <-> exists r, s = p ++ r.
Proof.
  revert s. induction p as [|a p IH]; intros s; simpl.
  - split; [intros _; now exists s | reflexivity].
  - destruct s as [|b s].
    + split; [discriminate | intros [r Hr]; discriminate].
    + rewrite andb_true_iff, ceqb_eq, IH. split.
      * intros [-> [r ->]]. now exists r.
      * intros [r Hr]. injection Hr as -> ->. split; [reflexivity | now exists r].
Qed.

Lemma endsWithL_spec (p s : list ascii) :
  endsWithL p s = true <-> exists r, s = r ++ p.
Proof.
  unfold endsWithL. rewrite startsWithL_spec. split.
  - intros [r Hr]. exists (rev r).
    rewrite <- (rev_involutive s), Hr, rev_app_distr. now rewrite rev_involutive.
  - intros [r ->]. exists (rev r). now rewrite rev_app_distr.
Qed.

Lemma includesL_spec (p s : list ascii) :
  includesL p s = true <-> exists a b, s = a ++ p ++ b.
Proof.
  induction s as [|c s IH]; simpl.
  - rewrite orb_false_r, startsWithL_spec. split.
    + intros [r Hr]. now exists [], r.
    + intros [a [b Hab]]. destruct a; simpl in Hab.
      * now exists b.
      * discriminate.
  - rewrite orb_true_iff, startsWithL_spec, IH. split.
    + intros [[r Hr] | [a [b Hab]]].
      * now exists [], r.
      * exists (c :: a), b. simpl. now rewrite Hab.
    + intros [a [b Hab]]. destruct a as [|c' a]; simpl in Hab.
      * left. now exists b.
      * right. injection Hab as _ ->. now exists a, b.
Qed.

Lemma startsWith_spec (s p : string) :
  startsWith s p = true <-> exists r, s = p +:+ r.
Proof.
  unfold startsWith. rewrite startsWithL_spec. split.
  - intros [r Hr]. exists (str r). apply chars_inj. now rewrite chars_app, chars_str.
  - intros [r ->]. exists (chars r). apply chars_app.
Qed.

Lemma endsWith_spec (s p : string) :
  endsWith s p = true <-> exists r, s = r +:+ p.
Proof.
  unfold endsWith. rewrite endsWithL_spec. split.
  - intros [r Hr]. exists (str r). apply chars_inj. now rewrite chars_app, chars_str.
  - intros [r ->]. exists (chars r). apply chars_app.
Qed.

Lemma includes_spec (s p : string) :
  includes s p = true <-> exists a b, s = a +:+ p +:+ b.
Proof.
  unfold includes. rewrite includesL_spec. split.
  - intros [a [b Hab]]. exists (str a), (str b). apply chars_inj.
    now rewrite !chars_app, !chars_str.
  - intros [a [b ->]]. exists (chars a), (chars b). now rewrite !chars_app.
Qed.

End StringFacts.

Section TrimFacts.
Import JsString.

Lemma dropWhile_headKept (l : list ascii) : headKept (dropWhile isWhitespace l).
Proof.
  induction l as [|c l IH]; simpl; [exact I|].
  destruct (isWhitespace c) eqn:Hc; [exact IH | exact Hc].
Qed.

Lemma dropWhile_kept (l : list ascii) : headKept l -> dropWhile isWhitespace l = l.
Proof. destruct l as [|c l]; simpl; [reflexivity|]. now intros ->. Qed.

Lemma dropWhile_suffix (l : list ascii) :
  exists pre, l = pre ++ dropWhile isWhitespace l.
Proof.
  induction l as [|c l [pre IH]]; simpl; [now exists []|].
  destruct (isWhitespace c); [|now exists []].
  exists (c :: pre). simpl. now rewrite <- IH.
Qed.

(** [trim] is idempotent. *)
Lemma trimL_idempotent (l : list ascii) : trimL (trimL l) = trimL l.
Proof.
  unfold trimL, trimEndL, trimStartL.
  set (l1 := dropWhile isWhitespace l).
  set (r := dropWhile isWhitespace (rev l1)).
  assert (Hr : headKept r) by apply dropWhile_headKept.
  assert (Ht : headKept (rev r)).
  { destruct (dropWhile_suffix (rev l1)) as [pre Hpre]. fold r in Hpre.
    assert (Hl1 : l1 = rev r ++ rev pre).
    { rewrite <- (rev_involutive l1), Hpre. apply rev_app_distr. }
    pose proof (dropWhile_headKept l) as H1. fold l1 in H1. rewrite Hl1 in H1.
    destruct (rev r); [exact I | exact H1]. }
  rewrite (dropWhile_kept _ Ht), rev_involutive. now rewrite (dropWhile_kept _ Hr).
Qed.

Lemma trim_idempotent (s : string) : trim (trim s) = trim s.
Proof. unfold trim. now rewrite chars_str, trimL_idempotent. Qed.

End TrimFacts.

(** ** The An+B evaluator *)

Section AnPlusBFacts.
Import JsString AnPlusB.

Lemma matchesAnPlusB_odd (p : Z) : matchesAnPlusB "odd" p = (Z.rem p 2 =? 1).
Proof. reflexivity. Qed.

Lemma matchesAnPlusB_even (p : Z) : matchesAnPlusB "even" p = (Z.rem p 2 =? 0).
Proof. reflexivity. Qed.

Lemma matchesAnPlusB_2n1 (p : Z) :
  matchesAnPlusB "2n+1" p =
  (if p - 1 =? 0 then true else (p - 1 >? 0) && (Z.rem (p - 1) 2 =? 0)).
Proof. reflexivity. Qed.

Lemma matchesAnPlusB_3 (p : Z) : matchesAnPlusB "3" p = (p =? 3).
Proof. reflexivity. Qed.

Lemma matchesAnPlusB_neg_n_3 (p : Z) :
  matchesAnPlusB "-n+3" p =
  (if p - 3 =? 0 then true else (p - 3 <=? 0) && (Z.rem (p - 3) (-1) =? 0)).
Proof. reflexivity. Qed.

Lemma matchesAnPlusB_unsupported (expr : string) (p : Z) :
  unsupportedArgument expr -> matchesAnPlusB expr p = true.
Proof.
  intros (Hodd & Heven & Hint & Hanb). unfold matchesAnPlusB.
  destruct (String.eqb_spec (toLowerCase (trim expr)) "odd") as [E|_]; [contradiction|].
  destruct (String.eqb_spec (toLowerCase (trim expr)) "even") as [E|_]; [contradiction|].
  now rewrite Hint, Hanb.
Qed.

Lemma rem2_odd (p : Z) : 1 <= p -> (Z.rem p 2 =? 1) = Z.odd p.
Proof.
  intros Hp. rewrite Z.rem_mod_nonneg by lia.
  rewrite Zmod_odd. destruct (Z.odd p); reflexivity.
Qed.

Lemma rem2_even (p : Z) : 1 <= p -> (Z.rem p 2 =? 0) = Z.even p.
Proof.
  intros Hp. rewrite Z.rem_mod_nonneg by lia.
  rewrite Zmod_even. destruct (Z.even p); reflexivity.
Qed.

End AnPlusBFacts.

(** ** The matching engine *)

Section EngineFacts.
Import JsString Template Selector Loop Engine.

Variable heap : Heap.

Lemma indexOfFrom_head (i : Z) (el : NodeRef) (l : list NodeRef) :
  indexOfFrom i (el :: l) el = i.
Proof. simpl. now rewrite Nat.eqb_refl. Qed.

(** The filter of [getRuntimeSiblings] keeps exactly the nodes that are not
    conditional alternatives of [el]. *)
Lemma runtime_filter_alt (el sib : NodeRef) :
  match conditional (heap el), conditional (heap sib) with
  | Some ce, Some cs => negb (chainId ce =? chainId cs) || (branchIdx ce =? branchIdx cs)
  | _, _ => true
  end = negb (isConditionalAlternative heap el sib).
Proof.
  unfold isConditionalAlternative.
  destruct (conditional (heap el)), (conditional (heap sib)); try reflexivity.
  now rewrite negb_andb, negb_involutive.
Qed.

Lemma getRuntimeSiblings_parent (el p : NodeRef) :
  parent (heap el) = Some p ->
  getRuntimeSiblings heap el =
  List.filter (fun sib => negb (isConditionalAlternative heap el sib)) (children (heap p)).
Proof.
  intros Hp. unfold getRuntimeSiblings. rewrite Hp.
  apply List.filter_ext. intros sib. apply runtime_filter_alt.
Qed.

Lemma getRuntimeSiblings_root (el : NodeRef) :
  parent (heap el) = None -> getRuntimeSiblings heap el = [el].
Proof. intros Hp. unfold getRuntimeSiblings. now rewrite Hp. Qed.

Lemma structural_root (el : NodeRef) (nodes : list Node) :
  parent (heap el) = None ->
  matchStructuralPseudo heap el ":first-child" nodes = true /\
  matchStructuralPseudo heap el ":last-child" nodes = true /\
  matchStructuralPseudo heap el ":only-child" nodes = true.
Proof.
  intros Hp. unfold matchStructuralPseudo.
  rewrite (getRuntimeSiblings_root el Hp). unfold indexOf.
  rewrite indexOfFrom_head. repeat split; reflexivity.
Qed.

(** A compound made of one structural pseudo-class is decided by
    [matchStructuralPseudo], whatever the fuel. *)
Lemma matchesCompound_structural (fuel : nat) (el : NodeRef) (value : string)
    (nodes : list Node) :
  seqb value ":has" = false -> seqb value ":not" = false ->
  seqb value ":is" = false -> seqb value ":where" = false ->
  matchesCompound heap fuel el [NPseudo value nodes] =
  Some (matchStructuralPseudo heap el value nodes).
Proof.
  intros H1 H2 H3 H4. destruct fuel; simpl; rewrite H1, H2, H3, H4; simpl;
    destruct (matchStructuralPseudo heap el value nodes); reflexivity.
Qed.

(** With nothing to start from, every later segment yields nothing. *)
Lemma chainSegments_nil (mc : NodeRef -> list Node -> option bool) (fuel : nat)
    (segs : list CombinatorSegment) :
  chainSegments heap mc fuel [] segs = Some [].
Proof.
  induction segs as [|seg segs IH]; simpl; [reflexivity|].
  unfold chainStep.
  destruct (seqb (combinator seg) ">"); simpl; [exact IH|].
  destruct (seqb (combinator seg) "+"); simpl; [exact IH|].
  destruct (seqb (combinator seg) "~"); simpl; exact IH.
Qed.

Lemma segments_of_nesting : splitIntoCombinatorSegments [NNesting] = [].
Proof. reflexivity. Qed.

Lemma matchSelectorPart_leading_sibling (fuel : nat) (nodes : list Node)
    (scopeElements : list NodeRef) (parentMatched : option (list NodeRef))
    (first : CombinatorSegment) (rest : list CombinatorSegment) :
  splitIntoCombinatorSegments nodes = first :: rest ->
  combinator first = "+" \/ combinator first = "~" ->
  matchSelectorPart heap fuel nodes scopeElements parentMatched = Some [].
Proof.
  intros Hseg Hc. unfold matchSelectorPart.
  assert (Hbody :
    match splitIntoCombinatorSegments nodes with
    | [] => Some []
    | first :: rest =>
        current ←
          (if seqb (combinator first) ">" then
             filterM (fun el => matchesCompound heap fuel el (parts first)) scopeElements
           else if seqb (combinator first) "+" then
             matchAdjacentSibling (matchesCompound heap fuel) scopeElements [] (parts first)
           else if seqb (combinator first) "~" then
             matchGeneralSibling (matchesCompound heap fuel) scopeElements [] (parts first)
           else findDescendantsMatching heap (matchesCompound heap fuel) fuel scopeElements
                  (parts first));
        chainSegments heap (matchesCompound heap fuel) fuel current rest
    end = Some []).
  { rewrite Hseg. destruct Hc as [-> | ->]; simpl; apply chainSegments_nil. }
  destruct nodes as [|n ns]; [exact Hbody|].
  destruct n; try exact Hbody.
  destruct ns; [|exact Hbody].
  rewrite segments_of_nesting in Hseg. discriminate.
Qed.

End EngineFacts.

Section ClaimsOnSiblings.
Import JsString Template Selector Loop Engine Examples.

(** C10: a template node with no parent has itself as its only runtime
    sibling; hence every root-level node satisfies [:first-child],
    [:last-child] and [:only-child], however many roots the template has. *)
Theorem C10_root_nodes_structural (heap : Heap) (el : NodeRef) (fuel : nat)
    (nodes : list Node) :
  parent (heap el) = None ->
  getRuntimeSiblings heap el = [el] /\
  matchesCompound heap fuel el [NPseudo ":first-child" nodes] = Some true /\
  matchesCompound heap fuel el [NPseudo ":last-child" nodes] = Some true /\
  matchesCompound heap fuel el [NPseudo ":only-child" nodes] = Some true.
Proof.
  intros Hp. destruct (structural_root heap el nodes Hp) as (Hf & Hl & Ho).
  split; [now apply getRuntimeSiblings_root|].
  rewrite !matchesCompound_structural by reflexivity.
  now rewrite Hf, Hl, Ho.
Qed.

(** Both roots of the two-root example template. *)
Lemma C10_root_nodes_structural_witness :
  (getRuntimeSiblings imgHeap figure = [figure] /\
   matchesCompound imgHeap 0 figure [NPseudo ":first-child" []] = Some true /\
   matchesCompound imgHeap 0 figure [NPseudo ":last-child" []] = Some true /\
   matchesCompound imgHeap 0 figure [NPseudo ":only-child" []] = Some true) /\
  (getRuntimeSiblings imgHeap section_ = [section_] /\
   matchesCompound imgHeap 0 section_ [NPseudo ":first-child" []] = Some true /\
   matchesCompound imgHeap 0 section_ [NPseudo ":last-child" []] = Some true /\
   matchesCompound imgHeap 0 section_ [NPseudo ":only-child" []] = Some true).
Proof.
  split.
  - apply (C10_root_nodes_structural imgHeap figure 0 []). reflexivity.
  - apply (C10_root_nodes_structural imgHeap section_ 0 []). reflexivity.
Defined.

(** C9: a selector whose first combinator segment is introduced by a leading
    [+] or [~] matches nothing, for every scope: the first-segment sibling
    matchers are called with no anchors and give no candidates, and the
    remaining segments keep the empty set empty. *)
Theorem C9_leading_sibling_combinator_matches_nothing (heap : Heap) (fuel : nat)
    (source : string) (nodes : list Node) (scopeElements : list NodeRef)
    (parentMatched : option (list NodeRef))
    (first : CombinatorSegment) (rest : list CombinatorSegment) :
  splitIntoCombinatorSegments nodes = first :: rest ->
  combinator first = "+" \/ combinator first = "~" ->
  matchAdjacentSibling (matchesCompound heap fuel) scopeElements [] (parts first) = Some [] /\
  matchGeneralSibling (matchesCompound heap fuel) scopeElements [] (parts first) = Some [] /\
  chainSegments heap (matchesCompound heap fuel) fuel [] rest = Some [] /\
  matchSelectorPart heap fuel nodes scopeElements parentMatched = Some [] /\
  matchSelector heap fuel [NSelector source nodes] scopeElements parentMatched = Some [].
Proof.
  intros Hseg Hc.
  pose proof (matchSelectorPart_leading_sibling heap fuel nodes scopeElements parentMatched
                first rest Hseg Hc) as Hpart.
  repeat split; try reflexivity.
  - apply chainSegments_nil.
  - exact Hpart.
  - unfold matchSelector. simpl. now rewrite Hpart.
Qed.

(** [+ p] as a rule's whole selector, against the children of the example
    [div]. *)
Lemma C9_leading_sibling_combinator_matches_nothing_witness :
  matchSelector condHeap 5 [NSelector "+ p" [NCombinator "+"; NTag "p"]]
    [condA; condB; condC] (Some [condParent]) = Some [].
Proof.
  apply (C9_leading_sibling_combinator_matches_nothing condHeap 5 "+ p"
           [NCombinator "+"; NTag "p"] [condA; condB; condC] (Some [condParent])
           {| combinator := "+"; parts := [NTag "p"] |} []).
  - reflexivity.
  - left. reflexivity.
Defined.

(** C2: the runtime sibling list of a node is its parent's children without
    the node's conditional alternatives.  For raw children [A; B; C] with A
    and B two branches of one chain and C untagged: the list seen from A is
    [A; C], from B it is [B; C]; both A and B are [:first-child]; the
    adjacent-sibling step from anchor A yields C exactly when C matches, and
    never B. *)
Theorem C2_conditional_alternatives_excluded (heap : Heap) (P A B C : NodeRef)
    (chain branchA branchB : Z) :
  children (heap P) = [A; B; C] ->
  parent (heap A) = Some P ->
  parent (heap B) = Some P ->
  conditional (heap A) = Some (Build_Conditional chain branchA) ->
  conditional (heap B) = Some (Build_Conditional chain branchB) ->
  branchA <> branchB ->
  conditional (heap C) = None ->
  (forall el p, parent (heap el) = Some p ->
     getRuntimeSiblings heap el =
     List.filter (fun sib => negb (isConditionalAlternative heap el sib))
       (children (heap p))) /\
  getRuntimeSiblings heap A = [A; C] /\
  getRuntimeSiblings heap B = [B; C] /\
  (forall fuel nodes,
     matchesCompound heap fuel A [NPseudo ":first-child" nodes] = Some true /\
     matchesCompound heap fuel B [NPseudo ":first-child" nodes] = Some true) /\
  (forall mc parts,
     matchAdjacentSiblingViaParent heap mc [A] parts =
     (b ← mc C parts; Some (if b : bool then [C] else []))) /\
  (forall mc parts r,
     matchAdjacentSiblingViaParent heap mc [A] parts = Some r -> ~ In B r).
Proof.
  intros Hch HpA HpB HcA HcB Hne HcC.
  assert (HaltAB : isConditionalAlternative heap A B = true).
  { unfold isConditionalAlternative. rewrite HcA, HcB. simpl.
    rewrite Z.eqb_refl. simpl. apply negb_true_iff. now apply Z.eqb_neq. }
  assert (HaltBA : isConditionalAlternative heap B A = true).
  { unfold isConditionalAlternative. rewrite HcA, HcB. simpl.
    rewrite Z.eqb_refl. simpl. apply negb_true_iff. apply Z.eqb_neq. congruence. }
  assert (HaltAA : isConditionalAlternative heap A A = false).
  { unfold isConditionalAlternative. rewrite HcA. simpl. now rewrite !Z.eqb_refl. }
  assert (HaltBB : isConditionalAlternative heap B B = false).
  { unfold isConditionalAlternative. rewrite HcB. simpl. now rewrite !Z.eqb_refl. }
  assert (HaltC : forall x, isConditionalAlternative heap x C = false).
  { intros x. unfold isConditionalAlternative. rewrite HcC.
    now destruct (conditional (heap x)). }
  assert (HsA : getRuntimeSiblings heap A = [A; C]).
  { rewrite (getRuntimeSiblings_parent heap A P HpA), Hch. simpl.
    now rewrite HaltAA, HaltAB, HaltC. }
  assert (HsB : getRuntimeSiblings heap B = [B; C]).
  { rewrite (getRuntimeSiblings_parent heap B P HpB), Hch. simpl.
    now rewrite HaltBA, HaltBB, HaltC. }
  assert (Hadj : forall mc parts,
     matchAdjacentSiblingViaParent heap mc [A] parts =
     (b ← mc C parts; Some (if b : bool then [C] else []))).
  { intros mc parts. unfold matchAdjacentSiblingViaParent. simpl.
    unfold rawSiblings. rewrite HpA, Hch. unfold indexOf.
    rewrite indexOfFrom_head. simpl. rewrite HaltAB, HaltC.
    destruct (mc C parts) as [[|]|]; reflexivity. }
  split; [apply getRuntimeSiblings_parent|].
  split; [exact HsA|]. split; [exact HsB|]. split; [|split; [exact Hadj|]].
  - intros fuel nodes. rewrite !matchesCompound_structural by reflexivity.
    unfold matchStructuralPseudo. rewrite HsA, HsB. unfold indexOf.
    rewrite !indexOfFrom_head. split; reflexivity.
  - intros mc parts r Hr. rewrite Hadj in Hr.
    assert (HBC : B <> C) by (intros ->; congruence).
    destruct (mc C parts) as [[|]|]; simpl in Hr; inversion Hr; subst; simpl; intuition.
Qed.

(** The example [div] with children [h2 v-if], [h3 v-else], [p]: from the
    [h2], [h2 + p] reaches the [p] and [h2 + h3] reaches nothing. *)
Lemma C2_conditional_alternatives_excluded_witness :
  getRuntimeSiblings condHeap condA = [condA; condC] /\
  getRuntimeSiblings condHeap condB = [condB; condC] /\
  matchAdjacentSiblingViaParent condHeap (matchesCompound condHeap 0) [condA] [NTag "p"]
    = Some [condC] /\
  matchAdjacentSiblingViaParent condHeap (matchesCompound condHeap 0) [condA] [NTag "h3"]
    = Some [].
Proof.
  destruct (C2_conditional_alternatives_excluded condHeap condParent condA condB condC 1 0 1)
    as (_ & HA & HB & _ & Hadj & _); try reflexivity; [discriminate|].
  split; [exact HA|]. split; [exact HB|].
  split; rewrite Hadj; reflexivity.
Defined.

End ClaimsOnSiblings.

Section ClaimOnAnPlusB.
Import JsString AnPlusB.

(** C3: on a 1-based position [p], [odd] matches exactly the odd positions,
    [even] exactly the even ones, [2n+1] matches where [odd] does, [3]
    matches position 3 only, [-n+3] matches positions 1, 2 and 3 only, and an
    argument outside the supported forms matches every position, so that an
    [:nth-*] pseudo-class carrying one holds of every node. *)
Theorem C3_an_plus_b_forms (p : Z) :
  1 <= p ->
  (matchesAnPlusB "odd" p = true <-> exists k, 0 <= k /\ p = 2 * k + 1) /\
  (matchesAnPlusB "even" p = true <-> exists k, 1 <= k /\ p = 2 * k) /\
  matchesAnPlusB "2n+1" p = matchesAnPlusB "odd" p /\
  (matchesAnPlusB "3" p = true <-> p = 3) /\
  (matchesAnPlusB "-n+3" p = true <-> p = 1 \/ p = 2 \/ p = 3) /\
  (forall expr, unsupportedArgument expr -> matchesAnPlusB expr p = true) /\
  (forall heap el value source inner,
     In value [":nth-child"; ":nth-last-child"; ":nth-of-type"; ":nth-last-of-type"] ->
     unsupportedArgument source ->
     Engine.matchStructuralPseudo heap el value [Selector.NSelector source inner] = true).
Proof.
  intros Hp.
  rewrite matchesAnPlusB_odd, matchesAnPlusB_even, matchesAnPlusB_2n1,
    matchesAnPlusB_3, matchesAnPlusB_neg_n_3.
  rewrite (rem2_odd p Hp), (rem2_even p Hp).
  repeat split.
  - intros Ho. apply Z.odd_spec in Ho. destruct Ho as [k ->].
    exists k. split; [lia | reflexivity].
  - intros [k [_ ->]]. apply Z.odd_spec. now exists k.
  - intros He. apply Z.even_spec in He. destruct He as [k ->].
    exists k. split; [lia | reflexivity].
  - intros [k [_ ->]]. apply Z.even_spec. now exists k.
  - destruct (Z.eqb_spec (p - 1) 0) as [E|E].
    + replace p with 1 by lia. reflexivity.
    + replace (p - 1 >? 0) with true by (symmetry; apply Z.gtb_lt; lia).
      simpl. rewrite (rem2_even (p - 1)) by lia.
      replace p with (Z.succ (p - 1)) at 2 by lia. now rewrite Z.odd_succ.
  - intros H. now apply Z.eqb_eq.
  - intros ->. reflexivity.
  - destruct (Z.eqb_spec (p - 3) 0) as [E|E]; [intros _; lia|].
    rewrite andb_true_iff, Z.leb_le. intros [Hle _]. lia.
  - intros Hcase. destruct (Z.eqb_spec (p - 3) 0) as [E|E]; [reflexivity|].
    apply andb_true_iff. split; [apply Z.leb_le; lia|].
    destruct Hcase as [-> | [-> | ->]]; reflexivity.
  - intros expr Hu. now apply matchesAnPlusB_unsupported.
  - intros heap el value source inner Hvalue Hu.
    assert (Hu' : unsupportedArgument (trim source)).
    { unfold unsupportedArgument in *. now rewrite trim_idempotent. }
    simpl in Hvalue.
    destruct Hvalue as [<- | [<- | [<- | [<- | []]]]];
      unfold Engine.matchStructuralPseudo; cbn [Engine.includesStr existsb];
      cbn -[AnPlusB.matchesAnPlusB trim Engine.getRuntimeSiblings Engine.indexOf
            Engine.len List.filter];
      destruct (Engine.seqb (trim source) ""); try reflexivity;
      now apply matchesAnPlusB_unsupported.
Qed.

(** Position 3, and three arguments no supported form accepts. *)
Lemma C3_an_plus_b_forms_witness :
  matchesAnPlusB "2n+1" 3 = matchesAnPlusB "odd" 3 /\
  matchesAnPlusB "n+" 3 = true /\ matchesAnPlusB "2n+1.5" 3 = true /\
  matchesAnPlusB "first" 3 = true.
Proof.
  destruct (C3_an_plus_b_forms 3) as (_ & _ & H21 & _ & _ & Hun & _); [lia|].
  split; [exact H21|].
  repeat split; apply Hun; repeat split; discriminate || reflexivity.
Defined.

End ClaimOnAnPlusB.

Section TokenFacts.
Import JsString.

Lemma takeWhile_app_stop {A} (p : A -> bool) (l tail : list A) :
  forallb p l = true ->
  match tail with [] => True | x :: _ => p x = false end ->
  takeWhile p (l ++ tail) = l /\ dropWhile p (l ++ tail) = tail.
Proof.
  intros Hl Ht. induction l as [|x l IH]; simpl in *.
  - destruct tail as [|y tail]; [now split|]. simpl. now rewrite Ht.
  - apply andb_true_iff in Hl as [Hx Hl]. rewrite Hx.
    destruct (IH Hl) as [-> ->]. now split.
Qed.

Lemma takeWhile_forallb {A} (p : A -> bool) (l : list A) : forallb p (takeWhile p l) = true.
Proof.
  induction l as [|x l IH]; simpl; [reflexivity|].
  destruct (p x) eqn:E; simpl; [now rewrite E|reflexivity].
Qed.

Lemma takeWhile_dropWhile {A} (p : A -> bool) (l : list A) :
  takeWhile p l ++ dropWhile p l = l.
Proof.
  induction l as [|x l IH]; simpl; [reflexivity|].
  destruct (p x); simpl; [now rewrite IH | reflexivity].
Qed.

Lemma dropWhile_stops {A} (p : A -> bool) (l : list A) :
  match dropWhile p l with [] => True | x :: _ => p x = false end.
Proof.
  induction l as [|x l IH]; simpl; [exact I|]. destruct (p x) eqn:E; [exact IH | exact E].
Qed.

Lemma endsInWhitespace_cons (c : ascii) (l : list ascii) :
  (l = [] /\ isWhitespace c = true) \/ endsInWhitespace l -> endsInWhitespace (c :: l).
Proof.
  intros [[-> Hc] | (p & x & -> & Hx)].
  - now exists [], c.
  - now exists (c :: p), x.
Qed.

Lemma endsInWhitespace_cons_inv (c : ascii) (l : list ascii) :
  endsInWhitespace (c :: l) ->
  (l = [] /\ isWhitespace c = true) \/ endsInWhitespace l.
Proof.
  intros ([|c' p] & x & Heq & Hx); simpl in Heq; injection Heq as -> ->.
  - left. now split.
  - right. now exists p, x.
Qed.

Lemma endsInWhitespace_nil : ~ endsInWhitespace [].
Proof. intros ([|c p] & x & Heq & _); discriminate. Qed.

Lemma startsInWhitespace_stop (l : list ascii) :
  l = [] \/ startsInWhitespace l ->
  match l with [] => True | x :: _ => negb (isWhitespace x) = false end.
Proof.
  intros [-> | (c & p & -> & Hc)]; [exact I|]. now rewrite Hc.
Qed.

Lemma dropWhile_boundary (l : list ascii) :
  dropWhile (fun c => negb (isWhitespace c)) l = [] \/
  startsInWhitespace (dropWhile (fun c => negb (isWhitespace c)) l).
Proof.
  pose proof (dropWhile_stops (fun c => negb (isWhitespace c)) l) as H.
  destruct (dropWhile (fun c => negb (isWhitespace c)) l) as [|x r]; [now left|].
  right. exists x, r. split; [reflexivity|]. now apply negb_false_iff in H.
Qed.

(** The pieces [split(/\s+/)] returns are the first word of the text and
    the words that follow whitespace. *)
Lemma splitWsFrom_spec (l : list ascii) :
  (forall w, In w (splitWsFrom true l) <-> laterToken true w l) /\
  (exists rest,
     splitWsFrom false l = takeWhile (fun c => negb (isWhitespace c)) l :: rest /\
     forall w, In w rest <-> laterToken false w l).
Proof.
  induction l as [|c r [IHT (R & HR & HRspec)]].
  - split.
    + intros w. cbn [splitWsFrom In]. split.
      * intros [<- | []]. split; [reflexivity|]. exists [], [].
        repeat split; [left; now split | now left].
      * intros (_ & pre & post & Heq & _). left.
        symmetry in Heq. apply app_eq_nil in Heq as [_ Heq].
        apply app_eq_nil in Heq as [Heq _]. now symmetry.
    + exists []. split; [reflexivity|]. intros w. split; [intros []|].
      intros (_ & pre & post & Heq & [[Hf _] | Hpre] & _); [discriminate|].
      symmetry in Heq. apply app_eq_nil in Heq as [-> _].
      now apply endsInWhitespace_nil in Hpre.
  - assert (forall (b : bool) w,
              isWhitespace c = true ->
              laterToken true w r <-> laterToken b w (c :: r)) as Hsep.
    { intros b w Hc. split.
      - intros (Hw & pre & post & -> & Hpre & Hpost & Hemp).
        split; [exact Hw|]. exists (c :: pre), post. repeat split; [|exact Hpost | exact Hemp].
        right. apply endsInWhitespace_cons.
        destruct Hpre as [[_ ->] | Hpre]; [left; now split | now right].
      - intros (Hw & pre & post & Heq & Hpre & Hpost & Hemp).
        split; [exact Hw|]. destruct pre as [|c' pre'].
        + exfalso. destruct w as [|x w']; simpl in Heq.
          * specialize (Hemp eq_refl). subst post. discriminate.
          * injection Heq as <- _. simpl in Hw. rewrite Hc in Hw. discriminate.
        + simpl in Heq. injection Heq as <- ->. exists pre', post.
          repeat split; [|exact Hpost | exact Hemp].
          destruct Hpre as [[_ Hnil] | Hpre]; [discriminate|].
          apply endsInWhitespace_cons_inv in Hpre as [[-> _] | Hpre];
            [left; now split | now right]. }
    assert (forall w,
              isWhitespace c = false ->
              laterToken false w r <-> laterToken false w (c :: r)) as Hword.
    { intros w Hc. split.
      - intros (Hw & pre & post & -> & Hpre & Hpost & Hemp).
        split; [exact Hw|]. exists (c :: pre), post. repeat split; [|exact Hpost | exact Hemp].
        right. apply endsInWhitespace_cons. right.
        destruct Hpre as [[Hf _] | Hpre]; [discriminate | exact Hpre].
      - intros (Hw & pre & post & Heq & Hpre & Hpost & Hemp).
        split; [exact Hw|]. destruct Hpre as [[Hf _] | Hpre]; [discriminate|].
        destruct pre as [|c' pre']; [now apply endsInWhitespace_nil in Hpre|].
        simpl in Heq. injection Heq as <- ->.
        apply endsInWhitespace_cons_inv in Hpre as [[_ Hc'] | Hpre]; [congruence|].
        exists pre', post. repeat split; [now right | exact Hpost | exact Hemp]. }
    destruct (isWhitespace c) eqn:Hc.
    + split.
      * intros w. cbn [splitWsFrom]. rewrite Hc, IHT. now apply Hsep.
      * exists (splitWsFrom true r). split.
        -- cbn [splitWsFrom takeWhile]. now rewrite Hc.
        -- intros w. rewrite IHT. now apply Hsep.
    + assert (forall b, splitWsFrom b (c :: r)
                        = (c :: takeWhile (fun c => negb (isWhitespace c)) r) :: R) as Hsplit.
      { intros b. cbn [splitWsFrom]. now rewrite Hc, HR. }
      split.
      * intros w. rewrite Hsplit. cbn [In]. rewrite HRspec. split.
        -- intros [<- | Hlater].
           ++ split; [cbn [forallb]; now rewrite Hc, takeWhile_forallb|].
              exists [], (dropWhile (fun c => negb (isWhitespace c)) r).
              repeat split.
              ** cbn [app]. now rewrite takeWhile_dropWhile.
              ** left. now split.
              ** apply dropWhile_boundary.
              ** discriminate.
           ++ apply (Hword w eq_refl) in Hlater.
              destruct Hlater as (Hw & pre & post & Heq & Hpre & Hpost & Hemp).
              split; [exact Hw|]. exists pre, post.
              repeat split; [exact Heq | | exact Hpost | exact Hemp].
              right. destruct Hpre as [[Hf _] | Hpre]; [discriminate | exact Hpre].
        -- intros (Hw & pre & post & Heq & Hpre & Hpost & Hemp).
           destruct Hpre as [[_ ->] | Hpre].
           ++ left. destruct w as [|x w']; simpl in Heq.
              ** specialize (Hemp eq_refl). subst post. discriminate.
              ** injection Heq as <- ->. f_equal. simpl in Hw.
                 apply andb_true_iff in Hw as [_ Hw'].
                 now rewrite (proj1 (takeWhile_app_stop _ w' post Hw'
                                       (startsInWhitespace_stop post Hpost))).
           ++ right. apply (Hword w eq_refl). split; [exact Hw|].
              exists pre, post. repeat split; [exact Heq | now right | exact Hpost | exact Hemp].
      * exists R. split.
        -- rewrite Hsplit. cbn [takeWhile]. now rewrite Hc.
        -- intros w. rewrite HRspec. now apply Hword.
Qed.

(** [split(/\s+/)] yields exactly the whitespace-delimited words. *)
Lemma splitWsL_token (w l : list ascii) :
  In w (splitWsL l) <-> whitespaceToken w l.
Proof.
  unfold splitWsL. destruct (splitWsFrom_spec l) as [_ (R & -> & HR)].
  cbn [In]. rewrite HR. split.
  - intros [<- | (Hw & pre & post & Heq & Hpre & Hpost & Hemp)].
    + split; [apply takeWhile_forallb|].
      exists [], (dropWhile (fun c => negb (isWhitespace c)) l).
      repeat split.
      * cbn [app]. now rewrite takeWhile_dropWhile.
      * now left.
      * apply dropWhile_boundary.
      * now left.
    + split; [exact Hw|]. exists pre, post.
      repeat split; [exact Heq | | exact Hpost | intros Hnil; right; now apply Hemp].
      right. destruct Hpre as [[Hf _] | Hpre]; [discriminate | exact Hpre].
  - intros (Hw & pre & post & Heq & Hpre & Hpost & Hemp).
    destruct Hpre as [-> | Hpre].
    + left. cbn [app] in Heq. subst l.
      now rewrite (proj1 (takeWhile_app_stop _ w post Hw
                            (startsInWhitespace_stop post Hpost))).
    + right. split; [exact Hw|]. exists pre, post.
      repeat split; [exact Heq | now right | exact Hpost |].
      intros Hnil. destruct (Hemp Hnil) as [-> | ->]; [|reflexivity].
      now apply endsInWhitespace_nil in Hpre.
Qed.

Lemma splitWs_token (v s : string) :
  In v (splitWs s) <-> whitespaceToken (chars v) (chars s).
Proof.
  unfold splitWs. rewrite <- splitWsL_token, in_map_iff. split.
  - intros (x & <- & Hx). now rewrite chars_str.
  - intros Hin. exists (chars v). split; [apply str_chars | exact Hin].
Qed.

End TokenFacts.

Section ClaimOnAttributes.
Import JsString Template Selector Loop Engine Examples.

Lemma matchesCompound_attribute (heap : Heap) (fuel : nat) (el : NodeRef)
    (attrName : string) (attrOp attrVal : option string) :
  matchesCompound heap fuel el [NAttribute attrName attrOp attrVal] =
  match matchesAttribute heap el attrName attrOp attrVal with
  | Break => Some true
  | ReturnFalse => Some false
  | ThrowsTypeError => None
  end.
Proof.
  destruct fuel; simpl; destruct (matchesAttribute heap el attrName attrOp attrVal);
    reflexivity.
Qed.

Lemma includesStr_In (l : list string) (x : string) :
  includesStr l x = true <-> In x l.
Proof.
  unfold includesStr. rewrite existsb_exists. split.
  - intros [y [Hy Heq]]. apply String.eqb_eq in Heq. now subst.
  - intros Hx. exists x. split; [exact Hx | apply String.eqb_refl].
Qed.

Lemma breakIf_true (b : bool) :
  match breakIf b with
  | Break => Some true
  | ReturnFalse => Some false
  | ThrowsTypeError => None
  end = Some b.
Proof. now destruct b. Qed.

(** The [attribute] case on an element that carries the attribute. *)
Lemma matchesAttribute_own (heap : Heap) (el : NodeRef) (attrName : string)
    (stored : AttrValue) (op v : string) :
  attributes (heap el) !! attrName = Some stored ->
  op <> "" ->
  match matchesAttribute heap el attrName (Some op) (Some v) with
  | Break => Some true
  | ReturnFalse => Some false
  | ThrowsTypeError => None
  end =
  Some match stored with
       | AttrTrue => false
       | AttrString s =>
           if seqb op "=" then seqb s v
           else if seqb op "^=" then startsWith s v
           else if seqb op "$=" then endsWith s v
           else if seqb op "*=" then includes s v
           else if seqb op "~=" then includesStr (splitWs s) v
           else if seqb op "|=" then seqb s v || startsWith s (v +:+ "-")
           else true
       end.
Proof.
  intros Hs Hop. unfold matchesAttribute, hasAttribute, readAttribute. rewrite Hs.
  cbn [negb]. unfold seqb at 1.
  destruct (String.eqb_spec op "") as [E|_]; [contradiction|].
  destruct stored as [|s]; [reflexivity|].
  repeat match goal with
         | |- context [if seqb op ?x then _ else _] => destruct (seqb op x)
         end; try apply breakIf_true; reflexivity.
Qed.

(** C6: the code against the claim.  The [attributes] object is a plain
    object, and [attrName in el.attributes] also holds for the names it
    inherits from [Object.prototype]: for such a name a bare [[attr]] matches
    an element that does not carry the attribute, [=] fails, and [^=], [$=],
    [*=], [~=] and [|=] throw a [TypeError] instead of answering.  For every
    other name, and for every attribute the element does carry, the claim
    holds: a bare [[attr]] asks only for the key; [=] for equal strings, [^=]
    for a prefix, [$=] for a suffix, [*=] for a substring, [~=] for one of
    the whitespace-delimited words of the value, [|=] for the operand itself
    or the operand followed by a hyphen as a prefix; an attribute stored as
    the boolean [true] fails every operator that carries a value; and no
    operator throws. *)
Theorem C6_inherited_names_pass_for_attributes (heap : Heap) (fuel : nat) (el : NodeRef)
    (attrName v : string) :
  let stored := attributes (heap el) !! attrName in
  let bare := matchesCompound heap fuel el [NAttribute attrName None None] in
  let matches op := matchesCompound heap fuel el [NAttribute attrName (Some op) (Some v)] in
  (stored = None -> isInherited attrName = true ->
   bare = Some true /\
   matches "=" = Some false /\
   forall op, In op ["^="; "$="; "*="; "~="; "|="] ->
              matchesAttribute heap el attrName (Some op) (Some v) = ThrowsTypeError /\
              matches op = None) /\
  (is_Some stored \/ isInherited attrName = false ->
   (bare = Some true <-> is_Some stored) /\
   (matches "=" = Some true <-> stored = Some (AttrString v)) /\
   (matches "^=" = Some true <->
    exists s r, stored = Some (AttrString s) /\ s = v +:+ r) /\
   (matches "$=" = Some true <->
    exists s r, stored = Some (AttrString s) /\ s = r +:+ v) /\
   (matches "*=" = Some true <->
    exists s a b, stored = Some (AttrString s) /\ s = a +:+ v +:+ b) /\
   (matches "~=" = Some true <->
    exists s, stored = Some (AttrString s) /\ whitespaceToken (chars v) (chars s)) /\
   (matches "|=" = Some true <->
    exists s, stored = Some (AttrString s) /\ (s = v \/ exists r, s = (v +:+ "-") +:+ r)) /\
   (stored = Some AttrTrue -> forall op, op <> "" -> matches op = Some false) /\
   (forall op, is_Some (matches op))).
Proof.
  intros stored bare matches. subst bare matches. cbv beta.
  assert (Hop : forall op o,
            matchesCompound heap fuel el [NAttribute attrName (Some op) o] =
            match matchesAttribute heap el attrName (Some op) o with
            | Break => Some true
            | ReturnFalse => Some false
            | ThrowsTypeError => None
            end) by (intros; apply matchesCompound_attribute).
  rewrite matchesCompound_attribute. split.
  - intros Hs Hin. rewrite !Hop.
    unfold matchesAttribute, hasAttribute, readAttribute. fold stored. rewrite Hs, Hin.
    cbn [negb]. split; [reflexivity|]. split; [reflexivity|].
    intros op Hop'. rewrite Hop. unfold matchesAttribute, hasAttribute, readAttribute.
    fold stored. rewrite Hs, Hin. cbn [negb].
    cbn [In] in Hop'.
    destruct Hop' as [<- | [<- | [<- | [<- | [<- | []]]]]]; split; reflexivity.
  - intros Hcase.
    destruct stored as [x|] eqn:Hs.
    + assert (forall op, op <> "" ->
                matchesCompound heap fuel el [NAttribute attrName (Some op) (Some v)] =
                Some match x with
                     | AttrTrue => false
                     | AttrString s =>
                         if seqb op "=" then seqb s v
                         else if seqb op "^=" then startsWith s v
                         else if seqb op "$=" then endsWith s v
                         else if seqb op "*=" then includes s v
                         else if seqb op "~=" then includesStr (splitWs s) v
                         else if seqb op "|=" then seqb s v || startsWith s (v +:+ "-")
                         else true
                     end) as Hown.
      { intros op Hne. rewrite Hop. now apply matchesAttribute_own. }
      rewrite !Hown by discriminate. cbn [seqb String.eqb Ascii.eqb Bool.eqb].
      split; [|split; [|split; [|split; [|split; [|split; [|split; [|split]]]]]]].
      * unfold matchesAttribute, hasAttribute, readAttribute. fold stored. rewrite Hs.
        cbn [negb]. split; [intros _; now exists x | reflexivity].
      * destruct x as [|s]; split; try discriminate.
        -- intros H. injection H as H. apply String.eqb_eq in H. now subst.
        -- intros H. injection H as <-. f_equal. apply String.eqb_refl.
      * destruct x as [|s]; split; try discriminate.
        -- now intros (s & r & H & _).
        -- intros H. injection H as H. apply startsWith_spec in H as [r ->]. now exists (v +:+ r), r.
        -- intros (s' & r & [= <-] & Hr). f_equal. apply startsWith_spec. now exists r.
      * destruct x as [|s]; split; try discriminate.
        -- now intros (s & r & H & _).
        -- intros H. injection H as H. apply endsWith_spec in H as [r ->]. now exists (r +:+ v), r.
        -- intros (s' & r & [= <-] & Hr). f_equal. apply endsWith_spec. now exists r.
      * destruct x as [|s]; split; try discriminate.
        -- now intros (s & a & b & H & _).
        -- intros H. injection H as H. apply includes_spec in H as (a & b & ->).
           now exists (a +:+ v +:+ b), a, b.
        -- intros (s' & a & b & [= <-] & Hr). f_equal. apply includes_spec.
           now exists a, b.
      * destruct x as [|s]; split; try discriminate.
        -- now intros (s & H & _).
        -- intros H. injection H as H. apply includesStr_In, splitWs_token in H. now exists s.
        -- intros (s' & [= <-] & Htok). f_equal.
           now apply includesStr_In, splitWs_token.
      * destruct x as [|s]; split; try discriminate.
        -- now intros (s & H & _).
        -- intros H. injection H as H. exists s. split; [reflexivity|].
           apply orb_true_iff in H as [H | H].
           ++ left. now apply String.eqb_eq in H.
           ++ right. now apply startsWith_spec in H.
        -- intros (s' & [= <-] & Hs'). f_equal. apply orb_true_iff.
           destruct Hs' as [-> | Hr].
           ++ left. apply String.eqb_refl.
           ++ right. now apply startsWith_spec.
      * intros Hx op Hne. injection Hx as ->. now rewrite Hown.
      * intros op. rewrite Hop.
        destruct (String.eqb_spec op "") as [-> | Hne].
        -- unfold matchesAttribute, hasAttribute, readAttribute. fold stored. rewrite Hs.
           cbn. now eexists.
        -- rewrite <- Hop, Hown by exact Hne. now eexists.
    + destruct Hcase as [[y Hy] | Hin]; [discriminate|].
      assert (forall op o, matchesCompound heap fuel el [NAttribute attrName (Some op) o]
                           = Some false) as Hnone.
      { intros op o. rewrite Hop. unfold matchesAttribute, hasAttribute, readAttribute.
        fold stored. now rewrite Hs, Hin. }
      rewrite !Hnone.
      unfold matchesAttribute, hasAttribute, readAttribute. fold stored. rewrite Hs, Hin.
      cbn [negb].
      repeat split; try discriminate;
        try (intros H; decompose [ex and] H; discriminate).
      * intros [y Hy]. discriminate.
      * intros op. rewrite Hnone. now eexists.
Qed.

(** [[constructor]] and [[toString^=x]] on [<figure>], which has no
    attributes at all, against [[alt^=x]] on the same element. *)
Lemma C6_inherited_names_pass_for_attributes_witness :
  matchesCompound imgHeap 0 figure [NAttribute "constructor" None None] = Some true /\
  matchesCompound imgHeap 0 figure [NAttribute "toString" (Some "^=") (Some "x")] = None /\
  is_Some (matchesCompound imgHeap 0 figure [NAttribute "alt" (Some "^=") (Some "x")]).
Proof.
  split; [|split].
  - destruct (C6_inherited_names_pass_for_attributes imgHeap 0 figure "constructor" "x")
      as [Hbug _].
    destruct Hbug as (Hbare & _); [reflexivity | reflexivity | exact Hbare].
  - destruct (C6_inherited_names_pass_for_attributes imgHeap 0 figure "toString" "x")
      as [Hbug _].
    destruct Hbug as (_ & _ & Hops); [reflexivity | reflexivity |].
    exact (proj2 (Hops "^=" (or_introl eq_refl))).
  - destruct (C6_inherited_names_pass_for_attributes imgHeap 0 figure "alt" "x")
      as [_ Hclaim].
    destruct Hclaim as (_ & _ & _ & _ & _ & _ & _ & _ & Htotal);
      [right; reflexivity | exact (Htotal "^=")].
Defined.

End ClaimOnAttributes.

(** ** [:has()] *)

Section HasFacts.
Import JsString Template Selector Loop Engine.




Variable heap : Heap.
Variable mc : NodeRef -> list Node -> option bool.



(** A compound is one segment, under the combinator in force. *)
Lemma splitSegmentsLoop_compound (parts : list Node) (segments : list CombinatorSegment)
    (c : string) (cur : list Node) :
  forallb (fun n => match n with
                    | NCombinator _ | NNesting => false
                    | _ => true
                    end) parts = true ->
  splitSegmentsLoop parts segments c cur =
  match cur ++ parts with
  | [] => segments
  | _ :: _ => segments ++ [{| combinator := c; parts := cur ++ parts |}]
  end.
Proof.
  revert cur. induction parts as [|n parts IH]; intros cur Hall; simpl.
  - rewrite app_nil_r. reflexivity.
  - simpl in Hall. apply andb_true_iff in Hall. destruct Hall as [Hn Hall].
    replace (cur ++ n :: parts) with ((cur ++ [n]) ++ parts)
      by (now rewrite <- app_assoc).
    destruct n; try discriminate; apply IH; exact Hall.
Qed.


Lemma segments_bare_compound (parts : list Node) :
  isCompound parts = true ->
  splitIntoCombinatorSegments parts = [{| combinator := " "; parts := parts |}].
Proof.
  intros Hc. unfold splitIntoCombinatorSegments.
  destruct parts as [|n ps]; [discriminate|].
  unfold isCompound in Hc. now rewrite splitSegmentsLoop_compound.
Qed.




End HasFacts.

Section ClaimOnHas.
Import JsString Template Selector Loop Engine Examples.




End ClaimOnHas.

(** ** The resolver *)

Section StoreFacts.
Import Resolver.

Lemma withChildren_same (r : StyleRule.t) : StyleRule.withChildren r (StyleRule.children r) = r.
Proof. now destruct r. Qed.

Lemma withRules_same (st : Store) : withRules st (rules st) = st.
Proof. now destruct st. Qed.

Lemma withRegistry_same (st : Store) : withRegistry st (registry st) = st.
Proof. now destruct st. Qed.

Lemma alter_fixed {A} (f : A -> A) (l : list A) (i : nat) (x : A) :
  l !! i = Some x -> f x = x -> alter f i l = l.
Proof.
  revert i. induction l as [|y l IH]; intros [|i] Hi Hf; simpl in *; try discriminate.
  - injection Hi as ->. now rewrite Hf.
  - f_equal. now apply IH.
Qed.

Lemma alter_missing {A} (f : A -> A) (l : list A) (i : nat) :
  l !! i = None -> alter f i l = l.
Proof.
  revert i. induction l as [|y l IH]; intros [|i] Hi; simpl in *; try discriminate;
    try reflexivity.
  f_equal. now apply IH.
Qed.

(** Changing a rule into itself changes nothing. *)
Lemma alterIn_fixed (f : StyleRule.t -> StyleRule.t) (p : Path) (i : nat)
    (rs arr : list StyleRule.t) (rule : StyleRule.t) :
  arrayIn rs p = Some arr -> arr !! i = Some rule -> f rule = rule ->
  alterIn f rs (p ++ [i]) = rs.
Proof.
  revert rs. induction p as [|j p IH]; intros rs Harr Hi Hf; simpl in *.
  - injection Harr as ->. now apply alter_fixed with rule.
  - destruct (rs !! j) as [r|] eqn:Hj; simpl in Harr; [|discriminate].
    specialize (IH _ Harr Hi Hf).
    destruct (p ++ [i]) as [|x q] eqn:Hq; [now destruct p|].
    apply alter_fixed with r; [exact Hj|].
    rewrite IH. apply withChildren_same.
Qed.

Lemma registryAlter_fixed (f : ExportBlock.t -> ExportBlock.t)
    (reg : list (string * ExportBlock.t)) (key : string) (e : ExportBlock.t) :
  registryGet reg key = Some e -> f e = e -> registryAlter f reg key = reg.
Proof.
  induction reg as [|[k v] reg IH]; simpl; intros Hg Hf; [reflexivity|].
  destruct (String.eqb k key).
  - injection Hg as ->. now rewrite Hf.
  - f_equal. now apply IH.
Qed.

Lemma exportWithChildren_same (e : ExportBlock.t) :
  ExportBlock.withChildren e (ExportBlock.children e) = e.
Proof. now destruct e. Qed.

Lemma alterRule_fixed (f : StyleRule.t -> StyleRule.t) (root : Root) (p : Path) (i : nat)
    (st : Store) (arr : list StyleRule.t) (rule : StyleRule.t) :
  arrayAt st root p = Some arr -> arr !! i = Some rule -> f rule = rule ->
  alterRule f root (p ++ [i]) st = st.
Proof.
  unfold arrayAt, alterRule. intros Harr Hi Hf. destruct root as [key|]; simpl in Harr.
  - destruct (registryGet (registry st) key) as [e|] eqn:He; simpl in Harr; [|discriminate].
    rewrite (registryAlter_fixed _ _ _ e He); [apply withRegistry_same|].
    rewrite (alterIn_fixed f p i _ arr rule Harr Hi Hf). apply exportWithChildren_same.
  - rewrite (alterIn_fixed f p i _ arr rule Harr Hi Hf). apply withRules_same.
Qed.

Lemma arrayIn_snoc (rs : list StyleRule.t) (p : Path) (i : nat) :
  arrayIn rs (p ++ [i]) =
  (arr ← arrayIn rs p; r ← arr !! i; Some (StyleRule.children r)).
Proof.
  revert rs. induction p as [|j p IH]; intros rs; simpl.
  - destruct (rs !! i); reflexivity.
  - destruct (rs !! j) as [r|]; simpl; [apply IH | reflexivity].
Qed.

Lemma arrayAt_snoc (st : Store) (root : Root) (p : Path) (i : nat) :
  arrayAt st root (p ++ [i]) =
  (arr ← arrayAt st root p; r ← arr !! i; Some (StyleRule.children r)).
Proof.
  unfold arrayAt. destruct (rootArray st root) as [rs|]; simpl; [apply arrayIn_snoc|].
  reflexivity.
Qed.

Lemma allResolved_uses (rule : StyleRule.t) :
  allResolved rule = true ->
  StyleRule.uses rule = [] /\ forallb allResolved (StyleRule.children rule) = true.
Proof.
  destruct rule as [s c d u ch]. simpl. destruct u; [|discriminate]. now simpl.
Qed.

Lemma withUses_nil_fixed (rule : StyleRule.t) :
  StyleRule.uses rule = [] -> StyleRule.withUses rule [] = rule.
Proof. destruct rule. simpl. now intros ->. Qed.

Lemma rulesSize_drop (arr : list StyleRule.t) (i : nat) (rule : StyleRule.t) :
  arr !! i = Some rule ->
  rulesSize (drop i arr) =
  (S (rulesSize (StyleRule.children rule)) + rulesSize (drop (S i) arr))%nat.
Proof.
  intros Hi. rewrite (drop_S _ _ _ Hi). unfold rulesSize. simpl. now destruct rule.
Qed.

Section NoOp.

Variable resolvePath : string -> string -> string.
Variable extractExportsFromFile : string -> list ExportBlock.t.
Variable dir : string.

(** Resolving an array whose rules carry no [@use] leaves the store as it
    is, given fuel for every rule of the array. *)
Lemma resolveUsesInRulesFrom_resolved (fuel : nat) (root : Root) (p : Path) (i : nat)
    (st : Store) (arr : list StyleRule.t) :
  arrayAt st root p = Some arr ->
  forallb allResolved (drop i arr) = true ->
  (rulesSize (drop i arr) <= fuel)%nat ->
  resolveUsesInRulesFrom resolvePath extractExportsFromFile dir fuel root p i st = Some st.
Proof.
  revert root p i st arr.
  induction fuel as [|f IH]; intros root p i st arr Harr Hres Hsize.
  - destruct (arr !! i) as [rule|] eqn:Hi.
    + rewrite (rulesSize_drop _ _ _ Hi) in Hsize. lia.
    + simpl. now rewrite Harr, Hi.
  - cbn [resolveUsesInRulesFrom]. rewrite Harr.
    destruct (arr !! i) as [rule|] eqn:Hi; [|reflexivity].
    rewrite (rulesSize_drop _ _ _ Hi) in Hsize.
    rewrite (drop_S _ _ _ Hi) in Hres. simpl in Hres.
    apply andb_true_iff in Hres. destruct Hres as [Hrule Hrest].
    apply allResolved_uses in Hrule. destruct Hrule as [Huses Hkids].
    rewrite Huses. cbn [inlineUses mbind option_bind clearUses].
    rewrite (alterRule_fixed _ root p i st arr rule Harr Hi)
      by now apply withUses_nil_fixed.
    rewrite (IH root (p ++ [i]) 0%nat st (StyleRule.children rule)).
    + simpl. apply (IH root p (S i) st arr Harr Hrest). lia.
    + rewrite arrayAt_snoc, Harr. simpl. now rewrite Hi.
    + exact Hkids.
    + rewrite drop_0. lia.
Qed.

Lemma registryGet_resolved (reg : list (string * ExportBlock.t)) (key : string)
    (e : ExportBlock.t) :
  registryResolved reg = true -> registryGet reg key = Some e ->
  exportResolved e = true /\
  (rulesSize (ExportBlock.children e) <= registrySize reg)%nat.
Proof.
  unfold registryResolved, registrySize.
  induction reg as [|[k v] reg IH]; simpl; intros Hres Hget; [discriminate|].
  apply andb_true_iff in Hres. destruct Hres as [Hv Hres].
  destruct (String.eqb k key).
  - injection Hget as <-. split; [exact Hv | lia].
  - destruct (IH Hres Hget) as [He Hsz]. split; [exact He | lia].
Qed.

Lemma exportWithUses_fixed (e : ExportBlock.t) :
  ExportBlock.uses e = [] -> ExportBlock.withUses e [] = e.
Proof. destruct e. simpl. now intros ->. Qed.

Lemma exportResolved_uses (e : ExportBlock.t) :
  exportResolved e = true ->
  ExportBlock.uses e = [] /\ forallb allResolved (ExportBlock.children e) = true.
Proof.
  unfold exportResolved. destruct (ExportBlock.uses e); [|discriminate]. now simpl.
Qed.

(** An export without [@use] anywhere is left as it is. *)
Lemma resolveUsesInExport_resolved (fuel : nat) (key : string) (st : Store)
    (e : ExportBlock.t) :
  registryGet (registry st) key = Some e ->
  exportResolved e = true ->
  (rulesSize (ExportBlock.children e) <= fuel)%nat ->
  resolveUsesInExport resolvePath extractExportsFromFile dir fuel key st = Some st.
Proof.
  intros Hget Hres Hsize. unfold resolveUsesInExport. rewrite Hget.
  apply exportResolved_uses in Hres. destruct Hres as [Huses Hkids].
  rewrite Huses. cbn [inlineUses mbind option_bind clearUses].
  rewrite (registryAlter_fixed _ _ _ e Hget) by now apply exportWithUses_fixed.
  rewrite withRegistry_same. unfold resolveUsesInRules.
  apply resolveUsesInRulesFrom_resolved with (arr := ExportBlock.children e).
  - unfold arrayAt. simpl. now rewrite Hget.
  - now rewrite drop_0.
  - now rewrite drop_0.
Qed.

Lemma resolveExports_resolved (fuel : nat) (keys : list string) (st : Store) :
  registryResolved (registry st) = true ->
  (registrySize (registry st) <= fuel)%nat ->
  Forall (fun key => registryHas (registry st) key = true) keys ->
  resolveExports resolvePath extractExportsFromFile dir fuel keys st = Some st.
Proof.
  intros Hres Hsize. induction keys as [|key keys IH]; intros Hkeys; simpl; [reflexivity|].
  inversion Hkeys as [|? ? Hkey Hrest]; subst. unfold registryHas in Hkey.
  destruct (registryGet (registry st) key) as [e|] eqn:Hget; [|discriminate].
  destruct (registryGet_resolved _ _ _ Hres Hget) as [He Hsz].
  rewrite (resolveUsesInExport_resolved fuel key st e Hget He) by lia.
  simpl. now apply IH.
Qed.

Lemma registryHas_keys (reg : list (string * ExportBlock.t)) :
  Forall (fun key => registryHas reg key = true) (map fst reg).
Proof.
  induction reg as [|[k v] reg IH]; simpl; constructor.
  - unfold registryHas. simpl. now rewrite String.eqb_refl.
  - eapply Forall_impl; [exact IH|]. intros key Hk. unfold registryHas in *. simpl.
    destruct (String.eqb k key); [reflexivity | exact Hk].
Qed.

Lemma registryAlter_resolved (reg : list (string * ExportBlock.t)) (key : string)
    (v : ExportBlock.t) :
  registryResolved reg = true -> exportResolved v = true ->
  registryResolved (registryAlter (fun _ => v) reg key) = true.
Proof.
  unfold registryResolved. induction reg as [|[k w] reg IH]; simpl; intros Hres Hv;
    [reflexivity|].
  apply andb_true_iff in Hres. destruct Hres as [Hw Hres].
  destruct (String.eqb k key); simpl.
  - now rewrite Hv, Hres.
  - now rewrite Hw, IH.
Qed.

Lemma registrySet_resolved (reg : list (string * ExportBlock.t)) (key : string)
    (v : ExportBlock.t) :
  registryResolved reg = true -> exportResolved v = true ->
  registryResolved (registrySet reg key v) = true.
Proof.
  intros Hres Hv. unfold registrySet. destruct (registryHas reg key).
  - now apply registryAlter_resolved.
  - unfold registryResolved in *. rewrite forallb_app. simpl. now rewrite Hres, Hv.
Qed.

Lemma registerExports_resolved (exports : list ExportBlock.t) (st : Store) :
  registryResolved (registry st) = true ->
  forallb exportResolved exports = true ->
  registryResolved (registry (registerExports exports st)) = true /\
  rules (registerExports exports st) = rules st.
Proof.
  revert st. induction exports as [|e exports IH]; intros st Hres Hall; simpl;
    [now split|].
  apply andb_true_iff in Hall. destruct Hall as [He Hall].
  destruct (IH (withRegistry
                  (if registryHas (registry st) (ExportBlock.name e)
                   then warn (DuplicateExport (ExportBlock.name e)) st else st)
                  (registrySet
                     (registry (if registryHas (registry st) (ExportBlock.name e)
                                then warn (DuplicateExport (ExportBlock.name e)) st else st))
                     (ExportBlock.name e) e))) as [H1 H2].
  - simpl. apply registrySet_resolved; [|exact He].
    now destruct (registryHas (registry st) (ExportBlock.name e)).
  - exact Hall.
  - split; [exact H1|]. rewrite H2. simpl.
    now destruct (registryHas (registry st) (ExportBlock.name e)).
Qed.

Lemma findExport_resolved (es : list ExportBlock.t) (name : string) (e : ExportBlock.t) :
  forallb exportResolved es = true -> findExport es name = Some e ->
  exportResolved e = true.
Proof.
  unfold findExport. induction es as [|x es IH]; simpl; intros Hall Hf; [discriminate|].
  apply andb_true_iff in Hall. destruct Hall as [Hx Hall].
  destruct (String.eqb (ExportBlock.name x) name).
  - now injection Hf as <-.
  - now apply IH.
Qed.

Lemma importNames_resolved (names : list string) (from : string)
    (fileExports : list ExportBlock.t) (st : Store) :
  forallb exportResolved fileExports = true ->
  registryResolved (registry st) = true ->
  registryResolved (registry (importNames names from fileExports st)) = true /\
  rules (importNames names from fileExports st) = rules st.
Proof.
  intros Hfile. revert st. induction names as [|name names IH]; intros st Hres; simpl;
    [now split|].
  destruct (findExport fileExports name) as [e|] eqn:Hf.
  - destruct (IH (withRegistry st (registrySet (registry st) name e))) as [H1 H2].
    + simpl. apply registrySet_resolved; [exact Hres|].
      now apply (findExport_resolved fileExports name).
    + split; [exact H1 | now rewrite H2].
  - destruct (IH (warn (ImportNameNotFound name from
                          (setOfNames (map ExportBlock.name fileExports))) st))
      as [H1 H2]; [exact Hres|].
    split; [exact H1 | now rewrite H2].
Qed.

Lemma applyImports_resolved (imports : list ImportDirective.t) (st : Store) :
  (forall path, forallb exportResolved (extractExportsFromFile path) = true) ->
  registryResolved (registry st) = true ->
  registryResolved
    (registry (applyImports resolvePath extractExportsFromFile dir imports st)) = true /\
  rules (applyImports resolvePath extractExportsFromFile dir imports st) = rules st.
Proof.
  intros Hload. revert st. induction imports as [|imp imports IH]; intros st Hres; simpl;
    [now split|].
  set (absPath := resolvePath dir (ImportDirective.from imp)).
  destruct (importNames_resolved (ImportDirective.names imp) (ImportDirective.from imp)
              (extractExportsFromFile absPath)
              (withDeps st ({[absPath]} ∪ deps st)) (Hload absPath) Hres) as [H1 H2].
  destruct (IH _ H1) as [H3 H4]. split; [exact H3|]. now rewrite H4, H2.
Qed.

End NoOp.

End StoreFacts.

Section ClaimOnIdempotence.
Import Resolver.

(** C8: resolution is idempotent on resolved output.  On a rule tree with no
    [@use] left at any depth, the pass over the rules returns the store it
    was given: every selector, class list, declaration list and child array
    is as before, and nothing is reported.  The same holds for the whole of
    [resolveDirectives] when the exports it registers carry no [@use]
    either, as they do after a first pass. *)
Theorem C8_resolution_idempotent (resolvePath : string -> string -> string)
    (extractExportsFromFile : string -> list ExportBlock.t) (dir : string)
    (result : ParseResult.t) :
  forallb allResolved (ParseResult.rules result) = true ->
  (forall registry resolving deps warnings fuel,
     (rulesSize (ParseResult.rules result) <= fuel)%nat ->
     let st := Build_Store registry (ParseResult.rules result) resolving deps warnings in
     resolveUsesInRules resolvePath extractExportsFromFile dir fuel InRules [] st = Some st) /\
  (forallb exportResolved (ParseResult.exports result) = true ->
   (forall path, forallb exportResolved (extractExportsFromFile path) = true) ->
   exists n, forall fuel, (n <= fuel)%nat ->
     exists st,
       resolveDirectives resolvePath extractExportsFromFile dir fuel result = Some st /\
       rules st = ParseResult.rules result).
Proof.
  intros Hrules. split.
  - intros registry resolving deps warnings fuel Hfuel st. unfold resolveUsesInRules.
    apply resolveUsesInRulesFrom_resolved with (arr := ParseResult.rules result).
    + reflexivity.
    + now rewrite drop_0.
    + now rewrite drop_0.
  - intros Hexports Hload.
    set (st0 := Build_Store [] (ParseResult.rules result) ∅ ∅ []).
    set (st1 := registerExports (ParseResult.exports result) st0).
    set (st2 := applyImports resolvePath extractExportsFromFile dir
                  (ParseResult.imports result) st1).
    destruct (registerExports_resolved (ParseResult.exports result) st0 eq_refl Hexports)
      as [Hreg1 Hrules1].
    destruct (applyImports_resolved resolvePath extractExportsFromFile dir
                (ParseResult.imports result) st1 Hload Hreg1) as [Hreg2 Hrules2].
    exists (registrySize (registry st2) + rulesSize (ParseResult.rules result))%nat.
    intros fuel Hfuel. exists st2. unfold resolveDirectives.
    fold st0. fold st1. fold st2.
    rewrite (resolveExports_resolved resolvePath extractExportsFromFile dir fuel
               (map fst (registry st2)) st2 Hreg2) by (try lia; apply registryHas_keys).
    cbn [mbind option_bind]. unfold resolveUsesInRules.
    assert (Hr2 : rules st2 = ParseResult.rules result).
    { transitivity (rules st1); [exact Hrules2 | exact Hrules1]. }
    split; [|exact Hr2].
    apply resolveUsesInRulesFrom_resolved with (arr := rules st2).
    + reflexivity.
    + rewrite drop_0, Hr2. exact Hrules.
    + rewrite drop_0, Hr2. lia.
Qed.

(** The output of a first pass, resolved once more. *)
Lemma C8_resolution_idempotent_witness :
  exists st,
    resolveDirectives (fun d f => d +:+ "/" +:+ f) (fun _ => []) "" 2 resolvedOutput
      = Some st /\
    rules st = ParseResult.rules resolvedOutput.
Proof.
  destruct (C8_resolution_idempotent (fun d f => d +:+ "/" +:+ f) (fun _ => []) ""
              resolvedOutput eq_refl) as [Hrules _].
  exists (Build_Store [("btn", ExportBlock.Build_t "btn" ["px-4"; "rounded"] [] [] [])]
            (ParseResult.rules resolvedOutput) ∅ ∅ []).
  split; [|reflexivity].
  exact (Hrules [("btn", ExportBlock.Build_t "btn" ["px-4"; "rounded"] [] [] [])]
           ∅ ∅ [] 2%nat (le_n 2)).
Defined.

End ClaimOnIdempotence.

(** ** The cycle guard *)

Section GuardFacts.
Import Resolver.

Lemma alterRule_guard (f : StyleRule.t -> StyleRule.t) (root : Root) (p : Path) (st : Store) :
  resolving (alterRule f root p st) = resolving st /\
  warnings (alterRule f root p st) = warnings st.
Proof. destruct root; simpl; split; reflexivity. Qed.

Lemma pushClasses_guard (t : Target) (cs : list string) (st : Store) :
  resolving (pushClasses t cs st) = resolving st /\
  warnings (pushClasses t cs st) = warnings st.
Proof. destruct t; simpl; [split; reflexivity | apply alterRule_guard]. Qed.

Lemma pushDeclarations_guard (t : Target) (ds : list string) (st : Store) :
  resolving (pushDeclarations t ds st) = resolving st /\
  warnings (pushDeclarations t ds st) = warnings st.
Proof. destruct t; simpl; [split; reflexivity | apply alterRule_guard]. Qed.

Lemma pushChild_guard (t : Target) (c : StyleRule.t) (st : Store) :
  resolving (pushChild t c st) = resolving st /\
  warnings (pushChild t c st) = warnings st.
Proof. destruct t; simpl; [split; reflexivity | apply alterRule_guard]. Qed.

Lemma clearUses_guard (t : Target) (st : Store) :
  resolving (clearUses t st) = resolving st /\
  warnings (clearUses t st) = warnings st.
Proof. destruct t; simpl; [split; reflexivity | apply alterRule_guard]. Qed.

Lemma pushClonedChildren_guard (fuel : nat) (b : BlockRef) (t : Target) (j : nat)
    (st st' : Store) :
  pushClonedChildren fuel b t j st = Some st' ->
  resolving st' = resolving st /\ warnings st' = warnings st.
Proof.
  revert j st. induction fuel as [|f IH]; intros j st H; simpl in H.
  - destruct (blockGet st b) as [block|]; [|discriminate].
    destruct (ExportBlock.children block !! j); [discriminate|].
    injection H as <-. now split.
  - destruct (blockGet st b) as [block|]; [|discriminate].
    destruct (ExportBlock.children block !! j) as [child|].
    + apply IH in H. destruct H as [H1 H2].
      destruct (pushChild_guard t (cloneRule child) st) as [H3 H4].
      split; congruence.
    + injection H as <-. now split.
Qed.

Lemma guardQuiet_warn (d : Diagnostic) (st : Store) :
  isCircular d = false -> guardQuiet st -> guardQuiet (warn d st).
Proof.
  intros Hd [Hr Hw]. split; [exact Hr|]. simpl.
  apply Forall_app. split; [exact Hw | now constructor].
Qed.

Section Guard.

Variable resolvePath : string -> string -> string.
Variable extractExportsFromFile : string -> list ExportBlock.t.
Variable dir : string.

(** Inlining one [@use] from a quiet guard leaves it quiet: the key is
    removed again before anything is resolved under it. *)
Lemma inlineUse_guard (fuel : nat) (inExport : option string) (t : Target)
    (use : UseDirective.t) (st st' : Store) :
  guardQuiet st ->
  inlineUse resolvePath extractExportsFromFile dir fuel inExport t use st = Some st' ->
  guardQuiet st'.
Proof.
  intros [Hr Hw] H. unfold inlineUse in H.
  rewrite Hr in H. rewrite bool_decide_eq_false_2 in H by apply not_elem_of_empty.
  set (key := cycleKeyOf resolvePath dir use) in *.
  assert (Hq : guardQuiet st) by now split.
  destruct (UseDirective.from use) as [from|].
  - destruct (findExport (extractExportsFromFile (resolvePath dir from))
                (UseDirective.name use)) as [b|].
    + simpl in H.
      set (st1 := pushClasses t (ExportBlock.classes b) _) in H.
      set (st2 := pushDeclarations t (ExportBlock.declarations b) st1) in H.
      destruct (pushClonedChildren fuel (Loaded b) t 0 st2) as [st3|] eqn:H3;
        simpl in H; [|discriminate].
      injection H as <-.
      apply pushClonedChildren_guard in H3. destruct H3 as [H3r H3w].
      destruct (pushDeclarations_guard t (ExportBlock.declarations b) st1) as [H2r H2w].
      fold st2 in H2r, H2w.
      split; simpl.
      * rewrite H3r, H2r. unfold st1. rewrite (proj1 (pushClasses_guard _ _ _)).
        simpl. rewrite ?Hr. now rewrite union_empty_r_L, difference_diag_L.
      * rewrite H3w, H2w. unfold st1. rewrite (proj2 (pushClasses_guard _ _ _)).
        exact Hw.
    + simpl in H. injection H as <-.
      destruct inExport; apply guardQuiet_warn; try reflexivity; now split.
  - destruct (registryHas (registry st) (UseDirective.name use)).
    + simpl in H.
      destruct (registryGet (registry st) (UseDirective.name use)) as [e|];
        simpl in H; [|discriminate].
      set (st1 := pushClasses t (ExportBlock.classes e) _) in H.
      destruct (registryGet (registry st1) (UseDirective.name use)) as [e'|];
        simpl in H; [|discriminate].
      set (st2 := pushDeclarations t (ExportBlock.declarations e') st1) in H.
      destruct (pushClonedChildren fuel (Registered (UseDirective.name use)) t 0 st2)
        as [st3|] eqn:H3; simpl in H; [|discriminate].
      injection H as <-.
      apply pushClonedChildren_guard in H3. destruct H3 as [H3r H3w].
      destruct (pushDeclarations_guard t (ExportBlock.declarations e') st1) as [H2r H2w].
      fold st2 in H2r, H2w.
      split; simpl.
      * rewrite H3r, H2r. unfold st1. rewrite (proj1 (pushClasses_guard _ _ _)).
        simpl. rewrite ?Hr. now rewrite union_empty_r_L, difference_diag_L.
      * rewrite H3w, H2w. unfold st1. rewrite (proj2 (pushClasses_guard _ _ _)).
        exact Hw.
    + simpl in H. injection H as <-.
      destruct inExport; apply guardQuiet_warn; try reflexivity; now split.
Qed.

Lemma inlineUses_guard (fuel : nat) (inExport : option string) (t : Target)
    (uses : list UseDirective.t) (st st' : Store) :
  guardQuiet st ->
  inlineUses resolvePath extractExportsFromFile dir fuel inExport t uses st = Some st' ->
  guardQuiet st'.
Proof.
  revert st. induction uses as [|use uses IH]; intros st Hq H; simpl in H.
  - now injection H as <-.
  - destruct (inlineUse resolvePath extractExportsFromFile dir fuel inExport t use st)
      as [st1|] eqn:H1; simpl in H; [|discriminate].
    apply (IH st1); [|exact H]. now apply (inlineUse_guard _ _ _ _ _ _ Hq H1).
Qed.

Lemma guardQuiet_clearUses (t : Target) (st : Store) :
  guardQuiet st -> guardQuiet (clearUses t st).
Proof.
  intros [Hr Hw]. destruct (clearUses_guard t st) as [H1 H2].
  split; [now rewrite H1 | now rewrite H2].
Qed.

Lemma resolveUsesInRulesFrom_guard (fuel : nat) (root : Root) (p : Path) (i : nat)
    (st st' : Store) :
  guardQuiet st ->
  resolveUsesInRulesFrom resolvePath extractExportsFromFile dir fuel root p i st = Some st' ->
  guardQuiet st'.
Proof.
  revert root p i st st'. induction fuel as [|f IH]; intros root p i st st' Hq H;
    cbn [resolveUsesInRulesFrom] in H.
  - destruct (arrayAt st root p) as [arr|]; [|discriminate].
    destruct (arr !! i); [discriminate|]. now injection H as <-.
  - destruct (arrayAt st root p) as [arr|]; [|discriminate].
    destruct (arr !! i) as [rule|]; [|now injection H as <-].
    destruct (inlineUses resolvePath extractExportsFromFile dir f None
                (TRule root (p ++ [i])) (StyleRule.uses rule) st) as [st1|] eqn:H1;
      cbn [mbind option_bind] in H; [|discriminate].
    destruct (resolveUsesInRulesFrom resolvePath extractExportsFromFile dir f root
                (p ++ [i]) 0 (clearUses (TRule root (p ++ [i])) st1)) as [st2|] eqn:H2;
      cbn [mbind option_bind] in H; [|discriminate].
    apply (IH _ _ _ _ _ (IH _ _ _ _ _
             (guardQuiet_clearUses _ _ (inlineUses_guard _ _ _ _ _ _ Hq H1)) H2) H).
Qed.

Lemma resolveUsesInExport_guard (fuel : nat) (key : string) (st st' : Store) :
  guardQuiet st ->
  resolveUsesInExport resolvePath extractExportsFromFile dir fuel key st = Some st' ->
  guardQuiet st'.
Proof.
  intros Hq H. unfold resolveUsesInExport in H.
  destruct (registryGet (registry st) key) as [e|]; [|discriminate].
  destruct (inlineUses resolvePath extractExportsFromFile dir fuel
              (Some (ExportBlock.name e)) (TExport key) (ExportBlock.uses e) st)
    as [st1|] eqn:H1; cbn [mbind option_bind] in H; [|discriminate].
  apply (resolveUsesInRulesFrom_guard _ _ _ _ _ _
           (guardQuiet_clearUses _ _ (inlineUses_guard _ _ _ _ _ _ Hq H1)) H).
Qed.

Lemma resolveExports_guard (fuel : nat) (keys : list string) (st st' : Store) :
  guardQuiet st ->
  resolveExports resolvePath extractExportsFromFile dir fuel keys st = Some st' ->
  guardQuiet st'.
Proof.
  revert st. induction keys as [|key keys IH]; intros st Hq H; simpl in H.
  - now injection H as <-.
  - destruct (resolveUsesInExport resolvePath extractExportsFromFile dir fuel key st)
      as [st1|] eqn:H1; simpl in H; [|discriminate].
    apply (IH st1); [|exact H]. now apply (resolveUsesInExport_guard _ _ _ _ Hq H1).
Qed.

Lemma registerExports_guard (exports : list ExportBlock.t) (st : Store) :
  guardQuiet st -> guardQuiet (registerExports exports st).
Proof.
  revert st. induction exports as [|e exports IH]; intros st Hq; simpl; [exact Hq|].
  apply IH. destruct (registryHas (registry st) (ExportBlock.name e)).
  - destruct (guardQuiet_warn (DuplicateExport (ExportBlock.name e)) st eq_refl Hq)
      as [H1 H2]. now split.
  - destruct Hq as [H1 H2]. now split.
Qed.

Lemma importNames_guard (names : list string) (from : string)
    (fileExports : list ExportBlock.t) (st : Store) :
  guardQuiet st -> guardQuiet (importNames names from fileExports st).
Proof.
  revert st. induction names as [|name names IH]; intros st Hq; simpl; [exact Hq|].
  apply IH. destruct (findExport fileExports name).
  - destruct Hq as [H1 H2]. now split.
  - now apply guardQuiet_warn.
Qed.

Lemma applyImports_guard (imports : list ImportDirective.t) (st : Store) :
  guardQuiet st ->
  guardQuiet (applyImports resolvePath extractExportsFromFile dir imports st).
Proof.
  revert st. induction imports as [|imp imports IH]; intros st Hq; simpl; [exact Hq|].
  apply IH, importNames_guard. destruct Hq as [H1 H2]. now split.
Qed.

(** From an empty guard set, no pass ever reports a circular [@use]. *)
Lemma resolveDirectives_never_reports_cycle (fuel : nat) (result : ParseResult.t)
    (st : Store) :
  resolveDirectives resolvePath extractExportsFromFile dir fuel result = Some st ->
  Forall (fun d => isCircular d = false) (warnings st).
Proof.
  unfold resolveDirectives. intros H.
  match type of H with
  | (mbind _ (resolveExports _ _ _ _ ?keys ?st2)) = _ =>
      destruct (resolveExports resolvePath extractExportsFromFile dir fuel keys st2)
        as [st3|] eqn:H3; cbn [mbind option_bind] in H; [|discriminate];
      assert (Hq2 : guardQuiet st2)
  end.
  { apply applyImports_guard, registerExports_guard. split; [reflexivity | constructor]. }
  apply (resolveExports_guard _ _ _ _ Hq2) in H3.
  now apply (resolveUsesInRulesFrom_guard _ _ _ _ _ _ H3 H).
Qed.

End Guard.

End GuardFacts.

(** ** A circular [@use] the resolver never finishes *)

Section Divergence.
Import Resolver.

(** A clone is equal to the tree it was taken from. *)
Lemma cloneRule_id : forall rule : StyleRule.t, cloneRule rule = rule.
Proof.
  fix IH 1. intros [s c d u ch]. simpl. f_equal.
  induction ch as [|x ch IHch]; simpl; [reflexivity|].
  now rewrite IH, IHch.
Qed.

Lemma tower_tower (k m : nat) (base : StyleRule.t) :
  tower k (tower m base) = tower (k + m) base.
Proof. induction k as [|k IH]; simpl; [reflexivity | now rewrite IH]. Qed.

Lemma repeat_snoc (k : nat) : repeat 0%nat k ++ [0%nat] = 0%nat :: repeat 0%nat k.
Proof. induction k as [|k IH]; simpl; [reflexivity | now rewrite IH]. Qed.

Lemma arrayIn_tower (k : nat) (base : StyleRule.t) :
  arrayIn [tower k base] (repeat 0%nat k) = Some [base].
Proof. induction k as [|k IH]; simpl; [reflexivity | exact IH]. Qed.

Lemma alterIn_cons (f : StyleRule.t -> StyleRule.t) (rs : list StyleRule.t) (i : nat)
    (p : Path) :
  p <> [] ->
  alterIn f rs (i :: p) =
  alter (fun r => StyleRule.withChildren r (alterIn f (StyleRule.children r) p)) i rs.
Proof. intros Hp. destruct p; [contradiction | reflexivity]. Qed.

Lemma alterIn_tower (g : StyleRule.t -> StyleRule.t) (k : nat) (base : StyleRule.t) :
  alterIn g [tower k base] (repeat 0%nat k ++ [0%nat]) = [tower k (g base)].
Proof.
  induction k as [|k IH]; [reflexivity|].
  cbn [repeat app]. rewrite alterIn_cons by now destruct k.
  cbn [tower]. simpl. now rewrite IH.
Qed.

Lemma alterRule_tower (g : StyleRule.t -> StyleRule.t) (k : nat) (base : StyleRule.t)
    (rs : list StyleRule.t) (res dps : gset string) (ws : list Diagnostic) :
  alterRule g (InExport "a") (repeat 0%nat k ++ [0%nat])
    (storeOfA rs res dps ws (tower k base)) =
  storeOfA rs res dps ws (tower k (g base)).
Proof.
  unfold alterRule, storeOfA, withRegistry, exportA. simpl.
  unfold ExportBlock.withChildren. simpl. now rewrite alterIn_tower.
Qed.

Lemma arrayAt_tower (k : nat) (base : StyleRule.t)
    (rs : list StyleRule.t) (res dps : gset string) (ws : list Diagnostic) :
  arrayAt (storeOfA rs res dps ws (tower k base)) (InExport "a") (repeat 0%nat k)
  = Some [base].
Proof. unfold arrayAt. simpl. apply arrayIn_tower. Qed.

Lemma registryGet_storeOfA (rs : list StyleRule.t) (res dps : gset string)
    (ws : list Diagnostic) (tree : StyleRule.t) :
  registryGet (registry (storeOfA rs res dps ws tree)) "a" = Some (exportA tree).
Proof. reflexivity. Qed.

(** The loop that clones the children of [a] into a rule of its own tree:
    one child is found, and none after it, since the push goes to the
    rule's array and not to the array of [a]. *)
Lemma pushClonedChildren_storeOfA (f k : nat) (base : StyleRule.t)
    (rs : list StyleRule.t) (res dps : gset string) (ws : list Diagnostic) :
  pushClonedChildren (S f) (Registered "a")
    (TRule (InExport "a") (repeat 0%nat k ++ [0%nat])) 0
    (storeOfA rs res dps ws (tower k base)) =
  Some (storeOfA rs res dps ws
          (tower k (StyleRule.withChildren base
                      (StyleRule.children base ++ [tower k base])))).
Proof.
  cbn [pushClonedChildren blockGet]. rewrite registryGet_storeOfA.
  cbn [exportA ExportBlock.children lookup list_lookup pushChild].
  rewrite alterRule_tower, cloneRule_id.
  destruct f; cbn [pushClonedChildren blockGet]; rewrite registryGet_storeOfA;
    reflexivity.
Qed.

Section Run.

Variable resolvePath : string -> string -> string.
Variable extractExportsFromFile : string -> list ExportBlock.t.
Variable dir : string.

(** Inlining [@use a] into the innermost rule of the tree held by [a]
    itself puts a copy of the whole tree below that rule. *)
Lemma inlineUse_self_nested (f k : nat) (rs : list StyleRule.t) (dps : gset string)
    (ws : list Diagnostic) :
  inlineUse resolvePath extractExportsFromFile dir (S f) None
    (TRule (InExport "a") (repeat 0%nat k ++ [0%nat])) (useOf "a")
    (storeOfA rs ∅ dps ws (tower k selfNestedRule)) =
  Some (storeOfA rs ∅ dps ws
          (tower k (StyleRule.make "div" [] [] [useOf "a"] [tower k selfNestedRule]))).
Proof.
  unfold inlineUse.
  rewrite bool_decide_eq_false_2 by apply not_elem_of_empty.
  cbn -[alterRule tower repeat app pushClonedChildren union difference singleton empty
       selfNestedRule].
  change (withResolving (storeOfA rs ∅ dps ws (tower k selfNestedRule)) ({["a"]} ∪ ∅))
    with (storeOfA rs ({["a"]} ∪ ∅) dps ws (tower k selfNestedRule)).
  rewrite alterRule_tower, registryGet_storeOfA.
  cbn [fmap option_fmap option_map mbind option_bind ExportBlock.declarations exportA].
  rewrite alterRule_tower.
  change (StyleRule.withDeclarations _ _) with selfNestedRule.
  rewrite pushClonedChildren_storeOfA.
  cbn [mbind option_bind]. unfold withResolving, storeOfA. cbn [registry rules deps warnings resolving].
  now rewrite union_empty_r_L, difference_diag_L.
Qed.

Lemma inlineUse_self_nested_unfuelled (k : nat) (rs : list StyleRule.t)
    (dps : gset string) (ws : list Diagnostic) :
  inlineUse resolvePath extractExportsFromFile dir 0 None
    (TRule (InExport "a") (repeat 0%nat k ++ [0%nat])) (useOf "a")
    (storeOfA rs ∅ dps ws (tower k selfNestedRule)) = None.
Proof.
  unfold inlineUse.
  rewrite bool_decide_eq_false_2 by apply not_elem_of_empty.
  cbn -[alterRule tower repeat app pushClonedChildren union difference singleton empty
       selfNestedRule].
  change (withResolving (storeOfA rs ∅ dps ws (tower k selfNestedRule)) ({["a"]} ∪ ∅))
    with (storeOfA rs ({["a"]} ∪ ∅) dps ws (tower k selfNestedRule)).
  rewrite alterRule_tower, registryGet_storeOfA.
  cbn [fmap option_fmap option_map mbind option_bind ExportBlock.declarations exportA].
  rewrite alterRule_tower.
  cbn [pushClonedChildren blockGet]. rewrite registryGet_storeOfA. reflexivity.
Qed.

(** Resolution inside [@export a { div { @use a } }] never returns: the
    tree under [a] is a tower over the one rule that still carries the
    [@use], and each time that rule is reached the tower below it grows. *)
Lemma self_nested_diverges (fuel k m : nat) (rs : list StyleRule.t) (dps : gset string)
    (ws : list Diagnostic) :
  resolveUsesInRulesFrom resolvePath extractExportsFromFile dir fuel (InExport "a")
    (repeat 0%nat k) 0 (storeOfA rs ∅ dps ws (tower (k + m) selfNestedRule)) = None.
Proof.
  revert k m. induction fuel as [|f IH]; intros k m;
    rewrite <- tower_tower; cbn [resolveUsesInRulesFrom]; rewrite arrayAt_tower;
    cbn [lookup list_lookup]; [reflexivity|].
  destruct m as [|m].
  - cbn [tower StyleRule.uses selfNestedRule inlineUses].
    change (StyleRule.make "div" [] [] [useOf "a"] []) with selfNestedRule.
    destruct f as [|f'].
    + now rewrite inlineUse_self_nested_unfuelled.
    + rewrite inlineUse_self_nested. cbn [mbind option_bind clearUses].
      rewrite alterRule_tower.
      change (StyleRule.withUses
                (StyleRule.make "div" [] [] [useOf "a"] [tower k selfNestedRule]) [])
        with (tower 1 (tower k selfNestedRule)).
      rewrite !tower_tower, repeat_snoc.
      change (0%nat :: repeat 0%nat k) with (repeat 0%nat (S k)).
      replace (k + 1 + k)%nat with (S k + k)%nat by lia.
      now rewrite IH.
  - cbn [tower StyleRule.uses inlineUses mbind option_bind clearUses].
    rewrite (alterRule_fixed _ (InExport "a") (repeat 0%nat k) 0 _
               [StyleRule.make "div" [] [] [] [tower m selfNestedRule]]
               (StyleRule.make "div" [] [] [] [tower m selfNestedRule]))
      by (try reflexivity;
          apply (arrayAt_tower k (StyleRule.make "div" [] [] [] [tower m selfNestedRule]))).
    change (StyleRule.make "div" [] [] [] [tower m selfNestedRule])
      with (tower 1 (tower m selfNestedRule)).
    rewrite !tower_tower, repeat_snoc.
    change (0%nat :: repeat 0%nat k) with (repeat 0%nat (S k)).
    replace (k + 1 + m)%nat with (S k + m)%nat by lia.
    now rewrite IH.
Qed.

End Run.

End Divergence.

Section ClaimOnCycles.
Import Resolver.

Lemma resolveDirectives_self_nested (resolvePath : string -> string -> string)
    (extractExportsFromFile : string -> list ExportBlock.t) (dir : string) (fuel : nat) :
  resolveDirectives resolvePath extractExportsFromFile dir fuel selfNested = None.
Proof.
  unfold resolveDirectives.
  change (applyImports resolvePath extractExportsFromFile dir
            (ParseResult.imports selfNested)
            (registerExports (ParseResult.exports selfNested)
               (Build_Store [] (ParseResult.rules selfNested) ∅ ∅ [])))
    with (storeOfA [] ∅ ∅ [] (tower (0 + 0) selfNestedRule)).
  change (map fst (registry (storeOfA [] ∅ ∅ [] (tower (0 + 0) selfNestedRule))))
    with ["a"].
  cbn [resolveExports]. unfold resolveUsesInExport.
  rewrite registryGet_storeOfA.
  cbn [exportA ExportBlock.uses inlineUses mbind option_bind].
  change (clearUses (TExport "a") (storeOfA [] ∅ ∅ [] (tower (0 + 0) selfNestedRule)))
    with (storeOfA [] ∅ ∅ [] (tower (0 + 0) selfNestedRule)).
  unfold resolveUsesInRules.
  now rewrite (self_nested_diverges resolvePath extractExportsFromFile dir fuel 0 0).
Qed.

(** C1 (refuted on the code): the cycle guard holds a key only while the
    block is being copied, not while anything is resolved under it.  So (1)
    no resolution pass ever reports a circular [@use]; (2) the two-export
    cycle [a] uses [b] uses [a] resolves without a diagnostic, with classes
    that depend on the order of the exports; and (3) resolution of
    [@export a { div { @use a } }] returns for no amount of fuel.  Both
    inputs are what the parser gives for the style blocks [cycleOfTwoText]
    and [selfNestedText]. *)
Theorem C1_cycle_guard_never_fires (resolvePath : string -> string -> string)
    (extractExportsFromFile : string -> list ExportBlock.t) (dir : string) :
  (forall fuel result st,
     resolveDirectives resolvePath extractExportsFromFile dir fuel result = Some st ->
     Forall (fun d => isCircular d = false) (warnings st)) /\
  (forall k,
     exists st,
       resolveDirectives resolvePath extractExportsFromFile dir (2 + k) cycleOfTwo
         = Some st /\
       warnings st = [] /\
       rules st = [StyleRule.make "&" ["x"; "y"] [] [] []]) /\
  (forall fuel,
     resolveDirectives resolvePath extractExportsFromFile dir fuel selfNested = None) /\
  Parser.parseStyleBlock cycleOfTwoText = Some (cycleOfTwo, []) /\
  Parser.parseStyleBlock selfNestedText = Some (selfNested, []).
Proof.
  split; [|split; [|split; [|split; vm_compute; reflexivity]]].
  - intros fuel result st. apply resolveDirectives_never_reports_cycle.
  - intros k. eexists. split; [|split].
    + vm_compute. reflexivity.
    + reflexivity.
    + reflexivity.
  - apply resolveDirectives_self_nested.
Qed.

End ClaimOnCycles.

(** ** The parser *)

Section ScannerFacts.
Import JsString Parser.

Lemma charIs_lt (src : list ascii) (i : nat) (c : ascii) :
  charIs src i c = true -> (i < length src)%nat.
Proof.
  unfold charIs. destruct (src !! i) eqn:Hi; [|discriminate].
  intros _. now apply lookup_lt_Some in Hi.
Qed.

Lemma scanLexical_continues (src : list ascii) (i : nat) (s : Scan) (st : Step) :
  scanLexical src i s = Some st -> exists extra s', st = Continue extra s'.
Proof.
  unfold scanLexical. intros H.
  repeat match type of H with
         | context [match ?x with _ => _ end] => destruct x
         end; inversion H; eauto.
Qed.

Lemma stepTopLevel_return (src : list ascii) (char : ascii) (i r : nat) (s : Scan) :
  stepTopLevel src char i s = Return r -> r = i /\ (i < length src)%nat.
Proof.
  unfold stepTopLevel. destruct (scanLexical src i s) as [st|] eqn:Hlex.
  - intros ->. apply scanLexical_continues in Hlex. destruct Hlex as (e & s' & H).
    discriminate.
  - destruct (charIs src i "{") eqn:Ho.
    { apply charIs_lt in Ho.
      destruct ((depth s =? 0) && ceqb char "{"); intros H; [|discriminate].
      injection H as <-. now split. }
    destruct (charIs src i "}") eqn:Hc.
    { apply charIs_lt in Hc.
      destruct ((depth s =? 0) && ceqb char "}"); intros H; [|discriminate].
      injection H as <-. now split. }
    destruct (depth s =? 0); simpl; [|discriminate].
    destruct (charIs src i char) eqn:Hx; intros H; [|discriminate].
    apply charIs_lt in Hx. injection H as <-. now split.
Qed.

Lemma findTopLevelLoop_bounds (src : list ascii) (char : ascii) (n i r : nat) (s : Scan) :
  findTopLevelLoop src char n i s = Some r -> (i <= r < length src)%nat.
Proof.
  revert i s. induction n as [n IH] using lt_wf_ind. intros i s H.
  destruct n as [|n1]; [discriminate|]. simpl in H.
  destruct (stepTopLevel src char i s) as [r'|[|] s'] eqn:Hstep.
  - injection H as <-. apply stepTopLevel_return in Hstep. lia.
  - destruct n1 as [|n2]; [discriminate|]. apply IH in H; lia.
  - apply IH in H; lia.
Qed.

Lemma findTopLevelChar_bounds (src : list ascii) (start end_ : nat) (char : ascii) (r : nat) :
  findTopLevelChar src start end_ char = Some r -> (start <= r < length src)%nat.
Proof. apply findTopLevelLoop_bounds. Qed.

Lemma stepMatching_return (src : list ascii) (i r : nat) (s : Scan) :
  stepMatching src i s = Return r -> r = i.
Proof.
  unfold stepMatching. destruct (scanLexical src i s) as [st|] eqn:Hlex.
  - intros ->. apply scanLexical_continues in Hlex. destruct Hlex as (e & s' & H).
    discriminate.
  - destruct (charIs src i "{"); [discriminate|].
    destruct (charIs src i "}"); [|discriminate].
    destruct (depth s - 1 =? 0); intros H; now inversion H.
Qed.

Lemma findMatchingLoop_ge (src : list ascii) (n i : nat) (s : Scan) :
  (i + n <= length src)%nat -> (i <= findMatchingLoop src n i s)%nat.
Proof.
  revert i s. induction n as [n IH] using lt_wf_ind. intros i s Hn.
  destruct n as [|n1]; simpl; [lia|].
  destruct (stepMatching src i s) as [r'|[|] s'] eqn:Hstep.
  - apply stepMatching_return in Hstep. lia.
  - destruct n1 as [|n2]; [lia|].
    specialize (IH n2 ltac:(lia) (S (S i)) s' ltac:(lia)). lia.
  - specialize (IH n1 ltac:(lia) (S i) s' ltac:(lia)). lia.
Qed.

(** The matching brace, or the end of the text, lies after the brace. *)
Lemma findMatchingBrace_gt (src : list ascii) (openPos : nat) :
  (openPos < length src)%nat -> (openPos < findMatchingBrace src openPos)%nat.
Proof.
  intros Hlt. unfold findMatchingBrace.
  pose proof (findMatchingLoop_ge src (length src - S openPos) (S openPos)
                (Build_Scan 1 0 None false) ltac:(lia)). lia.
Qed.

Lemma skipLoop_ge (src : list ascii) (end_ n pos : nat) :
  (pos <= skipLoop src end_ n pos)%nat.
Proof.
  revert pos. induction n as [|n IH]; intros pos; simpl; [lia|].
  destruct (pos <? end_)%nat eqn:Hlt; [|lia]. apply Nat.ltb_lt in Hlt.
  destruct (src !! pos) as [c|]; [|lia].
  destruct (isWhitespace c).
  - specialize (IH (S pos)). lia.
  - destruct (ceqb c "/" && charIs src (S pos) "*"); [|lia].
    destruct (indexOfFrom src "*/" (pos + 2)) as [close|] eqn:Hclose.
    + unfold indexOfFrom in Hclose.
      destruct (indexOfL (chars "*/") (drop (pos + 2) src)); simpl in Hclose;
        [|discriminate].
      injection Hclose as <-. match goal with |- (_ <= skipLoop _ _ _ ?q)%nat =>
        specialize (IH q) end. lia.
    + specialize (IH end_). lia.
Qed.

Lemma indexOfFrom_ge (src : list ascii) (pat : string) (from r : nat) :
  indexOfFrom src pat from = Some r -> (from <= r)%nat.
Proof.
  unfold indexOfFrom. destruct (indexOfL (chars pat) (drop from src)); simpl;
    [|discriminate].
  intros H. injection H as <-. lia.
Qed.

End ScannerFacts.

Section ParserTotal.
Import JsString Parser.

(** A rule body is parsed with as much fuel as there is text left. *)
Lemma parseBodyFrom_total (fuel : nat) (src : list ascii) (pos end_ : nat) (b : Body)
    (ws : list Diagnostic) :
  (length src <= pos + fuel)%nat ->
  exists r, parseBodyFrom fuel src pos end_ b ws = Some r.
Proof.
  revert pos end_ b ws. induction fuel as [|f IH]; intros pos end_ b ws Hfuel.
  - cbn [parseBodyFrom]. destruct (pos <? end_)%nat; [|eauto].
    destruct (findTopLevelChar src pos end_ "{") as [bracePos|] eqn:Hbrace; [|eauto].
    apply findTopLevelChar_bounds in Hbrace. lia.
  - cbn [parseBodyFrom]. destruct (pos <? end_)%nat; [|eauto].
    destruct (findTopLevelChar src pos end_ "{") as [bracePos|] eqn:Hbrace; [|eauto].
    apply findTopLevelChar_bounds in Hbrace.
    pose proof (findMatchingBrace_gt src bracePos ltac:(lia)) as Hclose.
    destruct (splitClassesAndSelector (substring src pos bracePos)) as [classText selector].
    destruct (extractContent src classText pos b ws) as [b1 ws1].
    destruct (isUnsupportedAtRule (trimL selector)).
    + apply IH. lia.
    + destruct (IH (S bracePos) (findMatchingBrace src bracePos) emptyBody ws1 ltac:(lia))
        as [[inner ws2] Hinner].
      rewrite Hinner. cbn [mbind option_bind]. apply IH. lia.
Qed.

Lemma parseRulesFrom_total (fuel : nat) (src : list ascii) (pos end_ : nat)
    (acc : ParseResult.t) (ws : list Diagnostic) :
  (end_ <= length src)%nat -> (length src <= pos + fuel)%nat ->
  exists r, parseRulesFrom fuel src pos end_ acc ws = Some r.
Proof.
  intros Hend. revert pos acc ws.
  induction fuel as [|f IH]; intros pos acc ws Hfuel; cbn [parseRulesFrom];
    destruct (pos <? end_)%nat; eauto;
    pose proof (skipLoop_ge src end_ (S (end_ - pos)) pos) as Hskip;
    fold (skipWhitespaceAndComments src pos end_) in Hskip;
    destruct (end_ <=? skipWhitespaceAndComments src pos end_)%nat eqn:Hdone; eauto;
    apply Nat.leb_gt in Hdone; [lia|].
  set (pos' := skipWhitespaceAndComments src pos end_) in *.
  destruct (startsWithAt src "@import " pos').
  - assert (Hactual : (pos' <= match indexOfFrom src (str [cNewline]) pos' with
                                | Some lineEnd => Nat.min lineEnd end_
                                | None => end_
                                end)%nat).
    { destruct (indexOfFrom src (str [cNewline]) pos') as [lineEnd|] eqn:Hline; [|lia].
      apply indexOfFrom_ge in Hline. lia. }
    destruct (parseImportDirective _); apply IH; lia.
  - destruct (findTopLevelChar src pos' end_ "{") as [bracePos|] eqn:Hbrace; [|eauto].
    apply findTopLevelChar_bounds in Hbrace.
    pose proof (findMatchingBrace_gt src bracePos ltac:(lia)) as Hclose.
    destruct (isUnsupportedAtRule (trimL (substring src pos' bracePos))).
    + apply IH. lia.
    + unfold parseBody.
      match goal with
      | |- context [parseBodyFrom f src (S bracePos) ?e emptyBody ?w] =>
          destruct (parseBodyFrom_total f src (S bracePos) e emptyBody w ltac:(lia))
            as [[body ws1] Hbody]; rewrite Hbody
      end.
      cbn [mbind option_bind].
      destruct (startsWithL (chars "@export ") (trimL (substring src pos' bracePos)));
        apply IH; lia.
Qed.

End ParserTotal.

Section ClaimOnTotality.
Import JsString Parser.


End ClaimOnTotality.


Section AmbiguityFacts.
Import JsString Parser.

(** Only the membership test decides: the words of the set carry no
    selector syntax, so the earlier tests never fire on them. *)
Lemma looksLikeSelector_spec (text : list ascii) :
  looksLikeSelector text = negb (isAmbiguousTagClass (trimL text)).
Proof.
  unfold looksLikeSelector, isAmbiguousTagClass.
  destruct (existsb (String.eqb (str (trimL text))) AMBIGUOUS_TAG_CLASSES) eqn:Hamb.
  - apply existsb_exists in Hamb. destruct Hamb as [w [Hin Hw]].
    apply String.eqb_eq in Hw.
    assert (Ht : trimL text = chars w) by (rewrite <- Hw; symmetry; apply chars_str).
    rewrite Ht. simpl in Hin.
    repeat (destruct Hin as [<- | Hin]; [reflexivity|]). contradiction.
  - simpl. repeat match goal with
                  | |- context [if ?c then true else _] => destruct c; try reflexivity
                  end.
Qed.

Lemma splitClassesAndSelector_candidate (text : list ascii) (start : nat)
    (sel : list ascii) :
  selectorCandidate text = Some (start, sel) ->
  trimL sel = sel /\
  splitClassesAndSelector text =
  if isAmbiguousTagClass sel then (text, [])
  else (joinLines (take start (splitCharL cNewline text)), sel).
Proof.
  unfold selectorCandidate, splitClassesAndSelector.
  destruct (lastNonBlank (splitCharL cNewline text)) as [selectorEnd|]; [|discriminate].
  intros H. injection H as <- <-.
  split; [apply trimL_idempotent|].
  rewrite looksLikeSelector_spec, trimL_idempotent, negb_involutive.
  reflexivity.
Qed.

(** Content lines add classes, declarations and [@use] directives, never a
    child rule. *)
Lemma extractLines_children (src : list ascii) (baseOffset : nat) (lines : list (list ascii)) :
  forall lineOffset b ws,
    children (fst (extractLines src baseOffset lines lineOffset b ws)) = children b.
Proof.
  induction lines as [|line rest IH]; intros lineOffset b ws; cbn [extractLines];
    [reflexivity|].
  destruct (trimL line) as [|c r]; [apply IH|].
  destruct (startsWithL (chars "@use ") (c :: r) || String.eqb (str (c :: r)) "@use").
  - destruct (parseUseDirective (c :: r)); now rewrite IH.
  - destruct (endsWithL (chars ";") (c :: r)); now rewrite IH.
Qed.

Lemma extractContent_children (src text : list ascii) (baseOffset : nat) (b : Body)
    (ws : list Diagnostic) :
  children (fst (extractContent src text baseOffset b ws)) = children b.
Proof. apply extractLines_children. Qed.

End AmbiguityFacts.

Section ClaimOnAmbiguity.
Import JsString Parser.

(** C7 as stated fails: the header of an unsupported at-rule is text with
    selector syntax in it (a colon) and is no ambiguous word, yet it does not
    become the selector of a nested rule; the block is reported and skipped,
    and the enclosing rule gets no child.  And after an ambiguous word the
    brace opens no sibling of the enclosing rule: it opens a child rule of
    it, with the empty selector. *)
Lemma C7_at_rule_header_is_no_selector :
  existsb isSelectorSyntaxChar (chars "@media (min-width: 1px)") = true /\
  isAmbiguousTagClass (chars "@media (min-width: 1px)") = false /\
  splitClassesAndSelector (chars " @media (min-width: 1px) ") =
    ([], chars "@media (min-width: 1px)") /\
  parseStyleBlock "& { @media (min-width: 1px) { p-4 } }" =
    Some (ParseResult.Build_t [StyleRule.make "&" [] [] [] []] [] [],
          [UnsupportedAtRule 1 "@media"]) /\
  parseStyleBlock "& { flex { p-4 } }" =
    Some (ParseResult.Build_t
            [StyleRule.make "&" ["flex"] [] []
               [StyleRule.make "" ["p-4"] [] [] []]] [] [], []).
Proof. repeat split; vm_compute; reflexivity. Qed.

(** C7 (amended): let [sel] be the selector candidate of the text before a
    brace in a rule body.  If [sel] is one of the ambiguous tag/class words,
    the whole text is body content of the enclosing rule and the brace opens
    a child rule whose selector is empty, never one named by the word.
    Otherwise the text before the candidate is body content, and [sel]
    becomes the selector of the nested rule unless it is the header of an
    unsupported at-rule: then the block is reported and skipped, the body
    goes on after the closing brace with the children it had, and no nested
    rule is created. *)
Theorem C7_ambiguous_word_is_a_class (fuel : nat) (src : list ascii) (pos end_ : nat)
    (b : Body) (ws : list Diagnostic) (bracePos start : nat) (sel : list ascii) :
  (pos < end_)%nat ->
  findTopLevelChar src pos end_ "{" = Some bracePos ->
  selectorCandidate (substring src pos bracePos) = Some (start, sel) ->
  let text := substring src pos bracePos in
  let closePos := findMatchingBrace src bracePos in
  let nested (selector : string) (outer : Body * list Diagnostic) :=
    '(inner, ws') ← parseBodyFrom fuel src (S bracePos) closePos emptyBody (snd outer);
    parseBodyFrom fuel src (S closePos) end_
      (Build_Body (classes (fst outer)) (declarations (fst outer)) (uses (fst outer))
         (children (fst outer) ++
          [StyleRule.make selector (classes inner) (declarations inner) (uses inner)
             (children inner)])) ws' in
  (isAmbiguousTagClass sel = true ->
   splitClassesAndSelector text = (text, []) /\
   parseBodyFrom (S fuel) src pos end_ b ws =
   nested "" (extractContent src text pos b ws)) /\
  (isAmbiguousTagClass sel = false ->
   let outer :=
     extractContent src (joinLines (take start (splitCharL cNewline text))) pos b ws in
   splitClassesAndSelector text =
     (joinLines (take start (splitCharL cNewline text)), sel) /\
   (isUnsupportedAtRule sel = false ->
    parseBodyFrom (S fuel) src pos end_ b ws = nested (str sel) outer) /\
   (isUnsupportedAtRule sel = true ->
    children (fst outer) = children b /\
    parseBodyFrom (S fuel) src pos end_ b ws =
    parseBodyFrom fuel src (S closePos) end_ (fst outer)
      (snd outer ++ [UnsupportedAtRule (lineAt src pos) (str (atRuleName sel))]))).
Proof.
  intros Hlt Hbrace Hcand text closePos nested.
  destruct (splitClassesAndSelector_candidate _ _ _ Hcand) as [Htrim Hsplit].
  fold text in Hsplit. apply Nat.ltb_lt in Hlt.
  split; intros Hamb; rewrite Hamb in Hsplit.
  - split; [exact Hsplit|].
    cbn [parseBodyFrom]. rewrite Hlt, Hbrace. fold text. rewrite Hsplit.
    subst nested. cbv beta. destruct (extractContent src text pos b ws) as [b1 ws1].
    reflexivity.
  - intros outer. split; [exact Hsplit|]. split.
    + intros Hat. cbn [parseBodyFrom]. rewrite Hlt, Hbrace. fold text. rewrite Hsplit.
      subst nested outer. cbv beta.
      destruct (extractContent src (joinLines (take start (splitCharL cNewline text)))
                  pos b ws) as [b1 ws1].
      rewrite Htrim, Hat. reflexivity.
    + intros Hat. split; [apply extractContent_children|].
      cbn [parseBodyFrom]. rewrite Hlt, Hbrace. fold text. rewrite Hsplit.
      subst outer.
      destruct (extractContent src (joinLines (take start (splitCharL cNewline text)))
                  pos b ws) as [b1 ws1].
      rewrite Htrim, Hat. reflexivity.
Qed.

(** [& { flex { p-4 } }] against [& { div { p-4 } }] and
    [& { @media (min-width: 1px) { p-4 } }], at the inner brace. *)
Lemma C7_ambiguous_word_is_a_class_witness :
  parseStyleBlock "& { flex { p-4 } }" =
    Some (ParseResult.Build_t
            [StyleRule.make "&" ["flex"] [] []
               [StyleRule.make "" ["p-4"] [] [] []]] [] [], []) /\
  splitClassesAndSelector (chars " flex ") = (chars " flex ", []) /\
  splitClassesAndSelector (chars " div ") = ([], chars "div") /\
  parseBodyFrom 3 (chars "& { @media (min-width: 1px) { p-4 } }") 3 36 emptyBody [] =
    Some (emptyBody, [UnsupportedAtRule 1 "@media"]).
Proof.
  split; [vm_compute; reflexivity|].
  destruct (C7_ambiguous_word_is_a_class 3 (chars "& { flex { p-4 } }") 3 17 emptyBody []
              9 0 (chars "flex")) as [Hflex _];
    [vm_compute; lia | reflexivity | reflexivity |].
  destruct (C7_ambiguous_word_is_a_class 3 (chars "& { div { p-4 } }") 3 16 emptyBody []
              8 0 (chars "div")) as [_ Hdiv];
    [vm_compute; lia | reflexivity | reflexivity |].
  destruct (C7_ambiguous_word_is_a_class 2 (chars "& { @media (min-width: 1px) { p-4 } }")
              3 36 emptyBody [] 28 0 (chars "@media (min-width: 1px)")) as [_ Hmedia];
    [vm_compute; lia | reflexivity | reflexivity |].
  split; [exact (proj1 (Hflex eq_refl))|].
  split; [exact (proj1 (Hdiv eq_refl))|].
  destruct (Hmedia eq_refl) as (_ & _ & Hat).
  destruct (Hat eq_refl) as [_ Hskip]. rewrite Hskip. vm_compute. reflexivity.
Defined.

End ClaimOnAmbiguity.

(** * Further properties of the transform *)

(** ** Rule trees *)

Section RuleTrees.

(** Induction on rule trees, with the hypothesis for every child. *)
Lemma rule_tree_ind (P : StyleRule.t -> Prop) :
  (forall selector classes declarations uses children,
     Forall P children ->
     P (StyleRule.make selector classes declarations uses children)) ->
  forall r, P r.
Proof.
  intros H. fix IH 1. intros [s c d u ch]. apply H.
  induction ch as [|x ch IHch]; constructor; [apply IH | exact IHch].
Qed.

End RuleTrees.

(** ** Scoped CSS *)

Section ScopedCssFacts.
Import JsString ScopedCss.

Lemma nonEmpty_app {A} (a b : list A) : nonEmpty (a ++ b) = nonEmpty a || nonEmpty b.
Proof. now destruct a. Qed.

Lemma nonEmpty_flat_map {A B} (f : A -> list B) (l : list A) :
  nonEmpty (flat_map f l) = existsb (fun x => nonEmpty (f x)) l.
Proof.
  induction l as [|x l IH]; simpl; [reflexivity|]. now rewrite nonEmpty_app, IH.
Qed.

Lemma nonEmpty_false {A} (l : list A) : nonEmpty l = false <-> l = [].
Proof. destruct l; simpl; split; intros H; congruence. Qed.

Lemma existsb_ext_Forall {A} (f g : A -> bool) (l : list A) :
  Forall (fun x => f x = g x) l -> existsb f l = existsb g l.
Proof. induction 1 as [|x l Hx _ IH]; simpl; [reflexivity|]. now rewrite Hx, IH. Qed.

Lemma flat_map_ext_Forall {A B} (f g : A -> list B) (l : list A) :
  Forall (fun x => f x = g x) l -> flat_map f l = flat_map g l.
Proof. induction 1 as [|x l Hx _ IH]; simpl; [reflexivity|]. now rewrite Hx, IH. Qed.

Lemma ruleHasDeclarations_spec (r : StyleRule.t) :
  ruleHasDeclarations r = nonEmpty (declarationsOf r).
Proof.
  induction r as [s c d u ch IH] using rule_tree_ind. simpl.
  rewrite nonEmpty_app, nonEmpty_flat_map. f_equal.
  now apply existsb_ext_Forall.
Qed.

Lemma hasDeclarations_spec (rules : list StyleRule.t) :
  hasDeclarations rules = nonEmpty (flat_map declarationsOf rules).
Proof.
  unfold hasDeclarations. rewrite nonEmpty_flat_map.
  apply existsb_ext_Forall, Forall_forall. intros r _. apply ruleHasDeclarations_spec.
Qed.

Lemma emitRule_nil (r : StyleRule.t) (depth : nat) :
  emitRule r depth = [] <-> ruleHasDeclarations r = false.
Proof.
  destruct r as [s c d u ch]. simpl. fold (hasDeclarations ch).
  destruct (nonEmpty d), (hasDeclarations ch); simpl; split; intros H;
    try reflexivity; discriminate.
Qed.

(** X1: [buildScopedCSS] answers [null] exactly when no rule of the tree
    carries a raw declaration at any depth, and [emitRule] pushes no line
    for exactly the rules without a declaration at or below them; any other
    rule opens and closes a block. *)
Theorem X1_scoped_css_only_for_declarations (rules : list StyleRule.t) :
  (buildScopedCSS rules = None <-> flat_map declarationsOf rules = []) /\
  (forall (r : StyleRule.t) (depth : nat),
     (emitRule r depth = [] <-> declarationsOf r = []) /\
     (declarationsOf r <> [] ->
      exists body,
        emitRule r depth =
        [indentOf depth +:+ StyleRule.selector r +:+ " {"] ++ body
        ++ [indentOf depth +:+ "}"])).
Proof.
  split.
  - unfold buildScopedCSS. rewrite hasDeclarations_spec, <- nonEmpty_false.
    destruct (nonEmpty (flat_map declarationsOf rules)); simpl; split; intros H;
      try reflexivity; discriminate.
  - intros r depth. split.
    + now rewrite emitRule_nil, ruleHasDeclarations_spec, nonEmpty_false.
    + intros Hne. rewrite <- nonEmpty_false, <- ruleHasDeclarations_spec in Hne.
      destruct r as [s c d u ch]. simpl in *. fold (hasDeclarations ch) in *.
      destruct (nonEmpty d || hasDeclarations ch) eqn:E; [|congruence].
      assert (negb (nonEmpty d) && negb (hasDeclarations ch) = false) as ->.
      { destruct (nonEmpty d), (hasDeclarations ch); simpl in *; congruence. }
      eexists. rewrite !app_assoc. reflexivity.
Qed.

Lemma inTree_hasDeclarations (depth : nat) (rules : list StyleRule.t) (r : StyleRule.t) :
  inTree depth rules r -> StyleRule.declarations r <> [] -> hasDeclarations rules = true.
Proof.
  induction 1 as [rules r Hin | depth rules p r Hin _ IH]; intros Hd.
  - apply existsb_exists. exists r. split; [exact Hin|].
    destruct r as [s c d u ch]. simpl in *. now destruct d.
  - apply existsb_exists. exists p. split; [exact Hin|].
    destruct p as [s c d u ch]. simpl in *. fold (hasDeclarations ch).
    rewrite (IH Hd). apply orb_true_r.
Qed.

Lemma emitRule_lines (depth : nat) (rules : list StyleRule.t) (r : StyleRule.t) :
  inTree depth rules r ->
  forall (decl : string) (base : nat),
    In decl (StyleRule.declarations r) ->
    In (indentOf (base + depth + 1) +:+ decl)
       (flat_map (fun rule => emitRule rule base) rules).
Proof.
  induction 1 as [rules r Hin | depth rules p r Hin Hbelow IH]; intros decl base Hd;
    apply in_flat_map.
  - exists r. split; [exact Hin|].
    destruct r as [s c d u ch]. cbn [StyleRule.declarations] in Hd. cbn [emitRule].
    assert (nonEmpty d = true) as -> by (destruct d; [contradiction | reflexivity]).
    cbn [negb andb]. apply in_cons, in_or_app. left.
    replace (base + 0 + 1)%nat with (base + 1)%nat by lia.
    apply (in_map (fun x => indentOf (base + 1) +:+ x) d decl Hd).
  - exists p. split; [exact Hin|].
    assert (hasDeclarations (StyleRule.children p) = true) as Hb.
    { apply (inTree_hasDeclarations _ _ _ Hbelow). intros E. now rewrite E in Hd. }
    specialize (IH decl (base + 1)%nat Hd).
    destruct p as [s c d u ch]. cbn [StyleRule.children] in *. cbn [emitRule].
    rewrite Hb. cbn [negb]. rewrite andb_false_r.
    apply in_cons, in_or_app. right. apply in_or_app. left.
    replace (base + S depth + 1)%nat with (base + 1 + depth + 1)%nat by lia. exact IH.
Qed.

(** X2: every raw declaration of the rule tree is printed: a declaration of
    a rule standing [depth] levels below the top-level rules is a line of
    the scoped CSS, indented by [depth + 1] steps of two spaces. *)
Theorem X2_every_declaration_is_emitted (rules : list StyleRule.t) (depth : nat)
    (r : StyleRule.t) (decl : string) :
  inTree depth rules r -> In decl (StyleRule.declarations r) ->
  exists lines,
    buildScopedCSS rules = Some (join newline lines) /\
    In (indentOf (depth + 1) +:+ decl) lines.
Proof.
  intros Ht Hd. exists (flat_map (fun rule => emitRule rule 0) rules). split.
  - unfold buildScopedCSS. rewrite (inTree_hasDeclarations _ _ _ Ht); [reflexivity|].
    intros E. now rewrite E in Hd.
  - exact (emitRule_lines _ _ _ Ht decl 0%nat Hd).
Qed.

Lemma X2_every_declaration_is_emitted_witness :
  exists lines,
    buildScopedCSS
      [StyleRule.make "&" ["p-4"] [] []
         [StyleRule.make "> div" ["flex"] ["color: red;"] [] []]]
    = Some (join newline lines) /\
    In (indentOf 2 +:+ "color: red;") lines.
Proof.
  apply (X2_every_declaration_is_emitted
           [StyleRule.make "&" ["p-4"] [] []
              [StyleRule.make "> div" ["flex"] ["color: red;"] [] []]]
           1 (StyleRule.make "> div" ["flex"] ["color: red;"] [] []) "color: red;").
  - apply (inTree_below 0 _ (StyleRule.make "&" ["p-4"] [] []
              [StyleRule.make "> div" ["flex"] ["color: red;"] [] []])).
    + simpl. left. reflexivity.
    + apply inTree_here. simpl. left. reflexivity.
  - simpl. left. reflexivity.
Defined.

Lemma declarationsOnly_hasDeclarations (r : StyleRule.t) :
  ruleHasDeclarations (declarationsOnly r) = ruleHasDeclarations r.
Proof.
  induction r as [s c d u ch IH] using rule_tree_ind. simpl. f_equal.
  induction IH as [|x ch Hx _ IHch]; simpl; [reflexivity|]. now rewrite Hx, IHch.
Qed.

Lemma declarationsOnly_hasDeclarations_list (rules : list StyleRule.t) :
  hasDeclarations (map declarationsOnly rules) = hasDeclarations rules.
Proof.
  unfold hasDeclarations. induction rules as [|x l IH]; simpl; [reflexivity|].
  now rewrite declarationsOnly_hasDeclarations, IH.
Qed.

Lemma declarationsOnly_emitRule (r : StyleRule.t) (depth : nat) :
  emitRule (declarationsOnly r) depth = emitRule r depth.
Proof.
  revert depth. induction r as [s c d u ch IH] using rule_tree_ind. intros depth. simpl.
  rewrite declarationsOnly_hasDeclarations_list.
  destruct (negb (nonEmpty d) && negb (hasDeclarations ch)); [reflexivity|].
  do 3 f_equal.
  induction IH as [|x ch Hx _ IHch]; simpl; [reflexivity|]. now rewrite Hx, IHch.
Qed.

(** X3: the scoped CSS depends on the selectors and the raw declarations
    alone: taking every Tailwind class and every [@use] out of the rule tree
    leaves [buildScopedCSS] unchanged, so no class name ever reaches the
    emitted style sheet. *)
Theorem X3_scoped_css_ignores_classes (rules : list StyleRule.t) :
  buildScopedCSS (map declarationsOnly rules) = buildScopedCSS rules.
Proof.
  unfold buildScopedCSS. rewrite declarationsOnly_hasDeclarations_list.
  destruct (negb (hasDeclarations rules)); [reflexivity|]. do 2 f_equal.
  induction rules as [|x l IH]; simpl; [reflexivity|].
  now rewrite declarationsOnly_emitRule, IH.
Qed.

End ScopedCssFacts.

(** ** Extraction of [:slotted()] and pseudo-element rules *)

Section SlottedFacts.
Import JsString ScopedCss Slotted.

Lemma forallb_forall_Forall {A} (f : A -> bool) (l : list A) :
  forallb f l = true -> Forall (fun x => f x = true) l.
Proof. intros H. apply List.Forall_forall. now apply forallb_forall. Qed.

Lemma take_delete_same {A} (i : nat) (l : list A) : take i (delete i l) = take i l.
Proof.
  revert i. induction l as [|x l IH]; intros [|i]; simpl; try reflexivity.
  f_equal. apply IH.
Qed.

Lemma drop_delete_same {A} (i : nat) (l : list A) : drop i (delete i l) = drop (S i) l.
Proof.
  revert i. induction l as [|x l IH]; intros [|i]; simpl; try reflexivity.
  apply IH.
Qed.

Lemma length_delete_lt {A} (i : nat) (l : list A) :
  (i < length l)%nat -> length (delete i l) = (length l - 1)%nat.
Proof.
  revert i. induction l as [|x l IH]; intros [|i] H; simpl in *; try lia.
  rewrite IH by lia. lia.
Qed.

(** The backwards loop with [splice] takes the matching rules out, last
    first, and keeps the others in their order. *)
Lemma spliceMatching_spec (test : string -> bool) (n : nat) (rules : list StyleRule.t)
    (result : list SlottedRule) :
  (n <= length rules)%nat ->
  spliceMatching test n rules result =
  (result ++ map (Build_SlottedRule [])
               (rev (List.filter (fun r => test (StyleRule.selector r)) (take n rules))),
   List.filter (fun r => negb (test (StyleRule.selector r))) (take n rules) ++ drop n rules).
Proof.
  revert rules result. induction n as [|i IH]; intros rules result Hn.
  - simpl. now rewrite app_nil_r, drop_0.
  - destruct (lookup_lt_is_Some_2 rules i) as [r Hr]; [lia|].
    cbn [spliceMatching]. rewrite Hr, (take_S_r _ _ _ Hr), !List.filter_app. simpl.
    destruct (test (StyleRule.selector r)) eqn:E; simpl.
    + rewrite IH by (rewrite length_delete_lt; lia).
      rewrite take_delete_same, drop_delete_same, app_nil_r, rev_app_distr. simpl.
      now rewrite <- app_assoc.
    + rewrite IH by lia. rewrite app_nil_r, <- app_assoc. simpl.
      now rewrite (drop_S _ _ _ Hr).
Qed.

Lemma spliceMatching_all (test : string -> bool) (rules : list StyleRule.t) :
  spliceMatching test (length rules) rules [] =
  (map (Build_SlottedRule []) (rev (List.filter (fun r => test (StyleRule.selector r)) rules)),
   List.filter (fun r => negb (test (StyleRule.selector r))) rules).
Proof.
  rewrite spliceMatching_spec by lia.
  now rewrite firstn_all, drop_all, app_nil_r.
Qed.

(** The loop body of [extractSlottedFromLevel] on a rule that is not
    slotted, as the source has it: the slotted children are pushed with the
    new path, the others stay and are gone through in turn. *)
Lemma extractSlottedFromRule_normal (ancestorPath : list string) (selector : string)
    (classes declarations : list string) (uses : list UseDirective.t)
    (children : list StyleRule.t) :
  isSlottedSelector selector = false ->
  extractSlottedFromRule ancestorPath
    (StyleRule.make selector classes declarations uses children) =
  let newPath := ancestorPath ++ [selector] in
  let normalChildren := List.filter normalChild children in
  (map (Build_SlottedRule newPath) (List.filter slottedChild children)
   ++ fst (extractSlottedFromLevel normalChildren newPath),
   StyleRule.make selector classes declarations uses
     (snd (extractSlottedFromLevel normalChildren newPath))).
Proof.
  intros Hs. cbn [extractSlottedFromRule]. rewrite Hs. cbv zeta.
  match goal with
  | |- (let '(below, normalChildren) := ?inner children in _) = _ =>
      assert (forall cs, inner cs =
                extractSlottedFromLevel (List.filter normalChild cs)
                  (ancestorPath ++ [selector])) as Hlevel
  end.
  { induction cs as [|c rest IHcs]; [reflexivity|].
    cbn [List.filter]. unfold normalChild at 1.
    destruct (isSlottedSelector (StyleRule.selector c)) eqn:E; cbn [negb].
    - exact IHcs.
    - cbn [extractSlottedFromLevel]. rewrite <- IHcs. reflexivity. }
  rewrite Hlevel.
  now destruct (extractSlottedFromLevel (List.filter normalChild children)
                  (ancestorPath ++ [selector])).
Qed.

Lemma extractSlottedFromRule_slotted (ancestorPath : list string) (r : StyleRule.t) :
  isSlottedSelector (StyleRule.selector r) = true ->
  extractSlottedFromRule ancestorPath r = ([Build_SlottedRule ancestorPath r], r).
Proof. destruct r as [s c d u ch]. simpl. now intros ->. Qed.

Lemma extractSlottedFromLevel_cons (r : StyleRule.t) (rest : list StyleRule.t)
    (path : list string) :
  extractSlottedFromLevel (r :: rest) path =
  (fst (extractSlottedFromRule path r) ++ fst (extractSlottedFromLevel rest path),
   snd (extractSlottedFromRule path r) :: snd (extractSlottedFromLevel rest path)).
Proof.
  cbn [extractSlottedFromLevel].
  now destruct (extractSlottedFromRule path r), (extractSlottedFromLevel rest path).
Qed.

Lemma extractSlottedRules_eq (rules : list StyleRule.t) :
  extractSlottedRules rules =
  (map (Build_SlottedRule []) (rev (List.filter slottedChild rules))
   ++ fst (extractSlottedFromLevel (List.filter normalChild rules) []),
   snd (extractSlottedFromLevel (List.filter normalChild rules) [])).
Proof.
  unfold extractSlottedRules. rewrite spliceMatching_all.
  fold slottedChild. fold normalChild.
  now destruct (extractSlottedFromLevel (List.filter normalChild rules) []).
Qed.

Lemma filter_normal_Forall (rules : list StyleRule.t) :
  Forall (fun r => isSlottedSelector (StyleRule.selector r) = false)
    (List.filter normalChild rules).
Proof.
  apply List.Forall_forall. intros r Hr. apply List.filter_In in Hr as [_ Hr].
  unfold normalChild in Hr. now destruct (isSlottedSelector (StyleRule.selector r)).
Qed.

Lemma filter_slotted_Forall (rules : list StyleRule.t) :
  Forall (fun r => isSlottedSelector (StyleRule.selector r) = true)
    (List.filter slottedChild rules).
Proof.
  apply List.Forall_forall. intros r Hr. now apply List.filter_In in Hr as [_ Hr].
Qed.

Lemma Forall_filter_keep {A} (P : A -> Prop) (f : A -> bool) (l : list A) :
  Forall P l -> Forall P (List.filter f l).
Proof.
  intros H. apply List.Forall_forall. intros x Hx. apply List.filter_In in Hx as [Hx _].
  rewrite List.Forall_forall in H. now apply H.
Qed.

(** What stays in the tree holds no slotted selector. *)
Lemma extractSlottedFromRule_remaining (r : StyleRule.t) :
  forall path,
    isSlottedSelector (StyleRule.selector r) = false ->
    noneMatching isSlottedSelector (snd (extractSlottedFromRule path r)) = true.
Proof.
  induction r as [s c d u ch IH] using rule_tree_ind. intros path Hs.
  cbn [StyleRule.selector] in Hs. rewrite extractSlottedFromRule_normal by exact Hs.
  cbn [snd noneMatching]. rewrite Hs. cbn [negb andb].
  pose proof (filter_normal_Forall ch) as Hn.
  apply (Forall_filter_keep _ normalChild) in IH.
  induction IH as [|x l Hx _ IHl]; [reflexivity|].
  inversion Hn as [|? ? Hnx Hnl]; subst. rewrite extractSlottedFromLevel_cons.
  cbn [snd forallb]. rewrite (Hx _ Hnx). now apply IHl.
Qed.

Lemma extractSlottedFromLevel_remaining (rules : list StyleRule.t) (path : list string) :
  Forall (fun r => isSlottedSelector (StyleRule.selector r) = false) rules ->
  forallb (noneMatching isSlottedSelector) (snd (extractSlottedFromLevel rules path)) = true.
Proof.
  induction 1 as [|x l Hx _ IH]; [reflexivity|].
  rewrite extractSlottedFromLevel_cons. cbn [snd forallb].
  now rewrite extractSlottedFromRule_remaining, IH.
Qed.

(** What is pushed has a slotted selector. *)
Lemma extractSlottedFromRule_pushed (r : StyleRule.t) :
  forall path,
    Forall (fun sr => isSlottedSelector (StyleRule.selector (rule sr)) = true)
      (fst (extractSlottedFromRule path r)).
Proof.
  induction r as [s c d u ch IH] using rule_tree_ind. intros path.
  destruct (isSlottedSelector s) eqn:Hs.
  - rewrite extractSlottedFromRule_slotted by exact Hs. cbn [fst]. now repeat constructor.
  - rewrite extractSlottedFromRule_normal by exact Hs. cbn [fst].
    apply Forall_app. split.
    + apply Forall_map. cbn [rule]. apply filter_slotted_Forall.
    + apply (Forall_filter_keep _ normalChild) in IH.
      induction IH as [|x l Hx _ IHl]; [constructor|].
      rewrite extractSlottedFromLevel_cons. cbn [fst]. apply Forall_app. split;
        [apply Hx | exact IHl].
Qed.

Lemma extractSlottedFromLevel_pushed (rules : list StyleRule.t) (path : list string) :
  Forall (fun sr => isSlottedSelector (StyleRule.selector (rule sr)) = true)
    (fst (extractSlottedFromLevel rules path)).
Proof.
  induction rules as [|x l IH]; [constructor|].
  rewrite extractSlottedFromLevel_cons. cbn [fst]. apply Forall_app. split;
    [apply extractSlottedFromRule_pushed | exact IH].
Qed.

Lemma extractSlottedRules_remaining (rules : list StyleRule.t) :
  Forall (fun r => noneMatching isSlottedSelector r = true)
    (snd (extractSlottedRules rules)).
Proof.
  rewrite extractSlottedRules_eq. cbn [snd].
  apply forallb_forall_Forall, extractSlottedFromLevel_remaining, filter_normal_Forall.
Qed.

(** X4: [extractSlottedRules] separates the rule tree: no rule left in the
    tree, at any depth, has a [:slotted(] selector, and every rule taken out
    has one. *)
Theorem X4_slotted_rules_are_separated (rules : list StyleRule.t) :
  Forall (fun r => noneMatching isSlottedSelector r = true)
    (snd (extractSlottedRules rules)) /\
  Forall (fun sr => isSlottedSelector (StyleRule.selector (rule sr)) = true)
    (fst (extractSlottedRules rules)).
Proof.
  split; [apply extractSlottedRules_remaining|].
  rewrite extractSlottedRules_eq. cbn [fst]. apply Forall_app. split.
  - apply Forall_map. cbn [rule]. apply Forall_rev, filter_slotted_Forall.
  - apply extractSlottedFromLevel_pushed.
Qed.

Lemma rulesSize_app (a b : list StyleRule.t) :
  Resolver.rulesSize (a ++ b) = (Resolver.rulesSize a + Resolver.rulesSize b)%nat.
Proof. unfold Resolver.rulesSize. now rewrite map_app, list_sum_app. Qed.

Lemma rulesSize_cons (r : StyleRule.t) (l : list StyleRule.t) :
  Resolver.rulesSize (r :: l) = (Resolver.ruleSize r + Resolver.rulesSize l)%nat.
Proof. reflexivity. Qed.

Lemma rulesSize_partition (f : StyleRule.t -> bool) (l : list StyleRule.t) :
  Resolver.rulesSize l =
  (Resolver.rulesSize (List.filter f l)
   + Resolver.rulesSize (List.filter (fun r => negb (f r)) l))%nat.
Proof.
  induction l as [|x l IH]; [reflexivity|]. cbn [List.filter].
  destruct (f x); cbn [negb]; rewrite !rulesSize_cons, IH; lia.
Qed.

Lemma rulesSize_rev (l : list StyleRule.t) :
  Resolver.rulesSize (rev l) = Resolver.rulesSize l.
Proof.
  induction l as [|x l IH]; [reflexivity|]. simpl rev.
  rewrite rulesSize_app, IH, !rulesSize_cons. unfold Resolver.rulesSize at 2. simpl. lia.
Qed.

Lemma map_rule_Build (path : list string) (l : list StyleRule.t) :
  map rule (map (Build_SlottedRule path) l) = l.
Proof. induction l as [|x l IH]; simpl; [reflexivity | now rewrite IH]. Qed.

(** Nothing is lost and nothing is doubled below a rule that stays. *)
Lemma extractSlottedFromRule_size (r : StyleRule.t) :
  forall path,
    isSlottedSelector (StyleRule.selector r) = false ->
    Resolver.ruleSize r =
    (Resolver.ruleSize (snd (extractSlottedFromRule path r))
     + Resolver.rulesSize (map rule (fst (extractSlottedFromRule path r))))%nat.
Proof.
  induction r as [s c d u ch IH] using rule_tree_ind. intros path Hs.
  cbn [StyleRule.selector] in Hs. rewrite extractSlottedFromRule_normal by exact Hs.
  cbn [fst snd Resolver.ruleSize]. fold (Resolver.rulesSize ch).
  match goal with
  | |- context [list_sum (map Resolver.ruleSize ?l)] => fold (Resolver.rulesSize l)
  end.
  rewrite map_app, rulesSize_app, map_rule_Build.
  rewrite (rulesSize_partition slottedChild ch).
  change (fun r => negb (slottedChild r)) with normalChild.
  pose proof (filter_normal_Forall ch) as Hn.
  apply (Forall_filter_keep _ normalChild) in IH.
  enough (Resolver.rulesSize (List.filter normalChild ch) =
          (Resolver.rulesSize (snd (extractSlottedFromLevel (List.filter normalChild ch)
                                      (path ++ [s])))
           + Resolver.rulesSize
               (map rule (fst (extractSlottedFromLevel (List.filter normalChild ch)
                                 (path ++ [s])))))%nat) by lia.
  induction IH as [|x l Hx _ IHl]; [reflexivity|].
  inversion Hn as [|? ? Hnx Hnl]; subst. rewrite extractSlottedFromLevel_cons.
  cbn [fst snd]. rewrite map_app, rulesSize_app, !rulesSize_cons.
  rewrite (Hx (path ++ [s]) Hnx), (IHl Hnl). lia.
Qed.

Lemma extractSlottedFromLevel_size (rules : list StyleRule.t) (path : list string) :
  Forall (fun r => isSlottedSelector (StyleRule.selector r) = false) rules ->
  Resolver.rulesSize rules =
  (Resolver.rulesSize (snd (extractSlottedFromLevel rules path))
   + Resolver.rulesSize (map rule (fst (extractSlottedFromLevel rules path))))%nat.
Proof.
  induction 1 as [|x l Hx _ IH]; [reflexivity|].
  rewrite extractSlottedFromLevel_cons. cbn [fst snd].
  rewrite map_app, rulesSize_app, !rulesSize_cons.
  rewrite (extractSlottedFromRule_size x path Hx), IH. lia.
Qed.

Lemma reaches_incl (rules rules' : list StyleRule.t) (path : list string) (r : StyleRule.t) :
  (forall x, In x rules -> In x rules') -> reaches rules path r -> reaches rules' path r.
Proof.
  intros Hincl H. destruct H as [rules r Hin | rules p path r Hin Hr].
  - apply reaches_here. now apply Hincl.
  - apply reaches_below; [now apply Hincl | exact Hr].
Qed.

Lemma reaches_app (rules : list StyleRule.t) (path : list string) (p r : StyleRule.t)
    (q : list string) :
  reaches rules path p -> reaches (StyleRule.children p) q r ->
  reaches rules (path ++ StyleRule.selector p :: q) r.
Proof.
  induction 1 as [rules p Hin | rules p0 path p Hin _ IH]; intros Hr.
  - simpl. now apply reaches_below.
  - simpl. apply reaches_below; [exact Hin | now apply IH].
Qed.

(** An entry pushed below a rule that stays names the rule's selector and
    then the selectors down to the parent of the rule taken out. *)
Lemma extractSlottedFromRule_reaches (r : StyleRule.t) :
  forall path sr,
    isSlottedSelector (StyleRule.selector r) = false ->
    In sr (fst (extractSlottedFromRule path r)) ->
    exists q,
      selectorPath sr = path ++ StyleRule.selector r :: q /\
      reaches (StyleRule.children r) q (rule sr).
Proof.
  induction r as [s c d u ch IH] using rule_tree_ind. intros path sr Hs Hin.
  cbn [StyleRule.selector StyleRule.children] in *.
  rewrite extractSlottedFromRule_normal in Hin by exact Hs. cbn [fst] in Hin.
  apply in_app_or in Hin as [Hin | Hin].
  - apply in_map_iff in Hin as (x & <- & Hx). apply List.filter_In in Hx as [Hx _].
    exists []. cbn [selectorPath rule]. split; [reflexivity | now apply reaches_here].
  - pose proof (filter_normal_Forall ch) as Hn.
    assert (forall x, In x (List.filter normalChild ch) -> In x ch) as Hincl.
    { intros x Hx. now apply List.filter_In in Hx as [Hx _]. }
    apply (Forall_filter_keep _ normalChild) in IH.
    revert Hin Hincl. induction IH as [|x l Hx _ IHl]; intros Hin Hincl; [contradiction|].
    inversion Hn as [|? ? Hnx Hnl]; subst. rewrite extractSlottedFromLevel_cons in Hin.
    cbn [fst] in Hin. apply in_app_or in Hin as [Hin | Hin].
    + destruct (Hx _ _ Hnx Hin) as (q & Hq & Hr).
      exists (StyleRule.selector x :: q). split.
      * rewrite Hq, <- app_assoc. reflexivity.
      * apply reaches_below; [apply Hincl; now left | exact Hr].
    + apply (IHl Hnl Hin). intros y Hy. apply Hincl. now right.
Qed.

Lemma extractSlottedFromLevel_reaches (rules : list StyleRule.t) (sr : SlottedRule) :
  Forall (fun r => isSlottedSelector (StyleRule.selector r) = false) rules ->
  In sr (fst (extractSlottedFromLevel rules [])) ->
  reaches rules (selectorPath sr) (rule sr).
Proof.
  induction 1 as [|x l Hx _ IH]; intros Hin; [contradiction|].
  rewrite extractSlottedFromLevel_cons in Hin. cbn [fst] in Hin.
  apply in_app_or in Hin as [Hin | Hin].
  - destruct (extractSlottedFromRule_reaches x [] sr Hx Hin) as (q & -> & Hr).
    simpl. apply reaches_below; [now left | exact Hr].
  - apply (reaches_incl l); [intros y Hy; now right | now apply IH].
Qed.

(** X5: an entry of the result of [extractSlottedRules] is a rule of the
    tree as it was given, children included, and its [selectorPath] lists
    the selectors of the rules it stood under, outermost first; the rules
    taken out and the rules left make up the rules given, none lost and
    none doubled. *)
Theorem X5_slotted_rules_keep_their_place (rules : list StyleRule.t) :
  Forall (fun sr => reaches rules (selectorPath sr) (rule sr))
    (fst (extractSlottedRules rules)) /\
  Resolver.rulesSize rules =
  (Resolver.rulesSize (snd (extractSlottedRules rules))
   + Resolver.rulesSize (map rule (fst (extractSlottedRules rules))))%nat.
Proof.
  rewrite extractSlottedRules_eq. cbn [fst snd]. split.
  - apply List.Forall_forall. intros sr Hin. apply in_app_or in Hin as [Hin | Hin].
    + apply in_map_iff in Hin as (x & <- & Hx). cbn [selectorPath rule].
      apply reaches_here. apply in_rev in Hx. now apply List.filter_In in Hx as [Hx _].
    + apply (reaches_incl (List.filter normalChild rules)).
      * intros y Hy. now apply List.filter_In in Hy as [Hy _].
      * apply extractSlottedFromLevel_reaches; [apply filter_normal_Forall | exact Hin].
  - rewrite map_app, rulesSize_app, map_rule_Build, rulesSize_rev.
    rewrite (rulesSize_partition slottedChild rules) at 1.
    change (fun r => negb (slottedChild r)) with normalChild.
    rewrite (extractSlottedFromLevel_size (List.filter normalChild rules) [])
      by apply filter_normal_Forall.
    lia.
Qed.

Lemma noneMatching_children (test : string -> bool) (r : StyleRule.t) :
  noneMatching test r = true ->
  test (StyleRule.selector r) = false /\
  forallb (noneMatching test) (StyleRule.children r) = true.
Proof.
  destruct r as [s c d u ch]. simpl. intros H. apply andb_true_iff in H as [H1 H2].
  split; [now destruct (test s) | exact H2].
Qed.

Lemma filter_none {A} (f : A -> bool) (l : list A) :
  Forall (fun x => f x = false) l -> List.filter f l = [].
Proof. induction 1 as [|x l Hx _ IH]; simpl; [reflexivity|]. now rewrite Hx. Qed.

Lemma filter_all {A} (f : A -> bool) (l : list A) :
  Forall (fun x => f x = true) l -> List.filter f l = l.
Proof. induction 1 as [|x l Hx _ IH]; simpl; [reflexivity|]. now rewrite Hx, IH. Qed.

Lemma noneMatching_heads (test : string -> bool) (l : list StyleRule.t) :
  forallb (noneMatching test) l = true ->
  Forall (fun r => test (StyleRule.selector r) = false) l.
Proof.
  intros H. apply List.Forall_forall. intros r Hr.
  rewrite forallb_forall in H. now apply noneMatching_children, H.
Qed.

(** Where no selector is slotted, nothing is pushed and nothing changes. *)
Lemma extractSlottedFromRule_none (r : StyleRule.t) :
  forall path,
    noneMatching isSlottedSelector r = true ->
    extractSlottedFromRule path r = ([], r).
Proof.
  induction r as [s c d u ch IH] using rule_tree_ind. intros path Hr.
  apply noneMatching_children in Hr as [Hs Hch]. cbn [StyleRule.selector StyleRule.children] in *.
  rewrite extractSlottedFromRule_normal by exact Hs. cbv zeta.
  pose proof (noneMatching_heads _ _ Hch) as Hheads.
  rewrite (filter_none slottedChild ch) by exact Hheads.
  rewrite (filter_all normalChild ch)
    by (eapply Forall_impl; [exact Hheads | intros x Hx; unfold normalChild; now rewrite Hx]).
  enough (extractSlottedFromLevel ch (path ++ [s]) = ([], ch)) as -> by reflexivity.
  apply forallb_forall_Forall in Hch. clear Hheads.
  induction IH as [|x l Hx _ IHl]; [reflexivity|].
  inversion Hch as [|? ? Hcx Hcl]; subst.
  rewrite extractSlottedFromLevel_cons, (Hx _ Hcx), (IHl Hcl). reflexivity.
Qed.

Lemma extractSlottedRules_none (rules : list StyleRule.t) :
  Forall (fun r => noneMatching isSlottedSelector r = true) rules ->
  extractSlottedRules rules = ([], rules).
Proof.
  intros H. rewrite extractSlottedRules_eq.
  assert (Forall (fun r => isSlottedSelector (StyleRule.selector r) = false) rules) as Hheads.
  { eapply Forall_impl; [exact H | intros x Hx; now apply noneMatching_children in Hx]. }
  rewrite (filter_none slottedChild rules) by exact Hheads.
  rewrite (filter_all normalChild rules)
    by (eapply Forall_impl; [exact Hheads | intros x Hx; unfold normalChild; now rewrite Hx]).
  enough (extractSlottedFromLevel rules [] = ([], rules)) as -> by reflexivity.
  clear Hheads. induction H as [|x l Hx _ IH]; [reflexivity|].
  now rewrite extractSlottedFromLevel_cons, (extractSlottedFromRule_none x [] Hx), IH.
Qed.

(** X6: [extractSlottedRules] is idempotent: run again on the rules it
    left, it finds no entry and leaves them as they are; and on a tree
    without any [:slotted(] selector it does nothing at all. *)
Theorem X6_slotted_extraction_idempotent (rules : list StyleRule.t) :
  extractSlottedRules (snd (extractSlottedRules rules)) =
    ([], snd (extractSlottedRules rules)) /\
  (forallb (noneMatching isSlottedSelector) rules = true <->
   extractSlottedRules rules = ([], rules)).
Proof.
  split.
  - apply extractSlottedRules_none, extractSlottedRules_remaining.
  - split.
    + intros H. now apply extractSlottedRules_none, forallb_forall_Forall.
    + intros H. pose proof (extractSlottedRules_remaining rules) as H1.
      rewrite H in H1. cbn [snd] in H1. apply forallb_forall.
      now rewrite List.Forall_forall in H1.
Qed.

(** [extractPseudoElementFromChildren] as the source has it: the
    pseudo-element children are pushed, the others stay and are gone
    through in turn. *)
Lemma extractPseudoElementFromChildren_eq (ancestorPath : list string) (selector : string)
    (classes declarations : list string) (uses : list UseDirective.t)
    (children : list StyleRule.t) :
  extractPseudoElementFromChildren
    (StyleRule.make selector classes declarations uses children) ancestorPath =
  let normalChildren := List.filter plainChild children in
  (map (Build_SlottedRule ancestorPath) (List.filter pseudoChild children)
   ++ fst (extractPseudoElementFromEach normalChildren ancestorPath),
   StyleRule.make selector classes declarations uses
     (snd (extractPseudoElementFromEach normalChildren ancestorPath))).
Proof.
  cbn [extractPseudoElementFromChildren]. cbv zeta.
  match goal with
  | |- (let '(below, normalChildren) := ?inner children in _) = _ =>
      assert (forall cs, inner cs =
                extractPseudoElementFromEach (List.filter plainChild cs) ancestorPath)
        as Hlevel
  end.
  { induction cs as [|c rest IHcs]; [reflexivity|].
    cbn [List.filter]. unfold plainChild at 1.
    destruct (hasPseudoElement (StyleRule.selector c)) eqn:E; cbn [negb].
    - exact IHcs.
    - cbn [extractPseudoElementFromEach]. rewrite <- IHcs. reflexivity. }
  rewrite Hlevel.
  now destruct (extractPseudoElementFromEach (List.filter plainChild children) ancestorPath).
Qed.

Lemma extractPseudoElementFromEach_cons (r : StyleRule.t) (rest : list StyleRule.t)
    (path : list string) :
  extractPseudoElementFromEach (r :: rest) path =
  (fst (extractPseudoElementFromChildren r (path ++ [StyleRule.selector r]))
   ++ fst (extractPseudoElementFromEach rest path),
   snd (extractPseudoElementFromChildren r (path ++ [StyleRule.selector r]))
   :: snd (extractPseudoElementFromEach rest path)).
Proof.
  cbn [extractPseudoElementFromEach].
  now destruct (extractPseudoElementFromChildren r (path ++ [StyleRule.selector r])),
    (extractPseudoElementFromEach rest path).
Qed.

Lemma extractPseudoElementRules_eq (rules : list StyleRule.t) :
  extractPseudoElementRules rules =
  (map (Build_SlottedRule []) (rev (List.filter pseudoChild rules))
   ++ fst (extractPseudoElementFromEach (List.filter plainChild rules) []),
   snd (extractPseudoElementFromEach (List.filter plainChild rules) [])).
Proof.
  unfold extractPseudoElementRules. rewrite spliceMatching_all.
  fold pseudoChild. fold plainChild.
  now destruct (extractPseudoElementFromEach (List.filter plainChild rules) []).
Qed.

Lemma filter_plain_Forall (rules : list StyleRule.t) :
  Forall (fun r => hasPseudoElement (StyleRule.selector r) = false)
    (List.filter plainChild rules).
Proof.
  apply List.Forall_forall. intros r Hr. apply List.filter_In in Hr as [_ Hr].
  unfold plainChild in Hr. now destruct (hasPseudoElement (StyleRule.selector r)).
Qed.

(** Below a rule that stays, no pseudo-element selector is left. *)
Lemma extractPseudoElementFromChildren_remaining (r : StyleRule.t) :
  forall path,
    hasPseudoElement (StyleRule.selector r) = false ->
    noneMatching hasPseudoElement (snd (extractPseudoElementFromChildren r path)) = true.
Proof.
  induction r as [s c d u ch IH] using rule_tree_ind. intros path Hs.
  cbn [StyleRule.selector] in Hs. rewrite extractPseudoElementFromChildren_eq.
  cbn [snd noneMatching]. rewrite Hs. cbn [negb andb].
  pose proof (filter_plain_Forall ch) as Hn.
  apply (Forall_filter_keep _ plainChild) in IH.
  induction IH as [|x l Hx _ IHl]; [reflexivity|].
  inversion Hn as [|? ? Hnx Hnl]; subst. rewrite extractPseudoElementFromEach_cons.
  cbn [snd forallb]. rewrite (Hx _ Hnx). now apply IHl.
Qed.

(** Taking rules out never brings a selector in: a test that fails on every
    selector of the tree fails on every selector of what stays and of what
    is pushed. *)
Lemma extractPseudoElementFromChildren_keeps (test : string -> bool) (r : StyleRule.t) :
  forall path,
    noneMatching test r = true ->
    noneMatching test (snd (extractPseudoElementFromChildren r path)) = true /\
    Forall (fun sr => noneMatching test (rule sr) = true)
      (fst (extractPseudoElementFromChildren r path)).
Proof.
  induction r as [s c d u ch IH] using rule_tree_ind. intros path Hr.
  apply noneMatching_children in Hr as [Hs Hch]. cbn [StyleRule.selector StyleRule.children] in *.
  rewrite extractPseudoElementFromChildren_eq. cbn [fst snd noneMatching]. rewrite Hs.
  cbn [negb andb]. apply forallb_forall_Forall in Hch.
  assert (forallb (noneMatching test)
            (snd (extractPseudoElementFromEach (List.filter plainChild ch) path)) = true /\
          Forall (fun sr => noneMatching test (rule sr) = true)
            (fst (extractPseudoElementFromEach (List.filter plainChild ch) path))) as [H1 H2].
  { pose proof (Forall_filter_keep _ plainChild _ Hch) as Hch'.
    apply (Forall_filter_keep _ plainChild) in IH.
    induction IH as [|x l Hx _ IHl]; [split; [reflexivity | constructor]|].
    inversion Hch' as [|? ? Hcx Hcl]; subst. rewrite extractPseudoElementFromEach_cons.
    cbn [fst snd forallb]. destruct (Hx (path ++ [StyleRule.selector x]) Hcx) as [Hx1 Hx2].
    destruct (IHl Hcl) as [Hl1 Hl2]. rewrite Hx1, Hl1. split; [reflexivity|].
    apply Forall_app. now split. }
  split; [exact H1|]. apply Forall_app. split; [|exact H2].
  apply Forall_map. cbn [rule]. now apply Forall_filter_keep.
Qed.

Lemma extractPseudoElementFromEach_keeps (test : string -> bool) (rules : list StyleRule.t)
    (path : list string) :
  Forall (fun r => noneMatching test r = true) rules ->
  Forall (fun r => noneMatching test r = true) (snd (extractPseudoElementFromEach rules path)) /\
  Forall (fun sr => noneMatching test (rule sr) = true)
    (fst (extractPseudoElementFromEach rules path)).
Proof.
  induction 1 as [|x l Hx _ IH]; [split; constructor|].
  rewrite extractPseudoElementFromEach_cons. cbn [fst snd].
  destruct (extractPseudoElementFromChildren_keeps test x (path ++ [StyleRule.selector x]) Hx)
    as [H1 H2].
  destruct IH as [H3 H4]. split; [now constructor | apply Forall_app; now split].
Qed.

Lemma extractPseudoElementFromEach_remaining (rules : list StyleRule.t) (path : list string) :
  Forall (fun r => hasPseudoElement (StyleRule.selector r) = false) rules ->
  Forall (fun r => noneMatching hasPseudoElement r = true)
    (snd (extractPseudoElementFromEach rules path)).
Proof.
  induction 1 as [|x l Hx _ IH]; [constructor|].
  rewrite extractPseudoElementFromEach_cons. cbn [snd]. constructor; [|exact IH].
  now apply extractPseudoElementFromChildren_remaining.
Qed.

Lemma extractPseudoElementFromChildren_pushed (r : StyleRule.t) :
  forall path,
    Forall (fun sr => hasPseudoElement (StyleRule.selector (rule sr)) = true)
      (fst (extractPseudoElementFromChildren r path)).
Proof.
  induction r as [s c d u ch IH] using rule_tree_ind. intros path.
  rewrite extractPseudoElementFromChildren_eq. cbn [fst]. apply Forall_app. split.
  - apply Forall_map. cbn [rule]. apply List.Forall_forall. intros x Hx.
    now apply List.filter_In in Hx as [_ Hx].
  - apply (Forall_filter_keep _ plainChild) in IH.
    induction IH as [|x l Hx _ IHl]; [constructor|].
    rewrite extractPseudoElementFromEach_cons. cbn [fst]. apply Forall_app. split;
      [apply Hx | exact IHl].
Qed.

Lemma extractPseudoElementFromEach_pushed (rules : list StyleRule.t) (path : list string) :
  Forall (fun sr => hasPseudoElement (StyleRule.selector (rule sr)) = true)
    (fst (extractPseudoElementFromEach rules path)).
Proof.
  induction rules as [|x l IH]; [constructor|].
  rewrite extractPseudoElementFromEach_cons. cbn [fst]. apply Forall_app. split;
    [apply extractPseudoElementFromChildren_pushed | exact IH].
Qed.

(** X7: the two extractions of [forwardTransform], one after the other,
    leave the selector matcher a rule tree without any [:slotted(] and
    without any [::] selector, at any depth; and every pseudo-element entry
    has a [::] selector and holds no [:slotted(] rule, so no rule is emitted
    under both headings. *)
Theorem X7_matcher_sees_neither_slotted_nor_pseudo_element (rules : list StyleRule.t) :
  let afterSlotted := extractSlottedRules rules in
  let afterPseudo := extractPseudoElementRules (snd afterSlotted) in
  Forall (fun r => noneMatching isSlottedSelector r = true /\
                   noneMatching hasPseudoElement r = true) (snd afterPseudo) /\
  Forall (fun sr => hasPseudoElement (StyleRule.selector (rule sr)) = true /\
                    noneMatching isSlottedSelector (rule sr) = true) (fst afterPseudo).
Proof.
  cbv zeta. pose proof (extractSlottedRules_remaining rules) as Hs.
  set (rules1 := snd (extractSlottedRules rules)) in *.
  rewrite extractPseudoElementRules_eq. cbn [fst snd].
  pose proof (Forall_filter_keep _ plainChild _ Hs) as Hs'.
  destruct (extractPseudoElementFromEach_keeps isSlottedSelector _ [] Hs') as [K1 K2].
  pose proof (extractPseudoElementFromEach_remaining _ [] (filter_plain_Forall rules1)) as R.
  pose proof (extractPseudoElementFromEach_pushed (List.filter plainChild rules1) []) as P.
  split.
  - rewrite List.Forall_forall in *. intros r Hr. split; [now apply K1 | now apply R].
  - apply Forall_app. split.
    + apply Forall_map. cbn [rule]. apply Forall_rev.
      apply List.Forall_forall. intros x Hx. apply List.filter_In in Hx as [Hx1 Hx2].
      split; [exact Hx2|]. rewrite List.Forall_forall in Hs. now apply Hs.
    + rewrite List.Forall_forall in *. intros sr Hsr. split; [now apply P | now apply K2].
Qed.

End SlottedFacts.

(** ** CSS for the rules taken out *)

Section SlottedCssFacts.
Import JsString ScopedCss Slotted.

Lemma emitSlottedRule_nonEmpty (r : StyleRule.t) (depth : nat) :
  nonEmpty (emitSlottedRule r depth) = hasSlottedContent r.
Proof.
  destruct r as [s c d u ch]. cbn [emitSlottedRule].
  now destruct (hasSlottedContent (StyleRule.make s c d u ch)).
Qed.

Lemma emitSlottedWithAncestors_nonEmpty (ancestors : list string) (r : StyleRule.t)
    (depth : nat) :
  hasSlottedContent r = true ->
  nonEmpty (emitSlottedWithAncestors ancestors r depth) = true.
Proof.
  intros H. destruct ancestors as [|a rest]; cbn [emitSlottedWithAncestors].
  - now rewrite emitSlottedRule_nonEmpty.
  - reflexivity.
Qed.

Lemma emitSlottedWithAncestors_nesting (ancestors : list string) (r : StyleRule.t) :
  forall depth,
    emitSlottedWithAncestors ancestors r depth =
    imap (fun i a => indentOf (depth + i) +:+ a +:+ " {") ancestors
    ++ emitSlottedRule r (depth + length ancestors)
    ++ rev (imap (fun i _ => indentOf (depth + i) +:+ "}") ancestors).
Proof.
  induction ancestors as [|a rest IH]; intros depth; cbn [emitSlottedWithAncestors].
  - simpl. now rewrite app_nil_r, Nat.add_0_r.
  - rewrite IH. cbn [imap length rev]. rewrite Nat.add_0_r.
    rewrite (imap_ext (fun i x => indentOf (depth + 1 + i) +:+ x +:+ " {")
               ((fun i x => indentOf (depth + i) +:+ x +:+ " {") ∘ S) rest)
      by (intros i x _; unfold compose;
          now replace (depth + 1 + i)%nat with (depth + S i)%nat by lia).
    rewrite (imap_ext (fun i (_ : string) => indentOf (depth + 1 + i) +:+ "}")
               ((fun i (_ : string) => indentOf (depth + i) +:+ "}") ∘ S) rest)
      by (intros i x _; unfold compose;
          now replace (depth + 1 + i)%nat with (depth + S i)%nat by lia).
    replace (depth + 1 + length rest)%nat with (depth + S (length rest))%nat by lia.
    simpl. now rewrite <- !app_assoc.
Qed.

(** X8: [buildSlottedCSS] answers [null] exactly when none of the entries
    has anything to emit (no class and no declaration at any depth); and an
    entry is printed inside one block per selector of its [selectorPath],
    outermost first, each one level deeper than the one before, the rule
    itself at the depth of the path's length. *)
Theorem X8_slotted_css_nests_under_the_path (slottedRules : list SlottedRule) :
  (buildSlottedCSS slottedRules = None <->
   Forall (fun sr => hasSlottedContent (rule sr) = false) slottedRules) /\
  (forall (ancestors : list string) (r : StyleRule.t),
     emitSlottedWithAncestors ancestors r 0 =
     imap (fun i a => indentOf i +:+ a +:+ " {") ancestors
     ++ emitSlottedRule r (length ancestors)
     ++ rev (imap (fun i _ => indentOf i +:+ "}") ancestors)).
Proof.
  split.
  - unfold buildSlottedCSS. destruct slottedRules as [|sr0 rest]; [split; [constructor | reflexivity]|].
    set (srs := sr0 :: rest). clearbody srs.
    rewrite nonEmpty_flat_map.
    match goal with |- (if ?b then _ else _) = None <-> _ => destruct b eqn:E end.
    + split; [discriminate|]. intros H. apply existsb_exists in E as (sr & Hin & Hsr).
      rewrite List.Forall_forall in H. rewrite (H sr Hin) in Hsr. discriminate.
    + split; [|reflexivity]. intros _. apply List.Forall_forall. intros sr Hin.
      destruct (hasSlottedContent (rule sr)) eqn:Hc; [|reflexivity].
      assert (existsb
                (fun x => nonEmpty (if negb (hasSlottedContent (rule x)) then []
                                    else emitSlottedWithAncestors (selectorPath x) (rule x) 0))
                srs = true) as E'.
      { apply existsb_exists. exists sr. split; [exact Hin|]. rewrite Hc. cbn [negb].
        now apply emitSlottedWithAncestors_nonEmpty. }
      rewrite E' in E. discriminate.
  - intros ancestors r. apply (emitSlottedWithAncestors_nesting ancestors r 0).
Qed.

End SlottedCssFacts.

(** ** The class attribute *)

Section ClassAttrFacts.
Import JsString ScopedCss ClassAttr.

Lemma includesL_char (c : ascii) (l : list ascii) :
  includesL [c] l = existsb (ceqb c) l.
Proof.
  induction l as [|x l IH]; [reflexivity|].
  cbn [includesL startsWithL existsb]. rewrite IH. now rewrite andb_true_r.
Qed.

Lemma replaceAll_twice (l : list ascii) :
  replaceAll Parser.cDoubleQuote "&quot;" (replaceAll "&" "&amp;" l) = flat_map escapeChar l.
Proof.
  unfold replaceAll. induction l as [|x l IH]; [reflexivity|].
  cbn [flat_map]. rewrite flat_map_app, IH. f_equal.
  unfold escapeChar. destruct (ceqb x "&") eqn:E; [reflexivity|].
  simpl. now rewrite app_nil_r.
Qed.

Lemma replaceAll_absent (c : ascii) (by_ : string) (l : list ascii) :
  existsb (ceqb c) l = false -> replaceAll c by_ l = l.
Proof.
  unfold replaceAll. induction l as [|x l IH]; [reflexivity|]. cbn [existsb flat_map].
  intros H. apply orb_false_iff in H as [H1 H2].
  assert (ceqb x c = false) as ->.
  { destruct (ceqb x c) eqn:E; [|reflexivity]. apply ceqb_eq in E. subst.
    now rewrite (proj2 (ceqb_eq c c) eq_refl) in H1. }
  simpl. now rewrite IH.
Qed.

Lemma escapeAttrValue_eq (value : string) :
  escapeAttrValue value = str (flat_map escapeChar (chars value)).
Proof.
  unfold escapeAttrValue, includes, doubleQuote.
  change (chars (String Parser.cDoubleQuote "")) with [Parser.cDoubleQuote].
  change (chars "&") with ["&"%char]. rewrite !includesL_char, <- replaceAll_twice.
  destruct (existsb (ceqb Parser.cDoubleQuote) (chars value)) eqn:E1; [reflexivity|].
  destruct (existsb (ceqb "&") (chars value)) eqn:E2; [reflexivity|]. cbn [negb andb].
  rewrite (replaceAll_absent "&" "&amp;" _ E2), (replaceAll_absent _ "&quot;" _ E1).
  now rewrite str_chars.
Qed.

Lemma escapeChar_no_quote (x : ascii) : existsb (ceqb Parser.cDoubleQuote) (escapeChar x) = false.
Proof.
  unfold escapeChar. destruct (ceqb x "&"); [reflexivity|].
  destruct (ceqb x Parser.cDoubleQuote) eqn:E; [reflexivity|].
  cbn [existsb]. rewrite orb_false_r.
  destruct (ceqb Parser.cDoubleQuote x) eqn:E'; [|reflexivity].
  apply ceqb_eq in E'. subst. now rewrite (proj2 (ceqb_eq _ _) eq_refl) in E.
Qed.

Lemma escaped_no_quote (l : list ascii) :
  existsb (ceqb Parser.cDoubleQuote) (flat_map escapeChar l) = false.
Proof.
  induction l as [|x l IH]; [reflexivity|]. cbn [flat_map].
  now rewrite existsb_app, escapeChar_no_quote, IH.
Qed.

Lemma unescapeLoop_escaped (l : list ascii) :
  forall n, (length (flat_map escapeChar l) <= n)%nat ->
            unescapeLoop n (flat_map escapeChar l) = l.
Proof.
  induction l as [|x l IH]; intros n Hn.
  - destruct n; reflexivity.
  - cbn [flat_map] in *. rewrite length_app in Hn.
    unfold escapeChar at 1 in Hn. unfold escapeChar at 1.
    destruct (ceqb x "&") eqn:E1.
    + apply ceqb_eq in E1. subst x. destruct n as [|n]; [simpl in Hn; lia|].
      simpl in Hn. simpl. f_equal. apply IH. lia.
    + destruct (ceqb x Parser.cDoubleQuote) eqn:E2.
      * apply ceqb_eq in E2. subst x. destruct n as [|n]; [simpl in Hn; lia|].
        simpl in Hn. simpl. f_equal. apply IH. lia.
      * destruct n as [|n]; [simpl in Hn; lia|]. simpl in Hn.
        change ([x] ++ flat_map escapeChar l) with (x :: flat_map escapeChar l).
        cbn [unescapeLoop startsWithL chars list_ascii_of_string].
        unfold ceqb in E1. rewrite Ascii.eqb_sym in E1. unfold ceqb. rewrite E1.
        cbn [andb]. f_equal. apply IH. lia.
Qed.

Lemma escapeAttrValue_no_quote (value : string) :
  includes (escapeAttrValue value) doubleQuote = false.
Proof.
  rewrite escapeAttrValue_eq. unfold includes, doubleQuote.
  change (chars (String Parser.cDoubleQuote "")) with [Parser.cDoubleQuote].
  rewrite includesL_char, chars_str. apply escaped_no_quote.
Qed.

Lemma unescape_escape (value : string) : unescapeAttrValue (escapeAttrValue value) = value.
Proof.
  unfold unescapeAttrValue. rewrite escapeAttrValue_eq, chars_str.
  rewrite unescapeLoop_escaped by lia. apply str_chars.
Qed.

(** X9: whatever the class string, [escapeAttrValue] returns a text without
    any double quote, so it cannot end the [class] attribute early; a reader
    that resolves the two character references gets the class string back,
    and so two different class strings are never written alike. *)
Theorem X9_escaped_value_is_quote_free_and_reversible (value : string) :
  includes (escapeAttrValue value) doubleQuote = false /\
  unescapeAttrValue (escapeAttrValue value) = value /\
  (forall other, escapeAttrValue value = escapeAttrValue other -> value = other).
Proof.
  split; [|split].
  - apply escapeAttrValue_no_quote.
  - apply unescape_escape.
  - intros other H. rewrite <- (unescape_escape value), <- (unescape_escape other).
    now rewrite H.
Qed.

(** X10: [addClasses] replaces the [class] attribute over its own range
    when the element has one and inserts one right after the tag name
    otherwise; either way the text written is [class="..."] with no double
    quote between the two that delimit it, and its value reads as the
    trimmed value the element had, a space, and the new classes joined by
    spaces, each written once. *)
Theorem X10_class_attribute_is_well_formed (el : Location) (classes : list string) :
  let new := join " " (dedupe classes) in
  let existing := trim (default "" (classAttrValue el)) in
  exists body,
    includes body doubleQuote = false /\
    match classAttrStart el, classAttrEnd el with
    | Some start, Some end_ =>
        addClasses el classes =
          Overwrite start end_ ("class=" +:+ doubleQuote +:+ body +:+ doubleQuote) /\
        unescapeAttrValue body =
          (if String.eqb existing "" then new else existing +:+ " " +:+ new)
    | _, _ =>
        addClasses el classes =
          AppendLeft (afterTagNameOffset el)
            (" class=" +:+ doubleQuote +:+ body +:+ doubleQuote) /\
        unescapeAttrValue body = new
    end.
Proof.
  cbv zeta. unfold addClasses.
  destruct (classAttrStart el) as [start|], (classAttrEnd el) as [end_|];
    eexists; (split; [apply escapeAttrValue_no_quote|]);
    (split; [reflexivity | apply unescape_escape]).
Qed.

Lemma existsb_eqb_In (n : string) (l : list string) :
  existsb (String.eqb n) l = true <-> In n l.
Proof.
  rewrite existsb_exists. split.
  - intros (x & Hx & E). apply String.eqb_eq in E. now subst.
  - intros H. exists n. split; [exact H | apply String.eqb_refl].
Qed.

Lemma setOfNames_loop (names : list string) :
  forall acc,
    List.NoDup acc ->
    let r := fold_left (fun acc n => if existsb (String.eqb n) acc then acc else acc ++ [n])
               names acc in
    List.NoDup r /\ (forall x, In x r <-> In x acc \/ In x names) /\
    (List.NoDup (acc ++ names) -> r = acc ++ names).
Proof.
  induction names as [|n names IH]; intros acc Hacc; cbn [fold_left]; cbv zeta.
  - split; [exact Hacc|]. split; [intros x; simpl; tauto|]. intros _. now rewrite app_nil_r.
  - destruct (existsb (String.eqb n) acc) eqn:E.
    + apply existsb_eqb_In in E. destruct (IH acc Hacc) as (H1 & H2 & _).
      split; [exact H1|]. split.
      * intros x. rewrite H2. simpl. split; [tauto|]. intros [H | [<- | H]]; tauto.
      * intros Hnd. exfalso. apply List.NoDup_remove_2 in Hnd. apply Hnd.
        apply in_or_app. now left.
    + assert (~ In n acc) as Hn.
      { intros H. apply existsb_eqb_In in H. congruence. }
      assert (List.NoDup (acc ++ [n])) as Hacc'.
      { apply List.NoDup_app; [exact Hacc | repeat constructor; simpl; tauto|].
        intros x Hx [<- | []]. contradiction. }
      destruct (IH (acc ++ [n]) Hacc') as (H1 & H2 & H3).
      split; [exact H1|]. split.
      * intros x. rewrite H2, in_app_iff. simpl. tauto.
      * intros Hnd. rewrite H3; rewrite <- app_assoc; [reflexivity | exact Hnd].
Qed.

(** X11: the classes collected for an element are written once each, in
    the order of their first occurrence: [[...new Set(classes)]] has no
    duplicate, holds exactly the classes given, leaves a list without
    duplicates as it is, and is idempotent. *)
Theorem X11_collected_classes_are_deduplicated (classes : list string) :
  List.NoDup (dedupe classes) /\
  (forall c, In c (dedupe classes) <-> In c classes) /\
  (List.NoDup classes <-> dedupe classes = classes) /\
  dedupe (dedupe classes) = dedupe classes.
Proof.
  destruct (setOfNames_loop classes [] (List.NoDup_nil _)) as (H1 & H2 & H3).
  fold (Resolver.setOfNames classes) in H1, H2, H3. fold (dedupe classes) in H1, H2, H3.
  split; [exact H1|]. split; [intros c; rewrite H2; simpl; tauto|]. split.
  - split; [exact H3 | intros E; now rewrite <- E].
  - destruct (setOfNames_loop (dedupe classes) [] (List.NoDup_nil _)) as (_ & _ & K).
    apply K. exact H1.
Qed.

End ClassAttrFacts.

(** ** The matching engine *)

Section EngineMore.
Import JsString Template Selector Loop Engine.

Variable heap : Heap.

Lemma matchesCompound_nil (fuel : nat) (el : NodeRef) :
  matchesCompound heap fuel el [] = Some true.
Proof. destruct fuel; reflexivity. Qed.

(** One turn of the loop of [matchesCompound]. *)
Lemma matchesCompound_cons (fuel : nat) (el : NodeRef) (part : Node) (rest : list Node) :
  matchesCompound heap fuel el (part :: rest) =
  let continue := matchesCompound heap fuel el rest in
  match part with
  | NUniversal => continue
  | NTag value => if seqb (tag (heap el)) value then continue else Some false
  | NClass value =>
      if includesStr (classes (heap el)) value then continue else Some false
  | NId value =>
      match id (heap el) with
      | Some i => if seqb i value then continue else Some false
      | None => Some false
      end
  | NAttribute attrName attrOp attrVal =>
      match matchesAttribute heap el attrName attrOp attrVal with
      | Break => continue
      | ReturnFalse => Some false
      | ThrowsTypeError => None
      end
  | NPseudo value nodes =>
      if seqb value ":has" then
        match fuel with
        | O => None
        | S f =>
            anyMatch ← anyM (matchesHasSelector heap (matchesCompound heap f) f el)
                            (innerSelectors nodes);
            if anyMatch : bool then continue else Some false
        end
      else if seqb value ":not" then
        match fuel with
        | O => None
        | S f =>
            anyMatch ← anyM (elementMatchesComplexSelector heap (matchesCompound heap f) f el)
                            (innerSelectors nodes);
            if anyMatch : bool then Some false else continue
        end
      else if seqb value ":is" || seqb value ":where" then
        match fuel with
        | O => None
        | S f =>
            anyMatch ← anyM (elementMatchesComplexSelector heap (matchesCompound heap f) f el)
                            (innerSelectors nodes);
            if anyMatch : bool then continue else Some false
        end
      else if matchStructuralPseudo heap el value nodes then continue
      else Some false
  | _ => continue
  end.
Proof. destruct fuel; reflexivity. Qed.

(** X12: a compound selector is the conjunction of its parts, read from
    the left: [matchesCompound] on [p1 ++ p2] answers as on [p1] and, when
    that holds, as on [p2]; it stops at the first part that fails. *)
Theorem X12_compound_is_conjunction (fuel : nat) (el : NodeRef) (p1 p2 : list Node) :
  matchesCompound heap fuel el (p1 ++ p2) =
  (b ← matchesCompound heap fuel el p1;
   if b : bool then matchesCompound heap fuel el p2 else Some false).
Proof.
  induction p1 as [|part rest IH].
  - rewrite matchesCompound_nil. simpl. now destruct (matchesCompound heap fuel el p2).
  - change ((part :: rest) ++ p2) with (part :: (rest ++ p2)).
    rewrite !matchesCompound_cons. cbv zeta. rewrite IH.
    destruct part; try reflexivity;
      repeat match goal with
             | |- context [if ?c then _ else _] =>
                 lazymatch c with
                 | context [matchesCompound] => fail
                 | _ => destruct c; try reflexivity
                 end
             | |- context [match id (heap el) with _ => _ end] =>
                 destruct (id (heap el)); try reflexivity
             | |- context [match fuel with _ => _ end] => destruct fuel; try reflexivity
             | |- context [anyM ?f ?l] => destruct (anyM f l) as [[|]|]; try reflexivity
             | |- context [matchesAttribute ?h ?e ?n ?o ?a] =>
                 destruct (matchesAttribute h e n o a); try reflexivity
             end.
Qed.

Lemma elementMatchesComplexSelector_compound (mc : NodeRef -> list Node -> option bool)
    (fuel : nat) (el : NodeRef) (parts : list Node) :
  isCompound parts = true ->
  elementMatchesComplexSelector heap mc fuel el parts = mc el parts.
Proof.
  intros Hc. unfold elementMatchesComplexSelector.
  rewrite (segments_bare_compound parts Hc). simpl.
  now destruct (mc el parts) as [[|]|].
Qed.

(** X13: the relational pseudo-classes agree with each other: [:where]
    matches as [:is] does, [:not] matches exactly when [:is] on the same
    arguments does not (and gives no answer exactly when it does), and
    [:is] on a single compound selector matches as the compound itself. *)
Theorem X13_is_where_not_agree (fuel : nat) (el : NodeRef) (inner : list Node) :
  matchesCompound heap fuel el [NPseudo ":where" inner] =
    matchesCompound heap fuel el [NPseudo ":is" inner] /\
  matchesCompound heap fuel el [NPseudo ":not" inner] =
    negb <$> matchesCompound heap fuel el [NPseudo ":is" inner] /\
  (forall (source : string) (parts : list Node),
     isCompound parts = true ->
     matchesCompound heap (S fuel) el [NPseudo ":is" [NSelector source parts]] =
       matchesCompound heap fuel el parts).
Proof.
  split; [|split].
  - destruct fuel; reflexivity.
  - destruct fuel as [|f]; [reflexivity|]. simpl.
    now destruct (anyM (elementMatchesComplexSelector heap (matchesCompound heap f) f el)
                    (innerSelectors inner)) as [[|]|].
  - intros source parts Hc. simpl.
    rewrite (elementMatchesComplexSelector_compound _ fuel el parts Hc).
    now destruct (matchesCompound heap fuel el parts) as [[|]|].
Qed.

Lemma indexOfFrom_nil (i : Z) (x : NodeRef) : indexOfFrom i [] x = -1.
Proof. reflexivity. Qed.

(** X14: the sibling combinators look for the siblings of an anchor among
    the children of its parent, so an anchor without a parent has none: from
    root-level nodes, [+] and [~] match nothing, whatever stands next to
    them in the template and whatever the compound asked for. *)
Theorem X14_root_level_anchors_have_no_siblings
    (mc : NodeRef -> list Node -> option bool) (fuel : nat) (anchors : list NodeRef)
    (parts : list Node) :
  Forall (fun a => parent (heap a) = None) anchors ->
  matchAdjacentSiblingViaParent heap mc anchors parts = Some [] /\
  matchGeneralSiblingViaParent heap mc anchors parts = Some [] /\
  chainStep heap mc fuel anchors {| combinator := "+"; parts := parts |} = Some [] /\
  chainStep heap mc fuel anchors {| combinator := "~"; parts := parts |} = Some [].
Proof.
  intros Hroot.
  assert (matchAdjacentSiblingViaParentLoop heap mc anchors parts ([], []) = Some ([], [])
          /\ matchGeneralSiblingViaParentLoop heap mc anchors parts ([], []) = Some ([], []))
    as [Ha Hg].
  { induction Hroot as [|a l Hr _ [IH1 IH2]]; [split; reflexivity|].
    cbn [matchAdjacentSiblingViaParentLoop matchGeneralSiblingViaParentLoop].
    unfold rawSiblings. rewrite Hr. split; [exact IH1 | exact IH2]. }
  unfold chainStep, matchAdjacentSiblingViaParent, matchGeneralSiblingViaParent.
  cbn [combinator Selector.parts]. change (seqb "+" ">") with false.
  change (seqb "+" "+") with true. change (seqb "~" ">") with false.
  change (seqb "~" "+") with false. change (seqb "~" "~") with true. cbv iota.
  rewrite Ha, Hg. repeat split; reflexivity.
Qed.

End EngineMore.

Section EngineMoreWitnesses.
Import JsString Template Selector Loop Engine.

Lemma hasRef_In (seen : list NodeRef) (x : NodeRef) : hasRef seen x = true <-> In x seen.
Proof.
  unfold hasRef. rewrite existsb_exists. split.
  - intros (y & Hy & E). apply Nat.eqb_eq in E. now subst.
  - intros H. exists x. split; [exact H | apply Nat.eqb_refl].
Qed.

Lemma addUnseen_spec (els : list NodeRef) :
  forall acc,
    fst acc = snd acc -> List.NoDup (fst acc) ->
    fst (addUnseen els acc) = snd (addUnseen els acc) /\
    List.NoDup (fst (addUnseen els acc)) /\
    (forall x, In x (fst (addUnseen els acc)) <-> In x (fst acc) \/ In x els).
Proof.
  induction els as [|el r IH]; intros [res seen] Heq Hnd; cbn [fst snd] in *; subst seen.
  - simpl. repeat split; try assumption; tauto.
  - cbn [addUnseen snd fst]. destruct (hasRef res el) eqn:E.
    + apply hasRef_In in E. destruct (IH (res, res) eq_refl Hnd) as (H1 & H2 & H3).
      split; [exact H1|]. split; [exact H2|]. intros x. rewrite H3. cbn [fst]. simpl.
      split; [tauto|]. intros [H | [<- | H]]; tauto.
    + assert (~ In el res) as Hn by (intros H; apply hasRef_In in H; congruence).
      assert (List.NoDup (res ++ [el])) as Hnd'.
      { apply List.NoDup_app; [exact Hnd | repeat constructor; simpl; tauto|].
        intros x Hx [<- | []]. contradiction. }
      destruct (IH (res ++ [el], res ++ [el]) eq_refl Hnd') as (H1 & H2 & H3).
      split; [exact H1|]. split; [exact H2|]. intros x. rewrite H3. cbn [fst].
      rewrite in_app_iff. simpl. tauto.
Qed.

Lemma matchSelectorLoop_spec (heap : Heap) (fuel : nat) (scopeElements : list NodeRef)
    (parentMatched : option (list NodeRef)) (astNodes : list Node) :
  forall acc r,
    matchSelectorLoop heap fuel astNodes scopeElements parentMatched acc = Some r ->
    fst acc = snd acc -> List.NoDup (fst acc) ->
    List.NoDup (fst r) /\
    (forall x,
       In x (fst r) <->
       In x (fst acc) \/
       exists source nodes els,
         In (NSelector source nodes) astNodes /\
         matchSelectorPart heap fuel nodes scopeElements parentMatched = Some els /\
         In x els).
Proof.
  induction astNodes as [|n rest IH]; intros acc r Hrun Heq Hnd.
  - simpl in Hrun. injection Hrun as <-. split; [exact Hnd|]. intros x. split; [tauto|].
    intros [H | (? & ? & ? & [] & _)]. exact H.
  - assert (forall acc', matchSelectorLoop heap fuel rest scopeElements parentMatched acc'
                         = Some r ->
                         fst acc' = snd acc' -> List.NoDup (fst acc') ->
                         (forall x, In x (fst acc') <-> In x (fst acc)) ->
                         (forall source nodes, n <> NSelector source nodes) ->
                         List.NoDup (fst r) /\
                         (forall x,
                            In x (fst r) <->
                            In x (fst acc) \/
                            exists source nodes els,
                              In (NSelector source nodes) (n :: rest) /\
                              matchSelectorPart heap fuel nodes scopeElements parentMatched
                              = Some els /\ In x els)) as Hskip.
    { intros acc' Hrun' Heq' Hnd' Hsame Hnot.
      destruct (IH acc' r Hrun' Heq' Hnd') as [H1 H2]. split; [exact H1|].
      intros x. rewrite H2, Hsame. split.
      - intros [H | (so & ns & els & Hin & Hm & Hx)]; [now left|].
        right. exists so, ns, els. split; [now right | now split].
      - intros [H | (so & ns & els & [Hin | Hin] & Hm & Hx)]; [now left | |].
        + exfalso. exact (Hnot so ns Hin).
        + right. now exists so, ns, els. }
    destruct n as [source nodes| | | | | | | | | |];
      try (apply (Hskip acc Hrun Heq Hnd); [tauto | discriminate]).
    cbn [matchSelectorLoop] in Hrun.
    destruct (matchSelectorPart heap fuel nodes scopeElements parentMatched) as [els|] eqn:Em;
      [|discriminate].
    simpl in Hrun. destruct (addUnseen_spec els acc Heq Hnd) as (A1 & A2 & A3).
    destruct (IH _ r Hrun A1 A2) as [H1 H2]. split; [exact H1|].
    intros x. rewrite H2, A3. split.
    + intros [[H | H] | (so & ns & els' & Hin & Hm & Hx)].
      * now left.
      * right. exists source, nodes, els. split; [now left | now split].
      * right. exists so, ns, els'. split; [now right | now split].
    + intros [H | (so & ns & els' & [Hin | Hin] & Hm & Hx)].
      * left. now left.
      * injection Hin as <- <-. rewrite Em in Hm. injection Hm as <-. left. now right.
      * right. now exists so, ns, els'.
Qed.

(** X15: a selector list matches the union of its comma-separated
    branches: a node is returned by [matchSelector] exactly when some branch
    matches it, and it is returned once, also when several branches (or one
    branch, through several anchors) reach it. *)
Theorem X15_selector_list_is_a_duplicate_free_union (heap : Heap) (fuel : nat)
    (astNodes : list Node) (scopeElements : list NodeRef)
    (parentMatched : option (list NodeRef)) (result : list NodeRef) :
  matchSelector heap fuel astNodes scopeElements parentMatched = Some result ->
  List.NoDup result /\
  (forall x,
     In x result <->
     exists source nodes els,
       In (NSelector source nodes) astNodes /\
       matchSelectorPart heap fuel nodes scopeElements parentMatched = Some els /\
       In x els).
Proof.
  unfold matchSelector. intros H.
  destruct (matchSelectorLoop heap fuel astNodes scopeElements parentMatched ([], []))
    as [r|] eqn:E; [|discriminate].
  simpl in H. injection H as <-.
  destruct (matchSelectorLoop_spec heap fuel scopeElements parentMatched astNodes _ r E
              eq_refl (List.NoDup_nil _)) as [H1 H2].
  split; [exact H1|]. intros x. rewrite H2. cbn [fst]. simpl. tauto.
Qed.

Lemma X15_selector_list_is_a_duplicate_free_union_witness :
  List.NoDup [Examples.figureImg; Examples.sectionImg] /\
  (forall x,
     In x [Examples.figureImg; Examples.sectionImg] <->
     exists source nodes els,
       In (NSelector source nodes)
          [NSelector "img" [NTag "img"];
           NSelector "div img" [NTag "div"; NCombinator " "; NTag "img"]] /\
       matchSelectorPart Examples.imgHeap 4 nodes [Examples.figure; Examples.section_] None
       = Some els /\
       In x els).
Proof.
  apply (X15_selector_list_is_a_duplicate_free_union Examples.imgHeap 4
           [NSelector "img" [NTag "img"];
            NSelector "div img" [NTag "div"; NCombinator " "; NTag "img"]]
           [Examples.figure; Examples.section_] None
           [Examples.figureImg; Examples.sectionImg]).
  vm_compute. reflexivity.
Defined.

Lemma splitSegmentsLoop_spec (nodes : list Node) :
  forall segments c cur,
  exists new,
    splitSegmentsLoop nodes segments c cur = segments ++ new /\
    Forall (fun seg => parts seg <> []) new /\
    concat (map parts new) =
      cur ++ List.filter (fun n => match n with
                                   | NCombinator _ | NNesting => false
                                   | _ => true
                                   end) nodes /\
    Forall (fun seg => combinator seg = c \/
                       exists value, In (NCombinator value) nodes /\
                                     combinator seg = trim value) new.
Proof.
  induction nodes as [|n rest IH]; intros segments c cur.
  - cbn [splitSegmentsLoop List.filter]. rewrite app_nil_r. destruct cur as [|x cur].
    + exists []. rewrite app_nil_r. repeat split; constructor.
    + exists [{| combinator := c; parts := x :: cur |}]. split; [reflexivity|].
      split; [repeat constructor; discriminate|]. split; [simpl; now rewrite app_nil_r|].
      constructor; [now left | constructor].
  - assert (exists new,
                        splitSegmentsLoop rest segments c (cur ++ [n]) = segments ++ new /\
                        Forall (fun seg => parts seg <> []) new /\
                        concat (map parts new) =
                          cur ++ n :: List.filter
                                        (fun n => match n with
                                                  | NCombinator _ | NNesting => false
                                                  | _ => true
                                                  end) rest /\
                        Forall (fun seg => combinator seg = c \/
                                           exists value, In (NCombinator value) (n :: rest) /\
                                                         combinator seg = trim value) new)
      as Hpart.
    { destruct (IH segments c (cur ++ [n])) as (new & H1 & H2 & H3 & H4).
      exists new. split; [exact H1|]. split; [exact H2|].
      split; [now rewrite H3, <- app_assoc|].
      eapply Forall_impl; [exact H4|]. intros seg [H | (v & Hv & E)]; [now left|].
      right. exists v. split; [now right | exact E]. }
    destruct n as [source ns| | | | | | |value| | |];
      try (cbn [splitSegmentsLoop List.filter]; exact Hpart).
    + cbn [splitSegmentsLoop List.filter]. destruct cur as [|x cur].
      * destruct (IH segments (trim value) []) as (new & H1 & H2 & H3 & H4).
        exists new. split; [exact H1|]. split; [exact H2|]. split; [exact H3|].
        eapply Forall_impl; [exact H4|]. intros seg [H | (v & Hv & E)].
        -- right. exists value. split; [now left | exact H].
        -- right. exists v. split; [now right | exact E].
      * destruct (IH (segments ++ [{| combinator := c; parts := x :: cur |}]) (trim value) [])
          as (new & H1 & H2 & H3 & H4).
        exists ({| combinator := c; parts := x :: cur |} :: new).
        split; [now rewrite H1, <- app_assoc|].
        split; [constructor; [discriminate | exact H2]|].
        split; [cbn [map concat parts]; now rewrite H3|].
        constructor; [now left|].
        eapply Forall_impl; [exact H4|]. intros seg [H | (v & Hv & E)].
        -- right. exists value. split; [now left | exact H].
        -- right. exists v. split; [now right | exact E].
    + cbn [splitSegmentsLoop List.filter].
      destruct (IH segments c cur) as (new & H1 & H2 & H3 & H4).
      exists new. split; [exact H1|]. split; [exact H2|]. split; [exact H3|].
      eapply Forall_impl; [exact H4|]. intros seg [H | (v & Hv & E)]; [now left|].
      right. exists v. split; [now right | exact E].
Qed.

(** X16: [splitIntoCombinatorSegments] loses no simple selector and makes
    no empty segment: every segment has at least one part, the parts of the
    segments in order are the nodes of the selector without its combinators
    and nesting selectors, and the combinator of a segment is the descendant
    combinator it starts with or the trimmed value of a combinator of the
    selector. *)
Theorem X16_segments_partition_the_selector (nodes : list Node) :
  let segments := splitIntoCombinatorSegments nodes in
  Forall (fun seg => parts seg <> []) segments /\
  concat (map parts segments) =
    List.filter (fun n => match n with
                          | NCombinator _ | NNesting => false
                          | _ => true
                          end) nodes /\
  Forall (fun seg => combinator seg = " " \/
                     exists value, In (NCombinator value) nodes /\
                                   combinator seg = trim value) segments.
Proof.
  cbv zeta. unfold splitIntoCombinatorSegments.
  destruct (splitSegmentsLoop_spec nodes [] " " []) as (new & H1 & H2 & H3 & H4).
  rewrite H1. cbn [app] in *. now repeat split.
Qed.

Lemma X14_root_level_anchors_have_no_siblings_witness :
  matchAdjacentSiblingViaParent Examples.imgHeap
    (matchesCompound Examples.imgHeap 1) [Examples.figure; Examples.section_] [NTag "section"]
  = Some [] /\
  matchGeneralSiblingViaParent Examples.imgHeap
    (matchesCompound Examples.imgHeap 1) [Examples.figure; Examples.section_] [NTag "section"]
  = Some [] /\
  chainStep Examples.imgHeap (matchesCompound Examples.imgHeap 1) 1
    [Examples.figure; Examples.section_] {| combinator := "+"; parts := [NTag "section"] |}
  = Some [] /\
  chainStep Examples.imgHeap (matchesCompound Examples.imgHeap 1) 1
    [Examples.figure; Examples.section_] {| combinator := "~"; parts := [NTag "section"] |}
  = Some [].
Proof.
  apply (X14_root_level_anchors_have_no_siblings Examples.imgHeap).
  repeat constructor.
Defined.

End EngineMoreWitnesses.

(** ** The scanners of the parser *)

Section ScannerMore.
Import JsString Parser Nesting.

Lemma charIs_Some (src : list ascii) (i : nat) (c : ascii) :
  charIs src i c = true -> src !! i = Some c.
Proof.
  unfold charIs. destruct (src !! i) as [x|]; [|discriminate].
  intros H. apply ceqb_eq in H. now subst.
Qed.

Lemma stepTopLevel_found (src : list ascii) (char : ascii) (i r : nat) (s : Scan) :
  stepTopLevel src char i s = Return r -> r = i /\ src !! i = Some char.
Proof.
  unfold stepTopLevel. destruct (scanLexical src i s) as [st|] eqn:Hlex.
  - intros ->. apply scanLexical_continues in Hlex. destruct Hlex as (e & s' & H).
    discriminate.
  - destruct (charIs src i "{") eqn:Ho.
    { destruct (depth s =? 0); simpl; [|discriminate].
      destruct (ceqb char "{") eqn:E; intros H; [|discriminate].
      apply ceqb_eq in E. subst char. injection H as <-. split; [reflexivity|].
      now apply charIs_Some. }
    destruct (charIs src i "}") eqn:Hc.
    { destruct (depth s =? 0); simpl; [|discriminate].
      destruct (ceqb char "}") eqn:E; intros H; [|discriminate].
      apply ceqb_eq in E. subst char. injection H as <-. split; [reflexivity|].
      now apply charIs_Some. }
    destruct (depth s =? 0); simpl; [|discriminate].
    destruct (charIs src i char) eqn:Hx; intros H; [|discriminate].
    injection H as <-. split; [reflexivity | now apply charIs_Some].
Qed.

Lemma findTopLevelLoop_found (src : list ascii) (char : ascii) (n i r : nat) (s : Scan) :
  findTopLevelLoop src char n i s = Some r ->
  (i <= r < i + n)%nat /\ src !! r = Some char.
Proof.
  revert i s. induction n as [n IH] using lt_wf_ind. intros i s H.
  destruct n as [|n1]; [discriminate|]. simpl in H.
  destruct (stepTopLevel src char i s) as [r'|[|] s'] eqn:Hstep.
  - injection H as <-. apply stepTopLevel_found in Hstep as [-> Hc]. split; [lia | exact Hc].
  - destruct n1 as [|n2]; [discriminate|]. apply IH in H; [|lia]. split; [lia | apply H].
  - apply IH in H; [|lia]. split; [lia | apply H].
Qed.

Lemma stepMatching_found (src : list ascii) (i r : nat) (s : Scan) :
  stepMatching src i s = Return r -> r = i /\ src !! i = Some "}"%char.
Proof.
  unfold stepMatching. destruct (scanLexical src i s) as [st|] eqn:Hlex.
  - intros ->. apply scanLexical_continues in Hlex. destruct Hlex as (e & s' & H).
    discriminate.
  - destruct (charIs src i "{"); [discriminate|].
    destruct (charIs src i "}") eqn:Hc; [|discriminate].
    destruct (depth s - 1 =? 0); intros H; [|discriminate].
    injection H as <-. split; [reflexivity | now apply charIs_Some].
Qed.

Lemma findMatchingLoop_found (src : list ascii) (n i : nat) (s : Scan) :
  (i + n <= length src)%nat ->
  let r := findMatchingLoop src n i s in
  (i <= r <= length src)%nat /\ ((r < length src)%nat -> src !! r = Some "}"%char).
Proof.
  revert i s. induction n as [n IH] using lt_wf_ind. intros i s Hn. cbv zeta.
  destruct n as [|n1]; simpl; [split; lia|].
  destruct (stepMatching src i s) as [r'|[|] s'] eqn:Hstep.
  - apply stepMatching_found in Hstep as [-> Hc]. split; [lia | now intros _].
  - destruct n1 as [|n2]; [split; lia|].
    destruct (IH n2 ltac:(lia) (S (S i)) s' ltac:(lia)) as [H1 H2]. split; [lia | exact H2].
  - destruct (IH n1 ltac:(lia) (S i) s' ltac:(lia)) as [H1 H2]. split; [lia | exact H2].
Qed.

(** X17: what the two scanners return is where they say: a position found
    by [findTopLevelChar] lies in [[start, end)] and holds the character
    looked for; [findMatchingBrace] returns a position after the opening
    brace that holds a closing brace, or else the length of the text. *)
Theorem X17_scanners_return_what_they_look_for (src : list ascii) :
  (forall (start end_ : nat) (char : ascii),
     match findTopLevelChar src start end_ char with
     | Some r => (start <= r < end_)%nat /\ src !! r = Some char
     | None => True
     end) /\
  (forall openPos : nat,
     (openPos < length src)%nat ->
     let r := findMatchingBrace src openPos in
     (openPos < r <= length src)%nat /\
     ((r < length src)%nat -> src !! r = Some "}"%char)).
Proof.
  split.
  - intros start end_ char.
    destruct (findTopLevelChar src start end_ char) as [r|] eqn:E; [|exact I].
    apply findTopLevelLoop_found in E as [H1 H2]. split; [lia | exact H2].
  - intros openPos Hlt. cbv zeta. unfold findMatchingBrace.
    destruct (findMatchingLoop_found src (length src - S openPos) (S openPos)
                (Build_Scan 1 0 None false) ltac:(lia)) as [H1 H2].
    split; [lia | exact H2].
Qed.

Lemma isPlain_chars (c : ascii) :
  isPlain c = true ->
  ceqb c cDoubleQuote = false /\ ceqb c "'" = false /\ ceqb c "/" = false /\
  ceqb c "[" = false /\ ceqb c "]" = false /\ ceqb c "{" = false /\ ceqb c "}" = false.
Proof.
  unfold isPlain. cbn [existsb]. intros H. apply negb_true_iff in H.
  repeat (apply orb_false_iff in H as [? H]). now repeat split.
Qed.

Lemma charIs_middle (pre : list ascii) (c : ascii) (tail : list ascii) (x : ascii) :
  charIs (pre ++ c :: tail) (length pre) x = ceqb c x.
Proof. unfold charIs. now rewrite list_lookup_middle. Qed.

(** Outside strings, comments and brackets, a character that starts none
    of them is left to the brace logic. *)
Lemma scanLexical_outside (pre : list ascii) (c : ascii) (tail : list ascii) (d : Z) :
  ceqb c cDoubleQuote = false -> ceqb c "'" = false -> ceqb c "/" = false ->
  ceqb c "[" = false -> ceqb c "]" = false ->
  scanLexical (pre ++ c :: tail) (length pre) (outside d) = None.
Proof.
  intros H1 H2 H3 H4 H5. unfold scanLexical, outside. cbn [inString inComment inBracket].
  rewrite !charIs_middle, H1, H2, H3, H4, H5. reflexivity.
Qed.

Lemma stepMatching_plain (pre : list ascii) (c : ascii) (tail : list ascii) (d : Z) :
  isPlain c = true ->
  stepMatching (pre ++ c :: tail) (length pre) (outside d) = Continue false (outside d).
Proof.
  intros H. apply isPlain_chars in H as (H1 & H2 & H3 & H4 & H5 & H6 & H7).
  unfold stepMatching. rewrite scanLexical_outside by assumption.
  now rewrite !charIs_middle, H6, H7.
Qed.

Lemma stepMatching_open (pre tail : list ascii) (d : Z) :
  stepMatching (pre ++ "{"%char :: tail) (length pre) (outside d)
  = Continue false (outside (d + 1)).
Proof.
  unfold stepMatching. rewrite scanLexical_outside by reflexivity.
  now rewrite !charIs_middle.
Qed.

Lemma stepMatching_close (pre tail : list ascii) (d : Z) :
  stepMatching (pre ++ "}"%char :: tail) (length pre) (outside d)
  = if d - 1 =? 0 then Return (length pre) else Continue false (outside (d - 1)).
Proof.
  unfold stepMatching. rewrite scanLexical_outside by reflexivity.
  now rewrite !charIs_middle.
Qed.

(** [findMatchingBrace] steps over well-nested text below the brace it is
    matching. *)
Lemma findMatchingLoop_nested (body : list ascii) :
  Nested body ->
  forall (pre tail : list ascii) (d : Z) (n : nat),
    1 <= d -> (length body <= n)%nat ->
    findMatchingLoop (pre ++ body ++ tail) n (length pre) (outside d) =
    findMatchingLoop (pre ++ body ++ tail) (n - length body) (length pre + length body)
      (outside d).
Proof.
  induction 1 as [|c rest Hc _ IH | inner rest _ IHinner _ IHrest]; intros pre tail d n Hd Hn.
  - simpl. now rewrite Nat.sub_0_r, Nat.add_0_r.
  - cbn [length] in Hn. destruct n as [|n1]; [lia|].
    cbn [findMatchingLoop]. change ((c :: rest) ++ tail) with (c :: (rest ++ tail)).
    rewrite (stepMatching_plain pre c (rest ++ tail) d Hc).
    replace (pre ++ c :: rest ++ tail) with ((pre ++ [c]) ++ rest ++ tail)
      by (now rewrite <- app_assoc).
    replace (S (length pre)) with (length (pre ++ [c])) by (rewrite length_app; simpl; lia).
    rewrite (IH (pre ++ [c]) tail d n1 Hd ltac:(lia)).
    cbn [length]. f_equal. rewrite length_app. simpl. lia.
  - cbn [length] in Hn. rewrite length_app in Hn. cbn [length] in Hn.
    destruct n as [|n1]; [lia|]. cbn [findMatchingLoop].
    change (("{"%char :: inner ++ "}"%char :: rest) ++ tail)
      with ("{"%char :: ((inner ++ "}"%char :: rest) ++ tail)).
    rewrite stepMatching_open.
    replace (pre ++ "{"%char :: (inner ++ "}"%char :: rest) ++ tail)
      with ((pre ++ ["{"%char]) ++ inner ++ ("}"%char :: rest ++ tail))
      by (rewrite <- !app_assoc; reflexivity).
    replace (S (length pre)) with (length (pre ++ ["{"%char]))
      by (rewrite length_app; simpl; lia).
    rewrite (IHinner (pre ++ ["{"%char]) ("}"%char :: rest ++ tail) (d + 1) n1
               ltac:(lia) ltac:(lia)).
    destruct (n1 - length inner)%nat as [|n2] eqn:En; [lia|]. cbn [findMatchingLoop].
    replace ((pre ++ ["{"%char]) ++ inner ++ "}"%char :: rest ++ tail)
      with (((pre ++ ["{"%char]) ++ inner) ++ "}"%char :: rest ++ tail)
      by (rewrite <- !app_assoc; reflexivity).
    replace (length (pre ++ ["{"%char]) + length inner)%nat
      with (length ((pre ++ ["{"%char]) ++ inner)) by (now rewrite !length_app).
    rewrite stepMatching_close.
    replace (d + 1 - 1) with d by lia.
    destruct (d =? 0) eqn:Ed; [apply Z.eqb_eq in Ed; lia|].
    replace (((pre ++ ["{"%char]) ++ inner) ++ "}"%char :: rest ++ tail)
      with ((((pre ++ ["{"%char]) ++ inner) ++ ["}"%char]) ++ rest ++ tail)
      by (rewrite <- !app_assoc; reflexivity).
    replace (S (length ((pre ++ ["{"%char]) ++ inner)))
      with (length (((pre ++ ["{"%char]) ++ inner) ++ ["}"%char]))
      by (rewrite !length_app; simpl; lia).
    rewrite (IHrest _ tail d n2 Hd ltac:(lia)).
    cbn [length]. rewrite !length_app. cbn [length]. f_equal; lia.
Qed.

Lemma stepTopLevel_plain (pre : list ascii) (c : ascii) (tail : list ascii) :
  isPlain c = true ->
  stepTopLevel (pre ++ c :: tail) "{" (length pre) (outside 0) = Continue false (outside 0).
Proof.
  intros H. apply isPlain_chars in H as (H1 & H2 & H3 & H4 & H5 & H6 & H7).
  unfold stepTopLevel. rewrite scanLexical_outside by assumption.
  now rewrite !charIs_middle, H6, H7.
Qed.

Lemma findTopLevelLoop_plain (text : list ascii) :
  forallb isPlain text = true ->
  forall (pre tail : list ascii) (n : nat),
    (length text <= n)%nat ->
    findTopLevelLoop (pre ++ text ++ tail) "{" n (length pre) (outside 0) =
    findTopLevelLoop (pre ++ text ++ tail) "{" (n - length text) (length pre + length text)
      (outside 0).
Proof.
  induction text as [|c rest IH]; intros Hall pre tail n Hn.
  - simpl. now rewrite Nat.sub_0_r, Nat.add_0_r.
  - cbn [forallb] in Hall. apply andb_true_iff in Hall as [Hc Hall].
    cbn [length] in Hn. destruct n as [|n1]; [lia|]. cbn [findTopLevelLoop].
    change ((c :: rest) ++ tail) with (c :: (rest ++ tail)).
    rewrite (stepTopLevel_plain pre c (rest ++ tail) Hc).
    replace (pre ++ c :: rest ++ tail) with ((pre ++ [c]) ++ rest ++ tail)
      by (now rewrite <- app_assoc).
    replace (S (length pre)) with (length (pre ++ [c])) by (rewrite length_app; simpl; lia).
    rewrite (IH Hall (pre ++ [c]) tail n1 ltac:(lia)).
    cbn [length]. f_equal. rewrite length_app. simpl. lia.
Qed.

(** X18: on a rule [header { body }] whose header is plain text and whose
    body is plain text and well-nested blocks (no string, comment or square
    bracket), the scanners find the braces of the rule: [findTopLevelChar]
    returns the position of the opening brace, and [findMatchingBrace] from
    there the position of the brace that closes it, whatever comes before
    and after the rule. *)
Theorem X18_scanners_find_the_braces_of_a_rule (pre header body post : list ascii) :
  forallb isPlain header = true -> Nested body ->
  let src := pre ++ header ++ "{"%char :: body ++ "}"%char :: post in
  findTopLevelChar src (length pre) (length src) "{" = Some (length pre + length header)%nat /\
  findMatchingBrace src (length pre + length header) =
    (length pre + length header + 1 + length body)%nat.
Proof.
  intros Hh Hb. cbv zeta. split.
  - unfold findTopLevelChar. fold (outside 0).
    rewrite (findTopLevelLoop_plain header Hh pre _ _)
      by (rewrite !length_app; simpl; lia).
    rewrite app_assoc.
    replace (length pre + length header)%nat with (length (pre ++ header))
      by (now rewrite length_app).
    destruct (length ((pre ++ header) ++ "{"%char :: body ++ "}"%char :: post)
              - length pre - length header)%nat as [|n1] eqn:En.
    { rewrite !length_app in En. simpl in En. lia. }
    cbn [findTopLevelLoop]. unfold stepTopLevel.
    rewrite scanLexical_outside by reflexivity. now rewrite charIs_middle.
  - unfold findMatchingBrace. fold (outside 1).
    replace (pre ++ header ++ "{"%char :: body ++ "}"%char :: post)
      with ((pre ++ header ++ ["{"%char]) ++ body ++ "}"%char :: post)
      by (rewrite <- !app_assoc; reflexivity).
    replace (S (length pre + length header)) with (length (pre ++ header ++ ["{"%char]))
      by (rewrite !length_app; simpl; lia).
    rewrite (findMatchingLoop_nested body Hb _ _ 1 _ ltac:(lia))
      by (rewrite !length_app; simpl; lia).
    destruct (length ((pre ++ header ++ ["{"%char]) ++ body ++ "}"%char :: post)
              - length (pre ++ header ++ ["{"%char]) - length body)%nat as [|n1] eqn:En.
    { rewrite !length_app in En. simpl in En. lia. }
    cbn [findMatchingLoop].
    rewrite app_assoc.
    replace (length (pre ++ header ++ ["{"%char]) + length body)%nat
      with (length ((pre ++ header ++ ["{"%char]) ++ body)) by (now rewrite !length_app).
    rewrite stepMatching_close. cbn [Z.sub Z.eqb Z.add Z.opp Z.pos_sub].
    rewrite !length_app. simpl. lia.
Qed.

Lemma X18_scanners_find_the_braces_of_a_rule_witness :
  let src := chars "x " ++ chars "& " ++ "{"%char :: chars " a { b } c " ++ "}"%char :: chars " y" in
  findTopLevelChar src 2 (length src) "{" = Some 4%nat /\
  findMatchingBrace src 4 = 16%nat.
Proof.
  apply (X18_scanners_find_the_braces_of_a_rule (chars "x ") (chars "& ")
           (chars " a { b } c ") (chars " y")).
  - reflexivity.
  - apply nested_plain; [reflexivity|]. apply nested_plain; [reflexivity|].
    apply nested_plain; [reflexivity|].
    apply (nested_block (chars " b ") (chars " c ")).
    + repeat (apply nested_plain; [reflexivity|]). apply nested_nil.
    + repeat (apply nested_plain; [reflexivity|]). apply nested_nil.
Defined.

End ScannerMore.

(** ** The directives of the parser *)

Section DirectiveFacts.
Import JsString Parser.

Lemma isWordChar_not_space (c : ascii) : isWordChar c = true -> isWhitespace c = false.
Proof.
  unfold isWordChar, isWhitespace. intros H.
  destruct ((9 <=? code c)%nat && (code c <=? 13)%nat || (code c =? 32)%nat
            || (code c =? 160)%nat) eqn:E; [|reflexivity].
  exfalso.
  repeat match goal with
         | H : _ || _ = true |- _ => apply orb_true_iff in H as [H | H]
         | H : _ && _ = true |- _ => apply andb_true_iff in H as [? H]
         | H : (_ <=? _)%nat = true |- _ => apply Nat.leb_le in H
         | H : (_ =? _)%nat = true |- _ => apply Nat.eqb_eq in H
         end; lia.
Qed.

(** What [parseUseDirective] accepts has a name and, when it names a file,
    a path. *)
Lemma parseUseDirective_sound (text : list ascii) (d : UseDirective.t) :
  parseUseDirective text = Some d ->
  (exists c rest,
     chars (UseDirective.name d) = c :: rest /\ isWordChar c = true /\
     forallb isNameChar rest = true) /\
  (forall from, UseDirective.from d = Some from ->
                from <> "" /\ forallb (fun x => negb (isQuote x)) (chars from) = true).
Proof.
  unfold parseUseDirective.
  destruct (startsWithL (chars "@use") text); [|discriminate].
  destruct (drop 4 text) as [|w l0'] eqn:El0; [discriminate|].
  destruct (isWhitespace w); [|discriminate].
  destruct (dropWhile isWhitespace (w :: l0')) as [|c r]; [discriminate|].
  destruct (isWordChar c) eqn:Ec; [|discriminate].
  match goal with
  | |- match ?fg with _ => _ end = _ -> _ => destruct fg as [path|] eqn:Efrom
  end.
  - intros H. injection H as <-. cbn [UseDirective.name UseDirective.from]. split.
    + exists c, (takeWhile isNameChar r).
      split; [apply (chars_str (c :: takeWhile isNameChar r))|].
      split; [exact Ec | apply takeWhile_forallb].
    + intros from H. injection H as <-.
      destruct (dropWhile isNameChar r) as [|w' after']; [discriminate|].
      destruct (isWhitespace w' && startsWithL (chars "from") (dropWhile isWhitespace (w' :: after')));
        [|discriminate].
      destruct (drop 4 (dropWhile isWhitespace (w' :: after'))) as [|w'' r'']; [discriminate|].
      destruct (isWhitespace w''); [|discriminate].
      unfold quotedPathThenTail in Efrom.
      destruct (dropWhile isWhitespace (w'' :: r'')) as [|q qr]; [discriminate|].
      destruct (isQuote q); [|discriminate].
      destruct (takeWhile (fun c0 => negb (isQuote c0)) qr) as [|p0 path'] eqn:Ep;
        [discriminate|].
      destruct (dropWhile (fun c0 => negb (isQuote c0)) qr) as [|? tail]; [discriminate|].
      destruct (isDirectiveTail tail); [|discriminate].
      injection Efrom as <-. split.
      * intros E. apply (f_equal chars) in E. rewrite chars_str in E. discriminate.
      * rewrite chars_str, <- Ep. apply takeWhile_forallb.
  - destruct (isDirectiveTail (dropWhile isNameChar r)); [|discriminate].
    intros H. injection H as <-. cbn [UseDirective.name UseDirective.from]. split.
    + exists c, (takeWhile isNameChar r).
      split; [apply (chars_str (c :: takeWhile isNameChar r))|].
      split; [exact Ec | apply takeWhile_forallb].
    + discriminate.
Qed.

Lemma parseUseDirective_name (c : ascii) (rest : list ascii) :
  isWordChar c = true -> forallb isNameChar rest = true ->
  parseUseDirective (chars "@use " ++ c :: rest)
  = Some (UseDirective.Build_t (str (c :: rest)) None).
Proof.
  intros Hc Hrest. unfold parseUseDirective.
  change (chars "@use " ++ c :: rest) with (chars "@use" ++ " "%char :: c :: rest).
  cbn [startsWithL chars list_ascii_of_string app ceqb Ascii.eqb Bool.eqb andb drop].
  cbn [isWhitespace code nat_of_ascii]. change (isWhitespace " ") with true. cbv iota.
  cbn [dropWhile]. change (isWhitespace " ") with true. cbv iota.
  rewrite (isWordChar_not_space c Hc), Hc.
  destruct (takeWhile_app_stop isNameChar rest [] Hrest I) as [Ht Hd].
  rewrite app_nil_r in Ht, Hd. rewrite Ht, Hd. reflexivity.
Qed.

Lemma isQuote_not_space (q : ascii) : isQuote q = true -> isWhitespace q = false.
Proof.
  unfold isQuote. intros H. apply orb_true_iff in H as [H | H]; apply ceqb_eq in H;
    subst; reflexivity.
Qed.

Lemma parseUseDirective_from (c : ascii) (rest : list ascii) (q q' p0 : ascii)
    (path : list ascii) :
  isWordChar c = true -> forallb isNameChar rest = true ->
  isQuote q = true -> isQuote q' = true ->
  forallb (fun x => negb (isQuote x)) (p0 :: path) = true ->
  parseUseDirective (chars "@use " ++ c :: rest ++ chars " from " ++ q :: p0 :: path ++ [q'])
  = Some (UseDirective.Build_t (str (c :: rest)) (Some (str (p0 :: path)))).
Proof.
  intros Hc Hrest Hq Hq' Hpath. unfold parseUseDirective.
  change (chars "@use " ++ c :: rest ++ chars " from " ++ q :: p0 :: path ++ [q'])
    with (chars "@use" ++ " "%char :: c :: rest ++ chars " from " ++ q :: p0 :: path ++ [q']).
  cbn [startsWithL chars list_ascii_of_string app ceqb Ascii.eqb Bool.eqb andb drop].
  change (isWhitespace " ") with true. cbv iota.
  cbn [dropWhile]. change (isWhitespace " ") with true. cbv iota.
  rewrite (isWordChar_not_space c Hc), Hc.
  destruct (takeWhile_app_stop isNameChar rest
              (" "%char :: "f"%char :: "r"%char :: "o"%char :: "m"%char :: " "%char
               :: q :: p0 :: path ++ [q']) Hrest eq_refl) as [Ht Hd].
  rewrite Ht, Hd. change (isWhitespace " ") with true.
  cbn [dropWhile]. change (isWhitespace " ") with true. change (isWhitespace "f") with false.
  cbv iota.
  cbn [startsWithL chars list_ascii_of_string ceqb Ascii.eqb Bool.eqb andb drop].
  change (isWhitespace " ") with true. cbv iota.
  cbn [dropWhile]. change (isWhitespace " ") with true. cbv iota.
  rewrite (isQuote_not_space q Hq). unfold quotedPathThenTail. rewrite Hq.
  assert (negb (isQuote q') = false) as Hstop by now rewrite Hq'.
  destruct (takeWhile_app_stop (fun x => negb (isQuote x)) (p0 :: path) [q'] Hpath Hstop)
    as [Ht' Hd'].
  change (p0 :: path ++ [q']) with ((p0 :: path) ++ [q']). rewrite Ht', Hd'. reflexivity.
Qed.

(** X19: [parseUseDirective] accepts the two forms its warning names and
    reads them back: [@use name] gives the name and no file, and
    [@use name from 'path'] (either quote) gives the name and the path, for
    every name made of a word character followed by word characters and
    hyphens and every non-empty path without quotes.  Whatever it accepts
    has such a name and, when it names a file, such a path. *)
Theorem X19_use_directive_reads_back :
  (forall (c : ascii) (rest : list ascii),
     isWordChar c = true -> forallb isNameChar rest = true ->
     parseUseDirective (chars "@use " ++ c :: rest)
     = Some (UseDirective.Build_t (str (c :: rest)) None)) /\
  (forall (c : ascii) (rest : list ascii) (q q' p0 : ascii) (path : list ascii),
     isWordChar c = true -> forallb isNameChar rest = true ->
     isQuote q = true -> isQuote q' = true ->
     forallb (fun x => negb (isQuote x)) (p0 :: path) = true ->
     parseUseDirective
       (chars "@use " ++ c :: rest ++ chars " from " ++ q :: p0 :: path ++ [q'])
     = Some (UseDirective.Build_t (str (c :: rest)) (Some (str (p0 :: path))))) /\
  (forall (text : list ascii) (d : UseDirective.t),
     parseUseDirective text = Some d ->
     (exists c rest,
        chars (UseDirective.name d) = c :: rest /\ isWordChar c = true /\
        forallb isNameChar rest = true) /\
     (forall from, UseDirective.from d = Some from ->
                   from <> "" /\
                   forallb (fun x => negb (isQuote x)) (chars from) = true)).
Proof.
  split; [exact parseUseDirective_name|].
  split; [exact parseUseDirective_from | exact parseUseDirective_sound].
Qed.

Lemma isNameChar_facts (x : ascii) :
  isNameChar x = true ->
  isWhitespace x = false /\ ceqb x "," = false /\ isQuote x = false /\
  isImportNameChar x = true.
Proof.
  destruct x as [[|] [|] [|] [|] [|] [|] [|] [|]]; vm_compute; intros H;
    try discriminate H; repeat split; reflexivity.
Qed.

Lemma trimL_no_space (l : list ascii) :
  forallb (fun x => negb (isWhitespace x)) l = true -> trimL l = l.
Proof.
  intros H. unfold trimL, trimEndL, trimStartL.
  assert (headKept l) as H1.
  { destruct l as [|c l]; [exact I|]. simpl in *. apply andb_true_iff in H as [H _].
    now destruct (isWhitespace c). }
  rewrite (dropWhile_kept l H1).
  assert (headKept (rev l)) as H2.
  { destruct (rev l) as [|c r] eqn:E; [exact I|]. simpl.
    assert (In c l) as Hin by (apply in_rev; rewrite E; now left).
    rewrite forallb_forall in H. specialize (H c Hin). now destruct (isWhitespace c). }
  rewrite (dropWhile_kept _ H2). apply rev_involutive.
Qed.

Lemma splitCharL_none (sep : ascii) (a : list ascii) :
  forallb (fun x => negb (ceqb x sep)) a = true -> splitCharL sep a = [a].
Proof.
  induction a as [|c a IH]; [reflexivity|]. cbn [forallb splitCharL]. intros H.
  apply andb_true_iff in H as [Hc Ha]. apply negb_true_iff in Hc. now rewrite Hc, IH.
Qed.

Lemma splitCharL_app_sep (sep : ascii) (a b : list ascii) :
  forallb (fun x => negb (ceqb x sep)) a = true ->
  splitCharL sep (a ++ sep :: b) = a :: splitCharL sep b.
Proof.
  induction a as [|c a IH]; cbn [forallb app splitCharL]; intros H.
  - now rewrite (proj2 (ceqb_eq sep sep) eq_refl).
  - apply andb_true_iff in H as [Hc Ha]. apply negb_true_iff in Hc. now rewrite Hc, IH.
Qed.

Lemma isName_chars (n : list ascii) :
  Nesting.isName n = true ->
  n <> [] /\ forallb (fun x => negb (isWhitespace x)) n = true /\
  forallb (fun x => negb (ceqb x ",")) n = true /\
  forallb (fun x => negb (isQuote x)) n = true /\
  forallb isImportNameChar n = true.
Proof.
  unfold Nesting.isName. destruct n as [|c n]; [discriminate|]. intros H.
  split; [discriminate|]. rewrite !forallb_forall in *.
  repeat split; intros x Hx; destruct (isNameChar_facts x (H x Hx)) as (H1 & H2 & H3 & H4);
    now rewrite ?H1, ?H2, ?H3, ?H4.
Qed.

(** Splitting a list of names at its commas and trimming the pieces gives
    the names back. *)
Lemma commaSeparated_split (names : list (list ascii)) :
  names <> [] -> Forall (fun n => Nesting.isName n = true) names ->
  map trimL (splitCharL "," (Nesting.commaSeparated names)) = names.
Proof.
  intros Hne Hall. induction Hall as [|n rest Hn Hrest IH]; [contradiction|].
  destruct (isName_chars n Hn) as (_ & Hws & Hcomma & _ & _).
  destruct rest as [|n2 rest].
  - cbn [Nesting.commaSeparated]. rewrite (splitCharL_none _ _ Hcomma). simpl.
    now rewrite (trimL_no_space n Hws).
  - specialize (IH ltac:(discriminate)).
    change (Nesting.commaSeparated (n :: n2 :: rest))
      with (n ++ ","%char :: " "%char :: Nesting.commaSeparated (n2 :: rest)).
    rewrite (splitCharL_app_sep _ _ _ Hcomma). cbn [map].
    rewrite (trimL_no_space n Hws). f_equal.
    cbn [splitCharL]. change (ceqb " " ",") with false. cbv iota.
    destruct (splitCharL "," (Nesting.commaSeparated (n2 :: rest))) as [|w ws];
      [discriminate|].
    cbn [map] in *. injection IH as IH1 IH2. now rewrite IH2, <- IH1.
Qed.

Lemma commaSeparated_chars (names : list (list ascii)) :
  Forall (fun n => Nesting.isName n = true) names ->
  forallb isImportNameChar (Nesting.commaSeparated names) = true /\
  forallb (fun x => negb (isQuote x)) (Nesting.commaSeparated names) = true.
Proof.
  induction 1 as [|n rest Hn Hrest [IH1 IH2]]; [now split|].
  destruct (isName_chars n Hn) as (_ & _ & _ & Hq & Hi).
  destruct rest as [|n2 rest]; [now split|].
  change (Nesting.commaSeparated (n :: n2 :: rest))
    with (n ++ ","%char :: " "%char :: Nesting.commaSeparated (n2 :: rest)).
  rewrite !forallb_app. cbn [forallb]. rewrite Hq, Hi, IH1, IH2. now split.
Qed.

Lemma quotedPathThenTail_quoted (q q' p0 : ascii) (path : list ascii) :
  isQuote q = true -> isQuote q' = true ->
  forallb (fun x => negb (isQuote x)) (p0 :: path) = true ->
  quotedPathThenTail (q :: p0 :: path ++ [q']) = Some (p0 :: path).
Proof.
  intros Hq Hq' Hpath. unfold quotedPathThenTail. rewrite Hq.
  assert (negb (isQuote q') = false) as Hstop by now rewrite Hq'.
  destruct (takeWhile_app_stop (fun x => negb (isQuote x)) (p0 :: path) [q'] Hpath Hstop)
    as [Ht Hd].
  change (p0 :: path ++ [q']) with ((p0 :: path) ++ [q']). now rewrite Ht, Hd.
Qed.

Lemma quotedPathThenTail_sound (l path : list ascii) :
  quotedPathThenTail l = Some path ->
  path <> [] /\ forallb (fun x => negb (isQuote x)) path = true.
Proof.
  unfold quotedPathThenTail. destruct l as [|q r]; [discriminate|].
  destruct (isQuote q); [|discriminate].
  destruct (takeWhile (fun c => negb (isQuote c)) r) as [|p0 path'] eqn:Ep; [discriminate|].
  destruct (dropWhile (fun c => negb (isQuote c)) r) as [|? tail]; [discriminate|].
  destruct (isDirectiveTail tail); [|discriminate].
  intros H. injection H as <-. split; [discriminate|]. rewrite <- Ep. apply takeWhile_forallb.
Qed.

(** The names group is whatever stands between [@import] and the last
    [from] before the quote. *)
Lemma parseImportDirective_group (c : ascii) (group : list ascii) (q q' p0 : ascii)
    (path : list ascii) :
  isWordChar c = true ->
  forallb isImportNameChar (c :: group) = true ->
  forallb (fun x => negb (isQuote x)) (c :: group) = true ->
  isQuote q = true -> isQuote q' = true ->
  forallb (fun x => negb (isQuote x)) (p0 :: path) = true ->
  parseImportDirective
    (chars "@import " ++ (c :: group) ++ chars " from " ++ q :: p0 :: path ++ [q'])
  = Some (ImportDirective.Build_t
            (List.filter (fun n => negb (String.eqb n ""))
               (map (fun n => str (trimL n)) (splitCharL "," (c :: group))))
            (str (p0 :: path))).
Proof.
  intros Hc Hgroup Hnq Hq Hq' Hpath. unfold parseImportDirective.
  change (chars "@import " ++ (c :: group) ++ chars " from " ++ q :: p0 :: path ++ [q'])
    with (chars "@import" ++ " "%char :: c :: group ++ chars " from "
          ++ q :: p0 :: path ++ [q']).
  cbn [startsWithL chars list_ascii_of_string app ceqb Ascii.eqb Bool.eqb andb drop].
  change (isWhitespace " ") with true. cbv iota.
  cbn [dropWhile]. change (isWhitespace " ") with true. cbv iota.
  rewrite (isWordChar_not_space c Hc).
  assert (negb (isQuote q) = false) as Hstop by now rewrite Hq.
  assert (forallb (fun x => negb (isQuote x))
            ((c :: group) ++ [" "; "f"; "r"; "o"; "m"; " "]%char) = true) as Hpre.
  { rewrite forallb_app, Hnq. reflexivity. }
  destruct (takeWhile_app_stop (fun x => negb (isQuote x))
              ((c :: group) ++ [" "; "f"; "r"; "o"; "m"; " "]%char)
              (q :: p0 :: path ++ [q']) Hpre Hstop) as [Ht Hd].
  replace (c :: group ++
           " "%char :: "f"%char :: "r"%char :: "o"%char :: "m"%char :: " "%char
           :: q :: p0 :: path ++ [q'])
    with (((c :: group) ++ [" "; "f"; "r"; "o"; "m"; " "]%char) ++ q :: p0 :: path ++ [q'])
    by (rewrite <- app_assoc; reflexivity).
  rewrite Ht, Hd, rev_app_distr.
  cbn [rev app]. change (isWhitespace " ") with true.
  cbn [dropWhile]. change (isWhitespace " ") with true. change (isWhitespace "m") with false.
  cbv iota. cbn [startsWithL chars list_ascii_of_string ceqb Ascii.eqb Bool.eqb andb drop].
  change (isWhitespace " ") with true. cbv iota.
  change (rev group ++ [c]) with (rev (c :: group)). rewrite rev_involutive.
  rewrite Hc. cbn [andb]. rewrite Hgroup.
  now rewrite (quotedPathThenTail_quoted q q' p0 path Hq Hq' Hpath).
Qed.

Lemma isWordChar_not_comma (c : ascii) : isWordChar c = true -> ceqb c "," = false.
Proof.
  destruct c as [[|] [|] [|] [|] [|] [|] [|] [|]]; vm_compute; intros H;
    try discriminate H; reflexivity.
Qed.

Lemma dropWhile_snoc {A} (p : A -> bool) (l : list A) (c : A) :
  p c = false -> exists l', dropWhile p (l ++ [c]) = l' ++ [c].
Proof.
  intros Hc. induction l as [|x l [l' IH]]; simpl.
  - rewrite Hc. now exists [].
  - destruct (p x); [now exists l' | now exists (x :: l)].
Qed.

Lemma trimL_head (c : ascii) (w : list ascii) :
  isWhitespace c = false -> exists t, trimL (c :: w) = c :: t.
Proof.
  intros Hc. unfold trimL, trimEndL, trimStartL. cbn [dropWhile]. rewrite Hc.
  cbn [rev]. destruct (dropWhile_snoc isWhitespace (rev w) c Hc) as [l' ->].
  exists (rev l'). now rewrite rev_app_distr.
Qed.

Lemma parseImportDirective_sound (text : list ascii) (d : ImportDirective.t) :
  parseImportDirective text = Some d ->
  ImportDirective.names d <> [] /\
  Forall (fun n => n <> "" /\ trim n = n) (ImportDirective.names d) /\
  ImportDirective.from d <> "" /\
  forallb (fun x => negb (isQuote x)) (chars (ImportDirective.from d)) = true.
Proof.
  unfold parseImportDirective.
  destruct (startsWithL (chars "@import") text); [|discriminate].
  destruct (drop 7 text) as [|w l0'] eqn:El0; [discriminate|].
  destruct (isWhitespace w); [|discriminate].
  set (l1 := dropWhile isWhitespace (w :: l0')).
  destruct (rev (takeWhile (fun c => negb (isQuote c)) l1)) as [|w0 r0']; [discriminate|].
  destruct (drop 4 (dropWhile isWhitespace (w0 :: r0'))) as [|w2 r3]; [discriminate|].
  destruct (isWhitespace w0 && startsWithL (chars "morf") (dropWhile isWhitespace (w0 :: r0'))
            && isWhitespace w2); [|discriminate].
  destruct (rev r3) as [|c group] eqn:Eg; [discriminate|].
  destruct (isWordChar c) eqn:Ec; [|discriminate]. cbn [andb].
  destruct (forallb isImportNameChar (c :: group)); [|discriminate].
  destruct (quotedPathThenTail (dropWhile (fun c0 => negb (isQuote c0)) l1)) as [path|] eqn:Ep;
    [|discriminate].
  intros H. injection H as <-. cbn [ImportDirective.names ImportDirective.from].
  apply quotedPathThenTail_sound in Ep as [Hp1 Hp2].
  split; [|split; [|split]].
  - cbn [splitCharL]. rewrite (isWordChar_not_comma c Ec).
    destruct (trimL_head c
                match splitCharL "," group with [] => [] | w' :: _ => w' end
                (isWordChar_not_space c Ec)) as [t Ht].
    destruct (splitCharL "," group) as [|w' ws]; cbn [map List.filter]; rewrite Ht;
      discriminate.
  - apply List.Forall_forall. intros n Hn. apply List.filter_In in Hn as [Hn Hne].
    apply in_map_iff in Hn as (piece & <- & _). split.
    + intros E. rewrite E in Hne. discriminate.
    + unfold trim. now rewrite chars_str, trimL_idempotent.
  - intros E. apply (f_equal chars) in E. rewrite chars_str in E. now apply Hp1.
  - now rewrite chars_str.
Qed.

(** X20: [parseImportDirective] reads [@import a, b from 'path'] back as
    the names [a], [b] and the path, for every non-empty list of names (word
    characters and hyphens, the first name starting with a word character)
    and every non-empty path without quotes; and whatever it accepts names
    at least one export, every name non-empty and trimmed, and a non-empty
    path. *)
Theorem X20_import_directive_reads_back :
  (forall (c : ascii) (first : list ascii) (others : list (list ascii))
          (q q' p0 : ascii) (path : list ascii),
     isWordChar c = true ->
     Forall (fun n => Nesting.isName n = true) ((c :: first) :: others) ->
     isQuote q = true -> isQuote q' = true ->
     forallb (fun x => negb (isQuote x)) (p0 :: path) = true ->
     parseImportDirective
       (chars "@import " ++ Nesting.commaSeparated ((c :: first) :: others)
        ++ chars " from " ++ q :: p0 :: path ++ [q'])
     = Some (ImportDirective.Build_t (map str ((c :: first) :: others))
               (str (p0 :: path)))) /\
  (forall (text : list ascii) (d : ImportDirective.t),
     parseImportDirective text = Some d ->
     ImportDirective.names d <> [] /\
     Forall (fun n => n <> "" /\ trim n = n) (ImportDirective.names d) /\
     ImportDirective.from d <> "" /\
     forallb (fun x => negb (isQuote x)) (chars (ImportDirective.from d)) = true).
Proof.
  split; [|exact parseImportDirective_sound].
  intros c first others q q' p0 path Hc Hnames Hq Hq' Hpath.
  destruct (commaSeparated_chars _ Hnames) as [Hi Hnq].
  pose proof (commaSeparated_split ((c :: first) :: others) ltac:(discriminate) Hnames)
    as Hsplit.
  assert (exists group, Nesting.commaSeparated ((c :: first) :: others) = c :: group)
    as [group Eg].
  { destruct others; cbn [Nesting.commaSeparated]; eexists; reflexivity. }
  rewrite Eg in *.
  rewrite (parseImportDirective_group c group q q' p0 path Hc Hi Hnq Hq Hq' Hpath).
  do 2 f_equal.
  rewrite <- (map_map trimL str), Hsplit.
  apply filter_all. apply List.Forall_forall. intros n Hn.
  apply in_map_iff in Hn as (x & <- & Hx). rewrite List.Forall_forall in Hnames.
  specialize (Hnames x Hx). destruct x; [discriminate|]. reflexivity.
Qed.

End DirectiveFacts.

(** ** What the parser hands on *)

Section ParserInvariant.
Import JsString Parser.

Lemma splitWsFrom_no_space (l : list ascii) :
  forall inSeparator,
    Forall (fun w => forallb (fun c => negb (isWhitespace c)) w = true)
      (splitWsFrom inSeparator l).
Proof.
  induction l as [|c r IH]; intros inSeparator; cbn [splitWsFrom].
  - repeat constructor.
  - destruct (isWhitespace c) eqn:Ec.
    + destruct inSeparator; [apply IH|]. constructor; [reflexivity | apply IH].
    + specialize (IH false). destruct (splitWsFrom false r) as [|w ws].
      * repeat constructor. simpl. now rewrite Ec.
      * inversion IH as [|? ? Hw Hws]; subst. constructor; [|exact Hws].
        simpl. now rewrite Ec, Hw.
Qed.

Lemma classTokens_ok (trimmed : list ascii) :
  forallb WellFormed.isClassToken
    (List.filter (fun w => negb (String.eqb w "")) (map str (splitWsL trimmed))) = true.
Proof.
  apply forallb_forall. intros s Hs. apply List.filter_In in Hs as [Hs Hne].
  apply in_map_iff in Hs as (w & <- & Hw).
  unfold WellFormed.isClassToken. rewrite Hne, chars_str. cbn [andb].
  pose proof (splitWsFrom_no_space trimmed false) as H.
  rewrite List.Forall_forall in H. now apply H.
Qed.

Lemma isTrimmed_trimL (l : list ascii) : WellFormed.isTrimmed (str (trimL l)) = true.
Proof.
  unfold WellFormed.isTrimmed, trim. rewrite chars_str, trimL_idempotent.
  apply String.eqb_refl.
Qed.

Lemma body_split (b : Body) :
  WellFormed.body b = true <->
  forallb WellFormed.isClassToken (classes b) = true /\
  forallb WellFormed.isDeclaration (declarations b) = true /\
  forallb WellFormed.isUse (uses b) = true /\
  forallb WellFormed.rule (children b) = true.
Proof. unfold WellFormed.body. rewrite !andb_true_iff. tauto. Qed.

Lemma extractLines_wellFormed (src : list ascii) (baseOffset : nat)
    (lines : list (list ascii)) :
  forall lineOffset b ws,
    WellFormed.body b = true ->
    WellFormed.body (fst (extractLines src baseOffset lines lineOffset b ws)) = true.
Proof.
  induction lines as [|line rest IH]; intros lineOffset b ws Hb; cbn [extractLines];
    [exact Hb|].
  destruct (trimL line) as [|t0 trimmed'] eqn:Et; [now apply IH|].
  apply body_split in Hb as (Hc & Hd & Hu & Hch).
  destruct (startsWithL (chars "@use ") (t0 :: trimmed')
            || String.eqb (str (t0 :: trimmed')) "@use").
  - destruct (parseUseDirective (t0 :: trimmed')) as [directive|] eqn:Ep.
    + apply IH. apply body_split. cbn [classes declarations uses children].
      repeat split; try assumption. rewrite forallb_app, Hu. cbn [forallb].
      rewrite andb_true_r. unfold WellFormed.isUse.
      destruct (parseUseDirective_sound _ _ Ep) as [(c & r & -> & Hc1 & Hc2) _].
      now rewrite Hc1, Hc2.
    + apply IH. apply body_split. now repeat split.
  - destruct (endsWithL (chars ";") (t0 :: trimmed')) eqn:Ee.
    + apply IH. apply body_split. cbn [classes declarations uses children].
      repeat split; try assumption. rewrite forallb_app, Hd. cbn [forallb].
      rewrite andb_true_r. unfold WellFormed.isDeclaration, endsWith.
      rewrite chars_str, Ee. cbn [andb]. rewrite <- Et. apply isTrimmed_trimL.
    + apply IH. apply body_split. cbn [classes declarations uses children].
      repeat split; try assumption. rewrite forallb_app, Hc. apply classTokens_ok.
Qed.

Lemma extractContent_wellFormed (src text : list ascii) (baseOffset : nat) (b : Body)
    (ws : list Diagnostic) :
  WellFormed.body b = true ->
  WellFormed.body (fst (extractContent src text baseOffset b ws)) = true.
Proof. apply extractLines_wellFormed. Qed.

Lemma parseBodyFrom_wellFormed (fuel : nat) (src : list ascii) :
  forall pos end_ b ws r,
    parseBodyFrom fuel src pos end_ b ws = Some r ->
    WellFormed.body b = true -> WellFormed.body (fst r) = true.
Proof.
  induction fuel as [|f IH]; intros pos end_ b ws r Hrun Hb; cbn [parseBodyFrom] in Hrun;
    destruct (pos <? end_)%nat; try (injection Hrun as <-; exact Hb);
    destruct (findTopLevelChar src pos end_ "{") as [bracePos|];
    try (injection Hrun as <-; now apply extractContent_wellFormed);
    [discriminate|].
  destruct (splitClassesAndSelector (substring src pos bracePos)) as [classText selector].
  pose proof (extractContent_wellFormed src classText pos b ws Hb) as Hb1.
  destruct (extractContent src classText pos b ws) as [b1 ws1]. cbn [fst] in Hb1.
  destruct (isUnsupportedAtRule (trimL selector)); [now apply (IH _ _ _ _ _ Hrun)|].
  destruct (parseBodyFrom f src (S bracePos) (findMatchingBrace src bracePos) emptyBody ws1)
    as [[inner ws2]|] eqn:Einner; [|discriminate].
  cbn [mbind option_bind] in Hrun.
  pose proof (IH _ _ _ _ _ Einner eq_refl) as Hinner. cbn [fst] in Hinner.
  apply (IH _ _ _ _ _ Hrun).
  apply body_split in Hb1 as (Hc & Hd & Hu & Hch).
  apply body_split in Hinner as (Ic & Id & Iu & Ich).
  apply body_split. cbn [classes declarations uses children].
  repeat split; try assumption. rewrite forallb_app, Hch. cbn [forallb WellFormed.rule].
  now rewrite isTrimmed_trimL, Ic, Id, Iu, Ich.
Qed.

Lemma parseRulesFrom_wellFormed (fuel : nat) (src : list ascii) (end_ : nat) :
  forall pos acc ws r,
    parseRulesFrom fuel src pos end_ acc ws = Some r ->
    WellFormed.result acc = true -> WellFormed.result (fst r) = true.
Proof.
  induction fuel as [|f IH]; intros pos acc ws r Hrun Hacc; cbn [parseRulesFrom] in Hrun;
    destruct (pos <? end_)%nat; try (injection Hrun as <-; exact Hacc);
    destruct (end_ <=? skipWhitespaceAndComments src pos end_)%nat;
    try (injection Hrun as <-; exact Hacc); [discriminate|].
  set (pos' := skipWhitespaceAndComments src pos end_) in *.
  destruct (startsWithAt src "@import " pos').
  { destruct (parseImportDirective _); now apply (IH _ _ _ _ Hrun). }
  destruct (findTopLevelChar src pos' end_ "{") as [bracePos|];
    [|injection Hrun as <-; exact Hacc].
  destruct (isUnsupportedAtRule (trimL (substring src pos' bracePos)));
    [now apply (IH _ _ _ _ Hrun)|].
  unfold parseBody in Hrun.
  match type of Hrun with
  | context [parseBodyFrom f src ?p ?e emptyBody ?w] =>
      destruct (parseBodyFrom f src p e emptyBody w) as [[body ws1]|] eqn:Ebody;
        [|discriminate]
  end.
  cbn [mbind option_bind] in Hrun.
  pose proof (parseBodyFrom_wellFormed _ _ _ _ _ _ _ Ebody eq_refl) as Hbody.
  cbn [fst] in Hbody. apply body_split in Hbody as (Ic & Id & Iu & Ich).
  unfold WellFormed.result in Hacc. apply andb_true_iff in Hacc as [Hr He].
  destruct (startsWithL (chars "@export ") (trimL (substring src pos' bracePos)));
    apply (IH _ _ _ _ Hrun); unfold WellFormed.result;
    cbn [ParseResult.rules ParseResult.exports]; rewrite ?forallb_app, Hr, He;
    unfold WellFormed.export;
    cbn [forallb WellFormed.rule ExportBlock.name ExportBlock.classes
           ExportBlock.declarations ExportBlock.uses ExportBlock.children];
    now rewrite isTrimmed_trimL, Ic, Id, Iu, Ich.
Qed.

(** X21: whatever the text, what [parseStyleBlock] returns is well formed
    at every depth: a class is never empty and holds no whitespace, a raw
    declaration is a trimmed line ending with a semicolon, a [@use] carries
    a proper name, and selectors and export names are trimmed. *)
Theorem X21_parse_result_is_well_formed (content : string) :
  exists result ws,
    parseStyleBlock content = Some (result, ws) /\
    forallb WellFormed.rule (ParseResult.rules result) = true /\
    forallb WellFormed.export (ParseResult.exports result) = true.
Proof.
  unfold parseStyleBlock, parseStyleBlockWith, parseRules.
  destruct (parseRulesFrom_total (S (length (chars content))) (chars content) 0
              (length (chars content)) (ParseResult.Build_t [] [] []) [])
    as [[result ws] H]; [lia | lia |].
  exists result, ws. split; [exact H|].
  pose proof (parseRulesFrom_wellFormed _ _ _ _ _ _ _ H eq_refl) as Hwf.
  cbn [fst] in Hwf. unfold WellFormed.result in Hwf. now apply andb_true_iff in Hwf.
Qed.

End ParserInvariant.

(** ** The export registry *)

Section RegistryFacts.
Import Resolver.

Lemma registryGet_alter (f : ExportBlock.t -> ExportBlock.t)
    (reg : list (string * ExportBlock.t)) (key name : string) :
  registryGet (registryAlter f reg key) name =
  if String.eqb key name then f <$> registryGet reg name else registryGet reg name.
Proof.
  induction reg as [|[k v] reg IH]; cbn [registryAlter registryGet].
  - now destruct (String.eqb key name).
  - destruct (String.eqb_spec k key) as [Ek | Ek]; cbn [registryGet].
    + subst k. destruct (String.eqb key name); reflexivity.
    + rewrite IH. destruct (String.eqb_spec k name) as [En | En]; [|reflexivity].
      subst k. destruct (String.eqb_spec key name) as [E | E]; [|reflexivity].
      now subst key.
Qed.

Lemma registryGet_snoc (reg : list (string * ExportBlock.t)) (key name : string)
    (v : ExportBlock.t) :
  registryGet (reg ++ [(key, v)]) name =
  match registryGet reg name with
  | Some e => Some e
  | None => if String.eqb key name then Some v else None
  end.
Proof.
  induction reg as [|[k e] reg IH]; cbn [app registryGet]; [reflexivity|].
  destruct (String.eqb k name); [reflexivity | exact IH].
Qed.

(** [registry.set] then [registry.get]. *)
Lemma registryGet_set (reg : list (string * ExportBlock.t)) (key name : string)
    (v : ExportBlock.t) :
  registryGet (registrySet reg key v) name =
  if String.eqb key name then Some v else registryGet reg name.
Proof.
  unfold registrySet, registryHas.
  destruct (registryGet reg key) as [e|] eqn:E.
  - rewrite registryGet_alter. destruct (String.eqb key name) eqn:En; [|reflexivity].
    apply String.eqb_eq in En. subst name. now rewrite E.
  - rewrite registryGet_snoc. destruct (String.eqb key name) eqn:En.
    + apply String.eqb_eq in En. subst name. now rewrite E.
    + now destruct (registryGet reg name).
Qed.

Lemma registryAlter_keys (f : ExportBlock.t -> ExportBlock.t)
    (reg : list (string * ExportBlock.t)) (key : string) :
  map fst (registryAlter f reg key) = map fst reg.
Proof.
  induction reg as [|[k v] reg IH]; cbn [registryAlter map]; [reflexivity|].
  destruct (String.eqb k key); cbn [map fst]; [reflexivity | now rewrite IH].
Qed.

Lemma registryHas_existsb (reg : list (string * ExportBlock.t)) (key : string) :
  registryHas reg key = existsb (String.eqb key) (map fst reg).
Proof.
  unfold registryHas. induction reg as [|[k v] reg IH]; cbn [registryGet map existsb fst];
    [reflexivity|].
  rewrite (String.eqb_sym key k). now destruct (String.eqb k key).
Qed.

Lemma find_snoc {A} (f : A -> bool) (l : list A) (x : A) :
  List.find f (l ++ [x]) =
  match List.find f l with
  | Some y => Some y
  | None => if f x then Some x else None
  end.
Proof.
  induction l as [|y l IH]; cbn [app List.find]; [reflexivity|].
  destruct (f y); [reflexivity | exact IH].
Qed.

Lemma registerExports_spec (exports : list ExportBlock.t) :
  forall st,
    let st' := registerExports exports st in
    (forall name,
       registryGet (registry st') name =
       match List.find (fun e => String.eqb (ExportBlock.name e) name) (rev exports) with
       | Some e => Some e
       | None => registryGet (registry st) name
       end) /\
    rules st' = rules st /\
    map fst (registry st') =
      fold_left (fun acc n => if existsb (String.eqb n) acc then acc else acc ++ [n])
        (map ExportBlock.name exports) (map fst (registry st)) /\
    (length (registry st') + length (warnings st')
     = length (registry st) + length (warnings st) + length exports)%nat.
Proof.
  induction exports as [|exp rest IH]; intros st; cbv zeta.
  - simpl. repeat split; lia.
  - cbn [registerExports].
    set (st1 := withRegistry
                  (if registryHas (registry st) (ExportBlock.name exp)
                   then warn (DuplicateExport (ExportBlock.name exp)) st else st)
                  (registrySet
                     (registry (if registryHas (registry st) (ExportBlock.name exp)
                                then warn (DuplicateExport (ExportBlock.name exp)) st
                                else st))
                     (ExportBlock.name exp) exp)).
    destruct (IH st1) as (H1 & H2 & H3 & H4).
    assert (registry st1 = registrySet (registry st) (ExportBlock.name exp) exp) as Hreg.
    { unfold st1. now destruct (registryHas (registry st) (ExportBlock.name exp)). }
    assert (rules st1 = rules st) as Hrules.
    { unfold st1. now destruct (registryHas (registry st) (ExportBlock.name exp)). }
    split; [|split; [|split]].
    + intros name. rewrite H1, Hreg, registryGet_set. cbn [rev].
      rewrite find_snoc.
      destruct (List.find (fun e => String.eqb (ExportBlock.name e) name) (rev rest));
        [reflexivity|].
      now destruct (String.eqb (ExportBlock.name exp) name).
    + now rewrite H2.
    + rewrite H3, Hreg. cbn [map fold_left]. f_equal.
      unfold registrySet. rewrite <- registryHas_existsb.
      destruct (registryHas (registry st) (ExportBlock.name exp)).
      * apply registryAlter_keys.
      * now rewrite map_app.
    + rewrite H4, Hreg. unfold st1, registrySet.
      destruct (registryHas (registry st) (ExportBlock.name exp)) eqn:Eh.
      * cbn [warnings warn withRegistry]. rewrite length_app.
        assert (length (registryAlter (fun _ => exp) (registry st) (ExportBlock.name exp))
                = length (registry st)) as ->.
        { rewrite <- (length_map fst), registryAlter_keys. apply length_map. }
        cbn [length]. lia.
      * cbn [warnings withRegistry]. rewrite length_app. cbn [length]. lia.
Qed.

(** X22: of two [@export] blocks with the same name the later one is the
    one registered: after the first loop of [resolveDirectives] a name looks
    up the last block that carries it, the names are listed once each in the
    order of their first definition, every block either adds a name or is
    reported as a duplicate, and the rules are untouched. *)
Theorem X22_later_export_wins (exports : list ExportBlock.t) (rs : list StyleRule.t) :
  let st := registerExports exports (Build_Store [] rs ∅ ∅ []) in
  (forall name,
     registryGet (registry st) name =
     List.find (fun e => String.eqb (ExportBlock.name e) name) (rev exports)) /\
  map fst (registry st) = setOfNames (map ExportBlock.name exports) /\
  (length (registry st) + length (warnings st) = length exports)%nat /\
  Forall (fun d => exists name, d = DuplicateExport name) (warnings st) /\
  rules st = rs.
Proof.
  cbv zeta.
  destruct (registerExports_spec exports (Build_Store [] rs ∅ ∅ [])) as (H1 & H2 & H3 & H4).
  split; [|split; [|split; [|split]]].
  - intros name. rewrite H1. cbn [registry registryGet].
    now destruct (List.find (fun e => String.eqb (ExportBlock.name e) name) (rev exports)).
  - exact H3.
  - cbn [registry warnings length] in H4. lia.
  - clear. assert (Forall (fun d => exists name, d = DuplicateExport name)
                     (warnings (Build_Store [] rs ∅ ∅ []))) as H0 by constructor.
    revert H0. generalize (Build_Store [] rs ∅ ∅ []).
    induction exports as [|exp rest IH]; intros st H0; [exact H0|].
    cbn [registerExports]. apply IH.
    destruct (registryHas (registry st) (ExportBlock.name exp)); cbn [warnings withRegistry warn];
      [|exact H0].
    apply Forall_app. split; [exact H0|]. constructor; [now eexists | constructor].
  - exact H2.
Qed.

End RegistryFacts.

(** ** What resolution leaves behind *)

Section InliningFacts.
Import Resolver Inlining.

Lemma inlined_refl : forall r, inlined r r.
Proof.
  induction r as [s c d u ch IH] using rule_tree_ind.
  rewrite <- (app_nil_r c) at 2. rewrite <- (app_nil_r d) at 2.
  rewrite <- (app_nil_r ch) at 2. constructor.
  induction IH; constructor; assumption.
Qed.

Lemma Forall2_inlined_refl (l : list StyleRule.t) : Forall2 inlined l l.
Proof. induction l; constructor; [apply inlined_refl | assumption]. Qed.

Lemma inlined_trans : forall a b c, inlined a b -> inlined b c -> inlined a c.
Proof.
  induction a as [s cl d u ch IH] using rule_tree_ind. intros b c Hab Hbc.
  inversion Hab as [? ? ? ? u1 ? ch1 mc1 md1 mch1 Hch1]; subst.
  inversion Hbc as [? ? ? ? u2 ? ch2 mc2 md2 mch2 Hch2]; subst.
  apply Forall2_app_inv_l in Hch2 as (k1 & k2 & Hk1 & Hk2 & ->).
  rewrite <- !app_assoc. constructor.
  clear Hab Hbc Hk2. revert ch1 k1 Hch1 Hk1.
  induction IH as [|x l Hx _ IHl]; intros ch1 k1 Hch1 Hk1.
  - inversion Hch1; subst. inversion Hk1; subst. constructor.
  - inversion Hch1 as [|? y ? l1 Hxy Hl1]; subst.
    inversion Hk1 as [|? z ? l2 Hyz Hl2]; subst.
    constructor; [now apply (Hx y z) | now apply (IHl l1 l2)].
Qed.

Lemma Forall2_inlined_trans (a b c : list StyleRule.t) :
  Forall2 inlined a b -> Forall2 inlined b c -> Forall2 inlined a c.
Proof.
  intros Hab. revert c. induction Hab as [|x y l l' Hxy _ IH]; intros c Hbc.
  - inversion Hbc; subst. constructor.
  - inversion Hbc as [|? z ? l'' Hyz Hl]; subst.
    constructor; [now apply (inlined_trans x y z) | now apply IH].
Qed.

Lemma alter_insert_at {A} (f : A -> A) (l : list A) (i : nat) (x : A) :
  l !! i = Some x -> alter f i l = <[i := f x]> l.
Proof.
  revert i. induction l as [|y l IH]; intros [|i] H; simpl in *; try discriminate.
  - now injection H as ->.
  - f_equal. now apply IH.
Qed.

Lemma alter_ext_at {A} (f g : A -> A) (l : list A) (i : nat) :
  (forall x, l !! i = Some x -> f x = g x) -> alter f i l = alter g i l.
Proof.
  revert i. induction l as [|y l IH]; intros [|i] H; simpl in *; try reflexivity.
  - f_equal. now apply H.
  - f_equal. now apply IH.
Qed.

Lemma setIn_same (p : Path) :
  forall rs arr, arrayIn rs p = Some arr -> setIn rs p arr = rs.
Proof.
  induction p as [|k p IH]; intros rs arr H; simpl in *.
  - now injection H as ->.
  - destruct (rs !! k) as [r|] eqn:Hr; [|discriminate]. simpl in H.
    rewrite (alter_insert_at _ _ _ _ Hr), (IH _ _ H), withChildren_same.
    now apply list_insert_id.
Qed.

Lemma arrayIn_setIn (p : Path) :
  forall rs arr arr', arrayIn rs p = Some arr -> arrayIn (setIn rs p arr') p = Some arr'.
Proof.
  induction p as [|k p IH]; intros rs arr arr' H; simpl in *; [reflexivity|].
  destruct (rs !! k) as [r|] eqn:Hr; [|discriminate]. simpl in H.
  rewrite (alter_insert_at _ _ _ _ Hr).
  rewrite list_lookup_insert_eq by (now apply lookup_lt_Some in Hr). simpl.
  destruct r as [s c d u ch]. simpl in *. now apply (IH ch arr).
Qed.

Lemma setIn_setIn (p : Path) :
  forall rs arr a b, arrayIn rs p = Some arr -> setIn (setIn rs p a) p b = setIn rs p b.
Proof.
  induction p as [|k p IH]; intros rs arr a b H; simpl in *; [reflexivity|].
  destruct (rs !! k) as [r|] eqn:Hr; [|discriminate]. simpl in H.
  rewrite !(alter_insert_at _ _ _ _ Hr).
  assert (<[k := StyleRule.withChildren r (setIn (StyleRule.children r) p a)]> rs !! k
          = Some (StyleRule.withChildren r (setIn (StyleRule.children r) p a))) as Hr'.
  { apply list_lookup_insert_eq. now apply lookup_lt_Some in Hr. }
  rewrite (alter_insert_at _ _ _ _ Hr'), list_insert_insert_eq. f_equal.
  destruct r as [s c d u ch]. simpl in *. now rewrite (IH ch arr).
Qed.

Lemma alterIn_snoc_setIn (f : StyleRule.t -> StyleRule.t) (i : nat) (p : Path) :
  forall rs arr,
    arrayIn rs p = Some arr -> alterIn f rs (p ++ [i]) = setIn rs p (alter f i arr).
Proof.
  induction p as [|k p IH]; intros rs arr H; simpl in H.
  - now injection H as ->.
  - destruct (rs !! k) as [r|] eqn:Hr; [|discriminate]. simpl in H.
    change ((k :: p) ++ [i]) with (k :: (p ++ [i])).
    rewrite alterIn_cons by (now destruct p). cbn [setIn].
    apply alter_ext_at. intros x Hx. rewrite Hr in Hx. injection Hx as <-.
    now rewrite (IH _ _ H).
Qed.

Lemma setIn_snoc (i : nat) (cs : list StyleRule.t) (p : Path) :
  forall rs arr r,
    arrayIn rs p = Some arr -> arr !! i = Some r ->
    setIn rs (p ++ [i]) cs = setIn rs p (<[i := StyleRule.withChildren r cs]> arr).
Proof.
  induction p as [|k p IH]; intros rs arr r H Hi; simpl in H.
  - injection H as ->. simpl.
    now apply (alter_insert_at (fun x => StyleRule.withChildren x cs)).
  - destruct (rs !! k) as [r0|] eqn:Hr; [|discriminate]. simpl in H.
    change ((k :: p) ++ [i]) with (k :: (p ++ [i])). cbn [setIn].
    apply alter_ext_at. intros x Hx. rewrite Hr in Hx. injection Hx as <-.
    now rewrite (IH _ _ _ H Hi).
Qed.

Lemma touchedAt_start (p : Path) (i : nat) (st : Store) (arr : list StyleRule.t)
    (r : StyleRule.t) :
  arrayIn (rules st) p = Some arr -> arr !! i = Some r -> touchedAt p i st st.
Proof.
  intros Harr Hi. split; [reflexivity|]. exists arr, r, r.
  split; [exact Harr|]. split; [exact Hi|]. split; [apply inlined_refl|].
  now rewrite (list_insert_id _ _ _ Hi), (setIn_same _ _ _ Harr).
Qed.

Lemma touchedAt_same (p : Path) (i : nat) (st0 st st' : Store) :
  touchedAt p i st0 st -> registry st' = registry st -> rules st' = rules st ->
  touchedAt p i st0 st'.
Proof.
  intros (Hreg & arr & r & r' & H1 & H2 & H3 & H4) Hreg' Hrules'.
  split; [congruence|]. exists arr, r, r'. repeat split; try assumption. congruence.
Qed.

(** A change of the rule itself that inlines. *)
Lemma touchedAt_alter (f : StyleRule.t -> StyleRule.t) (p : Path) (i : nat)
    (st0 st : Store) :
  (forall r, inlined r (f r)) ->
  touchedAt p i st0 st -> touchedAt p i st0 (alterRule f InRules (p ++ [i]) st).
Proof.
  intros Hf (Hreg & arr & r & r' & H1 & H2 & H3 & H4).
  split; [exact Hreg|]. exists arr, r, (f r').
  split; [exact H1|]. split; [exact H2|].
  split; [apply (inlined_trans r r' (f r') H3 (Hf r'))|].
  cbn [alterRule rules withRules].
  assert (i < length arr)%nat as Hlt by (now apply lookup_lt_Some in H2).
  assert (arrayIn (rules st) p = Some (<[i := r']> arr)) as Harr.
  { rewrite H4. now apply (arrayIn_setIn p _ arr). }
  rewrite (alterIn_snoc_setIn f i p _ _ Harr).
  rewrite (alter_insert_at f _ i r') by (now apply list_lookup_insert_eq).
  rewrite list_insert_insert_eq, H4. now apply (setIn_setIn p _ arr).
Qed.

Lemma inlined_withClasses (cs : list string) (r : StyleRule.t) :
  inlined r (StyleRule.withClasses r (StyleRule.classes r ++ cs)).
Proof.
  destruct r as [s c d u ch]. unfold StyleRule.withClasses. simpl.
  rewrite <- (app_nil_r d) at 2. rewrite <- (app_nil_r ch) at 2.
  constructor. apply Forall2_inlined_refl.
Qed.

Lemma inlined_withDeclarations (ds : list string) (r : StyleRule.t) :
  inlined r (StyleRule.withDeclarations r (StyleRule.declarations r ++ ds)).
Proof.
  destruct r as [s c d u ch]. unfold StyleRule.withDeclarations. simpl.
  rewrite <- (app_nil_r c) at 2. rewrite <- (app_nil_r ch) at 2.
  constructor. apply Forall2_inlined_refl.
Qed.

Lemma inlined_pushChild (x : StyleRule.t) (r : StyleRule.t) :
  inlined r (StyleRule.withChildren r (StyleRule.children r ++ [x])).
Proof.
  destruct r as [s c d u ch]. unfold StyleRule.withChildren. simpl.
  rewrite <- (app_nil_r c) at 2. rewrite <- (app_nil_r d) at 2.
  constructor. apply Forall2_inlined_refl.
Qed.

Lemma inlined_withUses (us : list UseDirective.t) (r : StyleRule.t) :
  inlined r (StyleRule.withUses r us).
Proof.
  destruct r as [s c d u ch]. unfold StyleRule.withUses. simpl.
  rewrite <- (app_nil_r c) at 2. rewrite <- (app_nil_r d) at 2.
  rewrite <- (app_nil_r ch) at 2. constructor. apply Forall2_inlined_refl.
Qed.

Lemma inlined_withChildren (cs : list StyleRule.t) (r : StyleRule.t) :
  Forall2 inlined (StyleRule.children r) cs -> inlined r (StyleRule.withChildren r cs).
Proof.
  destruct r as [s c d u ch]. unfold StyleRule.withChildren. simpl. intros H.
  rewrite <- (app_nil_r c) at 2. rewrite <- (app_nil_r d) at 2.
  rewrite <- (app_nil_r cs). now constructor.
Qed.

Lemma pushClonedChildren_touched (p : Path) (i : nat) (st0 : Store) (b : BlockRef)
    (fuel : nat) :
  forall j st st',
    pushClonedChildren fuel b (TRule InRules (p ++ [i])) j st = Some st' ->
    touchedAt p i st0 st -> touchedAt p i st0 st'.
Proof.
  induction fuel as [|f IH]; intros j st st' H Ht; cbn [pushClonedChildren] in H;
    destruct (blockGet st b) as [block|]; try discriminate;
    destruct (ExportBlock.children block !! j) as [child|]; try discriminate;
    try (injection H as <-; exact Ht).
  apply (IH _ _ _ H). cbn [pushChild].
  apply touchedAt_alter; [apply inlined_pushChild | exact Ht].
Qed.

Section Pass.

Variable resolvePath : string -> string -> string.
Variable extractExportsFromFile : string -> list ExportBlock.t.
Variable dir : string.

Lemma inlineUse_touched (p : Path) (i : nat) (st0 : Store) (fuel : nat)
    (use : UseDirective.t) (st st' : Store) :
  inlineUse resolvePath extractExportsFromFile dir fuel None (TRule InRules (p ++ [i])) use st
  = Some st' ->
  touchedAt p i st0 st -> touchedAt p i st0 st'.
Proof.
  unfold inlineUse. intros H Ht.
  destruct (bool_decide (cycleKeyOf resolvePath dir use ∈ resolving st)).
  { injection H as <-. now apply (touchedAt_same p i st0 st). }
  match type of H with
  | match ?e with _ => _ end = _ =>
      assert (touchedAt p i st0 (snd e)) as Ht1;
        [|destruct e as [block st1]; cbn [snd] in Ht1]
  end.
  { destruct (UseDirective.from use) as [from|].
    - destruct (findExport _ _); cbn [snd]; now apply (touchedAt_same p i st0 st).
    - destruct (registryHas (registry st) (UseDirective.name use)); cbn [snd];
        [exact Ht | now apply (touchedAt_same p i st0 st)]. }
  destruct block as [b|]; [|injection H as <-; exact Ht1].
  set (st2 := withResolving st1 ({[cycleKeyOf resolvePath dir use]} ∪ resolving st1)) in *.
  assert (touchedAt p i st0 st2) as Ht2 by now apply (touchedAt_same p i st0 st1).
  destruct (blockGet st2 b) as [blk|]; [|discriminate]. cbn [fmap option_fmap option_map mbind option_bind] in H.
  set (st3 := pushClasses (TRule InRules (p ++ [i])) (ExportBlock.classes blk) st2) in *.
  assert (touchedAt p i st0 st3) as Ht3.
  { apply touchedAt_alter; [apply inlined_withClasses | exact Ht2]. }
  destruct (blockGet st3 b) as [blk3|]; [|discriminate]. cbn [fmap option_fmap option_map mbind option_bind] in H.
  set (st4 := pushDeclarations (TRule InRules (p ++ [i])) (ExportBlock.declarations blk3) st3)
    in *.
  assert (touchedAt p i st0 st4) as Ht4.
  { apply touchedAt_alter; [apply inlined_withDeclarations | exact Ht3]. }
  destruct (pushClonedChildren fuel b (TRule InRules (p ++ [i])) 0 st4) as [st5|] eqn:E5;
    [|discriminate].
  cbn [mbind option_bind] in H. injection H as <-.
  apply (touchedAt_same p i st0 st5); [|reflexivity|reflexivity].
  now apply (pushClonedChildren_touched p i st0 b fuel 0 st4).
Qed.

Lemma inlineUses_touched (p : Path) (i : nat) (st0 : Store) (fuel : nat)
    (uses : list UseDirective.t) :
  forall st st',
    inlineUses resolvePath extractExportsFromFile dir fuel None (TRule InRules (p ++ [i]))
      uses st = Some st' ->
    touchedAt p i st0 st -> touchedAt p i st0 st'.
Proof.
  induction uses as [|use rest IH]; intros st st' H Ht; cbn [inlineUses] in H.
  - now injection H as <-.
  - destruct (inlineUse resolvePath extractExportsFromFile dir fuel None
                (TRule InRules (p ++ [i])) use st) as [st1|] eqn:E; [|discriminate].
    cbn [mbind option_bind] in H. apply (IH _ _ H).
    now apply (inlineUse_touched p i st0 fuel use st).
Qed.

Lemma Forall2_insert_at {A} (R : A -> A -> Prop) (l : list A) (i : nat) (x y : A) :
  (forall z, R z z) -> l !! i = Some x -> R x y -> Forall2 R l (<[i := y]> l).
Proof.
  intros Hrefl. revert i. induction l as [|z l IH]; intros [|i] Hi Hxy; simpl in *;
    try discriminate.
  - injection Hi as ->. constructor; [exact Hxy|]. clear IH Hxy.
    induction l; constructor; auto.
  - constructor; [apply Hrefl | now apply IH].
Qed.

Lemma allResolved_make (s : string) (c d : list string) (cs : list StyleRule.t) :
  Forall (fun r => allResolved r = true) cs ->
  allResolved (StyleRule.make s c d [] cs) = true.
Proof.
  intros H. cbn [allResolved andb]. apply forallb_forall.
  now rewrite List.Forall_forall in H.
Qed.

(** The pass over the rule array under [p], from its element [i] on:
    the registry is as it was, the array under [p] is the only thing
    replaced, its elements before [i] are untouched, the others are inlined
    and hold no [@use] any more. *)
Lemma resolveUsesInRulesFrom_inlined (fuel : nat) :
  forall p i st st' arr,
    resolveUsesInRulesFrom resolvePath extractExportsFromFile dir fuel InRules p i st
    = Some st' ->
    arrayIn (rules st) p = Some arr ->
    registry st' = registry st /\
    exists arr',
      rules st' = setIn (rules st) p arr' /\ Forall2 inlined arr arr' /\
      take i arr' = take i arr /\ Forall (fun r => allResolved r = true) (drop i arr').
Proof.
  induction fuel as [|f IH]; intros p i st st' arr H Harr;
    cbn [resolveUsesInRulesFrom] in H; unfold arrayAt in H;
    cbn [rootArray mbind option_bind] in H; rewrite Harr in H;
    destruct (arr !! i) as [rule|] eqn:Hi; try discriminate;
    try (injection H as <-; split; [reflexivity|]; exists arr;
         split; [now rewrite (setIn_same _ _ _ Harr)|];
         split; [apply Forall2_inlined_refl|]; split; [reflexivity|];
         rewrite drop_ge by (now apply lookup_ge_None in Hi); constructor).
  assert (i < length arr)%nat as Hlt by (now apply lookup_lt_Some in Hi).
  destruct (inlineUses resolvePath extractExportsFromFile dir f None
              (TRule InRules (p ++ [i])) (StyleRule.uses rule) st) as [st1|] eqn:E1;
    [|discriminate].
  cbn [mbind option_bind] in H.
  pose proof (inlineUses_touched p i st f _ _ _ E1 (touchedAt_start p i st arr rule Harr Hi))
    as (Hreg1 & arr_ & r_ & r1 & Ha & Hb & Hin1 & Hrules1).
  rewrite Harr in Ha. injection Ha as <-. rewrite Hi in Hb. injection Hb as <-.
  set (st2 := clearUses (TRule InRules (p ++ [i])) st1) in *.
  set (r2 := StyleRule.withUses r1 []).
  assert (registry st2 = registry st) as Hreg2 by exact Hreg1.
  assert (rules st2 = setIn (rules st) p (<[i := r2]> arr)) as Hrules2.
  { unfold st2. cbn [clearUses alterRule rules withRules].
    assert (arrayIn (rules st1) p = Some (<[i := r1]> arr)) as Harr1.
    { rewrite Hrules1. now apply (arrayIn_setIn p _ arr). }
    rewrite (alterIn_snoc_setIn _ i p _ _ Harr1).
    rewrite (alter_insert_at _ _ i r1) by (now apply list_lookup_insert_eq).
    rewrite list_insert_insert_eq, Hrules1. now apply (setIn_setIn p _ arr). }
  assert (arrayIn (rules st2) p = Some (<[i := r2]> arr)) as Harr2.
  { rewrite Hrules2. now apply (arrayIn_setIn p _ arr). }
  assert (arrayIn (rules st2) (p ++ [i]) = Some (StyleRule.children r2)) as Hsub.
  { rewrite arrayIn_snoc, Harr2. cbn [mbind option_bind].
    now rewrite list_lookup_insert_eq by exact Hlt. }
  destruct (resolveUsesInRulesFrom resolvePath extractExportsFromFile dir f InRules
              (p ++ [i]) 0 st2) as [st3|] eqn:E3; [|discriminate].
  cbn [mbind option_bind] in H.
  destruct (IH _ _ _ _ _ E3 Hsub) as (Hreg3 & cs' & Hrules3 & Hcs & _ & Hres).
  rewrite drop_0 in Hres.
  set (r3 := StyleRule.withChildren r2 cs').
  assert (rules st3 = setIn (rules st) p (<[i := r3]> arr)) as Hrules3'.
  { rewrite Hrules3.
    rewrite (setIn_snoc i cs' p _ _ r2 Harr2)
      by (now apply list_lookup_insert_eq).
    rewrite list_insert_insert_eq, Hrules2. now apply (setIn_setIn p _ arr). }
  assert (arrayIn (rules st3) p = Some (<[i := r3]> arr)) as Harr3.
  { rewrite Hrules3'. now apply (arrayIn_setIn p _ arr). }
  destruct (IH _ _ _ _ _ H Harr3) as (Hreg' & arr' & Hrules' & Hall & Htake & Hdrop).
  assert (inlined rule r3) as Hin3.
  { apply (inlined_trans rule r1 r3 Hin1).
    apply (inlined_trans r1 r2 r3); [apply inlined_withUses|].
    now apply inlined_withChildren. }
  assert (allResolved r3 = true) as Hr3.
  { unfold r3, r2, StyleRule.withChildren, StyleRule.withUses. destruct r1 as [s c d u ch].
    cbn [StyleRule.selector StyleRule.classes StyleRule.declarations StyleRule.uses].
    now apply allResolved_make. }
  split; [congruence|]. exists arr'.
  split; [rewrite Hrules', Hrules3'; now apply (setIn_setIn p _ arr)|].
  split; [|split].
  - apply (Forall2_inlined_trans arr (<[i := r3]> arr) arr'); [|exact Hall].
    apply (Forall2_insert_at inlined arr i rule r3 inlined_refl Hi Hin3).
  - apply (f_equal (take i)) in Htake. rewrite !take_take in Htake.
    replace (i `min` S i)%nat with i in Htake by lia.
    rewrite Htake. apply take_insert_ge. lia.
  - assert (arr' !! i = Some r3) as Hi'.
    { rewrite <- (lookup_take_lt arr' (S i) i) by lia. rewrite Htake.
      rewrite lookup_take_lt by lia. now apply list_lookup_insert_eq. }
    rewrite (drop_S _ _ _ Hi'). constructor; [exact Hr3 | exact Hdrop].
Qed.

Lemma inRegistry_rules (t : Target) (st : Store) :
  inRegistry t = true ->
  forall cs ds c,
    rules (pushClasses t cs st) = rules st /\
    rules (pushDeclarations t ds st) = rules st /\
    rules (pushChild t c st) = rules st /\
    rules (clearUses t st) = rules st.
Proof.
  intros Ht cs ds c. destruct t as [key | [key|] q]; try discriminate; repeat split.
Qed.

Lemma pushClonedChildren_rules (t : Target) (b : BlockRef) (fuel : nat) :
  inRegistry t = true ->
  forall j st st',
    pushClonedChildren fuel b t j st = Some st' -> rules st' = rules st.
Proof.
  intros Ht. induction fuel as [|f IH]; intros j st st' H; cbn [pushClonedChildren] in H;
    destruct (blockGet st b) as [block|]; try discriminate;
    destruct (ExportBlock.children block !! j) as [child|]; try discriminate;
    try (now injection H as <-).
  rewrite (IH _ _ _ H). now apply (inRegistry_rules t st Ht [] [] (cloneRule child)).
Qed.

Lemma inlineUse_rules (t : Target) (fuel : nat) (inExport : option string)
    (use : UseDirective.t) (st st' : Store) :
  inRegistry t = true ->
  inlineUse resolvePath extractExportsFromFile dir fuel inExport t use st = Some st' ->
  rules st' = rules st.
Proof.
  intros Ht. unfold inlineUse. intros H.
  destruct (bool_decide (cycleKeyOf resolvePath dir use ∈ resolving st)).
  { now injection H as <-. }
  match type of H with
  | match ?e with _ => _ end = _ =>
      assert (rules (snd e) = rules st) as Hr1;
        [|destruct e as [block st1]; cbn [snd] in Hr1]
  end.
  { destruct (UseDirective.from use) as [from|].
    - now destruct (findExport _ _).
    - now destruct (registryHas (registry st) (UseDirective.name use)). }
  destruct block as [b|]; [|now injection H as <-].
  set (st2 := withResolving st1 ({[cycleKeyOf resolvePath dir use]} ∪ resolving st1)) in *.
  destruct (blockGet st2 b) as [blk|]; [|discriminate].
  cbn [fmap option_fmap option_map mbind option_bind] in H.
  set (st3 := pushClasses t (ExportBlock.classes blk) st2) in *.
  destruct (blockGet st3 b) as [blk3|]; [|discriminate].
  cbn [fmap option_fmap option_map mbind option_bind] in H.
  set (st4 := pushDeclarations t (ExportBlock.declarations blk3) st3) in *.
  destruct (pushClonedChildren fuel b t 0 st4) as [st5|] eqn:E5; [|discriminate].
  cbn [mbind option_bind] in H. injection H as <-. cbn [rules withResolving].
  rewrite (pushClonedChildren_rules t b fuel Ht _ _ _ E5).
  destruct (inRegistry_rules t st3 Ht [] (ExportBlock.declarations blk3)
              (StyleRule.make "" [] [] [] [])) as (_ & Hd & _).
  destruct (inRegistry_rules t st2 Ht (ExportBlock.classes blk) []
              (StyleRule.make "" [] [] [] [])) as (Hc & _).
  unfold st4. rewrite Hd. unfold st3. rewrite Hc. exact Hr1.
Qed.

Lemma inlineUses_rules (t : Target) (fuel : nat) (inExport : option string)
    (uses : list UseDirective.t) :
  inRegistry t = true ->
  forall st st',
    inlineUses resolvePath extractExportsFromFile dir fuel inExport t uses st = Some st' ->
    rules st' = rules st.
Proof.
  intros Ht. induction uses as [|use rest IH]; intros st st' H; cbn [inlineUses] in H.
  - now injection H as <-.
  - destruct (inlineUse resolvePath extractExportsFromFile dir fuel inExport t use st)
      as [st1|] eqn:E; [|discriminate].
    cbn [mbind option_bind] in H. rewrite (IH _ _ H).
    exact (inlineUse_rules t fuel inExport use st st1 Ht E).
Qed.

Lemma resolveUsesInRulesFrom_rules (key : string) (fuel : nat) :
  forall p i st st',
    resolveUsesInRulesFrom resolvePath extractExportsFromFile dir fuel (InExport key) p i st
    = Some st' ->
    rules st' = rules st.
Proof.
  induction fuel as [|f IH]; intros p i st st' H; cbn [resolveUsesInRulesFrom] in H;
    destruct (arrayAt st (InExport key) p) as [arr|]; try discriminate;
    destruct (arr !! i) as [rule|]; try discriminate; try (now injection H as <-).
  destruct (inlineUses resolvePath extractExportsFromFile dir f None
              (TRule (InExport key) (p ++ [i])) (StyleRule.uses rule) st) as [st1|] eqn:E1;
    [|discriminate].
  cbn [mbind option_bind] in H.
  destruct (resolveUsesInRulesFrom resolvePath extractExportsFromFile dir f (InExport key)
              (p ++ [i]) 0 (clearUses (TRule (InExport key) (p ++ [i])) st1))
    as [st3|] eqn:E3; [|discriminate].
  cbn [mbind option_bind] in H.
  rewrite (IH _ _ _ _ H), (IH _ _ _ _ E3). cbn [clearUses alterRule rules withRegistry].
  exact (inlineUses_rules (TRule (InExport key) (p ++ [i])) f None _ eq_refl _ _ E1).
Qed.

Lemma resolveExports_rules (fuel : nat) (keys : list string) :
  forall st st',
    resolveExports resolvePath extractExportsFromFile dir fuel keys st = Some st' ->
    rules st' = rules st.
Proof.
  induction keys as [|key rest IH]; intros st st' H; cbn [resolveExports] in H.
  - now injection H as <-.
  - destruct (resolveUsesInExport resolvePath extractExportsFromFile dir fuel key st)
      as [st1|] eqn:E; [|discriminate].
    cbn [mbind option_bind] in H. rewrite (IH _ _ H).
    unfold resolveUsesInExport in E.
    destruct (registryGet (registry st) key) as [exp|]; [|discriminate].
    destruct (inlineUses resolvePath extractExportsFromFile dir fuel
                (Some (ExportBlock.name exp)) (TExport key) (ExportBlock.uses exp) st)
      as [st0|] eqn:E0; [|discriminate].
    cbn [mbind option_bind] in E. unfold resolveUsesInRules in E.
    rewrite (resolveUsesInRulesFrom_rules key fuel _ _ _ _ E).
    cbn [clearUses rules withRegistry].
    exact (inlineUses_rules (TExport key) fuel _ _ eq_refl _ _ E0).
Qed.

Lemma applyImports_rules (imports : list ImportDirective.t) :
  forall st, rules (applyImports resolvePath extractExportsFromFile dir imports st) = rules st.
Proof.
  induction imports as [|imp rest IH]; intros st; cbn [applyImports]; [reflexivity|].
  rewrite IH.
  assert (forall names st2,
            rules (importNames names (ImportDirective.from imp)
                     (extractExportsFromFile (resolvePath dir (ImportDirective.from imp))) st2)
            = rules st2) as Hnames.
  { induction names as [|n names IHn]; intros st2; cbn [importNames]; [reflexivity|].
    rewrite IHn. now destruct (findExport _ n). }
  now rewrite Hnames.
Qed.

(** X23: when [resolveDirectives] returns, no rule of the result carries a
    [@use] any more, at any depth; and the rules are the rules of the parse
    result in their order, each with its selector, its own classes and
    declarations first and its own children first, what was inlined coming
    after them. *)
Theorem X23_resolution_inlines_every_use (fuel : nat) (result : ParseResult.t) (st : Store) :
  resolveDirectives resolvePath extractExportsFromFile dir fuel result = Some st ->
  forallb allResolved (rules st) = true /\
  Forall2 inlined (ParseResult.rules result) (rules st).
Proof.
  unfold resolveDirectives. intros H.
  set (st0 := Build_Store [] (ParseResult.rules result) ∅ ∅ []) in *.
  set (st1 := registerExports (ParseResult.exports result) st0) in *.
  set (st2 := applyImports resolvePath extractExportsFromFile dir
                (ParseResult.imports result) st1) in *.
  destruct (resolveExports resolvePath extractExportsFromFile dir fuel
              (map fst (registry st2)) st2) as [st3|] eqn:E3; [|discriminate].
  cbn [mbind option_bind] in H. unfold resolveUsesInRules in H.
  assert (rules st3 = ParseResult.rules result) as Hrules3.
  { rewrite (resolveExports_rules _ _ _ _ E3). unfold st2. rewrite applyImports_rules.
    unfold st1. now destruct (registerExports_spec (ParseResult.exports result) st0)
      as (_ & -> & _). }
  destruct (resolveUsesInRulesFrom_inlined fuel [] 0 st3 st (rules st3) H eq_refl)
    as (_ & arr' & Hr & Hall & _ & Hres).
  cbn [setIn] in Hr. rewrite drop_0 in Hres. subst arr'. rewrite Hrules3 in Hall.
  split; [|exact Hall]. apply forallb_forall. now rewrite List.Forall_forall in Hres.
Qed.

End Pass.

Lemma X23_resolution_inlines_every_use_witness :
  forallb allResolved (rules usesBtnResolved) = true /\
  Forall2 inlined (ParseResult.rules usesBtn) (rules usesBtnResolved).
Proof.
  apply (X23_resolution_inlines_every_use (fun d f => d +:+ "/" +:+ f) (fun _ => []) ""
           4 usesBtn usesBtnResolved).
  vm_compute. reflexivity.
Defined.

End InliningFacts.

(** ** The dependency table *)

Section DependencyFacts.
Import Resolver Dependents.

Section Recorded.

Variable resolvePath : string -> string -> string.
Variable extractExportsFromFile : string -> list ExportBlock.t.
Variable dir : string.

Lemma target_deps (t : Target) (st : Store) (cs ds : list string) (c : StyleRule.t) :
  deps (pushClasses t cs st) = deps st /\
  deps (pushDeclarations t ds st) = deps st /\
  deps (pushChild t c st) = deps st /\
  deps (clearUses t st) = deps st.
Proof. destruct t as [key | [key|] p]; repeat split. Qed.

Lemma pushClonedChildren_deps (t : Target) (b : BlockRef) (fuel : nat) :
  forall j st st', pushClonedChildren fuel b t j st = Some st' -> deps st' = deps st.
Proof.
  induction fuel as [|f IH]; intros j st st' H; cbn [pushClonedChildren] in H;
    destruct (blockGet st b) as [block|]; try discriminate;
    destruct (ExportBlock.children block !! j) as [child|]; try discriminate;
    try (now injection H as <-).
  rewrite (IH _ _ _ H). now destruct (target_deps t st [] [] (cloneRule child)) as (_ & _ & -> & _).
Qed.

(** Inlining never forgets a dependency. *)
Lemma inlineUse_deps (t : Target) (fuel : nat) (inExport : option string)
    (use : UseDirective.t) (st st' : Store) :
  inlineUse resolvePath extractExportsFromFile dir fuel inExport t use st = Some st' ->
  deps st ⊆ deps st'.
Proof.
  unfold inlineUse. intros H.
  destruct (bool_decide (cycleKeyOf resolvePath dir use ∈ resolving st)).
  { now injection H as <-. }
  match type of H with
  | match ?e with _ => _ end = _ =>
      assert (deps st ⊆ deps (snd e)) as Hr1;
        [|destruct e as [block st1]; cbn [snd] in Hr1]
  end.
  { destruct (UseDirective.from use) as [from|].
    - destruct (findExport _ _); cbn [snd deps warn withDeps]; apply union_subseteq_r.
    - now destruct (registryHas (registry st) (UseDirective.name use)). }
  destruct block as [b|]; [|now injection H as <-].
  set (st2 := withResolving st1 ({[cycleKeyOf resolvePath dir use]} ∪ resolving st1)) in *.
  destruct (blockGet st2 b) as [blk|]; [|discriminate].
  cbn [fmap option_fmap option_map mbind option_bind] in H.
  set (st3 := pushClasses t (ExportBlock.classes blk) st2) in *.
  destruct (blockGet st3 b) as [blk3|]; [|discriminate].
  cbn [fmap option_fmap option_map mbind option_bind] in H.
  set (st4 := pushDeclarations t (ExportBlock.declarations blk3) st3) in *.
  destruct (pushClonedChildren fuel b t 0 st4) as [st5|] eqn:E5; [|discriminate].
  cbn [mbind option_bind] in H. injection H as <-. cbn [deps withResolving].
  rewrite (pushClonedChildren_deps t b fuel _ _ _ E5).
  destruct (target_deps t st3 [] (ExportBlock.declarations blk3)
              (StyleRule.make "" [] [] [] [])) as (_ & Hd & _).
  destruct (target_deps t st2 (ExportBlock.classes blk) []
              (StyleRule.make "" [] [] [] [])) as (Hc & _).
  unfold st4. rewrite Hd. unfold st3. rewrite Hc. exact Hr1.
Qed.

Lemma inlineUses_deps (t : Target) (fuel : nat) (inExport : option string)
    (uses : list UseDirective.t) :
  forall st st',
    inlineUses resolvePath extractExportsFromFile dir fuel inExport t uses st = Some st' ->
    deps st ⊆ deps st'.
Proof.
  induction uses as [|use rest IH]; intros st st' H; cbn [inlineUses] in H.
  - now injection H as <-.
  - destruct (inlineUse resolvePath extractExportsFromFile dir fuel inExport t use st)
      as [st1|] eqn:E; [|discriminate].
    cbn [mbind option_bind] in H.
    etrans; [exact (inlineUse_deps t fuel inExport use st st1 E) | exact (IH _ _ H)].
Qed.

Lemma resolveUsesInRulesFrom_deps (root : Root) (fuel : nat) :
  forall p i st st',
    resolveUsesInRulesFrom resolvePath extractExportsFromFile dir fuel root p i st = Some st' ->
    deps st ⊆ deps st'.
Proof.
  induction fuel as [|f IH]; intros p i st st' H; cbn [resolveUsesInRulesFrom] in H;
    destruct (arrayAt st root p) as [arr|]; try discriminate;
    destruct (arr !! i) as [rule|]; try discriminate; try (now injection H as <-).
  destruct (inlineUses resolvePath extractExportsFromFile dir f None
              (TRule root (p ++ [i])) (StyleRule.uses rule) st) as [st1|] eqn:E1;
    [|discriminate].
  cbn [mbind option_bind] in H.
  destruct (resolveUsesInRulesFrom resolvePath extractExportsFromFile dir f root
              (p ++ [i]) 0 (clearUses (TRule root (p ++ [i])) st1))
    as [st3|] eqn:E3; [|discriminate].
  cbn [mbind option_bind] in H.
  etrans; [exact (inlineUses_deps _ _ _ _ _ _ E1)|].
  etrans; [|exact (IH _ _ _ _ H)].
  etrans; [|exact (IH _ _ _ _ E3)].
  now destruct (target_deps (TRule root (p ++ [i])) st1 [] [] (StyleRule.make "" [] [] [] []))
    as (_ & _ & _ & ->).
Qed.

Lemma resolveExports_deps (fuel : nat) (keys : list string) :
  forall st st',
    resolveExports resolvePath extractExportsFromFile dir fuel keys st = Some st' ->
    deps st ⊆ deps st'.
Proof.
  induction keys as [|key rest IH]; intros st st' H; cbn [resolveExports] in H.
  - now injection H as <-.
  - destruct (resolveUsesInExport resolvePath extractExportsFromFile dir fuel key st)
      as [st1|] eqn:E; [|discriminate].
    cbn [mbind option_bind] in H. etrans; [|exact (IH _ _ H)].
    unfold resolveUsesInExport in E.
    destruct (registryGet (registry st) key) as [exp|]; [|discriminate].
    destruct (inlineUses resolvePath extractExportsFromFile dir fuel
                (Some (ExportBlock.name exp)) (TExport key) (ExportBlock.uses exp) st)
      as [st0|] eqn:E0; [|discriminate].
    cbn [mbind option_bind] in E. unfold resolveUsesInRules in E.
    etrans; [exact (inlineUses_deps _ _ _ _ _ _ E0)|].
    etrans; [|exact (resolveUsesInRulesFrom_deps _ _ _ _ _ _ E)].
    reflexivity.
Qed.

Lemma importNames_deps (names : list string) (from : string) (es : list ExportBlock.t) :
  forall st, deps (importNames names from es st) = deps st.
Proof.
  induction names as [|n names IH]; intros st; cbn [importNames]; [reflexivity|].
  rewrite IH. now destruct (findExport es n).
Qed.

Lemma registerExports_deps (exports : list ExportBlock.t) :
  forall st, deps (registerExports exports st) = deps st.
Proof.
  induction exports as [|e rest IH]; intros st; cbn [registerExports]; [reflexivity|].
  rewrite IH. cbn [deps withRegistry].
  now destruct (registryHas (registry st) (ExportBlock.name e)).
Qed.

(** The second loop records the file of every [@import], found or not, and
    nothing else. *)
Lemma applyImports_deps (imports : list ImportDirective.t) :
  forall st,
    deps (applyImports resolvePath extractExportsFromFile dir imports st)
    = list_to_set (map (fun imp => resolvePath dir (ImportDirective.from imp)) imports)
      ∪ deps st.
Proof.
  induction imports as [|imp rest IH]; intros st; cbn [applyImports map list_to_set].
  - now rewrite (left_id_L ∅ (∪)).
  - rewrite IH, importNames_deps. cbn [deps withDeps].
    rewrite (assoc_L (∪)). f_equal. apply (comm_L (∪)).
Qed.

Lemma resolveDirectives_deps (fuel : nat) (result : ParseResult.t) (st : Store) :
  resolveDirectives resolvePath extractExportsFromFile dir fuel result = Some st ->
  list_to_set (map (fun imp => resolvePath dir (ImportDirective.from imp))
                 (ParseResult.imports result)) ⊆ deps st.
Proof.
  unfold resolveDirectives. intros H.
  set (st0 := Build_Store [] (ParseResult.rules result) ∅ ∅ []) in *.
  set (st1 := registerExports (ParseResult.exports result) st0) in *.
  set (st2 := applyImports resolvePath extractExportsFromFile dir
                (ParseResult.imports result) st1) in *.
  destruct (resolveExports resolvePath extractExportsFromFile dir fuel
              (map fst (registry st2)) st2) as [st3|] eqn:E3; [|discriminate].
  cbn [mbind option_bind] in H. unfold resolveUsesInRules in H.
  etrans; [|exact (resolveUsesInRulesFrom_deps _ _ _ _ _ _ H)].
  etrans; [|exact (resolveExports_deps _ _ _ _ E3)].
  unfold st2. rewrite applyImports_deps. apply union_subseteq_l.
Qed.

End Recorded.

(** *** The table as a [Map] *)

Lemma mapSet_others (key : string) (v : gset string) (m : ImportDeps) :
  List.filter (fun e => negb (String.eqb (fst e) key)) (mapSet m key v) =
  List.filter (fun e => negb (String.eqb (fst e) key)) m.
Proof.
  induction m as [|[k x] m IH]; cbn [mapSet List.filter fst].
  - now rewrite String.eqb_refl.
  - destruct (String.eqb k key) eqn:E; cbn [List.filter fst]; rewrite E; cbn [negb].
    + reflexivity.
    + now rewrite IH.
Qed.

Lemma mapSet_keys (key : string) (v : gset string) (m : ImportDeps) (k : string) :
  In k (map fst (mapSet m key v)) <-> k = key \/ In k (map fst m).
Proof.
  induction m as [|[k0 x] m IH]; cbn [mapSet map fst In].
  - intuition congruence.
  - destruct (String.eqb_spec k0 key) as [->|Hne]; cbn [map fst In]; [|rewrite IH];
      intuition congruence.
Qed.

Lemma mapSet_NoDup (key : string) (v : gset string) (m : ImportDeps) :
  List.NoDup (map fst m) -> List.NoDup (map fst (mapSet m key v)).
Proof.
  induction m as [|[k0 x] m IH]; cbn [mapSet map fst]; intros Hnd.
  - constructor; [intros [] | constructor].
  - inversion Hnd as [|? ? Hnotin Hrest]; subst.
    destruct (String.eqb_spec k0 key) as [->|Hne]; cbn [map fst]; [exact Hnd|].
    constructor; [|now apply IH].
    rewrite mapSet_keys. intros [->|Hin]; [now apply Hne | now apply Hnotin].
Qed.

Lemma filter_own_absent (key : string) (m : ImportDeps) :
  ~ In key (map fst m) -> List.filter (fun e => String.eqb (fst e) key) m = [].
Proof.
  induction m as [|[k x] m IH]; cbn [List.filter map fst In]; intros Hnot; [reflexivity|].
  destruct (String.eqb_spec k key) as [->|Hne]; [exfalso; apply Hnot; now left|].
  apply IH. intros Hin. apply Hnot. now right.
Qed.

Lemma mapSet_own (key : string) (v : gset string) (m : ImportDeps) :
  List.NoDup (map fst m) ->
  List.filter (fun e => String.eqb (fst e) key) (mapSet m key v) = [(key, v)].
Proof.
  induction m as [|[k x] m IH]; cbn [mapSet map fst]; intros Hnd.
  - cbn [List.filter fst]. now rewrite String.eqb_refl.
  - inversion Hnd as [|? ? Hnotin Hrest]; subst.
    destruct (String.eqb_spec k key) as [->|Hne]; cbn [List.filter fst].
    + rewrite String.eqb_refl. f_equal. now apply filter_own_absent.
    + destruct (String.eqb_spec k key) as [Heq|_]; [contradiction|]. now apply IH.
Qed.

Lemma filter_filter_comm {A} (f g : A -> bool) (l : list A) :
  List.filter f (List.filter g l) = List.filter g (List.filter f l).
Proof.
  induction l as [|x l IH]; cbn [List.filter]; [reflexivity|].
  destruct (f x) eqn:Ef, (g x) eqn:Eg; cbn [List.filter]; rewrite ?Ef, ?Eg, ?IH; reflexivity.
Qed.

Lemma filter_idem {A} (f : A -> bool) (l : list A) :
  List.filter f (List.filter f l) = List.filter f l.
Proof.
  induction l as [|x l IH]; cbn [List.filter]; [reflexivity|].
  destruct (f x) eqn:Ef; cbn [List.filter]; rewrite ?Ef, ?IH; reflexivity.
Qed.

Lemma filter_negb_nil {A} (f : A -> bool) (l : list A) :
  List.filter f (List.filter (fun x => negb (f x)) l) = [].
Proof.
  induction l as [|x l IH]; cbn [List.filter]; [reflexivity|].
  destruct (f x) eqn:Ef; cbn [negb List.filter]; rewrite ?Ef; exact IH.
Qed.

Lemma filter_map_fst {B} (f : string -> bool) (l : list (string * B)) :
  List.filter f (map fst l) = map fst (List.filter (fun e => f (fst e)) l).
Proof.
  induction l as [|x l IH]; cbn [List.filter map]; [reflexivity|].
  destruct (f (fst x)); cbn [map]; now rewrite IH.
Qed.

Lemma NoDup_map_fst_filter {B} (f : string * B -> bool) (l : list (string * B)) :
  List.NoDup (map fst l) -> List.NoDup (map fst (List.filter f l)).
Proof.
  induction l as [|x l IH]; cbn [List.filter map]; intros Hnd; [constructor|].
  inversion Hnd as [|? ? Hnotin Hrest]; subst.
  destruct (f x); cbn [map]; [|now apply IH].
  constructor; [|now apply IH]. intros Hin. apply Hnotin.
  apply in_map_iff in Hin as (e & He & Hin). apply in_map_iff. exists e. split; [exact He|].
  now apply List.filter_In in Hin.
Qed.

Section Table.

Variable resolve : string -> string.

(** Storing the dependency set of a file touches the entry of that file
    alone. *)
Lemma storeImportDeps_others (file : string) (fileDeps : gset string) (m : ImportDeps) :
  List.filter (fun e => negb (String.eqb (fst e) file)) (storeImportDeps file fileDeps m) =
  List.filter (fun e => negb (String.eqb (fst e) file)) m.
Proof.
  unfold storeImportDeps. destruct (bool_decide (fileDeps = ∅)).
  - unfold mapDelete. apply filter_idem.
  - apply mapSet_others.
Qed.

Lemma storeImportDeps_own (file : string) (fileDeps : gset string) (m : ImportDeps) :
  List.NoDup (map fst m) ->
  List.filter (fun e => String.eqb (fst e) file) (storeImportDeps file fileDeps m) =
  if bool_decide (fileDeps = ∅) then [] else [(file, fileDeps)].
Proof.
  intros Hnd. unfold storeImportDeps. destruct (bool_decide (fileDeps = ∅)).
  - unfold mapDelete. apply filter_negb_nil.
  - now apply mapSet_own.
Qed.

Lemma storeImportDeps_NoDup (file : string) (fileDeps : gset string) (m : ImportDeps) :
  List.NoDup (map fst m) -> List.NoDup (map fst (storeImportDeps file fileDeps m)).
Proof.
  intros Hnd. unfold storeImportDeps. destruct (bool_decide (fileDeps = ∅)).
  - now apply NoDup_map_fst_filter.
  - now apply mapSet_NoDup.
Qed.

(** The dependents of a provider among the entries of one consumer. *)
Lemma getImportDependents_of (consumer providerPath : string) (m : ImportDeps) :
  In consumer (getImportDependents resolve providerPath m) <->
  exists providers,
    In (consumer, providers) (List.filter (fun e => String.eqb (fst e) consumer) m) /\
    resolve providerPath ∈ providers.
Proof.
  unfold getImportDependents. rewrite in_map_iff. split.
  - intros ([c ps] & Hc & Hin). cbn [fst] in Hc. subst c.
    apply List.filter_In in Hin as [Hin Hp]. cbn [snd] in Hp. apply bool_decide_eq_true in Hp.
    exists ps. split; [|exact Hp]. apply List.filter_In. split; [exact Hin|].
    cbn [fst]. apply String.eqb_refl.
  - intros (ps & Hin & Hp). apply List.filter_In in Hin as [Hin _].
    exists (consumer, ps). split; [reflexivity|]. apply List.filter_In. split; [exact Hin|].
    cbn [snd]. now apply bool_decide_eq_true.
Qed.

Lemma getImportDependents_others (file providerPath : string) (m m' : ImportDeps) :
  List.filter (fun e => negb (String.eqb (fst e) file)) m' =
  List.filter (fun e => negb (String.eqb (fst e) file)) m ->
  List.filter (fun c => negb (String.eqb c file)) (getImportDependents resolve providerPath m') =
  List.filter (fun c => negb (String.eqb c file)) (getImportDependents resolve providerPath m).
Proof.
  intros H. unfold getImportDependents. rewrite !filter_map_fst.
  rewrite (filter_filter_comm _ _ m'), (filter_filter_comm _ _ m). now rewrite H.
Qed.

End Table.

Section Consumers.

Variable resolve : string -> string.
Variable resolvePath : string -> string -> string.
Variable extractExportsFromFile : string -> list ExportBlock.t.
Variable dirname : string -> string.

(** X24: after [resolveDirectives] on a file, [getImportDependents] lists
    the file for the provider of every one of its [@import] directives
    (whether the names were found there or not), and for exactly the
    providers in the dependency set of this pass, so that a dependency the
    file no longer has is forgotten; the other consumers are listed as
    before and in the same order, and no consumer is listed twice. *)
Theorem X24_dependents_follow_the_imports (fuel : nat) (result : ParseResult.t)
    (filePath : string) (importDeps importDeps' : ImportDeps) (rs : list StyleRule.t) :
  List.NoDup (map fst importDeps) ->
  resolveDirectivesFor resolve resolvePath extractExportsFromFile dirname fuel result
    filePath importDeps = Some (rs, importDeps') ->
  let file := resolve filePath in
  (forall imp providerPath,
     In imp (ParseResult.imports result) ->
     resolve providerPath = resolvePath (dirname filePath) (ImportDirective.from imp) ->
     In file (getImportDependents resolve providerPath importDeps')) /\
  (exists st,
     resolveDirectives resolvePath extractExportsFromFile (dirname filePath) fuel result
     = Some st /\
     forall providerPath,
       In file (getImportDependents resolve providerPath importDeps') <->
       resolve providerPath ∈ deps st) /\
  (forall providerPath,
     List.filter (fun c => negb (String.eqb c file))
       (getImportDependents resolve providerPath importDeps') =
     List.filter (fun c => negb (String.eqb c file))
       (getImportDependents resolve providerPath importDeps)) /\
  List.NoDup (map fst importDeps') /\
  (forall providerPath, List.NoDup (getImportDependents resolve providerPath importDeps')).
Proof.
  intros Hnd H file. unfold resolveDirectivesFor in H.
  destruct (resolveDirectives resolvePath extractExportsFromFile (dirname filePath) fuel result)
    as [st|] eqn:E; [|discriminate].
  cbn [mbind option_bind] in H. injection H as <- <-. fold file.
  assert (forall providerPath,
            In file (getImportDependents resolve providerPath
                       (storeImportDeps file (deps st) importDeps)) <->
            resolve providerPath ∈ deps st) as Hown.
  { intros providerPath. rewrite getImportDependents_of, (storeImportDeps_own _ _ _ Hnd).
    destruct (bool_decide (deps st = ∅)) eqn:Ee.
    - apply bool_decide_eq_true in Ee. rewrite Ee. split.
      + now intros (ps & [] & _).
      + intros Hin. now apply not_elem_of_empty in Hin.
    - split.
      + intros (ps & [Heq|[]] & Hin). now injection Heq as <-.
      + intros Hin. exists (deps st). split; [now left | exact Hin]. }
  split; [|split; [|split; [|split]]].
  - intros imp providerPath Himp Hres. apply Hown. rewrite Hres.
    apply (resolveDirectives_deps _ _ _ _ _ _ E).
    apply elem_of_list_to_set, list_elem_of_In, in_map_iff. now exists imp.
  - exists st. split; [reflexivity | exact Hown].
  - intros providerPath. apply getImportDependents_others, storeImportDeps_others.
  - now apply storeImportDeps_NoDup.
  - intros providerPath. unfold getImportDependents.
    now apply NoDup_map_fst_filter, storeImportDeps_NoDup.
Qed.

End Consumers.

Lemma X24_dependents_follow_the_imports_witness :
  In "/app/Page.vue"
    (getImportDependents (fun p => p) "/app/./ui.vue"
       (otherDeps ++ [("/app/Page.vue", {["/app/./ui.vue"]})])).
Proof.
  assert (List.NoDup (map fst otherDeps)) as Hnd.
  { constructor; [intros [] | constructor]. }
  assert (resolveDirectivesFor (fun p => p) (fun d f => d +:+ "/" +:+ f) (fun _ => [])
            (fun _ => "/app") 4 importsBtn "/app/Page.vue" otherDeps
          = Some ([], otherDeps ++ [("/app/Page.vue", {["/app/./ui.vue"]})])) as Hrun.
  { vm_compute. reflexivity. }
  destruct (X24_dependents_follow_the_imports (fun p => p) (fun d f => d +:+ "/" +:+ f)
              (fun _ => []) (fun _ => "/app") 4 importsBtn "/app/Page.vue" otherDeps _ _
              Hnd Hrun) as (Himports & _).
  apply (Himports (ImportDirective.Build_t ["btn"] "./ui.vue")); [now left | reflexivity].
Defined.

End DependencyFacts.

(** ** Collecting classes *)

Section CollectFacts.
Import Template Selector Engine ScopedCss Collect.

Lemma classMapGet_set (m : ClassMap) (el el' : NodeRef) (v : list string) :
  classMapGet (classMapSet m el v) el' =
  if Nat.eqb el el' then Some v else classMapGet m el'.
Proof.
  induction m as [|[k x] m IH]; cbn [classMapSet classMapGet].
  - reflexivity.
  - destruct (Nat.eqb_spec k el) as [->|Hne]; cbn [classMapGet].
    + now destruct (Nat.eqb el el').
    + rewrite IH. destruct (Nat.eqb_spec k el') as [->|Hne']; [|reflexivity].
      destruct (Nat.eqb_spec el el') as [Heq|_]; [|reflexivity]. now subst.
Qed.

Lemma classesOf_push (classes : list string) (el el' : NodeRef) (m : ClassMap) :
  classesOf (pushClassesOf classes el m) el' =
  classesOf m el' ++ (if Nat.eqb el el' then classes else []).
Proof.
  unfold pushClassesOf. destruct classes as [|c cs]; cbn [nonEmpty].
  - destruct (Nat.eqb el el'); now rewrite app_nil_r.
  - unfold classesOf at 1. rewrite classMapGet_set.
    destruct (Nat.eqb_spec el el') as [->|Hne]; cbn [default].
    + reflexivity.
    + now rewrite app_nil_r.
Qed.

Lemma classMapSet_keys (m : ClassMap) (el : NodeRef) (v : list string) (k : NodeRef) :
  In k (map fst (classMapSet m el v)) <-> k = el \/ In k (map fst m).
Proof.
  induction m as [|[k0 x] m IH]; cbn [classMapSet map fst In].
  - intuition congruence.
  - destruct (Nat.eqb_spec k0 el) as [->|Hne]; cbn [map fst In]; [|rewrite IH];
      intuition congruence.
Qed.

Lemma classMapSet_wellKept (m : ClassMap) (el : NodeRef) (v : list string) :
  v <> [] -> wellKept m -> wellKept (classMapSet m el v).
Proof.
  intros Hv [Hnd Hall]. induction m as [|[k0 x] m IH]; cbn [classMapSet].
  - split; [constructor; [intros [] | constructor] | now constructor].
  - inversion Hnd as [|? ? Hnotin Hrest]; subst. inversion Hall as [|? ? Hx Hall']; subst.
    destruct (Nat.eqb_spec k0 el) as [->|Hne].
    + split; [exact Hnd | now constructor].
    + destruct (IH Hrest Hall') as [IH1 IH2]. split; cbn [map fst].
      * constructor; [|exact IH1]. rewrite classMapSet_keys.
        intros [->|Hin]; [now apply Hne | now apply Hnotin].
      * now constructor.
Qed.

Lemma pushClassesOf_wellKept (classes : list string) (el : NodeRef) (m : ClassMap) :
  wellKept m -> wellKept (pushClassesOf classes el m).
Proof.
  intros Hm. unfold pushClassesOf. destruct classes as [|c cs]; cbn [nonEmpty]; [exact Hm|].
  apply classMapSet_wellKept; [|exact Hm]. now destruct (classesOf m el).
Qed.

(** *** How the additions of the steps of a walk add up *)

Lemma adds_nothing (acc : Collected) : adds acc acc (fun _ _ _ => False).
Proof.
  split.
  - intros el c. split; [now left | now intros [H | (q & r & [] & _)]].
  - intros q. split; [now left | now intros [H | (el & r & [])]].
Qed.

Lemma adds_then (acc acc1 acc2 : Collected)
    (P Q : NodeRef -> Resolver.Path -> StyleRule.t -> Prop) :
  adds acc acc1 P -> adds acc1 acc2 Q ->
  adds acc acc2 (fun el q r => P el q r \/ Q el q r).
Proof.
  intros [Pc Pm] [Qc Qm]. split.
  - intros el c. rewrite Qc, Pc. split.
    + intros [[H | (q & r & H & Hc)] | (q & r & H & Hc)]; eauto 8.
    + intros [H | (q & r & [H|H] & Hc)]; eauto 8.
  - intros q. rewrite Qm, Pm. split.
    + intros [[H | (el & r & H)] | (el & r & H)]; eauto 8.
    + intros [H | (el & r & [H|H])]; eauto 8.
Qed.

Lemma adds_same (acc acc' : Collected)
    (P Q : NodeRef -> Resolver.Path -> StyleRule.t -> Prop) :
  (forall el q r, P el q r <-> Q el q r) -> adds acc acc' P -> adds acc acc' Q.
Proof.
  intros HPQ [Pc Pm]. split.
  - intros el c. rewrite Pc. split; intros [H | (q & r & H & Hc)]; try (now left);
      right; exists q, r; (split; [now apply HPQ | exact Hc]).
  - intros q. rewrite Pm. split; intros [H | (el & r & H)]; try (now left);
      right; exists el, r; now apply HPQ.
Qed.

Lemma adds_grows (acc acc' : Collected)
    (P : NodeRef -> Resolver.Path -> StyleRule.t -> Prop) (q : Resolver.Path) :
  adds acc acc' P -> q ∈ matchedRules acc -> q ∈ matchedRules acc'.
Proof. intros [_ Pm] H. apply Pm. now left. Qed.

(** *** The rules that matched nothing *)

Section Reports.

Variable matched : gset Resolver.Path.
Variable hasDynClass : bool.

Lemma warnUnmatchedRule_eq (rule : StyleRule.t) (path : Resolver.Path) :
  warnUnmatchedRule matched hasDynClass rule path =
  if String.eqb (StyleRule.selector rule) "&"
  then warnUnmatchedRules matched hasDynClass (StyleRule.children rule) path 0
  else if negb (bool_decide (path ∈ matched))
       then (if hasContent rule then [unmatchedWarning hasDynClass rule] else [])
       else warnUnmatchedRules matched hasDynClass (StyleRule.children rule) path 0.
Proof.
  destruct rule as [selector classes declarations uses childRules].
  cbn [warnUnmatchedRule StyleRule.selector StyleRule.children].
  match goal with
  | |- context [(fix each rs i {struct rs} := _) childRules 0%nat] =>
      assert (forall i, (fix each (rs : list StyleRule.t) (i : nat) {struct rs}
                           : list UnmatchedWarning :=
                           match rs with
                           | [] => []
                           | c :: rs' =>
                               warnUnmatchedRule matched hasDynClass c (path ++ [i])
                               ++ each rs' (S i)
                           end) childRules i
                        = warnUnmatchedRules matched hasDynClass childRules path i) as ->
  end; [|reflexivity].
  induction childRules as [|c cs IH]; intros i; [reflexivity|].
  cbn [warnUnmatchedRules]. now rewrite IH.
Qed.

Lemma warnUnmatchedRules_in (rs : list StyleRule.t) (path : Resolver.Path) (w : UnmatchedWarning) :
  forall i,
    In w (warnUnmatchedRules matched hasDynClass rs path i) <->
    exists k c, rs !! k = Some c /\
                In w (warnUnmatchedRule matched hasDynClass c (path ++ [(i + k)%nat])).
Proof.
  induction rs as [|c rs IH]; intros i; cbn [warnUnmatchedRules].
  - split; [intros [] | now intros (k & c & Hk & _)].
  - rewrite in_app_iff, IH. split.
    + intros [Hw | (k & c' & Hk & Hw)].
      * exists 0%nat, c. split; [reflexivity|]. now rewrite Nat.add_0_r.
      * exists (S k), c'. split; [exact Hk|]. now rewrite Nat.add_succ_r.
    + intros ([|k] & c' & Hk & Hw).
      * left. injection Hk as <-. now rewrite Nat.add_0_r in Hw.
      * right. exists k, c'. split; [exact Hk|]. now rewrite Nat.add_succ_r in Hw.
Qed.

Lemma warnUnmatchedRule_spec (rule : StyleRule.t) :
  forall path w,
    In w (warnUnmatchedRule matched hasDynClass rule path) <->
    exists q r, reported (fun q => q ∈ matched) rule path q r /\
                w = unmatchedWarning hasDynClass r.
Proof.
  induction rule as [selector classes declarations uses childRules IH] using rule_tree_ind.
  set (rule := StyleRule.make selector classes declarations uses childRules).
  intros path w.
  assert (In w (warnUnmatchedRules matched hasDynClass (StyleRule.children rule) path 0) <->
          exists i childRule q r,
            StyleRule.children rule !! i = Some childRule /\
            reported (fun q => q ∈ matched) childRule (path ++ [i]) q r /\
            w = unmatchedWarning hasDynClass r) as Hbelow.
  { rewrite warnUnmatchedRules_in. cbn [StyleRule.children rule Nat.add].
    rewrite List.Forall_forall in IH.
    assert (forall k c, childRules !! k = Some c -> In c childRules) as Hin.
    { intros k c Hk. apply list_elem_of_In. eapply list_elem_of_lookup_2. exact Hk. }
    split.
    - intros (k & c & Hk & Hw).
      apply IH in Hw as (q & r & Hr & ->); [|exact (Hin k c Hk)].
      now exists k, c, q, r.
    - intros (k & c & q & r & Hk & Hr & ->). exists k, c. split; [exact Hk|].
      apply IH; [exact (Hin k c Hk)|]. now exists q, r. }
  rewrite warnUnmatchedRule_eq.
  destruct (String.eqb_spec (StyleRule.selector rule) "&") as [Hamp | Hamp].
  { rewrite Hbelow. split.
    - intros (i & c & q & r & Hi & Hr & ->). exists q, r. split; [|reflexivity].
      exact (reported_below _ rule path i c q r (or_introl Hamp) Hi Hr).
    - intros (q & r & Hr & ->).
      inversion Hr as [? ? Hne | ? ? i c ? ? _ Hi Hr']; subst; [contradiction|].
      now exists i, c, q, r. }
  destruct (bool_decide (path ∈ matched)) eqn:Em; cbn [negb].
  - apply bool_decide_eq_true in Em. rewrite Hbelow. split.
    + intros (i & c & q & r & Hi & Hr & ->). exists q, r. split; [|reflexivity].
      exact (reported_below _ rule path i c q r (or_intror Em) Hi Hr).
    + intros (q & r & Hr & ->).
      inversion Hr as [? ? _ Hnot | ? ? i c ? ? _ Hi Hr']; subst; [contradiction|].
      now exists i, c, q, r.
  - apply bool_decide_eq_false in Em. destruct (hasContent rule) eqn:Ec.
    + split.
      * intros [<- | []]. exists path, rule. split; [|reflexivity].
        now apply reported_here.
      * intros (q & r & Hr & ->).
        inversion Hr as [| ? ? i c ? ? [Hsel | Hin] Hi Hr']; subst;
          [now left | contradiction | contradiction].
    + split; [intros []|].
      intros (q & r & Hr & ->).
      inversion Hr as [? ? _ _ Hc | ? ? i c ? ? [Hsel | Hin] Hi Hr']; subst;
        [congruence | contradiction | contradiction].
Qed.

End Reports.

Lemma reported_same (P Q : Resolver.Path -> Prop) (rule : StyleRule.t)
    (path q : Resolver.Path) (r : StyleRule.t) :
  (forall p, P p <-> Q p) -> reported P rule path q r -> reported Q rule path q r.
Proof.
  intros HPQ. induction 1 as [rule path Hne Hnot Hc | rule path i c q r Hup Hi _ IH].
  - apply reported_here; [exact Hne | now rewrite <- HPQ | exact Hc].
  - apply (reported_below Q rule path i c q r); [|exact Hi | exact IH].
    destruct Hup as [Hsel | Hm]; [now left | right; now apply HPQ].
Qed.

Section Walk.

Variable heap : Heap.
Variable astSync : string -> option (list Node).
Variable fuel : nat.

Lemma collectClasses_eq (rule : StyleRule.t) (path : Resolver.Path)
    (scopeElements : list NodeRef) (parentMatched : option (list NodeRef)) (acc : Collected) :
  collectClasses heap astSync fuel rule path scopeElements parentMatched acc =
  (ast ← astSync (StyleRule.selector rule);
   matched ← matchSelector heap fuel ast scopeElements parentMatched;
   collectMatched heap astSync fuel rule path matched
     (if nonEmpty matched
      then Build_Collected (classMap acc) ({[path]} ∪ matchedRules acc)
      else acc)).
Proof.
  destruct rule as [selector classes declarations uses childRules].
  cbn [collectClasses StyleRule.selector].
  destruct (astSync selector) as [ast|]; [|reflexivity]. cbn [mbind option_bind].
  destruct (matchSelector heap fuel ast scopeElements parentMatched) as [matched|];
    [|reflexivity].
  cbn [mbind option_bind].
  generalize (if nonEmpty matched
              then Build_Collected (classMap acc) ({[path]} ∪ matchedRules acc)
              else acc).
  induction matched as [|el rest IH]; intros acc0; [reflexivity|].
  cbn [collectMatched StyleRule.classes StyleRule.children].
  match goal with
  | |- mbind _ ?a = mbind _ ?b => assert (a = b) as ->
  end.
  { clear IH. generalize 0%nat.
    generalize (Build_Collected (pushClassesOf classes el (classMap acc0)) (matchedRules acc0)).
    induction childRules as [|c cs IHc]; intros acc1 i; [reflexivity|].
    cbn [collectChildren].
    destruct (collectClasses heap astSync fuel c (path ++ [i]) (children (heap el))
                (Some [el]) acc1) as [acc2|]; [|reflexivity].
    cbn [mbind option_bind]. apply IHc. }
  destruct (collectChildren heap astSync fuel path el childRules 0
              (Build_Collected (pushClassesOf classes el (classMap acc0)) (matchedRules acc0)))
    as [acc1|]; [|reflexivity].
  cbn [mbind option_bind]. apply IH.
Qed.

Lemma collectChildren_adds (path : Resolver.Path) (el : NodeRef) (rs : list StyleRule.t) :
  Forall (walked heap astSync fuel) rs ->
  forall i acc acc',
    collectChildren heap astSync fuel path el rs i acc = Some acc' ->
    adds acc acc'
      (fun e q r =>
         exists k child,
           rs !! k = Some child /\
           applies heap astSync fuel child (path ++ [(i + k)%nat]) (children (heap el))
             (Some [el]) e q r) /\
    (wellKept (classMap acc) -> wellKept (classMap acc')).
Proof.
  induction 1 as [|c rs Hc _ IH]; intros i acc acc' H; cbn [collectChildren] in H.
  - injection H as <-. split; [|tauto].
    apply (adds_same _ _ (fun _ _ _ => False)); [|apply adds_nothing].
    intros e q r. split; [intros [] | now intros (k & child & Hk & _)].
  - destruct (collectClasses heap astSync fuel c (path ++ [i]) (children (heap el))
                (Some [el]) acc) as [acc1|] eqn:E1; [|discriminate].
    cbn [mbind option_bind] in H.
    destruct (Hc _ _ _ _ _ E1) as [Hadd1 Hkept1].
    destruct (IH _ _ _ H) as [Hadd2 Hkept2].
    split; [|tauto].
    eapply adds_same; [|exact (adds_then _ _ _ _ _ Hadd1 Hadd2)].
    intros e q r. split.
    + intros [Hhere | (k & child & Hk & Happ)].
      * exists 0%nat, c. split; [reflexivity|]. now rewrite Nat.add_0_r.
      * exists (S k), child. split; [exact Hk|]. now rewrite Nat.add_succ_r.
    + intros ([|k] & child & Hk & Happ).
      * left. injection Hk as <-. now rewrite Nat.add_0_r in Happ.
      * right. exists k, child. split; [exact Hk|]. now rewrite Nat.add_succ_r in Happ.
Qed.

Lemma collectMatched_adds (rule : StyleRule.t) (path : Resolver.Path) :
  Forall (walked heap astSync fuel) (StyleRule.children rule) ->
  forall els acc acc',
    (els <> [] -> path ∈ matchedRules acc) ->
    collectMatched heap astSync fuel rule path els acc = Some acc' ->
    adds acc acc'
      (fun e q r =>
         exists above,
           In above els /\
           ((e = above /\ q = path /\ r = rule) \/
            exists k child,
              StyleRule.children rule !! k = Some child /\
              applies heap astSync fuel child (path ++ [k]) (children (heap above))
                (Some [above]) e q r)) /\
    (wellKept (classMap acc) -> wellKept (classMap acc')).
Proof.
  intros Hchildren. induction els as [|el rest IH]; intros acc acc' Hpath H;
    cbn [collectMatched] in H.
  - injection H as <-. split; [|tauto].
    apply (adds_same _ _ (fun _ _ _ => False)); [|apply adds_nothing].
    intros e q r. split; [intros [] | now intros (above & [] & _)].
  - set (acc1 := Build_Collected (pushClassesOf (StyleRule.classes rule) el (classMap acc))
                   (matchedRules acc)) in *.
    destruct (collectChildren heap astSync fuel path el (StyleRule.children rule) 0 acc1)
      as [acc2|] eqn:E2; [|discriminate].
    cbn [mbind option_bind] in H.
    assert (path ∈ matchedRules acc) as Hin by now apply Hpath.
    assert (adds acc acc1 (fun e q r => e = el /\ q = path /\ r = rule)) as Hadd1.
    { split.
      - intros e c. cbn [classMap acc1]. rewrite classesOf_push, in_app_iff.
        split.
        + intros [Hc | Hc]; [now left|]. right.
          destruct (Nat.eqb_spec el e) as [->|_]; [|destruct Hc]. now exists path, rule.
        + intros [Hc | (q & r & (-> & -> & ->) & Hc)]; [now left|]. right.
          now rewrite Nat.eqb_refl.
      - intros q. cbn [matchedRules acc1]. split; [now left|].
        now intros [Hq | (e & r & _ & -> & _)]. }
    destruct (collectChildren_adds path el _ Hchildren _ _ _ E2) as [Hadd2 Hkept2].
    assert (rest <> [] -> path ∈ matchedRules acc2) as Hpath2.
    { intros _. apply (adds_grows _ _ _ _ Hadd2). exact Hin. }
    destruct (IH _ _ Hpath2 H) as [Hadd3 Hkept3].
    split.
    + eapply adds_same; [|exact (adds_then _ _ _ _ _ (adds_then _ _ _ _ _ Hadd1 Hadd2) Hadd3)].
      intros e q r. split.
      * intros [[(-> & -> & ->) | (k & child & Hk & Happ)] | (above & Hab & Hcase)].
        -- exists el. split; [now left | now left].
        -- exists el. split; [now left | right; now exists k, child].
        -- exists above. split; [now right | exact Hcase].
      * intros (above & [<- | Hab] & Hcase).
        -- left. destruct Hcase as [Hhere | (k & child & Hk & Happ)]; [now left|].
           right. now exists k, child.
        -- right. now exists above.
    + intros Hk. apply Hkept3, Hkept2. cbn [classMap acc1]. now apply pushClassesOf_wellKept.
Qed.

(** [collectClasses] gives the classes of a rule to the elements the rule is
    applied to, and to no other. *)
Lemma collectClasses_walked (rule : StyleRule.t) : walked heap astSync fuel rule.
Proof.
  induction rule as [selector classes declarations uses childRules IH] using rule_tree_ind.
  set (rule := StyleRule.make selector classes declarations uses childRules).
  intros path scope parentMatched acc acc' H. rewrite collectClasses_eq in H.
  destruct (astSync (StyleRule.selector rule)) as [ast|] eqn:East; [|discriminate].
  cbn [mbind option_bind] in H.
  destruct (matchSelector heap fuel ast scope parentMatched) as [matched|] eqn:Em;
    [|discriminate].
  cbn [mbind option_bind] in H.
  set (acc0 := if nonEmpty matched
               then Build_Collected (classMap acc) ({[path]} ∪ matchedRules acc)
               else acc) in *.
  assert (classMap acc0 = classMap acc) as Hmap0.
  { unfold acc0. now destruct (nonEmpty matched). }
  assert (forall q, q ∈ matchedRules acc0 <->
                    q ∈ matchedRules acc \/ (matched <> [] /\ q = path)) as Hset0.
  { intros q. unfold acc0. destruct matched as [|m ms]; cbn [nonEmpty matchedRules].
    - split; [now left | now intros [Hq | [Hne _]]].
    - rewrite elem_of_union, elem_of_singleton. split.
      + intros [-> | Hq]; [right; now split | now left].
      + intros [Hq | [_ ->]]; [now right | now left]. }
  assert (matched <> [] -> path ∈ matchedRules acc0) as Hpath.
  { intros Hne. apply Hset0. right. now split. }
  destruct (collectMatched_adds rule path IH matched acc0 acc' Hpath H) as [[Hc Hm] Hkept].
  assert (forall e q r,
            (exists above,
               In above matched /\
               ((e = above /\ q = path /\ r = rule) \/
                exists k child,
                  StyleRule.children rule !! k = Some child /\
                  applies heap astSync fuel child (path ++ [k]) (children (heap above))
                    (Some [above]) e q r)) <->
            applies heap astSync fuel rule path scope parentMatched e q r) as Happ.
  { intros e q r. split.
    - intros (above & Hab & [(-> & -> & ->) | (k & child & Hk & Hbelow)]).
      + exact (applies_here heap astSync fuel rule path scope parentMatched ast matched above
                 East Em Hab).
      + exact (applies_below heap astSync fuel rule path scope parentMatched ast matched above
                 k child e q r East Em Hab Hk Hbelow).
    - intros Ha. inversion Ha as [? ? ? ? ast' matched' ? Ea' Em' Hin
                                 | ? ? ? ? ast' matched' above k child ? ? ? Ea' Em' Hin Hk Hb];
        subst; rewrite East in Ea'; injection Ea' as <-; rewrite Em in Em';
        injection Em' as <-.
      + exists e. split; [exact Hin | now left].
      + exists above. split; [exact Hin | right; now exists k, child]. }
  split; [|now rewrite Hmap0 in Hkept].
  split.
  - intros e c. rewrite Hc, Hmap0. split; intros [Hin | (q & r & Hq & Hcl)]; try (now left);
      right; exists q, r; (split; [now apply Happ | exact Hcl]).
  - intros q. rewrite Hm, Hset0. split.
    + intros [[Hq | [Hne ->]] | (e & r & Hq)]; [now left | | right; exists e, r; now apply Happ].
      right. destruct matched as [|m ms]; [contradiction|]. exists m, rule.
      exact (applies_here heap astSync fuel rule path scope parentMatched ast (m :: ms) m
               East Em (or_introl eq_refl)).
    + intros [Hq | (e & r & Hq)]; [left; now left | right; exists e, r; now apply Happ].
Qed.

Lemma collectAll_adds (templateNodes : list NodeRef) (rules : list StyleRule.t) :
  forall i acc acc',
    collectAll heap astSync fuel rules i templateNodes acc = Some acc' ->
    adds acc acc'
      (fun e q r =>
         exists k rule,
           rules !! k = Some rule /\
           applies heap astSync fuel rule [(i + k)%nat] templateNodes None e q r) /\
    (wellKept (classMap acc) -> wellKept (classMap acc')).
Proof.
  induction rules as [|c rs IH]; intros i acc acc' H; cbn [collectAll] in H.
  - injection H as <-. split; [|tauto].
    apply (adds_same _ _ (fun _ _ _ => False)); [|apply adds_nothing].
    intros e q r. split; [intros [] | now intros (k & child & Hk & _)].
  - destruct (collectClasses heap astSync fuel c [i] templateNodes None acc)
      as [acc1|] eqn:E1; [|discriminate].
    cbn [mbind option_bind] in H.
    destruct (collectClasses_walked c _ _ _ _ _ E1) as [Hadd1 Hkept1].
    destruct (IH _ _ _ H) as [Hadd2 Hkept2].
    split; [|tauto].
    eapply adds_same; [|exact (adds_then _ _ _ _ _ Hadd1 Hadd2)].
    intros e q r. split.
    + intros [Hhere | (k & child & Hk & Happ)].
      * exists 0%nat, c. split; [reflexivity|]. now rewrite Nat.add_0_r.
      * exists (S k), child. split; [exact Hk|]. now rewrite Nat.add_succ_r.
    + intros ([|k] & child & Hk & Happ).
      * left. injection Hk as <-. now rewrite Nat.add_0_r in Happ.
      * right. exists k, child. split; [exact Hk|]. now rewrite Nat.add_succ_r in Happ.
Qed.

(** X25: phase 1 of [forwardTransform] collects for an element exactly the
    classes of the rules applied to it: a class is in the entry of an
    element when, and only when, a rule carrying it matched the element, a
    top-level rule among the root nodes and a nested rule among the children
    of an element its parent rule was applied to.  A rule is marked as
    matched exactly when it was applied to some element; and the map has one
    entry for an element at most and no entry without a class. *)
Theorem X25_elements_get_the_classes_of_the_rules_applied (rules : list StyleRule.t)
    (templateNodes : list NodeRef) (acc : Collected) :
  collectAll heap astSync fuel rules 0 templateNodes (Build_Collected [] ∅) = Some acc ->
  (forall el c,
     In c (classesOf (classMap acc) el) <->
     exists q r,
       appliesIn heap astSync fuel rules templateNodes el q r /\ In c (StyleRule.classes r)) /\
  (forall q,
     q ∈ matchedRules acc <->
     exists el r, appliesIn heap astSync fuel rules templateNodes el q r) /\
  wellKept (classMap acc).
Proof.
  intros H. destruct (collectAll_adds templateNodes rules _ _ _ H) as [[Hc Hm] Hkept].
  split; [|split].
  - intros el c. rewrite Hc. cbn [classMap classesOf classMapGet default]. split.
    + intros [[] | (q & r & Hq & Hcl)]. now exists q, r.
    + intros (q & r & Hq & Hcl). right. now exists q, r.
  - intros q. rewrite Hm. cbn [matchedRules]. split.
    + intros [Hq | (el & r & Hq)]; [now apply not_elem_of_empty in Hq | now exists el, r].
    + intros (el & r & Hq). right. now exists el, r.
  - apply Hkept. split; constructor.
Qed.

(** X27: after phase 1, [warnUnmatchedRules] reports exactly the rules that
    were applied to no element although the walk reached them: a warning is
    issued for a rule when, and only when, the rule is not [&], carries a
    class, a declaration or a child, was applied to no element, and every
    rule above it is [&] or was applied to some element. *)
Theorem X27_unmatched_rules_are_reported (rules : list StyleRule.t)
    (templateNodes : list NodeRef) (acc : Collected) (hasDynClass : bool) :
  collectAll heap astSync fuel rules 0 templateNodes (Build_Collected [] ∅) = Some acc ->
  forall w,
    In w (warnUnmatchedRules (matchedRules acc) hasDynClass rules [] 0) <->
    exists q r,
      reportedIn (fun p => exists el r', appliesIn heap astSync fuel rules templateNodes el p r')
        rules q r /\
      w = unmatchedWarning hasDynClass r.
Proof.
  intros H w. destruct (collectAll_adds templateNodes rules _ _ _ H) as [[_ Hm] _].
  assert (forall p,
            p ∈ matchedRules acc <->
            exists el r', appliesIn heap astSync fuel rules templateNodes el p r') as Hmatched.
  { intros p. rewrite Hm. cbn [matchedRules]. split.
    - intros [Hp | (el & r & Hp)]; [now apply not_elem_of_empty in Hp | now exists el, r].
    - intros (el & r & Hp). right. now exists el, r. }
  rewrite warnUnmatchedRules_in. cbn [Nat.add app]. split.
  - intros (k & c & Hk & Hw). apply warnUnmatchedRule_spec in Hw as (q & r & Hr & ->).
    exists q, r. split; [|reflexivity]. exists k, c. split; [exact Hk|].
    now apply (reported_same _ _ _ _ _ _ Hmatched).
  - intros (q & r & (k & c & Hk & Hr) & ->). exists k, c. split; [exact Hk|].
    apply warnUnmatchedRule_spec. exists q, r. split; [|reflexivity].
    apply (reported_same _ (fun p => p ∈ matchedRules acc)) in Hr; [exact Hr|].
    intros p. now rewrite Hmatched.
Qed.

End Walk.

Lemma X25_elements_get_the_classes_of_the_rules_applied_witness :
  wellKept (classMap figureCollected) /\
  exists q r,
    appliesIn Examples.imgHeap figureAst 8 figureRules [Examples.figure; Examples.section_]
      Examples.figureImg q r /\
    In "w-4" (StyleRule.classes r).
Proof.
  assert (collectAll Examples.imgHeap figureAst 8 figureRules 0
            [Examples.figure; Examples.section_] (Build_Collected [] ∅)
          = Some figureCollected) as Hrun.
  { vm_compute. reflexivity. }
  destruct (X25_elements_get_the_classes_of_the_rules_applied Examples.imgHeap figureAst 8
              figureRules [Examples.figure; Examples.section_] figureCollected Hrun)
    as (Hclasses & _ & Hkept).
  split; [exact Hkept|]. apply (Hclasses Examples.figureImg "w-4"). now left.
Defined.

Lemma X27_unmatched_rules_are_reported_witness :
  exists q r,
    reportedIn
      (fun p => exists el r',
         appliesIn Examples.imgHeap asideAst 8 asideRules [Examples.figure; Examples.section_]
           el p r')
      asideRules q r /\
    Unmatched "aside" false = unmatchedWarning false r.
Proof.
  assert (collectAll Examples.imgHeap asideAst 8 asideRules 0
            [Examples.figure; Examples.section_] (Build_Collected [] ∅)
          = Some figureCollected) as Hrun.
  { vm_compute. reflexivity. }
  apply (X27_unmatched_rules_are_reported Examples.imgHeap asideAst 8 asideRules
           [Examples.figure; Examples.section_] figureCollected false Hrun).
  vm_compute. now left.
Defined.

End CollectFacts.

(** ** The emitted style block *)

Section EmissionFacts.
Import JsString ScopedCss Slotted.

Lemma append_empty_r (a b : string) : a +:+ b = "" -> b = "".
Proof. destruct a; [trivial | discriminate]. Qed.

Lemma block_line_nonempty (indent text : string) (tail : string) :
  tail <> "" -> indent +:+ text +:+ tail <> "".
Proof. intros Ht H. apply Ht. now apply append_empty_r in H as H'%append_empty_r. Qed.

Lemma inner_line_nonempty (depth : nat) (text : string) : indentOf (depth + 1) +:+ text <> "".
Proof. rewrite Nat.add_1_r. discriminate. Qed.

Lemma join_nonempty (sep : string) (lines : list string) :
  lines <> [] -> Forall (fun l => l <> "") lines -> join sep lines <> "".
Proof.
  intros Hne Hall. destruct Hall as [|l rest Hl _]; [contradiction|].
  cbn [join]. destruct rest; [exact Hl|]. now destruct l.
Qed.

Lemma Forall_flat_map_lines {A} (f : A -> list string) (l : list A) :
  Forall (fun x => Forall (fun s => s <> "") (f x)) l ->
  Forall (fun s => s <> "") (flat_map f l).
Proof.
  induction 1 as [|x l Hx _ IH]; cbn [flat_map]; [constructor|].
  apply Forall_app. now split.
Qed.

Lemma emitRule_lines_nonempty (r : StyleRule.t) :
  forall depth, Forall (fun s => s <> "") (emitRule r depth).
Proof.
  induction r as [selector classes declarations uses children IH] using rule_tree_ind.
  intros depth. cbn [emitRule].
  destruct (negb (nonEmpty declarations) && negb (hasDeclarations children)); [constructor|].
  apply Forall_app. split; [|apply Forall_app; split; [|apply Forall_app; split]].
  - constructor; [|constructor]. now apply block_line_nonempty.
  - apply List.Forall_forall. intros s (d & <- & _)%in_map_iff. apply inner_line_nonempty.
  - apply Forall_flat_map_lines.
    apply List.Forall_forall. intros c Hc.
    rewrite List.Forall_forall in IH. now apply IH.
  - constructor; [|constructor]. now destruct (indentOf depth).
Qed.

Lemma emitSlottedRule_lines_nonempty (r : StyleRule.t) :
  forall depth, Forall (fun s => s <> "") (emitSlottedRule r depth).
Proof.
  induction r as [selector classes declarations uses children IH] using rule_tree_ind.
  intros depth. cbn [emitSlottedRule].
  destruct (negb (hasSlottedContent (StyleRule.make selector classes declarations uses children)));
    [constructor|].
  apply Forall_app. split;
    [|apply Forall_app; split; [|apply Forall_app; split; [|apply Forall_app; split]]].
  - constructor; [|constructor]. now apply block_line_nonempty.
  - destruct (nonEmpty classes); constructor; [|constructor]. apply inner_line_nonempty.
  - apply List.Forall_forall. intros s (d & <- & _)%in_map_iff. apply inner_line_nonempty.
  - apply Forall_flat_map_lines.
    apply List.Forall_forall. intros c Hc.
    rewrite List.Forall_forall in IH. now apply IH.
  - constructor; [|constructor]. now destruct (indentOf depth).
Qed.

Lemma emitSlottedWithAncestors_lines_nonempty (ancestors : list string) (r : StyleRule.t) :
  forall depth, Forall (fun s => s <> "") (emitSlottedWithAncestors ancestors r depth).
Proof.
  induction ancestors as [|a rest IH]; intros depth; cbn [emitSlottedWithAncestors].
  - apply emitSlottedRule_lines_nonempty.
  - apply Forall_app. split; [|apply Forall_app; split].
    + constructor; [|constructor]. now apply block_line_nonempty.
    + apply IH.
    + constructor; [|constructor]. now destruct (indentOf depth).
Qed.

Lemma buildScopedCSS_nonempty (rules : list StyleRule.t) (css : string) :
  buildScopedCSS rules = Some css -> css <> "".
Proof.
  unfold buildScopedCSS. destruct (hasDeclarations rules) eqn:E; cbn [negb]; [|discriminate].
  intros [= <-]. apply join_nonempty.
  - intros Hnil. unfold hasDeclarations in E. apply existsb_exists in E as (r & Hr & Hd).
    assert (emitRule r 0 = []) as Hr0.
    { assert (incl (emitRule r 0) (flat_map (fun rule => emitRule rule 0) rules)) as Hincl.
      { intros l Hl. apply in_flat_map. now exists r. }
      rewrite Hnil in Hincl. destruct (emitRule r 0) as [|l ?]; [reflexivity|].
      destruct (Hincl l (or_introl eq_refl)). }
    apply emitRule_nil in Hr0. congruence.
  - apply Forall_flat_map_lines, List.Forall_forall. intros r _. apply emitRule_lines_nonempty.
Qed.

Lemma buildSlottedCSS_nonempty (slottedRules : list SlottedRule) (css : string) :
  buildSlottedCSS slottedRules = Some css -> css <> "".
Proof.
  unfold buildSlottedCSS. destruct slottedRules as [|sr rest]; [discriminate|].
  set (lines := flat_map _ (sr :: rest)).
  assert (Forall (fun s => s <> "") lines) as Hall.
  { apply Forall_flat_map_lines, List.Forall_forall. intros x _.
    destruct (negb (hasSlottedContent (rule x))); [constructor|].
    apply emitSlottedWithAncestors_lines_nonempty. }
  destruct lines as [|l ls]; cbn [nonEmpty]; [discriminate|].
  intros H. injection H as <-. now apply (join_nonempty newline (l :: ls)).
Qed.

(** X26: the three style sheets of [forwardTransform] are never empty texts,
    so [filter(Boolean)] drops the missing ones only: the combined CSS is
    the sheets there are, in the order scoped, slotted, pseudo-element, one
    line break between them; and it is empty, so that no [<style scoped>]
    block is appended, exactly when all three are missing. *)
Theorem X26_style_block_is_appended_for_any_css (rules : list StyleRule.t)
    (slottedRules pseudoElementRules : list SlottedRule) :
  let parts := [buildScopedCSS rules; buildSlottedCSS slottedRules;
                buildSlottedCSS pseudoElementRules] in
  Forall (fun part => part <> Some "") parts /\
  combineCSS parts = join newline (omap id parts) /\
  (combineCSS parts = "" <-> Forall (fun part => part = None) parts).
Proof.
  intros parts.
  assert (Forall (fun part => part <> Some "") parts) as Hparts.
  { repeat constructor; intros H.
    - now apply buildScopedCSS_nonempty in H.
    - now apply buildSlottedCSS_nonempty in H.
    - now apply buildSlottedCSS_nonempty in H. }
  assert (forall ps : list (option string),
            Forall (fun part => part <> Some "") ps ->
            omap (fun p => match p with
                           | Some s => if String.eqb s "" then None else Some s
                           | None => None
                           end) ps = omap id ps /\
            Forall (fun s => s <> "") (omap id ps) /\
            (omap id ps = [] <-> Forall (fun part => part = None) ps)) as Hfilter.
  { induction 1 as [|p ps Hp _ (IH1 & IH2 & IH3)]; cbn [omap list_omap] in *.
    - repeat split; constructor.
    - destruct p as [s|]; cbn [id].
      + destruct (String.eqb_spec s "") as [->|Hne]; [contradiction|]. rewrite IH1.
        repeat split.
        * now constructor.
        * discriminate.
        * intros H. inversion H. discriminate.
      + rewrite IH1. repeat split; [exact IH2 | |].
        * intros H. constructor; [reflexivity | now apply IH3].
        * intros H. inversion H. now apply IH3. }
  destruct (Hfilter parts Hparts) as (Heq & Hne & Hnil).
  split; [exact Hparts|]. unfold combineCSS. rewrite Heq. split; [reflexivity|].
  rewrite <- Hnil. split.
  - intros Hj. destruct (omap id parts) as [|l ls] eqn:E; [reflexivity|].
    exfalso. now apply (join_nonempty newline (l :: ls)).
  - now intros ->.
Qed.

End EmissionFacts.

(** ** Removing the style block *)

Section StyleBlockFacts.
Import JsString StyleBlock.

Lemma substring_le (code : list ascii) (a b : nat) :
  (a <= b)%nat -> Parser.substring code a b = take (b - a) (drop a code).
Proof.
  intros H. unfold Parser.substring. now rewrite Nat.min_l, Nat.max_r by lia.
Qed.

Lemma startsWithL_found (pat l : list ascii) (i : nat) :
  (0 < length pat)%nat ->
  startsWithL pat (drop i l) = true ->
  take (length pat) (drop i l) = pat /\ (i + length pat <= length l)%nat.
Proof.
  intros Hpat H. apply startsWithL_spec in H as [r Hr]. split.
  - rewrite Hr. now rewrite take_app_length.
  - assert (length (drop i l) = length (pat ++ r)) as Hlen by now rewrite Hr.
    rewrite length_drop, length_app in Hlen. lia.
Qed.

Lemma lastIndexOfL_none (pat l : list ascii) :
  lastIndexOfL pat l = None ->
  forall k, (k <= length l)%nat -> startsWithL pat (drop k l) = false.
Proof.
  induction l as [|c r IH]; cbn [lastIndexOfL length].
  - intros H k Hk. replace k with 0%nat by lia.
    cbn [drop]. now destruct (startsWithL pat []).
  - destruct (lastIndexOfL pat r) as [i|]; [discriminate|].
    destruct (startsWithL pat (c :: r)) eqn:E; [discriminate|].
    intros _ [|k] Hk; [exact E|]. cbn [drop]. apply IH; [reflexivity | lia].
Qed.

(** [lastIndexOf] returns the last place where the pattern stands. *)
Lemma lastIndexOfL_spec (pat l : list ascii) (i : nat) :
  lastIndexOfL pat l = Some i ->
  startsWithL pat (drop i l) = true /\
  forall k, (i < k <= length l)%nat -> startsWithL pat (drop k l) = false.
Proof.
  revert i. induction l as [|c r IH]; intros i; cbn [lastIndexOfL length].
  - destruct (startsWithL pat []) eqn:E; [|discriminate].
    intros [= <-]. split; [exact E | intros k Hk; lia].
  - destruct (lastIndexOfL pat r) as [j|] eqn:Ej.
    + intros [= <-]. destruct (IH j eq_refl) as [Hat Hlast]. split; [exact Hat|].
      intros [|k] Hk; [lia|]. cbn [drop]. apply Hlast. lia.
    + destruct (startsWithL pat (c :: r)) eqn:E; [|discriminate].
      intros [= <-]. split; [exact E|].
      intros [|k] Hk; [lia|]. cbn [drop]. apply (lastIndexOfL_none pat r Ej). lia.
Qed.

(** [indexOf] returns the first place where the pattern stands. *)
Lemma indexOfL_spec (pat l : list ascii) (i : nat) :
  Parser.indexOfL pat l = Some i ->
  startsWithL pat (drop i l) = true /\
  forall k, (k < i)%nat -> startsWithL pat (drop k l) = false.
Proof.
  revert i. induction l as [|c r IH]; intros i; cbn [Parser.indexOfL].
  - destruct (startsWithL pat []) eqn:E; [|discriminate].
    intros [= <-]. split; [exact E | intros k Hk; lia].
  - destruct (startsWithL pat (c :: r)) eqn:E.
    + intros [= <-]. split; [exact E | intros k Hk; lia].
    + destruct (Parser.indexOfL pat r) as [j|]; [|discriminate].
      cbn [fmap option_fmap option_map]. intros [= <-].
      destruct (IH j eq_refl) as [Hat Hfirst]. split; [exact Hat|].
      intros [|k] Hk; [exact E|]. cbn [drop]. apply Hfirst. lia.
Qed.

Lemma backOver_spec (code : list ascii) (n : nat) :
  (backOver code n <= n)%nat /\
  forallb isLineBreak (take (n - backOver code n) (drop (backOver code n) code)) = true /\
  (forall x, (0 < backOver code n)%nat ->
             code !! (backOver code n - 1)%nat = Some x -> isLineBreak x = false).
Proof.
  induction n as [|i (IH1 & IH2 & IH3)]; cbn [backOver].
  - repeat split; [lia|]. intros x Hx. lia.
  - destruct (code !! i) as [c|] eqn:Ei.
    + destruct (isLineBreak c) eqn:Ec.
      * split; [lia|]. split; [|exact IH3].
        replace (S i - backOver code i)%nat with (S (i - backOver code i)) by lia.
        rewrite (take_S_r _ _ c).
        -- rewrite forallb_app, IH2. cbn [forallb]. now rewrite Ec.
        -- rewrite lookup_drop. now replace (backOver code i + (i - backOver code i))%nat
             with i by lia.
      * split; [lia|]. split; [now rewrite Nat.sub_diag|].
        intros x _. cbn [Nat.sub]. rewrite Nat.sub_0_r, Ei. now intros [= <-].
    + split; [lia|]. split; [now rewrite Nat.sub_diag|].
      intros x _. cbn [Nat.sub]. rewrite Nat.sub_0_r, Ei. discriminate.
Qed.

Lemma forwardOver_spec (rest : list ascii) :
  forall n,
    (n <= forwardOver rest n <= n + length rest)%nat /\
    forallb isLineBreak (take (forwardOver rest n - n) rest) = true /\
    (forall x, rest !! (forwardOver rest n - n)%nat = Some x -> isLineBreak x = false).
Proof.
  induction rest as [|c rest IH]; intros n; cbn [forwardOver length].
  - rewrite Nat.sub_diag. repeat split; try lia. intros x. discriminate.
  - destruct (isLineBreak c) eqn:Ec.
    + destruct (IH (S n)) as (IH1 & IH2 & IH3).
      replace (forwardOver rest (S n) - n)%nat with (S (forwardOver rest (S n) - S n)) by lia.
      split; [lia|]. split.
      * cbn [take forallb]. now rewrite Ec, IH2.
      * intros x. cbn [lookup list_lookup]. apply IH3.
    + rewrite Nat.sub_diag. split; [lia|]. split; [reflexivity|].
      intros x [= <-]. exact Ec.
Qed.

(** X28: when the text before the block holds [<style] and the text after it
    holds [</style>], [removeStyleBlock] removes the style element, from its
    last [<style] before the content to the end of the first [</style>]
    after it, together with the line breaks that stand directly before and
    after the element, and nothing more: the range lies inside the text,
    what it holds outside the element are line breaks only, and it is
    neither preceded nor followed by a line break. *)
Theorem X28_style_element_and_line_breaks_are_removed (code : list ascii)
    (startOffset endOffset s c : nat) :
  lastIndexOfL (chars "<style") (Parser.substring code 0 startOffset) = Some s ->
  Parser.indexOfL (chars "</style>") (Parser.substringFrom code endOffset) = Some c ->
  exists removeStart removeEnd : nat,
    removeStyleBlock code startOffset endOffset = (Z.of_nat removeStart, Z.of_nat removeEnd) /\
    (removeStart <= s /\ s + 6 <= startOffset /\
     endOffset + c + 8 <= removeEnd <= length code)%nat /\
    Parser.substring code s (s + 6) = chars "<style" /\
    Parser.substring code (endOffset + c) (endOffset + c + 8) = chars "</style>" /\
    forallb isLineBreak (Parser.substring code removeStart s) = true /\
    forallb isLineBreak (Parser.substring code (endOffset + c + 8) removeEnd) = true /\
    (forall x, (0 < removeStart)%nat ->
               code !! (removeStart - 1)%nat = Some x -> isLineBreak x = false) /\
    (forall x, code !! removeEnd = Some x -> isLineBreak x = false).
Proof.
  intros Hs Hc. unfold removeStyleBlock. rewrite Hs, Hc. cbn [orMinusOne].
  change (String.length "</style>") with 8%nat.
  replace (Z.to_nat (Z.of_nat endOffset + Z.of_nat c + Z.of_nat 8))
    with (endOffset + c + 8)%nat by lia.
  set (e := (endOffset + c + 8)%nat).
  exists (backOver code s), (forwardOver (drop e code) e). split; [reflexivity|].
  apply lastIndexOfL_spec in Hs as [Hs _].
  apply startsWithL_found in Hs as [Hs Hslen]; [|cbn; lia].
  apply indexOfL_spec in Hc as [Hc _].
  apply startsWithL_found in Hc as [Hc Hclen]; [|cbn; lia].
  unfold Parser.substringFrom in Hc, Hclen. rewrite drop_drop in Hc.
  rewrite length_drop in Hclen.
  rewrite substring_le in Hs, Hslen by lia.
  rewrite Nat.sub_0_r, drop_0 in Hs, Hslen.
  change (length (chars "<style")) with 6%nat in *.
  change (length (chars "</style>")) with 8%nat in *.
  rewrite length_take in Hslen.
  destruct (backOver_spec code s) as (Hb1 & Hb2 & Hb3).
  destruct (forwardOver_spec (drop e code) e) as (Hf1 & Hf2 & Hf3).
  rewrite length_drop in Hf1.
  split; [lia|]. split; [|split; [|split; [|split; [|split]]]].
  - rewrite substring_le by lia. replace (s + 6 - s)%nat with 6%nat by lia.
    rewrite <- Hs. replace startOffset with (s + (startOffset - s))%nat at 1 by lia.
    rewrite <- take_drop_commute, take_take.
    f_equal. lia.
  - rewrite substring_le by lia.
    replace (e - (endOffset + c))%nat with 8%nat by (unfold e; lia). exact Hc.
  - now rewrite substring_le by lia.
  - now rewrite substring_le by lia.
  - exact Hb3.
  - intros x Hx. apply Hf3. rewrite lookup_drop.
    now replace (e + (forwardOver (drop e code) e - e))%nat
      with (forwardOver (drop e code) e) by lia.
Qed.

Lemma X28_style_element_and_line_breaks_are_removed_witness :
  exists removeStart removeEnd : nat,
    removeStyleBlock sfcExample 12 23 = (Z.of_nat removeStart, Z.of_nat removeEnd) /\
    (removeStart <= 5 /\ 5 + 6 <= 12 /\ 23 + 0 + 8 <= removeEnd <= length sfcExample)%nat /\
    Parser.substring sfcExample 5 (5 + 6) = chars "<style" /\
    Parser.substring sfcExample (23 + 0) (23 + 0 + 8) = chars "</style>" /\
    forallb isLineBreak (Parser.substring sfcExample removeStart 5) = true /\
    forallb isLineBreak (Parser.substring sfcExample (23 + 0 + 8) removeEnd) = true /\
    (forall x, (0 < removeStart)%nat ->
               sfcExample !! (removeStart - 1)%nat = Some x -> isLineBreak x = false) /\
    (forall x, sfcExample !! removeEnd = Some x -> isLineBreak x = false).
Proof.
  apply (X28_style_element_and_line_breaks_are_removed sfcExample 12 23 5 0).
  - vm_compute. reflexivity.
  - vm_compute. reflexivity.
Defined.

End StyleBlockFacts.

(** ** The template tree *)

Section TemplateTreeFacts.
Import JsString Template TemplateTree.

(** Induction on the nodes of the AST, with the hypothesis for every child. *)
Lemma vnode_tree_ind (P : VNode -> Prop) :
  P VOther ->
  (forall tagType tag props children startOffset,
     Forall P children -> P (VElement tagType tag props children startOffset)) ->
  forall n, P n.
Proof.
  intros Hother Hel. fix IH 1. intros [tagType tag props children startOffset|].
  - apply Hel. induction children as [|c cs IHcs]; constructor; [apply IH | exact IHcs].
  - exact Hother.
Qed.

Lemma grown_nothing (parent : option NodeRef) (s : list (option NodeRef * list NodeRef)) :
  grown parent s s [].
Proof.
  split; [exists []; now rewrite app_nil_r|].
  split; [constructor|]. split; [intros r []|]. split.
  - intros c pc ch Hc Hlook. apply lookup_lt_Some in Hlook. lia.
  - intros p pp pch Hp Hlook. apply lookup_lt_Some in Hlook. lia.
Qed.

Lemma grown_then (parent : option NodeRef) (s s1 s2 : list (option NodeRef * list NodeRef))
    (pushed1 pushed2 : list NodeRef) :
  grown parent s s1 pushed1 -> grown parent s1 s2 pushed2 ->
  grown parent s s2 (pushed1 ++ pushed2).
Proof.
  intros ([new1 ->] & Hnd1 & Hp1 & Hc1 & Hk1) ([new2 ->] & Hnd2 & Hp2 & Hc2 & Hk2).
  assert (forall i x, (s ++ new1) !! i = Some x -> ((s ++ new1) ++ new2) !! i = Some x)
    as Hkeep.
  { intros i x Hi. rewrite lookup_app_l; [exact Hi | now apply lookup_lt_Some in Hi]. }
  split; [exists (new1 ++ new2); now rewrite app_assoc|].
  split; [|split; [|split]].
  - apply List.NoDup_app; [exact Hnd1 | exact Hnd2 |].
    intros r Hr1 Hr2. destruct (Hp1 r Hr1) as (_ & ch & Hlook).
    apply lookup_lt_Some in Hlook. destruct (Hp2 r Hr2) as (Hge & _). lia.
  - intros r [Hr | Hr]%in_app_iff.
    + destruct (Hp1 r Hr) as (Hge & ch & Hlook). split; [exact Hge|].
      exists ch. now apply Hkeep.
    + destruct (Hp2 r Hr) as (Hge & ch & Hlook). rewrite length_app in Hge.
      split; [lia | now exists ch].
  - intros c pc ch Hc Hlook.
    destruct (Nat.lt_ge_cases c (length (s ++ new1))) as [Hlt | Hge].
    + rewrite lookup_app_l in Hlook by exact Hlt.
      destruct (Hc1 c pc ch Hc Hlook) as [[Hin ->] | (p & pp & pch & Hp & Hpl & -> & Hin)].
      * left. split; [apply in_app_iff; now left | reflexivity].
      * right. exists p, pp, pch. repeat split; [exact Hp | now apply Hkeep | exact Hin].
    + destruct (Hc2 c pc ch Hge Hlook) as [[Hin ->] | (p & pp & pch & Hp & Hpl & -> & Hin)].
      * left. split; [apply in_app_iff; now right | reflexivity].
      * right. exists p, pp, pch. rewrite length_app in Hp.
        repeat split; [lia | exact Hpl | exact Hin].
  - intros p pp pch Hp Hlook.
    destruct (Nat.lt_ge_cases p (length (s ++ new1))) as [Hlt | Hge].
    + rewrite lookup_app_l in Hlook by exact Hlt.
      destruct (Hk1 p pp pch Hp Hlook) as [Hnd Hkids]. split; [exact Hnd|].
      intros c Hin. destruct (Hkids c Hin) as (Hge & cch & Hcl).
      split; [exact Hge|]. exists cch. now apply Hkeep.
    + destruct (Hk2 p pp pch Hge Hlook) as [Hnd Hkids]. split; [exact Hnd|].
      intros c Hin. destruct (Hkids c Hin) as (Hgec & cch & Hcl).
      rewrite length_app in Hgec. split; [lia | now exists cch].
Qed.

Lemma shape_app (l1 l2 : list NodeObject) : shape (l1 ++ l2) = shape l1 ++ shape l2.
Proof. apply map_app. Qed.

Lemma shape_alter_kept (f : NodeObject -> NodeObject) (i : nat) (l : list NodeObject) :
  (forall o, parent (node (f o)) = parent (node o) /\
             children (node (f o)) = children (node o)) ->
  shape (alter f i l) = shape l.
Proof.
  intros Hf. revert i. induction l as [|o l IH]; intros [|i]; cbn; try reflexivity.
  - destruct (Hf o) as [-> ->]. reflexivity.
  - f_equal. apply IH.
Qed.

Lemma shape_alter_children (kids : list NodeRef) (i : nat) (l : list NodeObject) :
  shape (alter (fun o => withChildren o kids) i l) =
  alter (fun x => (fst x, kids)) i (shape l).
Proof.
  revert i. induction l as [|o l IH]; intros [|i]; cbn; try reflexivity.
  f_equal. apply IH.
Qed.

Lemma shape_markHoisted (conditional : option Conditional) (hoisted : list NodeRef)
    (st : Build) :
  shape (nodes (markHoisted conditional hoisted st)) = shape (nodes st).
Proof.
  unfold markHoisted. destruct conditional as [c|]; [|reflexivity]. cbn [nodes].
  generalize (nodes st). induction hoisted as [|h hs IH]; intros ns; cbn [fold_left];
    [reflexivity|].
  rewrite IH. apply shape_alter_kept. intros o.
  now destruct (Template.conditional (node o)).
Qed.

Lemma followDirective_nodes (props : list VProp) (chain : Chain) (st : Build) :
  nodes (snd (followDirective props chain st)) = nodes st.
Proof.
  unfold followDirective. now destruct (getConditionalDirective props) as [[| |]|].
Qed.

(** A node without children, and a node with the children extracted for it. *)
Lemma grown_leaf (parent : option NodeRef) (s : list (option NodeRef * list NodeRef)) :
  grown parent s (s ++ [(parent, [])]) [length s].
Proof.
  split; [now exists [(parent, [])]|]. split; [constructor; [intros [] | constructor]|].
  assert (forall i x, (length s <= i)%nat -> (s ++ [(parent, [])]) !! i = Some x ->
                      i = length s /\ x = (parent, [])) as Hnew.
  { intros i x Hi Hx. rewrite lookup_app_r in Hx by exact Hi.
    destruct (i - length s)%nat as [|k] eqn:Ek; cbn in Hx; [|discriminate].
    injection Hx as <-. split; [lia | reflexivity]. }
  split; [|split].
  - intros r [<- | []]. split; [lia|]. exists []. now apply list_lookup_middle.
  - intros c pc ch Hc Hlook. destruct (Hnew _ _ Hc Hlook) as [-> [= -> ->]].
    left. split; [now left | reflexivity].
  - intros p pp pch Hp Hlook. destruct (Hnew _ _ Hp Hlook) as [-> [= -> ->]].
    split; [constructor | intros c []].
Qed.

Lemma grown_node (parent : option NodeRef) (s s2 : list (option NodeRef * list NodeRef))
    (kids : list NodeRef) :
  grown (Some (length s)) (s ++ [(parent, [])]) s2 kids ->
  grown parent s (alter (fun x => (fst x, kids)) (length s) s2) [length s].
Proof.
  intros ([new2 ->] & Hnd & Hp & Hc & Hk).
  set (s2 := (s ++ [(parent, [])]) ++ new2) in *.
  set (s' := alter (fun x => (fst x, kids)) (length s) s2).
  assert (s' !! length s = Some (parent, kids)) as Hel.
  { unfold s'. rewrite list_lookup_alter_eq. unfold s2.
    rewrite <- app_assoc. cbn [app fmap option_fmap option_map].
    now rewrite (list_lookup_middle s new2 (parent, []) (length s) eq_refl). }
  assert (forall j, j <> length s -> s' !! j = s2 !! j) as Hother.
  { intros j Hj. unfold s'. now rewrite list_lookup_alter_ne by congruence. }
  assert (length (s ++ [(parent, [])]) = S (length s)) as Hlen.
  { rewrite length_app. cbn. lia. }
  split.
  { exists ((parent, kids) :: new2). unfold s', s2. rewrite <- app_assoc. cbn [app].
    rewrite <- (Nat.add_0_r (length s)). now rewrite alter_app_r. }
  split; [constructor; [intros [] | constructor]|].
  split; [|split].
  - intros r [<- | []]. split; [lia | now exists kids].
  - intros c pc ch Hge Hlook. destruct (Nat.eq_dec c (length s)) as [-> | Hne].
    + rewrite Hel in Hlook. injection Hlook as <- <-. left. split; [now left | reflexivity].
    + rewrite Hother in Hlook by exact Hne. right.
      destruct (Hc c pc ch) as [[Hin ->] | (p & pp & pch & Hpge & Hpl & -> & Hin)];
        [lia | exact Hlook | |].
      * exists (length s), parent, kids. repeat split; [lia | exact Hel | exact Hin].
      * exists p, pp, pch. repeat split; [lia | | exact Hin].
        rewrite Hother; [exact Hpl | lia].
  - intros p pp pch Hge Hlook. destruct (Nat.eq_dec p (length s)) as [-> | Hne].
    + rewrite Hel in Hlook. injection Hlook as <- <-. split; [exact Hnd|].
      intros c Hin. destruct (Hp c Hin) as (Hcge & cch & Hcl). split; [lia|].
      exists cch. rewrite Hother; [exact Hcl | lia].
    + rewrite Hother in Hlook by exact Hne.
      destruct (Hk p pp pch) as [Hndp Hkids]; [lia | exact Hlook|].
      split; [exact Hndp|]. intros c Hin. destruct (Hkids c Hin) as (Hcge & cch & Hcl).
      split; [lia|]. exists cch. rewrite Hother; [exact Hcl | lia].
Qed.

Lemma extractElementsFrom_grown (cs : list VNode) :
  Forall extracted cs ->
  forall parent chain st pushed st',
    extractElementsFrom cs parent chain st = (pushed, st') ->
    grown parent (shape (nodes st)) (shape (nodes st')) pushed.
Proof.
  induction 1 as [|c cs Hc _ IH]; intros parent chain st pushed st' H;
    cbn [extractElementsFrom] in H.
  - injection H as <- <-. apply grown_nothing.
  - destruct (extractChild c parent chain st) as [[pushed1 chain1] st1] eqn:E1.
    destruct (extractElementsFrom cs parent chain1 st1) as [pushed2 st2] eqn:E2.
    injection H as <- <-.
    exact (grown_then _ _ _ _ _ _ (Hc _ _ _ _ _ _ E1) (IH _ _ _ _ _ E2)).
Qed.

Lemma extractChild_eq (tagType : TagType) (tag : string) (props : list VProp)
    (childNodes : list VNode) (startOffset : Z) (parent : option NodeRef) (chain : Chain)
    (st : Build) :
  extractChild (VElement tagType tag props childNodes startOffset) parent chain st =
  match tagType with
  | TagSlot => ([], chain, st)
  | _ =>
      let '(chain, st) := followDirective props chain st in
      let conditional := conditionalOf chain in
      if isTransparent tagType tag || match tagType with TagTemplate => true | _ => false end
      then
        let '(hoisted, st) := extractElements childNodes parent st in
        (hoisted, chain, markHoisted conditional hoisted st)
      else
        let el := length (nodes st) in
        let st :=
          Build_Build (nodes st ++ [newNode tag props startOffset parent]) (chainCounter st) in
        let st :=
          if hasVHtmlDirective props then st
          else
            let '(kids, st) := extractElements childNodes (Some el) st in
            Build_Build (alter (fun o => withChildren o kids) el (nodes st))
              (chainCounter st) in
        let st :=
          match conditional with
          | Some c =>
              Build_Build (alter (fun o => withConditional o c) el (nodes st))
                (chainCounter st)
          | None => st
          end in
        ([el], chain, st)
  end.
Proof.
  cbn [extractChild].
  match goal with
  | |- context [fix elements (cs : list VNode) (parent : option NodeRef) (chain : Chain)
                  (st : Build) {struct cs} : list NodeRef * Build := _] =>
      set (elements := fix elements (cs : list VNode) (parent : option NodeRef)
                         (chain : Chain) (st : Build) {struct cs} : list NodeRef * Build :=
                         match cs with
                         | [] => ([], st)
                         | c :: cs' =>
                             let '(pushed, chain, st) := extractChild c parent chain st in
                             let '(rest, st) := elements cs' parent chain st in
                             (pushed ++ rest, st)
                         end)
  end.
  assert (forall cs parent chain st,
            elements cs parent chain st = extractElementsFrom cs parent chain st) as Heq.
  { induction cs as [|c cs IH]; intros parent0 chain0 st0; [reflexivity|].
    cbn [elements extractElementsFrom].
    destruct (extractChild c parent0 chain0 st0) as [[pushed1 chain1] st1].
    fold elements. now rewrite IH. }
  unfold extractElements.
  destruct tagType; try reflexivity;
    destruct (followDirective props chain st) as [chain1 st1];
    rewrite ?Heq; cbn [isTransparent orb]; try reflexivity.
  now destruct (existsb (String.eqb tag) VUE_TRANSPARENT_COMPONENTS).
Qed.

(** Each step of the extraction adds nodes that hang together. *)
Lemma extractChild_extracted (child : VNode) : extracted child.
Proof.
  induction child as [|tagType tag props childNodes startOffset IH] using vnode_tree_ind.
  { intros parent chain st pushed chain' st' H. cbn [extractChild] in H.
    injection H as <- _ <-. apply grown_nothing. }
  intros parent chain st pushed chain' st' H. rewrite extractChild_eq in H.
  assert (tagType = TagSlot \/ tagType <> TagSlot) as [-> | Hslot]
    by (destruct tagType; (now left) || (right; discriminate)).
  { injection H as <- _ <-. apply grown_nothing. }
  assert (match followDirective props chain st with
          | (chain1, st1) =>
              let conditional := conditionalOf chain1 in
              if isTransparent tagType tag
                 || match tagType with TagTemplate => true | _ => false end
              then
                let '(hoisted, st2) := extractElements childNodes parent st1 in
                (hoisted, chain1, markHoisted conditional hoisted st2)
              else
                let el := length (nodes st1) in
                let st2 :=
                  Build_Build (nodes st1 ++ [newNode tag props startOffset parent])
                    (chainCounter st1) in
                let st3 :=
                  if hasVHtmlDirective props then st2
                  else
                    let '(kids, st) := extractElements childNodes (Some el) st2 in
                    Build_Build (alter (fun o => withChildren o kids) el (nodes st))
                      (chainCounter st) in
                let st4 :=
                  match conditional with
                  | Some c =>
                      Build_Build (alter (fun o => withConditional o c) el (nodes st3))
                        (chainCounter st3)
                  | None => st3
                  end in
                ([el], chain1, st4)
          end = (pushed, chain', st')) as H'.
  { destruct tagType; try exact H. now contradiction Hslot. }
  clear H. pose proof (followDirective_nodes props chain st) as Hnodes.
  destruct (followDirective props chain st) as [chain1 st1]. cbn [snd] in Hnodes.
  rewrite <- Hnodes. cbv zeta in H'.
  destruct (isTransparent tagType tag
            || match tagType with TagTemplate => true | _ => false end).
  - destruct (extractElements childNodes parent st1) as [hoisted st2] eqn:E.
    injection H' as <- _ <-. rewrite shape_markHoisted.
    exact (extractElementsFrom_grown childNodes IH _ _ _ _ _ E).
  - injection H' as <- _ <-.
    assert (forall st3 : Build,
              shape (nodes match conditionalOf chain1 with
                           | Some c =>
                               Build_Build
                                 (alter (fun o => withConditional o c) (length (nodes st1))
                                    (nodes st3))
                                 (chainCounter st3)
                           | None => st3
                           end) = shape (nodes st3)) as Hcond.
    { intros st3. destruct (conditionalOf chain1) as [c|]; [|reflexivity].
      cbn [nodes]. apply shape_alter_kept. now intros o. }
    rewrite Hcond.
    assert (length (nodes st1) = length (shape (nodes st1))) as Hlen
      by (unfold shape; now rewrite length_map).
    destruct (hasVHtmlDirective props).
    + cbn [nodes]. rewrite shape_app, Hlen. apply grown_leaf.
    + destruct (extractElements childNodes (Some (length (nodes st1)))
                  (Build_Build (nodes st1 ++ [newNode tag props startOffset parent])
                     (chainCounter st1))) as [kids st2] eqn:E.
      cbn [nodes]. rewrite shape_alter_children, Hlen. apply grown_node.
      pose proof (extractElementsFrom_grown childNodes IH _ _ _ _ _ E) as Hg.
      cbn [nodes] in Hg. rewrite shape_app in Hg. cbn [shape map] in Hg.
      cbn [newNode node Template.parent Template.children] in Hg. rewrite <- Hlen. exact Hg.
Qed.

Lemma shape_lookup (objects : list NodeObject) (r : nat) :
  shape objects !! r =
  (fun o => (parent (node o), children (node o))) <$> objects !! r.
Proof.
  revert r. induction objects as [|o objects IH]; intros [|r]; cbn; try reflexivity.
  apply IH.
Qed.

Lemma shape_heapOf (objects : list NodeObject) (r : nat) (pp : option NodeRef)
    (ch : list NodeRef) :
  shape objects !! r = Some (pp, ch) <->
  (r < length objects)%nat /\
  parent (heapOf objects r) = pp /\ children (heapOf objects r) = ch.
Proof.
  rewrite shape_lookup. split.
  - intros H. destruct (objects !! r) as [o|] eqn:E; [|discriminate].
    cbn in H. injection H as <- <-. split; [now apply lookup_lt_Some in E|].
    change (heapOf objects r) with (match objects !! r with
                                    | Some o => node o
                                    | None => Build_TemplateNode "" None [] ∅ None [] None false
                                    end).
    now rewrite E.
  - intros (Hlt & <- & <-). apply lookup_lt_is_Some_2 in Hlt as [o Ho].
    change (heapOf objects r) with (match objects !! r with
                                    | Some o => node o
                                    | None => Build_TemplateNode "" None [] ∅ None [] None false
                                    end).
    now rewrite Ho.
Qed.

(** X29: the node objects [buildTemplateTree] makes form a forest whose
    parent pointers and children arrays agree: a root node has no parent, a
    node listed among the children of a node has that node as its parent,
    and every node object is found where its parent pointer says, among the
    root nodes when it has no parent and among the children of its parent
    otherwise; no node is listed twice. *)
Theorem X29_template_tree_is_a_forest (astChildren : list VNode) :
  let roots := fst (buildTemplateTree astChildren) in
  let objects := snd (buildTemplateTree astChildren) in
  let heap := heapOf objects in
  (List.NoDup roots /\
   forall r, In r roots -> (r < length objects)%nat /\ parent (heap r) = None) /\
  (forall p,
     (p < length objects)%nat ->
     List.NoDup (children (heap p)) /\
     forall c, In c (children (heap p)) ->
               (c < length objects)%nat /\ parent (heap c) = Some p) /\
  (forall c,
     (c < length objects)%nat ->
     match parent (heap c) with
     | None => In c roots
     | Some p => (p < length objects)%nat /\ In c (children (heap p))
     end).
Proof.
  cbv zeta. unfold buildTemplateTree, extractElements.
  destruct (extractElementsFrom astChildren None noChain (Build_Build [] 0))
    as [roots st] eqn:E.
  cbn [fst snd]. set (heap := heapOf (nodes st)).
  assert (Forall extracted astChildren) as Hall.
  { apply List.Forall_forall. intros child _. apply extractChild_extracted. }
  destruct (extractElementsFrom_grown astChildren Hall _ _ _ _ _ E)
    as (_ & Hnd & Hroots & Hnew & Hkids).
  cbn [nodes shape map length] in Hroots, Hnew, Hkids.
  assert (forall r, (r < length (nodes st))%nat ->
                    shape (nodes st) !! r
                    = Some (parent (heap r), children (heap r))) as Hshape.
  { intros r Hr. apply shape_heapOf. now repeat split. }
  split; [split; [exact Hnd|]|split].
  - intros r Hr. destruct (Hroots r Hr) as (_ & ch & Hlook).
    apply shape_heapOf in Hlook as (Hlt & Hp & _). now split.
  - intros p Hp. destruct (Hkids p _ _ (Nat.le_0_l p) (Hshape p Hp)) as [Hndp Hc].
    split; [exact Hndp|]. intros c Hin. destruct (Hc c Hin) as (_ & cch & Hlook).
    apply shape_heapOf in Hlook as (Hlt & Hpc & _). now split.
  - intros c Hc.
    destruct (Hnew c _ _ (Nat.le_0_l c) (Hshape c Hc))
      as [[Hin ->] | (p & pp & pch & _ & Hpl & -> & Hin)]; [exact Hin|].
    apply shape_heapOf in Hpl as (Hlt & _ & <-). now split.
Qed.

(** *** Which elements become nodes *)

Lemma unlinked_alter_kept (f : NodeObject -> NodeObject) (i : nat) (l : list NodeObject) :
  (forall o, unlinked (f o) = unlinked o) ->
  map unlinked (alter f i l) = map unlinked l.
Proof.
  intros Hf. revert i. induction l as [|o l IH]; intros [|i]; cbn [alter list_alter map];
    try reflexivity.
  - now rewrite Hf.
  - f_equal. apply IH.
Qed.

Lemma unlinked_markHoisted (conditional : option Conditional) (hoisted : list NodeRef)
    (st : Build) :
  map unlinked (nodes (markHoisted conditional hoisted st)) = map unlinked (nodes st).
Proof.
  unfold markHoisted. destruct conditional as [c|]; [|reflexivity]. cbn [nodes].
  generalize (nodes st). induction hoisted as [|h hs IH]; intros ns; cbn [fold_left];
    [reflexivity|].
  rewrite IH. apply unlinked_alter_kept. intros o.
  now destruct (Template.conditional (node o)).
Qed.

Lemma extractElementsFrom_rendered (cs : list VNode) :
  Forall (fun child =>
            forall parent chain st,
              map unlinked (nodes (snd (extractChild child parent chain st))) =
              map unlinked (nodes st) ++ rendered child) cs ->
  forall parent chain st,
    map unlinked (nodes (snd (extractElementsFrom cs parent chain st))) =
    map unlinked (nodes st) ++ flat_map rendered cs.
Proof.
  induction 1 as [|c cs Hc _ IH]; intros parent chain st; cbn [extractElementsFrom flat_map].
  - now rewrite app_nil_r.
  - specialize (Hc parent chain st).
    destruct (extractChild c parent chain st) as [[pushed1 chain1] st1]. cbn [snd] in Hc.
    specialize (IH parent chain1 st1).
    destruct (extractElementsFrom cs parent chain1 st1) as [pushed2 st2]. cbn [snd] in *.
    now rewrite IH, Hc, app_assoc.
Qed.

Lemma extractChild_rendered (child : VNode) :
  forall parent chain st,
    map unlinked (nodes (snd (extractChild child parent chain st))) =
    map unlinked (nodes st) ++ rendered child.
Proof.
  induction child as [|tagType tag props childNodes startOffset IH] using vnode_tree_ind;
    intros parent chain st.
  { cbn [extractChild rendered snd]. now rewrite app_nil_r. }
  rewrite extractChild_eq. cbn [rendered].
  assert (tagType = TagSlot \/ tagType <> TagSlot) as [-> | Hslot]
    by (destruct tagType; (now left) || (right; discriminate)).
  { cbn [snd]. now rewrite app_nil_r. }
  pose proof (followDirective_nodes props chain st) as Hnodes.
  assert (forall (A : Type) (x y : A),
            match tagType with TagSlot => x | _ => y end = y) as Hmatch
    by (intros A x y; destruct tagType; try reflexivity; now contradiction Hslot).
  rewrite !Hmatch. clear Hmatch.
  destruct (followDirective props chain st) as [chain1 st1]. cbn [snd] in Hnodes.
  rewrite <- Hnodes. cbv zeta. unfold extractElements.
  destruct (isTransparent tagType tag
            || match tagType with TagTemplate => true | _ => false end).
  - pose proof (extractElementsFrom_rendered childNodes IH parent noChain st1) as Hh.
    destruct (extractElementsFrom childNodes parent noChain st1) as [hoisted st2].
    cbn [snd] in *. now rewrite unlinked_markHoisted.
  - cbn [snd].
    assert (forall st3 : Build,
              map unlinked
                (nodes match conditionalOf chain1 with
                       | Some c =>
                           Build_Build
                             (alter (fun o => withConditional o c) (length (nodes st1))
                                (nodes st3))
                             (chainCounter st3)
                       | None => st3
                       end) = map unlinked (nodes st3)) as Hcond.
    { intros st3. destruct (conditionalOf chain1) as [c|]; [|reflexivity].
      cbn [nodes]. apply unlinked_alter_kept. now intros o. }
    rewrite Hcond. destruct (hasVHtmlDirective props).
    + cbn [nodes]. now rewrite map_app.
    + pose proof (extractElementsFrom_rendered childNodes IH (Some (length (nodes st1)))
                    noChain
                    (Build_Build (nodes st1 ++ [newNode tag props startOffset parent])
                       (chainCounter st1))) as Hk.
      destruct (extractElementsFrom childNodes (Some (length (nodes st1))) noChain
                  (Build_Build (nodes st1 ++ [newNode tag props startOffset parent])
                     (chainCounter st1))) as [kids st2].
      cbn [snd nodes] in *. rewrite unlinked_alter_kept by now intros o.
      rewrite Hk, map_app, <- app_assoc. reflexivity.
Qed.

(** X30: [buildTemplateTree] makes one node object for each element of the
    AST that is rendered as an element of its own, in document order, with
    the tag, the id, the classes, the attributes and the source offsets
    [buildNode] reads from that element: none for a slot, for a [<template>]
    wrapper or for a transparent built-in component, whose children take
    their place, and none for what lies below an element with [v-html]. *)
Theorem X30_nodes_are_the_rendered_elements (astChildren : list VNode) :
  map unlinked (snd (buildTemplateTree astChildren)) = flat_map rendered astChildren.
Proof.
  unfold buildTemplateTree, extractElements.
  pose proof (extractElementsFrom_rendered astChildren) as H.
  specialize (H ltac:(apply List.Forall_forall; intros child _; apply extractChild_rendered)
                None noChain (Build_Build [] 0)).
  destruct (extractElementsFrom astChildren None noChain (Build_Build [] 0)) as [roots st].
  cbn [snd nodes map app] in *. exact H.
Qed.

End TemplateTreeFacts.
